(** * swagger2mcp: the spec package (loader, v2 compatibility, service model)

    A shallow embedding of [internal/spec]: the Swagger v2 compatibility
    preprocessor, the loader (version detection, fetch with retry, the
    reference reader, the validation policy), the store of the v2 sources
    and the service model builder; and, of its caller [internal/cli], the
    normalisation and validation of a configuration and the sanitising of
    tags and tool names. Part II has the properties the design document
    states about them, Part III further properties of the code, Part IV
    the validation policy of the loader and what the builder makes of the
    operations of a document.

    Conventions.
    - A Go [string] is a sequence of bytes: Rocq's [string].
    - A Go [map[string]V] is a [gmap string V]; a [range] over a map whose
      outcome depends on the order of the enumeration takes this order from
      an enumeration function, about which only the fact that it lists the
      entries of the map is known.
    - A value of Go's [any] produced by the YAML decoder is a tree [any].
    - Calls into other libraries (net/url, net/http, os, yaml, kin-openapi)
      are fields of a record [World]: the program is a function of their
      outcomes. *)

From Stdlib Require Import ZArith Ascii String.
From stdpp Require Import gmap strings list fin_maps sorting pretty.

Set Warnings "-register-all".

Local Open Scope Z_scope.
Local Open Scope stdpp_scope.

(* ===================================================================== *)
(** * Part I: definitions                                                 *)
(* ===================================================================== *)

(** ** Go's [strings] package, as far as the package uses it *)

Definition bytes_of (l : list nat) : string :=
  string_of_list_ascii (ascii_of_nat <$> l).

(** [unicode.IsSpace] on one byte: tab, newline, vertical tab, form feed,
    carriage return, space. *)
Definition asciiSpace (c : ascii) : bool := Ascii.is_space c.

(** The other runes of [unicode.IsSpace] (U+0085, U+00A0, U+1680,
    U+2000..U+200A, U+2028, U+2029, U+202F, U+205F, U+3000) in UTF-8. *)
Definition utf8Spaces : list (list ascii) :=
  (fun l : list nat => ascii_of_nat <$> l) <$>
  [ [194; 133]; [194; 160]; [225; 154; 128];
    [226; 128; 128]; [226; 128; 129]; [226; 128; 130]; [226; 128; 131];
    [226; 128; 132]; [226; 128; 133]; [226; 128; 134]; [226; 128; 135];
    [226; 128; 136]; [226; 128; 137]; [226; 128; 138];
    [226; 128; 168]; [226; 128; 169]; [226; 128; 175]; [226; 129; 159];
    [227; 128; 128] ]%nat%list.

Definition spaceRunes : list (list ascii) :=
  ((fun n : nat => [ascii_of_nat n]) <$> [9; 10; 11; 12; 13; 32]%nat) ++ utf8Spaces.

Fixpoint isPrefixOf (p l : list ascii) : bool :=
  match p, l with
  | [], _ => true
  | a :: p', b :: l' => if decide (a = b) then isPrefixOf p' l' else false
  | _ :: _, [] => false
  end.

(** Removes one leading rune of [pats] from [l], when [l] starts with one. *)
Fixpoint stripOne (pats : list (list ascii)) (l : list ascii) : option (list ascii) :=
  match pats with
  | [] => None
  | p :: ps => if isPrefixOf p l then Some (drop (length p) l) else stripOne ps l
  end.

Fixpoint trimRunes (pats : list (list ascii)) (fuel : nat) (l : list ascii) : list ascii :=
  match fuel with
  | O => l
  | S fuel' =>
      match stripOne pats l with
      | Some l' => trimRunes pats fuel' l'
      | None => l
      end
  end.

Definition trimLeft (l : list ascii) : list ascii :=
  trimRunes spaceRunes (length l) l.

(** The trailing runes are found from the end: the same search on the
    reversed bytes, with the runes reversed. *)
Definition trimRight (l : list ascii) : list ascii :=
  reverse (trimRunes (reverse <$> spaceRunes) (length l) (reverse l)).

(** [strings.TrimSpace]. *)
Definition strings_TrimSpace (s : string) : string :=
  string_of_list_ascii (trimRight (trimLeft (list_ascii_of_string s))).

Definition lowerByte (c : ascii) : ascii :=
  let n := nat_of_ascii c in
  if ((65 <=? n)%nat && (n <=? 90)%nat)%bool then ascii_of_nat (n + 32) else c.

(** [strings.ToLower]. Upper-case ASCII letters are lowered; the two runes
    outside ASCII that Go lowers to an ASCII letter are U+0130 (to i) and
    U+212A (to k). Every other rune outside ASCII is lowered by Go to bytes
    outside ASCII again; the model leaves those bytes as they are. So the
    model is Go's function on ASCII strings, and agrees with it wherever
    the result is compared with an ASCII constant or searched for an ASCII
    text, as the loader and the builder do. Where the package keeps the
    result, the properties below are stated for ASCII strings (the keys
    of the cache of the v2 operations) or of a result that is accepted
    only when it is ASCII (the language of a configuration). *)
Fixpoint strings_ToLower (s : string) : string :=
  match s with
  | EmptyString => EmptyString
  | String "196" (String "176" r) => String "i" (strings_ToLower r)
  | String "226" (String "132" (String "170" r)) => String "k" (strings_ToLower r)
  | String c r => String (lowerByte c) (strings_ToLower r)
  end.

Fixpoint asciiFold (s : string) : string :=
  match s with
  | EmptyString => EmptyString
  | String c r => String (lowerByte c) (asciiFold r)
  end.

(** [strings.EqualFold s t] for an ASCII [t] without the letters k and s
    (whose fold orbits leave ASCII): equality up to the case of the ASCII
    letters. The package calls it with "body" and "formData" only. *)
Definition strings_EqualFold (s t : string) : bool :=
  bool_decide (asciiFold s = asciiFold t).

(** [strings.HasPrefix s prefix]. *)
Definition strings_HasPrefix (s p : string) : bool := String.prefix p s.

(** [strings.Contains s substr]. *)
Fixpoint strings_Contains (s substr : string) : bool :=
  (String.prefix substr s ||
   match s with
   | EmptyString => false
   | String _ r => strings_Contains r substr
   end)%bool.

(** [sort.Strings]: the strings in increasing byte order. Go's sort is the
    standard library's; the model is stdpp's merge sort, and every sorted
    permutation of the same strings is the same list. *)
Definition sort_Strings (l : list string) : list string :=
  merge_sort String.le l.

(** The double quote, for the messages that quote a value. *)
Definition dquote : string := String (ascii_of_nat 34) EmptyString.

(** ** The generic document tree *)

(** What [yaml.Unmarshal] stores in an [any]: nil (null), bool, int, string,
    a sequence ([[]any]), a mapping with string keys ([map[string]any]).
    [VOther] stands for the remaining dynamic types (floats, timestamps,
    mappings with other keys): not nil, and no type assertion of this
    package succeeds on them. *)
Inductive any : Type :=
| VNil
| VBool (b : bool)
| VInt (z : Z)
| VStr (s : string)
| VSeq (l : list any)
| VMap (m : gmap string any)
| VOther (repr : string).

(** [m[key]] on a [map[string]any]: nil when the key is absent. *)
Definition index (m : gmap string any) (key : string) : any :=
  default VNil (m !! key).

Definition isNilAny (v : any) : bool :=
  match v with VNil => true | _ => false end.

(** [v.(map[string]any)] *)
Definition asMap (v : any) : option (gmap string any) :=
  match v with VMap m => Some m | _ => None end.

(** [v.([]any)] *)
Definition asSeq (v : any) : option (list any) :=
  match v with VSeq l => Some l | _ => None end.

(** [v.(string)] *)
Definition asStr (v : any) : option string :=
  match v with VStr s => Some s | _ => None end.

(** [v.(bool)] *)
Definition asBool (v : any) : option bool :=
  match v with VBool b => Some b | _ => None end.

(** ** v2compat.go *)

Definition asString (v : any) : string :=
  match v with VStr s => s | _ => "" end.

Definition containsString (l : list any) (want : string) : bool :=
  existsb (fun v => match v with VStr s => bool_decide (s = want) | _ => false end) l.

Definition extractSchemaFromParam (pm : gmap string any) : option (gmap string any) :=
  match asMap (index pm "schema") with
  | Some sch => Some sch
  | None =>
      let t := default "" (asStr (index pm "type")) in
      if decide (t = "") then None
      else
        let m : gmap string any := {[ "type" := VStr t ]} in
        let m := match asMap (index pm "items") with
                 | Some it => <[ "items" := VMap it ]> m
                 | None => m
                 end in
        let m := match asStr (index pm "format") with
                 | Some f => if decide (f = "") then m else <[ "format" := VStr f ]> m
                 | None => m
                 end in
        Some m
  end.

(** The local variables [typ], [format], [items] of [formDataFromBodyParam]
    after the schema and the parameter itself were consulted. *)
Record derived := { d_typ : string; d_format : string; d_items : any }.

Definition deriveFrom (m : gmap string any) (d : derived) : derived :=
  {| d_typ := match asStr (index m "type") with Some t => t | None => d_typ d end;
     d_items := match asMap (index m "items") with Some it => VMap it | None => d_items d end;
     d_format := match asStr (index m "format") with Some f => f | None => d_format d end |}.

Definition deriveType (pm : gmap string any) : derived :=
  let d := {| d_typ := ""; d_format := ""; d_items := VNil |} in
  let d := match asMap (index pm "schema") with
           | Some sch =>
               let d := deriveFrom sch d in
               if (bool_decide (d_typ d = "") && negb (isNilAny (index sch "$ref")))%bool
               then {| d_typ := "string"; d_format := d_format d; d_items := d_items d |}
               else d
           | None => d
           end in
  let d := if decide (d_typ d = "") then deriveFrom pm d else d in
  if decide (d_typ d = "")
  then {| d_typ := "string"; d_format := d_format d; d_items := d_items d |}
  else d.

Definition formDataFromBodyParam (pm : gmap string any) : gmap string any :=
  let name := asString (index pm "name") in
  let name := if decide (name = "") then "field" else name in
  let out : gmap string any := {[ "in" := VStr "formData"; "name" := VStr name ]} in
  let out := match asStr (index pm "description") with
             | Some desc => if decide (desc = "") then out else <[ "description" := VStr desc ]> out
             | None => out
             end in
  let out := match asBool (index pm "required") with
             | Some req => <[ "required" := VBool req ]> out
             | None => out
             end in
  let d := deriveType pm in
  let out := <[ "type" := VStr (d_typ d) ]> out in
  let out := if isNilAny (d_items d) then out else <[ "items" := d_items d ]> out in
  let out := if decide (d_format d = "") then out else <[ "format" := VStr (d_format d) ]> out in
  out.

Definition isBodyParam (pm : gmap string any) : bool :=
  strings_EqualFold (asString (index pm "in")) "body".

Definition isFormDataParam (pm : gmap string any) : bool :=
  strings_EqualFold (asString (index pm "in")) "formData".

(** The parameters that are mappings: the loops skip the others. *)
Definition paramMaps (params : list any) : list (gmap string any) :=
  omap asMap params.

(** The counting loop: [bodyCount] and [hasFormData]. *)
Definition bodyCount (params : list any) : nat :=
  length (filter (fun pm => isBodyParam pm = true) (paramMaps params)).

Definition hasFormData (params : list any) : bool :=
  existsb (fun pm => (negb (isBodyParam pm) && isFormDataParam pm)%bool) (paramMaps params).

(** The branch [if hasFormData]: every body parameter becomes a formData
    parameter, and [consumes] gets multipart/form-data. The second component
    tells whether the loop set [modified]. *)
Definition convertBodyToFormData (op : gmap string any) (params : list any)
  : gmap string any * bool :=
  let newParams :=
    (fun pm => if isBodyParam pm then VMap (formDataFromBodyParam pm) else VMap pm)
      <$> paramMaps params in
  let modified := existsb isBodyParam (paramMaps params) in
  let op := <[ "parameters" := VSeq newParams ]> op in
  let consumes := default [] (asSeq (index op "consumes")) in
  if containsString consumes "multipart/form-data" then (op, modified)
  else (<[ "consumes" := VSeq (consumes ++ [VStr "multipart/form-data"]) ]> op, modified).

Definition bodyName (pm : gmap string any) : string :=
  let name := asString (index pm "name") in
  if decide (name = "") then "field" else name.

Definition bodySchemaOf (pm : gmap string any) : gmap string any :=
  match extractSchemaFromParam pm with
  | Some sch => sch
  | None => {[ "type" := VStr "string" ]}
  end.

(** The state of the merging loop: [props], [required], [newParams]. *)
Record mergeState := {
  ms_props : gmap string any;
  ms_required : list any;
  ms_newParams : list any
}.

Definition mergeStep (st : mergeState) (p : any) : mergeState :=
  match asMap p with
  | None => st
  | Some pm =>
      if isBodyParam pm then
        let name := bodyName pm in
        {| ms_props := <[ name := VMap (bodySchemaOf pm) ]> (ms_props st);
           ms_required :=
             match asBool (index pm "required") with
             | Some true => ms_required st ++ [VStr name]
             | _ => ms_required st
             end;
           ms_newParams := ms_newParams st |}
      else
        {| ms_props := ms_props st;
           ms_required := ms_required st;
           ms_newParams := ms_newParams st ++ [p] |}
  end.

Definition mergeLoop (params : list any) : mergeState :=
  foldl mergeStep {| ms_props := ∅; ms_required := []; ms_newParams := [] |} params.

(** The branch [if bodyCount > 1]: one synthetic body parameter. *)
Definition mergedBodyParam (st : mergeState) : gmap string any :=
  let bodySchema : gmap string any :=
    {[ "type" := VStr "object"; "properties" := VMap (ms_props st) ]} in
  let bodySchema :=
    if decide (0 < length (ms_required st))%nat
    then <[ "required" := VSeq (ms_required st) ]> bodySchema
    else bodySchema in
  {[ "in" := VStr "body"; "name" := VStr "body"; "schema" := VMap bodySchema ]}.

Definition mergeBodyParams (op : gmap string any) (params : list any)
  : gmap string any * bool :=
  let st := mergeLoop params in
  (<[ "parameters" := VSeq (VMap (mergedBodyParam st) :: ms_newParams st) ]> op,
   existsb isBodyParam (paramMaps params)).

(** The body of the loop over the operations of a path item, for one
    operation: the operation afterwards, and whether [modified] was set. *)
Definition rewriteOperation (op : gmap string any) : gmap string any * bool :=
  match asSeq (index op "parameters") with
  | None => (op, false)
  | Some params =>
      if decide (length params = 0)%nat then (op, false)
      else if decide (bodyCount params = 0)%nat then (op, false)
      else if hasFormData params then convertBodyToFormData op params
      else if decide (1 < bodyCount params)%nat then mergeBodyParams op params
      else (op, false)
  end.

(** The [switch] on the lower-cased key of a path item. *)
Definition isV2Method (method : string) : bool :=
  bool_decide (strings_ToLower method ∈
    ["get"; "post"; "put"; "delete"; "patch"; "options"; "head"]).

(** One entry of a path item. *)
Definition rewriteEntry (method : string) (opm : any) : any * bool :=
  if isV2Method method then
    match asMap opm with
    | Some op => let r := rewriteOperation op in (VMap r.1, r.2)
    | None => (opm, false)
    end
  else (opm, false).

(** One path item: each operation is rewritten in place, independently of
    the others. *)
Definition rewritePathItem (pim : any) : any * bool :=
  match asMap pim with
  | Some pi =>
      (VMap (map_imap (fun method opm => Some (rewriteEntry method opm).1) pi),
       bool_decide (∃ method opm, pi !! method = Some opm ∧ (rewriteEntry method opm).2 = true))
  | None => (pim, false)
  end.

Definition rewritePaths (paths : gmap string any) : gmap string any * bool :=
  ((fun pim => (rewritePathItem pim).1) <$> paths,
   bool_decide (∃ p pim, paths !! p = Some pim ∧ (rewritePathItem pim).2 = true)).

(** A Go [error] is its message. *)
Definition error : Type := string.

Section Preprocess.
(** [yaml.Unmarshal] into a [map[string]any] and [yaml.Marshal]. *)
Variable yaml_Unmarshal : string → error + gmap string any.
Variable yaml_Marshal : gmap string any → error + string.

Definition preprocessV2ForCompatibility (data : string) : string * bool * option error :=
  match yaml_Unmarshal data with
  | inl err => (data, false, Some err)
  | inr doc =>
      match asMap (index doc "paths") with
      | None => (data, false, None)
      | Some paths =>
          if decide (size paths = 0)%nat then (data, false, None)
          else
            let r := rewritePaths paths in
            if negb r.2 then (data, false, None)
            else
              match yaml_Marshal (<[ "paths" := VMap r.1 ]> doc) with
              | inl err => (data, false, Some err)
              | inr out => (out, true, None)
              end
      end
  end.
End Preprocess.

(** ** model.go: the internal model *)

(** [type HttpMethod string] *)
Definition HttpMethod : Type := string.
Definition GET : HttpMethod := "get".
Definition POST : HttpMethod := "post".
Definition PUT : HttpMethod := "put".
Definition DELETE : HttpMethod := "delete".
Definition PATCH : HttpMethod := "patch".
Definition HEAD : HttpMethod := "head".
Definition OPTIONS : HttpMethod := "options".
Definition TRACE : HttpMethod := "trace".

(** [Schema], over the type [X] of the pointers to its parts. *)
Record SchemaOf (X : Type) : Type := MkSchema {
  sc_Name : string;
  sc_Type : string;
  sc_Properties : gmap string X;
  sc_Required : list string;
  sc_Items : X;
  sc_AllOf : list X;
  sc_AnyOf : list X;
  sc_OneOf : list X;
  sc_Description : string;
  sc_Enum : list any;
  sc_Format : string;
  sc_Example : any
}.
Arguments MkSchema {X}.
Arguments sc_Name {X}. Arguments sc_Type {X}. Arguments sc_Properties {X}.
Arguments sc_Required {X}. Arguments sc_Items {X}. Arguments sc_AllOf {X}.
Arguments sc_AnyOf {X}. Arguments sc_OneOf {X}. Arguments sc_Description {X}.
Arguments sc_Enum {X}. Arguments sc_Format {X}. Arguments sc_Example {X}.

(** A [*SchemaOrRef] as the package builds it: nil, a reference
    ([&SchemaOrRef{Ref: &SchemaRef{Ref: r}}]) or a concrete schema
    ([&SchemaOrRef{Schema: s}]). *)
Inductive SchemaOrRef : Type :=
| NilSchemaOrRef
| RefTo (Ref : string)
| Concrete (s : SchemaOf SchemaOrRef).

Definition Schema : Type := SchemaOf SchemaOrRef.

Definition emptySchema : Schema :=
  MkSchema "" "" ∅ [] NilSchemaOrRef [] [] [] "" [] "" VNil.

Definition setName (s : Schema) (name : string) : Schema :=
  MkSchema name (sc_Type s) (sc_Properties s) (sc_Required s) (sc_Items s)
    (sc_AllOf s) (sc_AnyOf s) (sc_OneOf s) (sc_Description s) (sc_Enum s)
    (sc_Format s) (sc_Example s).

Record ParameterModel := {
  pm_Name : string;
  pm_In : string;
  pm_Required : bool;
  pm_Schema : SchemaOrRef
}.

Record Media := {
  md_Mime : string;
  md_Schema : SchemaOrRef;
  md_Example : any
}.

Record RequestBodyModel := {
  rb_Content : list Media;
  rb_Required : bool
}.

Record ResponseModel := {
  rm_Status : string;
  rm_Description : string;
  rm_Content : list Media
}.

Record EndpointModel := {
  ep_ID : string;
  ep_Method : HttpMethod;
  ep_Path : string;
  ep_Summary : string;
  ep_Description : string;
  ep_Tags : list string;
  ep_Parameters : list ParameterModel;
  ep_RequestBody : option RequestBodyModel;
  ep_Responses : list ResponseModel
}.

Record Server := {
  sv_URL : string;
  sv_Description : string
}.

Record ServiceModel := {
  sm_Title : string;
  sm_Version : string;
  sm_Description : string;
  sm_Servers : list Server;
  sm_Tags : list string;
  sm_Endpoints : list EndpointModel;
  sm_Schemas : gmap string Schema
}.

(** ** The document of kin-openapi (package openapi3, v0.116)

    Modelled from the spec: the declarations of [openapi3.T] and of the
    types it is made of are not part of the repository; these are the fields
    the builder reads, with the shapes its code relies on (a map of
    responses, pointers that may be nil). A nil pointer is [None]; a nil map
    or slice is the empty one. *)
Module openapi3.

Record SchemaValue (X : Type) : Type := MkSchemaValue {
  Type_ : string;
  Description : string;
  Format : string;
  Example : any;
  Required : list string;
  Enum : list any;
  Items : X;
  Properties : gmap string X;
  AllOf : list X;
  AnyOf : list X;
  OneOf : list X
}.
Arguments MkSchemaValue {X}.
Arguments Type_ {X}. Arguments Description {X}. Arguments Format {X}.
Arguments Example {X}. Arguments Required {X}. Arguments Enum {X}.
Arguments Items {X}. Arguments Properties {X}. Arguments AllOf {X}.
Arguments AnyOf {X}. Arguments OneOf {X}.

(** [*SchemaRef]: nil, or [Ref] and [Value *Schema]. *)
Inductive SchemaRef : Type :=
| NilSchemaRef
| MkSchemaRef (Ref : string) (Value : option (SchemaValue SchemaRef)).

(** [openapi3.Parameter] *)
Record ParameterValue := {
  p_Name : string;
  p_In : string;
  p_Required : bool;
  p_Schema : SchemaRef
}.

(** [*ParameterRef]: [None] is nil. *)
Record ParameterRef := { pr_Value : option ParameterValue }.

(** [openapi3.Example] *)
Record ExampleValue := { ex_Value : any }.
Record ExampleRef := { er_Value : option ExampleValue }.

Record MediaType := {
  mt_Schema : SchemaRef;
  mt_Example : any;
  mt_Examples : gmap string (option ExampleRef)
}.

(** [Content = map[string]*MediaType] *)
Definition Content : Type := gmap string (option MediaType).

Record RequestBody := {
  rq_Required : bool;
  rq_Content : Content
}.
Record RequestBodyRef := { rqr_Value : option RequestBody }.

Record Response := {
  rs_Description : option string;
  rs_Content : Content
}.
Record ResponseRef := { rsr_Value : option Response }.

Record Operation := {
  op_Tags : list string;
  op_Summary : string;
  op_Description : string;
  op_Parameters : list (option ParameterRef);
  op_RequestBody : option RequestBodyRef;
  op_Responses : gmap string (option ResponseRef)
}.

Record PathItem := {
  pi_Parameters : list (option ParameterRef);
  pi_Get : option Operation;
  pi_Post : option Operation;
  pi_Put : option Operation;
  pi_Delete : option Operation;
  pi_Patch : option Operation;
  pi_Head : option Operation;
  pi_Options : option Operation;
  pi_Trace : option Operation
}.

Record Info := {
  in_Title : string;
  in_Version : string;
  in_Description : string
}.

Record Server := {
  s_URL : string;
  s_Description : string
}.

Record Components := {
  c_Schemas : gmap string SchemaRef
}.

(** [openapi3.T]. Its [Info] is a pointer that the builder reads without
    a test: the model is of the documents that have an [Info]. *)
Record T := {
  t_Info : Info;
  t_Servers : list (option Server);
  t_Components : option Components;
  t_Paths : gmap string (option PathItem)
}.

End openapi3.

(** ** loader.go *)

Inductive ErrorCode : Type :=
| InputError
| NetworkError
| ParseError
| ValidationError
| ConversionError.

Record SpecError := {
  Code : ErrorCode;
  Message : string;
  Location : string;
  JSONPointer : string;
  Cause : option error
}.

(** [time.Duration] is an int64 count of nanoseconds; [MaxRetries] an int. *)
Record Settings := {
  HTTPTimeout : Z;
  MaxRetries : Z;
  BackoffBase : Z;
  AllowFileRefs : bool
}.

Definition Millisecond : Z := 1000000.
Definition Second : Z := 1000 * Millisecond.

Definition DefaultSettings : Settings :=
  {| HTTPTimeout := 10 * Second;
     MaxRetries := 3;
     BackoffBase := 200 * Millisecond;
     AllowFileRefs := false |}.

(** [type Option]: a function that mutates the [Settings]. *)
Definition Option : Type := Settings → Settings.

Definition WithHTTPTimeout (d : Z) : Option :=
  fun s => {| HTTPTimeout := d; MaxRetries := MaxRetries s;
              BackoffBase := BackoffBase s; AllowFileRefs := AllowFileRefs s |}.
Definition WithMaxRetries (n : Z) : Option :=
  fun s => {| HTTPTimeout := HTTPTimeout s; MaxRetries := n;
              BackoffBase := BackoffBase s; AllowFileRefs := AllowFileRefs s |}.
Definition WithBackoffBase (d : Z) : Option :=
  fun s => {| HTTPTimeout := HTTPTimeout s; MaxRetries := MaxRetries s;
              BackoffBase := d; AllowFileRefs := AllowFileRefs s |}.
Definition WithAllowFileRefs (allow : bool) : Option :=
  fun s => {| HTTPTimeout := HTTPTimeout s; MaxRetries := MaxRetries s;
              BackoffBase := BackoffBase s; AllowFileRefs := allow |}.

(** Arithmetic on int64 wraps around. *)
Definition wrap64 (z : Z) : Z := (z + 2 ^ 63) mod 2 ^ 64 - 2 ^ 63.

(** The fields of [*url.URL] that [Load] reads. *)
Record URL := {
  Scheme : string;
  Host : string
}.

(** What one round of the loop of [fetchWithRetry] meets. *)
Inductive httpOutcome : Type :=
| RequestError (err : error)
    (** [http.NewRequestWithContext] fails *)
| DoError (err : error)
    (** [client.Do] fails: no response *)
| Response (StatusCode : Z) (body : string) (readErr : option error)
    (** a response: its status, the bytes of its body, and the error of
        reading the body to its end, if any *).

(** The outcomes of the calls that leave the package. *)
Record World := {
  url_Parse : string → error + URL;
  (** the [i]-th request to a URL, counting from 0 *)
  http_Do : string → nat → httpOutcome;
  (** whether the [select] after the [i]-th request takes [ctx.Done()]
      rather than the timer *)
  ctx_Done : nat → bool;
  ctx_Err : error;
  filepath_Abs : string → error + string;
  os_ReadFile : string → error + string;
  yaml_Unmarshal : string → error + gmap string any;
  yaml_Marshal : gmap string any → error + string;
  (** [newLoader(settings, rootIsFile).LoadFromURI(u)], by the input *)
  loader_LoadFromURI : Settings → string → error + openapi3.T;
  (** [newLoader(settings, rootIsFile).LoadFromFile(abs)] *)
  loader_LoadFromFile : Settings → string → error + openapi3.T;
  (** [newLoader(settings, false).ResolveRefsIn(doc, nil)]: the document
      afterwards and the error *)
  loader_ResolveRefsIn : Settings → openapi3.T → openapi3.T * option error;
  (** [doc.Validate(ctx)] *)
  doc_Validate : openapi3.T → option error;
  (** [openapi2conv.ToV3] after [yaml.Unmarshal] into an [openapi2.T] *)
  convertV2ToV3 : string → error + openapi3.T;
  (** [extractJSONPointer]: it reads the dynamic type of the error
      ([openapi3.MultiError], [openapi3.SchemaError]), which the message
      does not tell; no property below depends on it *)
  extractJSONPointer : error → string
}.

Section Loader.
Variable w : World.

(** [detectSpecVersion] returns 3 for OpenAPI v3, 2 for Swagger v2. *)
Definition detectSpecVersion (data : string) : error + Z :=
  match yaml_Unmarshal w data with
  | inl err => inl ("parse spec: " +:+ err)
  | inr root =>
      if match root !! "openapi" with
         | Some v => strings_HasPrefix (strings_TrimSpace (default "" (asStr v))) "3."
         | None => false
         end
      then inr 3
      else if match root !! "swagger" with
              | Some v => strings_HasPrefix (strings_TrimSpace (default "" (asStr v))) "2."
              | None => false
              end
      then inr 2
      else inl "spec: missing or unknown version (expected 'openapi: 3.x' or 'swagger: 2.0')"
  end.

(** One run of [fetchWithRetry]: what it returns, the number of requests
    sent, and the delays it waited for, in order. *)
Record fetchRun := {
  fr_result : error + string;
  fr_requests : nat;
  fr_waits : list Z
}.

(** The loop [for i := 0; i < attempts; i++], with [remaining = attempts - i]. *)
Fixpoint fetchLoop (rawURL : string) (remaining i : nat) (backoff : Z)
    (lastErr : option error) (waits : list Z) : fetchRun :=
  match remaining with
  | O =>
      {| fr_result := inl (default "fetch failed" lastErr);
         fr_requests := i; fr_waits := waits |}
  | S remaining' =>
      let retry (lastErr' : error) :=
        if ctx_Done w i
        then {| fr_result := inl (ctx_Err w);
                fr_requests := S i; fr_waits := waits |}
        else fetchLoop rawURL remaining' (S i) (wrap64 (backoff * 2))
               (Some lastErr') (waits ++ [backoff]) in
      match http_Do w rawURL i with
      | RequestError err =>
          {| fr_result := inl err; fr_requests := i; fr_waits := waits |}
      | DoError err => retry err
      | Response status body readErr =>
          if decide (status < 300) then
            {| fr_result := match readErr with Some e => inl e | None => inr body end;
               fr_requests := S i; fr_waits := waits |}
          else if decide (status >= 500 ∨ status = 429) then
            retry ("transient http error " +:+ pretty status)
          else
            {| fr_result :=
                 inl ("http " +:+ pretty status +:+ ": " +:+
                      strings_TrimSpace (String.substring 0 1024 body));
               fr_requests := S i; fr_waits := waits |}
      end
  end.

Definition fetchWithRetry (rawURL : string) (settings : Settings) : fetchRun :=
  let backoff := BackoffBase settings in
  let backoff := if decide (backoff <= 0) then 200 * Millisecond else backoff in
  let attempts := MaxRetries settings in
  let attempts := if decide (attempts <= 0) then 1 else attempts in
  fetchLoop rawURL (Z.to_nat attempts) 0 backoff None [].

Definition mapValidateOrParseErr (err : error) (location : string) : SpecError :=
  let pointer := extractJSONPointer w err in
  let code :=
    if (strings_Contains (strings_ToLower err) "parse" ||
        strings_Contains (strings_ToLower err) "invalid character")%bool
    then ParseError else ValidationError in
  {| Code := code; Message := err; Location := location;
     JSONPointer := pointer; Cause := Some err |}.

(** [canProceedDespiteValidation], on the error of a failed validation. *)
Definition canProceedDespiteValidation (err : option error) : bool :=
  match err with
  | None => true
  | Some e =>
      let s := strings_ToLower e in
      (strings_Contains s "unresolved ref" || strings_Contains s "found unresolved ref")%bool
  end.

(** The validation step shared by the four branches of [Load]. *)
Definition validated (doc : openapi3.T) (location : string) : SpecError + openapi3.T :=
  match doc_Validate w doc with
  | Some err =>
      if negb (canProceedDespiteValidation (Some err))
      then inl (mapValidateOrParseErr err location)
      else inr doc
  | None => inr doc
  end.

(** The raw bytes a Swagger v2 document is converted from. *)
Definition preprocessed (raw : string) : string :=
  let r := preprocessV2ForCompatibility (yaml_Unmarshal w) (yaml_Marshal w) raw in
  if r.1.2 then r.1.1 else raw.

Definition Load (input : string) (opts : list Option) : SpecError + openapi3.T :=
  if decide (strings_TrimSpace input = "") then
    inl {| Code := InputError; Message := "spec: input is empty";
           Location := ""; JSONPointer := ""; Cause := None |}
  else
  let settings := foldl (fun s opt => opt s) DefaultSettings opts in
  let isURL :=
    match url_Parse w input with
    | inr u => (negb (bool_decide (Scheme u = "")) && negb (bool_decide (Host u = "")))%bool
    | inl _ => false
    end in
  if isURL then
    let scheme := strings_ToLower (match url_Parse w input with inr u => Scheme u | inl _ => "" end) in
    if decide (scheme = "file") then
      inl {| Code := InputError; Message := "spec: file:// URLs are blocked by default";
             Location := input; JSONPointer := ""; Cause := None |}
    else if decide (scheme ≠ "http" ∧ scheme ≠ "https") then
      inl {| Code := InputError;
             Message := "spec: unsupported URL scheme " +:+ dquote +:+ scheme +:+ dquote
                        +:+ " (only http/https allowed)";
             Location := input; JSONPointer := ""; Cause := None |}
    else
    match fr_result (fetchWithRetry input settings) with
    | inl fetchErr =>
        inl {| Code := NetworkError;
               Message := "fetch " +:+ input +:+ ": " +:+ fetchErr;
               Location := input; JSONPointer := ""; Cause := Some fetchErr |}
    | inr raw =>
        match detectSpecVersion raw with
        | inl derr =>
            inl {| Code := ParseError; Message := derr; Location := input;
                   JSONPointer := ""; Cause := Some derr |}
        | inr version =>
            if decide (version = 3) then
              match loader_LoadFromURI w settings input with
              | inl err => inl (mapValidateOrParseErr err input)
              | inr doc => validated doc input
              end
            else if decide (version = 2) then
              match convertV2ToV3 w (preprocessed raw) with
              | inl err =>
                  inl {| Code := ConversionError;
                         Message := "convert v2→v3: " +:+ err;
                         Location := input; JSONPointer := ""; Cause := Some err |}
              | inr v3doc =>
                  validated (loader_ResolveRefsIn w settings v3doc).1 input
              end
            else
              inl {| Code := ParseError;
                     Message := "spec: unknown or unsupported OpenAPI/Swagger version";
                     Location := input; JSONPointer := ""; Cause := None |}
        end
    end
  else
  match filepath_Abs w input with
  | inl err =>
      inl {| Code := InputError; Message := "resolve path: " +:+ err;
             Location := input; JSONPointer := ""; Cause := Some err |}
  | inr abs =>
      match os_ReadFile w abs with
      | inl rerr =>
          inl {| Code := InputError;
                 Message := "read file " +:+ abs +:+ ": " +:+ rerr;
                 Location := abs; JSONPointer := ""; Cause := Some rerr |}
      | inr raw =>
          match detectSpecVersion raw with
          | inl derr =>
              inl {| Code := ParseError; Message := derr; Location := abs;
                     JSONPointer := ""; Cause := Some derr |}
          | inr version =>
              if decide (version = 3) then
                match loader_LoadFromFile w settings abs with
                | inl err => inl (mapValidateOrParseErr err abs)
                | inr doc => validated doc abs
                end
              else if decide (version = 2) then
                match convertV2ToV3 w (preprocessed raw) with
                | inl err =>
                    inl {| Code := ConversionError;
                           Message := "convert v2→v3: " +:+ err;
                           Location := abs; JSONPointer := ""; Cause := Some err |}
                | inr v3doc => validated v3doc abs
                end
              else
                inl {| Code := ParseError;
                       Message := "spec: unknown or unsupported OpenAPI/Swagger version";
                       Location := abs; JSONPointer := ""; Cause := None |}
          end
      end
  end.
End Loader.

(** ** normalize.go: the service model builder *)

Record buildConfig := {
  includeTags : gset string;
  excludeTags : gset string;
  methods : gset HttpMethod;
  (** a compiled regular expression is its [MatchString] *)
  pathRes : list (string → bool)
}.

Definition BuildOption : Type := buildConfig → buildConfig.

(** The tags an option adds to a set: trimmed, the empty ones left out. *)
Definition addTags (tags : list string) (set : gset string) : gset string :=
  foldl (fun set t =>
           let t := strings_TrimSpace t in
           if decide (t = "") then set else {[ t ]} ∪ set) set tags.

Definition WithIncludeTags (tags : list string) : BuildOption :=
  fun c => {| includeTags := addTags tags (includeTags c);
              excludeTags := excludeTags c; methods := methods c; pathRes := pathRes c |}.

Definition WithExcludeTags (tags : list string) : BuildOption :=
  fun c => {| includeTags := includeTags c;
              excludeTags := addTags tags (excludeTags c);
              methods := methods c; pathRes := pathRes c |}.

Definition WithMethods (ms : list HttpMethod) : BuildOption :=
  fun c => {| includeTags := includeTags c; excludeTags := excludeTags c;
              methods := foldl (fun set m => {[ m ]} ∪ set) (methods c) ms;
              pathRes := pathRes c |}.

(** [regexp.Compile] is a parameter; a pattern that does not compile is
    replaced by one that matches nothing. *)
Definition WithPathPatterns (regexp_Compile : string → option (string → bool))
    (patterns : list string) : BuildOption :=
  fun c => {| includeTags := includeTags c; excludeTags := excludeTags c;
              methods := methods c;
              pathRes :=
                foldl (fun res p =>
                         let p := strings_TrimSpace p in
                         if decide (p = "") then res
                         else res ++ [default (fun _ => false) (regexp_Compile p)])
                      (pathRes c) patterns |}.

Definition allowByTags (tags : list string) (cfg : buildConfig) : bool :=
  let hasInclude := bool_decide (0 < size (includeTags cfg))%nat in
  if (hasInclude && negb (existsb (fun t => bool_decide (t ∈ includeTags cfg)) tags))%bool
  then false
  else if (bool_decide (0 < size (excludeTags cfg))%nat &&
           existsb (fun t => bool_decide (t ∈ excludeTags cfg)) tags)%bool
  then false
  else true.

Definition paramKey (in_ name : string) : string := in_ +:+ ":" +:+ name.

Definition safeStr (s : string) : string := strings_TrimSpace s.

Fixpoint toSchemaOrRef (ref : openapi3.SchemaRef) : SchemaOrRef :=
  match ref with
  | openapi3.NilSchemaRef => NilSchemaOrRef
  | openapi3.MkSchemaRef r value =>
      if decide (r ≠ "") then RefTo r
      else
        match value with
        | None =>
            Concrete (MkSchema "" "object" ∅ [] NilSchemaOrRef [] [] [] "" [] "" VNil)
        | Some v =>
            Concrete
              {| sc_Name := "";
                 sc_Type := safeStr (openapi3.Type_ v);
                 sc_Description := safeStr (openapi3.Description v);
                 sc_Format := safeStr (openapi3.Format v);
                 sc_Example := openapi3.Example v;
                 sc_Required := openapi3.Required v;
                 sc_Enum := openapi3.Enum v;
                 sc_Items := toSchemaOrRef (openapi3.Items v);
                 sc_Properties := toSchemaOrRef <$> openapi3.Properties v;
                 sc_AllOf := toSchemaOrRef <$> openapi3.AllOf v;
                 sc_AnyOf := toSchemaOrRef <$> openapi3.AnyOf v;
                 sc_OneOf := toSchemaOrRef <$> openapi3.OneOf v |}
        end
  end.

Definition toParameterModel (pref : option openapi3.ParameterRef) : option ParameterModel :=
  match pref with
  | Some {| openapi3.pr_Value := Some p |} =>
      Some {| pm_Name := safeStr (openapi3.p_Name p);
              pm_In := safeStr (openapi3.p_In p);
              pm_Required := openapi3.p_Required p;
              pm_Schema := toSchemaOrRef (openapi3.p_Schema p) |}
  | _ => None
  end.

(** [strings.Replace s old new 1] for a non-empty [old]. *)
Fixpoint replaceFirst (s old new : string) : string :=
  if String.prefix old s then new +:+ String.substring (String.length old) (String.length s) s
  else match s with
       | EmptyString => EmptyString
       | String c r => String c (replaceFirst r old new)
       end.

Definition nonNil (p : SchemaOrRef) : option SchemaOrRef :=
  match p with NilSchemaOrRef => None | _ => Some p end.

(** [toSchemaOrRefFromV2]. The entries of the mapping are converted first,
    each in the three ways the body reads an entry (as a schema, as a
    mapping of schemas, as a list of schemas); the body then looks up the
    entries it needs. *)
Fixpoint toSchemaOrRefFromV2 (v2Schema : any) (name : string) {struct v2Schema} : SchemaOrRef :=
  match v2Schema with
  | VMap schemaMap =>
      let asSchema : gmap string SchemaOrRef :=
        (fun d => toSchemaOrRefFromV2 d "") <$> schemaMap in
      let asProps : gmap string (gmap string SchemaOrRef) :=
        (fun d => match d with
                  | VMap props => omap (fun x => nonNil (toSchemaOrRefFromV2 x "")) props
                  | _ => ∅
                  end) <$> schemaMap in
      let asList : gmap string (list SchemaOrRef) :=
        (fun d => match d with
                  | VSeq l => omap (fun x => nonNil (toSchemaOrRefFromV2 x "")) l
                  | _ => []
                  end) <$> schemaMap in
      match asStr (index schemaMap "$ref") with
      | Some ref =>
          if strings_HasPrefix ref "#/definitions/"
          then RefTo (replaceFirst ref "#/definitions/" "#/components/schemas/")
          else RefTo ref
      | None =>
          Concrete
            {| sc_Name := name;
               sc_Type := default "" (asStr (index schemaMap "type"));
               sc_Description := default "" (asStr (index schemaMap "description"));
               sc_Format := default "" (asStr (index schemaMap "format"));
               sc_Example := index schemaMap "example";
               sc_Enum := default [] (asSeq (index schemaMap "enum"));
               sc_Required :=
                 match asSeq (index schemaMap "required") with
                 | Some reqVal => omap asStr reqVal
                 | None => []
                 end;
               sc_Properties := default ∅ (asProps !! "properties");
               sc_Items := default NilSchemaOrRef (asSchema !! "items");
               sc_AllOf := default [] (asList !! "allOf");
               sc_AnyOf := default [] (asList !! "anyOf");
               sc_OneOf := default [] (asList !! "oneOf") |}
      end
  | _ => NilSchemaOrRef
  end.

(** [findBodyParameter] *)
Definition findBodyParameter (operation : any) : option (gmap string any) :=
  match asMap operation with
  | None => None
  | Some opMap =>
      match asSeq (index opMap "parameters") with
      | None => None
      | Some params =>
          head (filter (fun paramMap => asStr (index paramMap "in") = Some "body")
                       (omap asMap params))
      end
  end.

(** [sort.Slice l less]: a permutation of [l] in which no element is
    followed by one that is less. *)
Definition sort_Slice {A} (less : A → A → bool) (l : list A) : list A :=
  merge_sort (fun a b => Is_true (negb (less b a))) l.

(** The comparison [BuildServiceModel] sorts the parameters with. *)
Definition paramLess (a b : ParameterModel) : bool :=
  if decide (pm_In a = pm_In b) then String.ltb (pm_Name a) (pm_Name b)
  else String.ltb (pm_In a) (pm_In b).

(** The entry of [v2SchemaStorage.store] for the document: the definitions
    and the operations of the Swagger v2 source; empty maps when the store
    has no entry. *)
Record v2Entry := {
  definitions : gmap string any;
  operations : gmap string (gmap string any)
}.

(** The first loop of [collectSortedTags]: the set of the tags of the
    endpoints, trimmed, the empty ones left out. *)
Definition tagSet (endpoints : list EndpointModel) : gmap string () :=
  foldl (fun set ep =>
           foldl (fun set t =>
                    let t := strings_TrimSpace t in
                    if decide (t ≠ "") then <[ t := () ]> set else set)
                 set (ep_Tags ep))
        ∅ endpoints.

Section Builder.
(** The order in which [range] enumerates a map. *)
Variable enum : ∀ V : Type, gmap string V → list (string * V).
Arguments enum {V}.

(** [for k := range m { keys = append(keys, k) }; sort.Strings(keys)] *)
Definition sortedKeys {V} (m : gmap string V) : list string :=
  sort_Strings (enum m).*1.

Definition exampleOf (mt : openapi3.MediaType) : any :=
  if negb (isNilAny (openapi3.mt_Example mt)) then openapi3.mt_Example mt
  else
    match sortedKeys (openapi3.mt_Examples mt) with
    | [] => VNil
    | ename :: _ =>
        match openapi3.mt_Examples mt !! ename with
        | Some (Some {| openapi3.er_Value := Some ex |}) => openapi3.ex_Value ex
        | _ => VNil
        end
    end.

Definition toMediaList (content : openapi3.Content) : list Media :=
  omap (fun mime =>
          match content !! mime with
          | Some (Some mt) =>
              Some {| md_Mime := mime;
                      md_Schema := toSchemaOrRef (openapi3.mt_Schema mt);
                      md_Example := exampleOf mt |}
          | _ => None
          end) (sortedKeys content).

(** [toMediaListWithV2Cache]; [None] when the unchecked type assertion on
    the schema of the body parameter panics. *)
Definition toMediaListWithV2Cache (content : openapi3.Content)
    (v2Operations : gmap string (gmap string any)) (path method : string)
    : option (list Media) :=
  let result := toMediaList content in
  match result with
  | [] => Some result
  | first :: rest =>
      match md_Schema first with
      | Concrete s =>
          if (negb (bool_decide (sc_Type s = "object")) ||
              bool_decide (0 < size (sc_Properties s))%nat)%bool
          then Some result
          else
            match v2Operations !! path with
            | None => Some result
            | Some pathOps =>
                match pathOps !! strings_ToLower method with
                | None => Some result
                | Some methodOp =>
                    if decide (strings_ToLower method = "get") then Some result
                    else
                      match findBodyParameter methodOp with
                      | None => Some result
                      | Some bodyParam =>
                          if isNilAny (index bodyParam "schema") then Some result
                          else
                            match asMap (index bodyParam "schema") with
                            | None => None
                            | Some schemaRef =>
                                match asStr (index schemaRef "$ref") with
                                | Some ref =>
                                    let refName := replaceFirst ref "#/definitions/" "" in
                                    Some ({| md_Mime := md_Mime first;
                                             md_Schema := RefTo ("#/components/schemas/" +:+ refName);
                                             md_Example := md_Example first |} :: rest)
                                | None => Some result
                                end
                            end
                      end
                end
            end
      | _ => Some result
      end
  end.

(** The content of a request body or of a response: enhanced from the
    cached v2 operations when there are any. (With an empty cache the
    enhanced list is the plain one: nothing is looked up.) *)
Definition contentOf (v2Ops : gmap string (gmap string any))
    (content : openapi3.Content) (p : string) (m : HttpMethod) : option (list Media) :=
  toMediaListWithV2Cache content v2Ops p m.

(** The loops filling [baseParams] and [mergedParams]. *)
Definition overlayParams (base : gmap string ParameterModel)
    (prefs : list (option openapi3.ParameterRef)) : gmap string ParameterModel :=
  foldl (fun m pref =>
           match toParameterModel pref with
           | Some pm => <[ paramKey (pm_In pm) (pm_Name pm) := pm ]> m
           | None => m
           end) base prefs.

(** Materialize and sort the parameters. *)
Definition sortedParams (mergedParams : gmap string ParameterModel) : list ParameterModel :=
  sort_Slice paramLess (enum mergedParams).*2.

(** The parameters of the endpoint of an operation under a path item. *)
Definition mergeParameters (item : openapi3.PathItem) (o : openapi3.Operation)
    : list ParameterModel :=
  let baseParams := overlayParams ∅ (openapi3.pi_Parameters item) in
  sortedParams (overlayParams baseParams (openapi3.op_Parameters o)).

Definition requestBodyOf (v2Ops : gmap string (gmap string any))
    (o : openapi3.Operation) (p : string) (m : HttpMethod)
    : option (option RequestBodyModel) :=
  match openapi3.op_RequestBody o with
  | Some {| openapi3.rqr_Value := Some rq |} =>
      content ← contentOf v2Ops (openapi3.rq_Content rq) p m;
      Some (Some {| rb_Content := content; rb_Required := openapi3.rq_Required rq |})
  | _ => Some None
  end.

Definition responsesOf (v2Ops : gmap string (gmap string any))
    (o : openapi3.Operation) (p : string) (m : HttpMethod)
    : option (list ResponseModel) :=
  rs ← mapM (fun code =>
               match openapi3.op_Responses o !! code with
               | Some (Some {| openapi3.rsr_Value := Some r |}) =>
                   content ← contentOf v2Ops (openapi3.rs_Content r) p m;
                   Some (Some {| rm_Status := code;
                                 rm_Description := default "" (openapi3.rs_Description r);
                                 rm_Content := content |})
               | _ => Some None
               end) (sortedKeys (openapi3.op_Responses o));
  Some (omap id rs).

Definition tagsOf (o : openapi3.Operation) : list string :=
  filter (fun t => t ≠ "") (strings_TrimSpace <$> openapi3.op_Tags o).

(** The body of the loop over the operations of a path item: [None] is a
    panic, [Some None] a [continue], [Some (Some ep)] an appended endpoint. *)
Definition endpointOf (cfg : buildConfig) (v2Ops : gmap string (gmap string any))
    (p : string) (item : openapi3.PathItem) (m : HttpMethod)
    (o : option openapi3.Operation) : option (option EndpointModel) :=
  match o with
  | None => Some None
  | Some o =>
      if (bool_decide (0 < size (methods cfg))%nat && negb (bool_decide (m ∈ methods cfg)))%bool
      then Some None
      else if (bool_decide (0 < length (pathRes cfg))%nat &&
               negb (existsb (fun re => re p) (pathRes cfg)))%bool
      then Some None
      else
        let params := mergeParameters item o in
        rb ← requestBodyOf v2Ops o p m;
        responses ← responsesOf v2Ops o p m;
        let tags := tagsOf o in
        if negb (allowByTags tags cfg) then Some None
        else
          Some (Some {| ep_ID := m +:+ " " +:+ p;
                        ep_Method := m;
                        ep_Path := p;
                        ep_Summary := safeStr (openapi3.op_Summary o);
                        ep_Description := safeStr (openapi3.op_Description o);
                        ep_Tags := tags;
                        ep_Parameters := params;
                        ep_RequestBody := rb;
                        ep_Responses := responses |})
  end.

(** Supported HTTP methods in a stable order. *)
Definition opsOf (item : openapi3.PathItem) : list (HttpMethod * option openapi3.Operation) :=
  [ (GET, openapi3.pi_Get item);
    (POST, openapi3.pi_Post item);
    (PUT, openapi3.pi_Put item);
    (DELETE, openapi3.pi_Delete item);
    (PATCH, openapi3.pi_Patch item);
    (HEAD, openapi3.pi_Head item);
    (OPTIONS, openapi3.pi_Options item);
    (TRACE, openapi3.pi_Trace item) ].

(** The endpoints of one path. *)
Definition endpointsOfPath (cfg : buildConfig) (v2Ops : gmap string (gmap string any))
    (paths : gmap string (option openapi3.PathItem)) (p : string)
    : option (list EndpointModel) :=
  match paths !! p with
  | Some (Some item) =>
      eps ← mapM (fun pair => endpointOf cfg v2Ops p item pair.1 pair.2) (opsOf item);
      Some (omap id eps)
  | _ => Some []
  end.

Definition endpointsOf (cfg : buildConfig) (v2Ops : gmap string (gmap string any))
    (paths : gmap string (option openapi3.PathItem)) : option (list EndpointModel) :=
  epss ← mapM (endpointsOfPath cfg v2Ops paths) (sortedKeys paths);
  Some (concat epss).

Definition collectSortedTags (endpoints : list EndpointModel) : list string :=
  let set := tagSet endpoints in
  sort_Strings (enum set).*1.

(** The loop over the schemas of the components. *)
Definition schemasOf (v2Schemas : gmap string any)
    (schemas : gmap string openapi3.SchemaRef) : gmap string Schema :=
  foldl (fun out name =>
           match schemas !! name with
           | None | Some openapi3.NilSchemaRef => out
           | Some ref =>
               let sor :=
                 match v2Schemas !! name with
                 | Some v2Schema => toSchemaOrRefFromV2 v2Schema name
                 | None => NilSchemaOrRef
                 end in
               let sor := match sor with NilSchemaOrRef => toSchemaOrRef ref | _ => sor end in
               match sor with
               | NilSchemaOrRef => out
               | RefTo _ => <[ name := setName emptySchema name ]> out
               | Concrete schema => <[ name := setName schema name ]> out
               end
           end) ∅ (sortedKeys schemas).

Variable yaml_Unmarshal : string → error + gmap string any.

(** [extractV2Schemas] *)
Definition extractV2Schemas (v2Raw : string) : gmap string any :=
  match yaml_Unmarshal v2Raw with
  | inl _ => ∅
  | inr doc => default ∅ (asMap (index doc "definitions"))
  end.

(** [BuildServiceModel doc v2Raw opts], given the entry [stored] of the
    document in [v2SchemaStorage]. The outer [option] is a panic. *)
Definition BuildServiceModel (stored : v2Entry) (doc : option openapi3.T)
    (v2Raw : option string) (opts : list BuildOption)
    : option (error + ServiceModel) :=
  match doc with
  | None => Some (inl "nil document")
  | Some doc =>
      let cfg := foldl (fun cfg opt => opt cfg)
                   {| includeTags := ∅; excludeTags := ∅; methods := ∅; pathRes := [] |}
                   opts in
      let servers :=
        (fun s => {| sv_URL := safeStr (openapi3.s_URL s);
                     sv_Description := safeStr (openapi3.s_Description s) |})
          <$> omap id (openapi3.t_Servers doc) in
      let schemas :=
        match openapi3.t_Components doc with
        | Some c =>
            let v2Schemas :=
              match v2Raw with
              | Some raw => extractV2Schemas raw
              | None => definitions stored
              end in
            schemasOf v2Schemas (openapi3.c_Schemas c)
        | None => ∅
        end in
      endpoints ← endpointsOf cfg (operations stored) (openapi3.t_Paths doc);
      Some (inr {| sm_Title := safeStr (openapi3.in_Title (openapi3.t_Info doc));
                   sm_Version := safeStr (openapi3.in_Version (openapi3.t_Info doc));
                   sm_Description := safeStr (openapi3.in_Description (openapi3.t_Info doc));
                   sm_Servers := servers;
                   sm_Tags := collectSortedTags endpoints;
                   sm_Endpoints := endpoints;
                   sm_Schemas := schemas |})
  end.
End Builder.

(** ** Worlds and documents the examples run in *)

(** A world in which every call out of the package fails. *)
Definition quietWorld : World :=
  {| url_Parse := fun _ => inl "parse error";
     http_Do := fun _ _ => DoError "connection refused";
     ctx_Done := fun _ => false;
     ctx_Err := "context canceled";
     filepath_Abs := fun p => inr p;
     os_ReadFile := fun _ => inl "no such file or directory";
     yaml_Unmarshal := fun _ => inl "yaml: did not find expected node content";
     yaml_Marshal := fun _ => inl "yaml: cannot marshal";
     loader_LoadFromURI := fun _ _ => inl "load failed";
     loader_LoadFromFile := fun _ _ => inl "load failed";
     loader_ResolveRefsIn := fun _ d => (d, None);
     doc_Validate := fun _ => None;
     convertV2ToV3 := fun _ => inl "conversion failed";
     extractJSONPointer := fun _ => "" |}.

(** A minimal OpenAPI v3 document, as text, as the generic tree the YAML
    decoder makes of it, and as the document the loader makes of it. *)
Definition sampleRaw : string :=
  "{openapi: 3.0.1, info: {title: Sample, version: 1.0.0}, paths: {}}".

Definition sampleRoot : gmap string any :=
  {[ "openapi" := VStr "3.0.1";
     "info" := VMap {[ "title" := VStr "Sample"; "version" := VStr "1.0.0" ]};
     "paths" := VMap ∅ ]}.

Definition sampleDoc : openapi3.T :=
  {| openapi3.t_Info := {| openapi3.in_Title := "Sample"; openapi3.in_Version := "1.0.0";
                           openapi3.in_Description := "" |};
     openapi3.t_Servers := [];
     openapi3.t_Components := None;
     openapi3.t_Paths := ∅ |}.

(** The text of a document with both version keys. *)
Definition bothRaw : string := "{openapi: 3.0.1, swagger: '2.0'}".

Definition bothWorld : World :=
  {| url_Parse := url_Parse quietWorld;
     http_Do := http_Do quietWorld;
     ctx_Done := ctx_Done quietWorld;
     ctx_Err := ctx_Err quietWorld;
     filepath_Abs := filepath_Abs quietWorld;
     os_ReadFile := os_ReadFile quietWorld;
     yaml_Unmarshal := fun data =>
       if decide (data = bothRaw)
       then inr {[ "openapi" := VStr "3.0.1"; "swagger" := VStr "2.0" ]}
       else yaml_Unmarshal quietWorld data;
     yaml_Marshal := yaml_Marshal quietWorld;
     loader_LoadFromURI := loader_LoadFromURI quietWorld;
     loader_LoadFromFile := loader_LoadFromFile quietWorld;
     loader_ResolveRefsIn := loader_ResolveRefsIn quietWorld;
     doc_Validate := doc_Validate quietWorld;
     convertV2ToV3 := convertV2ToV3 quietWorld;
     extractJSONPointer := extractJSONPointer quietWorld |}.

(** The working directory [/work] holds [spec.yaml] with the sample
    document; the validation of the loaded document answers [verr]. *)
Definition fileWorld (verr : option error) : World :=
  {| url_Parse := fun _ => inr {| Scheme := ""; Host := "" |};
     http_Do := http_Do quietWorld;
     ctx_Done := ctx_Done quietWorld;
     ctx_Err := ctx_Err quietWorld;
     filepath_Abs := fun p => inr ("/work/" +:+ p);
     os_ReadFile := fun p => if decide (p = "/work/spec.yaml") then inr sampleRaw
                             else inl "no such file or directory";
     yaml_Unmarshal := fun data =>
       if decide (data = sampleRaw) then inr sampleRoot
       else yaml_Unmarshal quietWorld data;
     yaml_Marshal := yaml_Marshal quietWorld;
     loader_LoadFromURI := loader_LoadFromURI quietWorld;
     loader_LoadFromFile := fun _ p => if decide (p = "/work/spec.yaml") then inr sampleDoc
                                       else inl "open: no such file or directory";
     loader_ResolveRefsIn := loader_ResolveRefsIn quietWorld;
     doc_Validate := fun _ => verr;
     convertV2ToV3 := convertV2ToV3 quietWorld;
     extractJSONPointer := extractJSONPointer quietWorld |}.

(** The working directory [/work] holds a directory named [file:] with
    [spec.yaml], the sample document, in it. [url.Parse] of
    [file:///spec.yaml] gives the scheme [file] and an empty host, and
    [filepath.Abs] joins the input to the working directory and cleans it. *)
Definition fileSchemeWorld : World :=
  {| url_Parse := fun input =>
       if decide (input = "file:///spec.yaml") then inr {| Scheme := "file"; Host := "" |}
       else url_Parse quietWorld input;
     http_Do := http_Do quietWorld;
     ctx_Done := ctx_Done quietWorld;
     ctx_Err := ctx_Err quietWorld;
     filepath_Abs := fun p =>
       if decide (p = "file:///spec.yaml") then inr "/work/file:/spec.yaml"
       else inr ("/work/" +:+ p);
     os_ReadFile := fun p => if decide (p = "/work/file:/spec.yaml") then inr sampleRaw
                             else inl "no such file or directory";
     yaml_Unmarshal := fun data =>
       if decide (data = sampleRaw) then inr sampleRoot
       else yaml_Unmarshal quietWorld data;
     yaml_Marshal := yaml_Marshal quietWorld;
     loader_LoadFromURI := loader_LoadFromURI quietWorld;
     loader_LoadFromFile := fun _ p =>
       if decide (p = "/work/file:/spec.yaml") then inr sampleDoc
       else inl "open: no such file or directory";
     loader_ResolveRefsIn := loader_ResolveRefsIn quietWorld;
     doc_Validate := fun _ => None;
     convertV2ToV3 := convertV2ToV3 quietWorld;
     extractJSONPointer := extractJSONPointer quietWorld |}.

(** [http://example.com/spec.yaml] answers 503 to every request. *)
Definition downWorld : World :=
  {| url_Parse := fun _ => inr {| Scheme := "http"; Host := "example.com" |};
     http_Do := fun _ _ => Response 503 "Service Unavailable" None;
     ctx_Done := ctx_Done quietWorld;
     ctx_Err := ctx_Err quietWorld;
     filepath_Abs := filepath_Abs quietWorld;
     os_ReadFile := os_ReadFile quietWorld;
     yaml_Unmarshal := yaml_Unmarshal quietWorld;
     yaml_Marshal := yaml_Marshal quietWorld;
     loader_LoadFromURI := loader_LoadFromURI quietWorld;
     loader_LoadFromFile := loader_LoadFromFile quietWorld;
     loader_ResolveRefsIn := loader_ResolveRefsIn quietWorld;
     doc_Validate := doc_Validate quietWorld;
     convertV2ToV3 := convertV2ToV3 quietWorld;
     extractJSONPointer := extractJSONPointer quietWorld |}.

(** An OpenAPI v3 document whose only operation, GET on the path [pathName],
    has an empty [responses] object. *)
Definition emptyResponsesDoc (pathName : string) : openapi3.T :=
  {| openapi3.t_Info := {| openapi3.in_Title := "Bad"; openapi3.in_Version := "1.0.0";
                           openapi3.in_Description := "" |};
     openapi3.t_Servers := [];
     openapi3.t_Components := None;
     openapi3.t_Paths :=
       {[ pathName :=
            Some {| openapi3.pi_Parameters := [];
                    openapi3.pi_Get :=
                      Some {| openapi3.op_Tags := []; openapi3.op_Summary := "";
                              openapi3.op_Description := ""; openapi3.op_Parameters := [];
                              openapi3.op_RequestBody := None; openapi3.op_Responses := ∅ |};
                    openapi3.pi_Post := None; openapi3.pi_Put := None;
                    openapi3.pi_Delete := None; openapi3.pi_Patch := None;
                    openapi3.pi_Head := None; openapi3.pi_Options := None;
                    openapi3.pi_Trace := None |} ]} |}.

(** The message of the validation of such a document. *)
Definition emptyResponsesMessage (pathName : string) : error :=
  "invalid paths: invalid path " +:+ pathName +:+
  ": invalid operation GET: the responses object MUST contain at least one response code".

(** The message of the validation of a document with a dangling reference. *)
Definition unresolvedRefMessage : error :=
  "invalid components: schema " +:+ dquote +:+ "Pet" +:+ dquote +:+
  ": found unresolved ref: " +:+ dquote +:+ "#/components/schemas/Missing" +:+ dquote.

(** The working directory [/work] holds [spec.yaml]; it is an OpenAPI v3
    document that loads as [doc], and whose validation answers [verr]. *)
Definition loadedWorld (doc : openapi3.T) (verr : option error) : World :=
  {| url_Parse := url_Parse (fileWorld verr);
     http_Do := http_Do quietWorld;
     ctx_Done := ctx_Done quietWorld;
     ctx_Err := ctx_Err quietWorld;
     filepath_Abs := filepath_Abs (fileWorld verr);
     os_ReadFile := os_ReadFile (fileWorld verr);
     yaml_Unmarshal := yaml_Unmarshal (fileWorld verr);
     yaml_Marshal := yaml_Marshal quietWorld;
     loader_LoadFromURI := loader_LoadFromURI quietWorld;
     loader_LoadFromFile := fun _ p => if decide (p = "/work/spec.yaml") then inr doc
                                       else inl "open: no such file or directory";
     loader_ResolveRefsIn := loader_ResolveRefsIn quietWorld;
     doc_Validate := fun _ => verr;
     convertV2ToV3 := convertV2ToV3 quietWorld;
     extractJSONPointer := extractJSONPointer quietWorld |}.

(** ** Predicates the properties are stated with *)

(** A round of [fetchWithRetry] that is tried again: no response at all, or
    a response with a status of 500 and above, or 429. *)
Definition retryable (o : httpOutcome) : Prop :=
  match o with
  | DoError _ => True
  | Response status _ _ => status >= 500 ∨ status = 429
  | RequestError _ => False
  end.

(** A response with any other status that is not a success. *)
Definition failsFast (o : httpOutcome) : Prop :=
  match o with
  | Response status _ _ => 300 <= status ∧ status < 500 ∧ status ≠ 429
  | _ => False
  end.

(** The error [fetchWithRetry] remembers of a round that is tried again. *)
Definition lastErrorOf (o : httpOutcome) : error :=
  match o with
  | DoError err => err
  | Response status _ _ => "transient http error " +:+ pretty status
  | RequestError err => err
  end.

(** [n] delays, each twice the one before in int64 arithmetic. *)
Fixpoint doubling (n : nat) (backoff : Z) : list Z :=
  match n with
  | O => []
  | S n' => backoff :: doubling n' (wrap64 (backoff * 2))
  end.

(** The number of rounds and the first delay of [fetchWithRetry]. *)
Definition attemptsOf (settings : Settings) : nat :=
  Z.to_nat (if decide (MaxRetries settings <= 0) then 1 else MaxRetries settings).

Definition baseDelayOf (settings : Settings) : Z :=
  if decide (BackoffBase settings <= 0) then 200 * Millisecond else BackoffBase settings.


(** The body parameters of a parameter list, in order. *)
Definition bodyParams (params : list any) : list (gmap string any) :=
  filter (fun pm => isBodyParam pm = true) (paramMaps params).

(** The parameter list of an operation. *)
Definition parametersOf (op : gmap string any) : list any :=
  default [] (asSeq (index op "parameters")).

(** The [consumes] list of an operation. *)
Definition consumesOf (op : gmap string any) : list any :=
  default [] (asSeq (index op "consumes")).

(** The schema of a parameter, and the properties and the required names
    of a schema. *)
Definition schemaOf (pm : gmap string any) : gmap string any :=
  default ∅ (asMap (index pm "schema")).

Definition propertiesOf (schema : gmap string any) : gmap string any :=
  default ∅ (asMap (index schema "properties")).

Definition requiredOf (schema : gmap string any) : list any :=
  default [] (asSeq (index schema "required")).

(** An operation to which a rewrite applies: it has a body parameter, and
    a formData parameter or a second body parameter as well. *)
Definition needsRewrite (op : gmap string any) : Prop :=
  (1 <= bodyCount (parametersOf op))%nat ∧
  (hasFormData (parametersOf op) = true ∨ (1 < bodyCount (parametersOf op))%nat).


(** ** Swagger v2 documents the examples run on *)

Definition anyMap (l : list (string * any)) : any := VMap (list_to_map l).

(** A Swagger v2 document with one operation, POST on [/x]. *)
Definition v2DocWith (op : gmap string any) : gmap string any :=
  list_to_map
    [ ("swagger", VStr "2.0");
      ("info", anyMap [("title", VStr "t"); ("version", VStr "1.0.0")]);
      ("paths", anyMap [("/x", anyMap [("post", VMap op)])]) ].

Definition okResponses : any :=
  anyMap [("200", anyMap [("description", VStr "ok")])].

(** Two body parameters, [a] (required, a string) and [b] (an integer). *)
Definition twoBodiesOp : gmap string any :=
  list_to_map
    [ ("parameters",
       VSeq [ anyMap [("in", VStr "body"); ("name", VStr "a"); ("required", VBool true);
                      ("schema", anyMap [("type", VStr "string")])];
              anyMap [("in", VStr "body"); ("name", VStr "b");
                      ("schema", anyMap [("type", VStr "integer")])] ]);
      ("responses", okResponses) ].

(** Two body parameters without a name. *)
Definition unnamedBodiesOp : gmap string any :=
  list_to_map
    [ ("parameters",
       VSeq [ anyMap [("in", VStr "body"); ("schema", anyMap [("type", VStr "string")])];
              anyMap [("in", VStr "body"); ("schema", anyMap [("type", VStr "integer")])] ]);
      ("responses", okResponses) ].

(** A body parameter next to a formData parameter that is a file. *)
Definition uploadOp : gmap string any :=
  list_to_map
    [ ("parameters",
       VSeq [ anyMap [("in", VStr "body"); ("name", VStr "desc");
                      ("schema", anyMap [("type", VStr "string")])];
              anyMap [("in", VStr "formData"); ("name", VStr "file"); ("type", VStr "file");
                      ("required", VBool true)] ]);
      ("responses", okResponses) ].

(** One body parameter: nothing to rewrite. *)
Definition plainOp : gmap string any :=
  list_to_map
    [ ("parameters",
       VSeq [ anyMap [("in", VStr "body"); ("name", VStr "pet");
                      ("schema", anyMap [("$ref", VStr "#/definitions/Pet")])] ]);
      ("responses", okResponses) ].

(** A decoder that reads every text as the document [doc], and an encoder
    that succeeds; the text it writes plays no role below. *)
Definition decodesTo (doc : gmap string any) : string → error + gmap string any :=
  fun _ => inr doc.

Definition encodes : gmap string any → error + string :=
  fun _ => inr "# rewritten".

(** A text that is not YAML, and the error of decoding it. *)
Definition brokenRaw : string := "paths: [".

Definition rejects : string → error + gmap string any :=
  fun _ => inl "yaml: line 1: did not find expected node content".


(** A document none of whose operations needs a rewrite. *)
Definition noRewrite (doc : gmap string any) : Prop :=
  ∀ paths p pi method op,
    asMap (index doc "paths") = Some paths →
    paths !! p = Some (VMap pi) →
    pi !! method = Some (VMap op) →
    isV2Method method = true →
    ¬ needsRewrite op.


(** ** Orders the properties of the builder are stated with *)

(** An enumeration function lists the entries of every map. *)
Definition enumerates (enum : ∀ V : Type, gmap string V → list (string * V)) : Prop :=
  ∀ (V : Type) (m : gmap string V), enum V m ≡ₚ map_to_list m.

(** The enumeration of stdpp. *)
Definition canonicalEnum : ∀ V : Type, gmap string V → list (string * V) :=
  fun V m => map_to_list m.

(** Go's [<] on strings. *)
Definition strLt (a b : string) : Prop := String.ltb a b = true.

(** The place of a method in the fixed order of the builder. *)
Definition methodRank (m : HttpMethod) : nat :=
  default 8%nat (fst <$> list_find (fun m' => m' = m)
                           [GET; POST; PUT; DELETE; PATCH; HEAD; OPTIONS; TRACE]).

(** By path, then by method. *)
Definition endpointBefore (a b : EndpointModel) : Prop :=
  strLt (ep_Path a) (ep_Path b) ∨
  (ep_Path a = ep_Path b ∧ (methodRank (ep_Method a) < methodRank (ep_Method b))%nat).

(** By [in], then by name. *)
Definition paramBefore (a b : ParameterModel) : Prop := paramLess a b = true.

(** The parameters of a list of references, and those with the key of [pm]. *)
Definition parameterModels (prefs : list (option openapi3.ParameterRef)) : list ParameterModel :=
  omap toParameterModel prefs.

Definition keyOf (pm : ParameterModel) : string := paramKey (pm_In pm) (pm_Name pm).

Definition withKey (k : string) (pms : list ParameterModel) : list ParameterModel :=
  filter (fun pm => keyOf pm = k) pms.

(** The configuration a list of options builds. *)
Definition configOf (opts : list BuildOption) : buildConfig :=
  foldl (fun cfg opt => opt cfg)
        {| includeTags := ∅; excludeTags := ∅; methods := ∅; pathRes := [] |} opts.


(** The relation [sort.Slice] orders the parameters by: not followed by a
    lesser one. *)
Definition notAfter (a b : ParameterModel) : Prop := Is_true (negb (paramLess b a)).

(** The maps the builder keeps its parameters in: every parameter sits
    under its own key. *)
Definition keyed (m : gmap string ParameterModel) : Prop :=
  ∀ k pm, m !! k = Some pm → k = keyOf pm.

(** A string without a colon, as the four locations of a parameter
    (path, query, header, cookie) are. *)
Definition noColon (s : string) : Prop := strings_Contains s ":" = false.


(** The enumeration of stdpp, backwards. *)
Definition reverseEnum : ∀ V : Type, gmap string V → list (string * V) :=
  fun V m => reverse (map_to_list m).

(** ** The document of the tests of the builder *)

Definition integerSchema : openapi3.SchemaRef :=
  openapi3.MkSchemaRef ""
    (Some (openapi3.MkSchemaValue "integer" "" "" VNil [] [] openapi3.NilSchemaRef ∅ [] [] [])).

Definition petSchema : openapi3.SchemaRef :=
  openapi3.MkSchemaRef ""
    (Some (openapi3.MkSchemaValue "object" "" "" VNil ["id"; "name"] [] openapi3.NilSchemaRef
             {[ "id" := integerSchema;
                "name" := openapi3.MkSchemaRef ""
                            (Some (openapi3.MkSchemaValue "string" "" "" VNil [] []
                                     openapi3.NilSchemaRef ∅ [] [] [])) ]}
             [] [] [])).

(** The query parameter [limit]. *)
Definition limitParam (required : bool) : option openapi3.ParameterRef :=
  Some {| openapi3.pr_Value :=
            Some {| openapi3.p_Name := "limit"; openapi3.p_In := "query";
                    openapi3.p_Required := required; openapi3.p_Schema := integerSchema |} |}.

Definition describedResponse (description : string) : option openapi3.ResponseRef :=
  Some {| openapi3.rsr_Value :=
            Some {| openapi3.rs_Description := Some description; openapi3.rs_Content := ∅ |} |}.

Definition listPets : openapi3.Operation :=
  {| openapi3.op_Tags := ["read"; "animal"];
     openapi3.op_Summary := "List pets";
     openapi3.op_Description := "Returns all pets";
     openapi3.op_Parameters := [limitParam true];
     openapi3.op_RequestBody := None;
     openapi3.op_Responses :=
       {[ "200" :=
            Some {| openapi3.rsr_Value :=
                      Some {| openapi3.rs_Description := Some "ok";
                              openapi3.rs_Content :=
                                {[ "application/json" :=
                                     Some {| openapi3.mt_Schema :=
                                               openapi3.MkSchemaRef ""
                                                 (Some (openapi3.MkSchemaValue "array" "" "" VNil [] []
                                                          (openapi3.MkSchemaRef "#/components/schemas/Pet" None)
                                                          ∅ [] [] []));
                                             openapi3.mt_Example := VNil;
                                             openapi3.mt_Examples := ∅ |} ]} |} |} ]} |}.

Definition createPet : openapi3.Operation :=
  {| openapi3.op_Tags := ["write"; "animal"];
     openapi3.op_Summary := "Create pet";
     openapi3.op_Description := "";
     openapi3.op_Parameters := [];
     openapi3.op_RequestBody :=
       Some {| openapi3.rqr_Value :=
                 Some {| openapi3.rq_Required := true;
                         openapi3.rq_Content :=
                           {[ "application/json" :=
                                Some {| openapi3.mt_Schema :=
                                          openapi3.MkSchemaRef "#/components/schemas/Pet" None;
                                        openapi3.mt_Example :=
                                          VMap {[ "id" := VInt 1; "name" := VStr "Fluffy" ]};
                                        openapi3.mt_Examples := ∅ |} ]} |} |};
     openapi3.op_Responses := {[ "201" := describedResponse "created" ]} |}.

Definition adminOnly : openapi3.Operation :=
  {| openapi3.op_Tags := ["admin"];
     openapi3.op_Summary := "Admin only";
     openapi3.op_Description := "";
     openapi3.op_Parameters := [];
     openapi3.op_RequestBody := None;
     openapi3.op_Responses := {[ "200" := describedResponse "ok" ]} |}.

Definition pathItemOf (parameters : list (option openapi3.ParameterRef))
    (get post : option openapi3.Operation) : openapi3.PathItem :=
  {| openapi3.pi_Parameters := parameters;
     openapi3.pi_Get := get; openapi3.pi_Post := post;
     openapi3.pi_Put := None; openapi3.pi_Delete := None; openapi3.pi_Patch := None;
     openapi3.pi_Head := None; openapi3.pi_Options := None; openapi3.pi_Trace := None |}.

(** [sampleSpec] of the tests: [/pets] with GET and POST, [/admin] with GET. *)
Definition petsDoc : openapi3.T :=
  {| openapi3.t_Info := {| openapi3.in_Title := "Sample API"; openapi3.in_Version := "1.0.0";
                           openapi3.in_Description := "Demo" |};
     openapi3.t_Servers := [];
     openapi3.t_Components := Some {| openapi3.c_Schemas := {[ "Pet" := petSchema ]} |};
     openapi3.t_Paths :=
       {[ "/pets" := Some (pathItemOf [limitParam false] (Some listPets) (Some createPet));
          "/admin" := Some (pathItemOf [] (Some adminOnly) None) ]} |}.

(** No entry in the store of v2 data, as for every OpenAPI v3 document. *)
Definition noV2Entry : v2Entry := {| definitions := ∅; operations := ∅ |}.

(** The model built from the document of the tests under the options
    [opts], by the enumeration of stdpp. *)
Definition petsModel (opts : list BuildOption) : ServiceModel :=
  match BuildServiceModel canonicalEnum rejects noV2Entry (Some petsDoc) None opts with
  | Some (inr sm) => sm
  | _ => {| sm_Title := ""; sm_Version := ""; sm_Description := ""; sm_Servers := [];
            sm_Tags := []; sm_Endpoints := []; sm_Schemas := ∅ |}
  end.

(** ** loader.go: the loader of external references *)

(** What [ReadFromURIFunc] reads of a [*url.URL]: three of its fields and
    the text its method [String] returns. *)
Record RefURL := {
  ref_Scheme : string;
  ref_Path : string;
  ref_Opaque : string;
  ref_String : string
}.

(** The two fields of [*openapi3.Loader] that [newLoader] sets. *)
Record Loader := {
  IsExternalRefsAllowed : bool;
  ReadFromURIFunc : RefURL → error + string
}.

Section NewLoader.
Variable os_ReadFile : string → error + string.
(** The outcome of the GET request [client.Do] sends to a URL. *)
Variable http_Get : string → httpOutcome.

Definition newLoader (settings : Settings) (rootIsFile : bool) : Loader :=
  let allowFile := (AllowFileRefs settings || rootIsFile)%bool in
  {| IsExternalRefsAllowed := true;
     ReadFromURIFunc := fun uri =>
       let scheme := strings_ToLower (ref_Scheme uri) in
       if decide (scheme = "" ∨ scheme = "file") then
         if negb allowFile then inl ("blocked file ref: " +:+ ref_String uri)
         else
           let path := ref_Path uri in
           let path := if decide (path = "") then ref_Opaque uri else path in
           os_ReadFile path
       else if decide (scheme = "http" ∨ scheme = "https") then
         match http_Get (ref_String uri) with
         | RequestError err => inl err
         | DoError err => inl err
         | Response status body readErr =>
             if decide (status >= 400)
             then inl ("http " +:+ pretty status +:+ ": " +:+ ref_String uri)
             else match readErr with Some e => inl e | None => inr body end
         end
       else inl ("unsupported ref scheme: " +:+ ref_Scheme uri) |}.
End NewLoader.

(** ** Worlds of the further examples *)

(** [https://example.com/spec.yaml] answers the [i]-th request with
    [answers i]; the context is cancelled during the wait after the [i]-th
    request when [cancelled i]. *)
Definition remoteWorld (answers : nat → httpOutcome) (cancelled : nat → bool) : World :=
  {| url_Parse := fun _ => inr {| Scheme := "https"; Host := "example.com" |};
     http_Do := fun _ i => answers i;
     ctx_Done := cancelled;
     ctx_Err := ctx_Err quietWorld;
     filepath_Abs := filepath_Abs quietWorld;
     os_ReadFile := os_ReadFile quietWorld;
     yaml_Unmarshal := yaml_Unmarshal quietWorld;
     yaml_Marshal := yaml_Marshal quietWorld;
     loader_LoadFromURI := loader_LoadFromURI quietWorld;
     loader_LoadFromFile := loader_LoadFromFile quietWorld;
     loader_ResolveRefsIn := loader_ResolveRefsIn quietWorld;
     doc_Validate := doc_Validate quietWorld;
     convertV2ToV3 := convertV2ToV3 quietWorld;
     extractJSONPointer := extractJSONPointer quietWorld |}.

(** A server that is down for the first request and answers the second. *)
Definition flakyAnswers (i : nat) : httpOutcome :=
  match i with
  | O => Response 503 "Service Unavailable" None
  | _ => Response 200 sampleRaw None
  end.

(** A reference to a file next to the root document, and one to a
    document on a server. *)
Definition siblingRef : RefURL :=
  {| ref_Scheme := ""; ref_Path := "schemas/pet.yaml"; ref_Opaque := "";
     ref_String := "schemas/pet.yaml" |}.

Definition remoteRef : RefURL :=
  {| ref_Scheme := "https"; ref_Path := "/schemas/pet.yaml"; ref_Opaque := "";
     ref_String := "https://example.com/schemas/pet.yaml" |}.

(** The input of [Load] is classified as a URL. *)
Definition isURL (w : World) (input : string) : Prop :=
  ∃ u, url_Parse w input = inr u ∧ Scheme u ≠ "" ∧ Host u ≠ "".

(** The lower-cased scheme of the input. *)
Definition schemeOf (w : World) (input : string) : string :=
  strings_ToLower (match url_Parse w input with inr u => Scheme u | inl _ => "" end).
(** ** A codec for the examples of the preprocessor *)

(** The document with the operation [twoBodiesOp] after the rewrite. *)
Definition rewrittenTwoBodies : gmap string any :=
  <[ "paths" :=
       VMap (rewritePaths
               (default ∅ (asMap (index (v2DocWith twoBodiesOp) "paths")))).1 ]>
    (v2DocWith twoBodiesOp).

(** A decoder that reads the text [# rewritten] as the rewritten document
    and every other text as the document with [twoBodiesOp]. *)
Definition decodesBoth : string → error + gmap string any :=
  fun data => if decide (data = "# rewritten") then inr rewrittenTwoBodies
              else inr (v2DocWith twoBodiesOp).

(** The keys of a formData parameter made from a body parameter. *)
Definition formDataKeys : gset string :=
  {[ "in"; "name"; "description"; "required"; "type"; "items"; "format" ]}.
(** ** Further notions the properties of the builder are stated with *)

(** The methods of the builder, in its order. *)
Definition supportedMethods : list HttpMethod :=
  [GET; POST; PUT; DELETE; PATCH; HEAD; OPTIONS; TRACE].

(** An operation under the method [m] of the path [p] passes the filters
    of a configuration. *)
Definition passesFilters (cfg : buildConfig) (p : string) (m : HttpMethod)
    (o : openapi3.Operation) : Prop :=
  (methods cfg ≠ ∅ → m ∈ methods cfg) ∧
  (pathRes cfg ≠ [] → ∃ re, re ∈ pathRes cfg ∧ re p = true) ∧
  allowByTags (tagsOf o) cfg = true.

(** The schema the builder stores for a component of the document, given
    the v2 definition of the same name, if any. *)
Definition storedSchema (v2Schema : option any) (ref : openapi3.SchemaRef) (name : string)
    : option Schema :=
  match ref with
  | openapi3.NilSchemaRef => None
  | _ =>
      let sor := match v2Schema with
                 | Some v2 => toSchemaOrRefFromV2 v2 name
                 | None => NilSchemaOrRef
                 end in
      let sor := match sor with NilSchemaOrRef => toSchemaOrRef ref | _ => sor end in
      match sor with
      | NilSchemaOrRef => None
      | RefTo _ => Some (setName emptySchema name)
      | Concrete schema => Some (setName schema name)
      end
  end.

(** A text without white space at either end. *)
Definition trimmed (s : string) : Prop := strings_TrimSpace s = s.
(** ** Contents and cached operations of the examples *)

(** A request body of one media type whose schema the conversion left as
    an object without properties. *)
Definition bareObjectContent : openapi3.Content :=
  {[ "application/json" :=
       Some {| openapi3.mt_Schema :=
                 openapi3.MkSchemaRef ""
                   (Some (openapi3.MkSchemaValue "object" "" "" VNil [] []
                            openapi3.NilSchemaRef ∅ [] [] []));
               openapi3.mt_Example := VNil;
               openapi3.mt_Examples := ∅ |} ]}.

(** The cached v2 operations of a document with POST on [/pets] being
    [plainOp], whose body parameter refers to the definition [Pet]. *)
Definition petsV2Operations : gmap string (gmap string any) :=
  {[ "/pets" := {[ "post" := VMap plainOp ]} ]}.

(** The media types of a list, and a list but for the schema of its first
    element. *)
Definition mimesOf (l : list Media) : list string := md_Mime <$> l.

Definition exceptFirstSchema (l : list Media) : list (string * any) * list Media :=
  ((fun md => (md_Mime md, md_Example md)) <$> l, tail l).

(** A content of two media types. *)
Definition twoTypesContent : openapi3.Content :=
  {[ "text/plain" :=
       Some {| openapi3.mt_Schema := openapi3.NilSchemaRef;
               openapi3.mt_Example := VStr "hello";
               openapi3.mt_Examples := ∅ |};
     "application/json" :=
       Some {| openapi3.mt_Schema := integerSchema;
               openapi3.mt_Example := VNil;
               openapi3.mt_Examples := ∅ |} ]}.

(** The value of a named example of a media type; nil when the name, the
    reference or its value is missing. *)
Definition namedExample (mt : openapi3.MediaType) (name : string) : any :=
  match openapi3.mt_Examples mt !! name with
  | Some (Some {| openapi3.er_Value := Some ex |}) => openapi3.ex_Value ex
  | _ => VNil
  end.

(** A media type with two named examples and no [Example]. *)
Definition twoExamples : openapi3.MediaType :=
  {| openapi3.mt_Schema := integerSchema;
     openapi3.mt_Example := VNil;
     openapi3.mt_Examples :=
       {[ "small" := Some {| openapi3.er_Value := Some {| openapi3.ex_Value := VInt 1 |} |};
          "large" := Some {| openapi3.er_Value := Some {| openapi3.ex_Value := VInt 1000 |} |} ]} |}.
(** ** v2compat.go: the store of the Swagger v2 sources *)

Section V2Cache.
(** The order in which [range] enumerates a map. *)
Variable enum : ∀ V : Type, gmap string V → list (string * V).
Arguments enum {V}.
Variable yaml_Unmarshal : string → error + gmap string any.

(** The inner loop of [extractV2Operations]: the entries of a path item
    that are mappings, under their lower-cased keys. *)
Definition operationsOf (pathDefMap : gmap string any) : gmap string any :=
  foldl (fun operations entry =>
           match asMap entry.2 with
           | Some methodDefMap =>
               <[ strings_ToLower entry.1 := VMap methodDefMap ]> operations
           | None => operations
           end) ∅ (enum pathDefMap).

(** [extractV2Operations]; [None] is the nil map. *)
Definition extractV2Operations (v2Raw : string) : option (gmap string (gmap string any)) :=
  match yaml_Unmarshal v2Raw with
  | inl _ => None
  | inr doc =>
      match asMap (index doc "paths") with
      | None => None
      | Some paths =>
          Some (foldl (fun result entry =>
                         match asMap entry.2 with
                         | Some pathDefMap =>
                             let operations := operationsOf pathDefMap in
                             if decide (0 < size operations)%nat
                             then <[ entry.1 := operations ]> result
                             else result
                         | None => result
                         end) ∅ (enum paths))
      end
  end.

(** [extractV2Schemas] with the nil map, [None], kept apart from an empty
    one: [SetV2SchemaDefinitions] tells them apart. *)
Definition extractV2SchemasOrNil (v2Raw : string) : option (gmap string any) :=
  match yaml_Unmarshal v2Raw with
  | inl _ => None
  | inr doc => asMap (index doc "definitions")
  end.

(** A value of [v2SchemaStorage.store]. *)
Record v2Stored := {
  st_definitions : gmap string any;
  st_rawBytes : string;
  st_operations : option (gmap string (gmap string any))
}.

(** [SetV2SchemaDefinitions doc v2Raw]: the store afterwards. The store,
    [v2SchemaStorage.store], is a map keyed by the pointer to a document,
    here the address of the document. A nil pointer and a nil slice are
    [None]. *)
Definition SetV2SchemaDefinitions (store : gmap positive v2Stored) (doc : option positive)
    (v2Raw : option string) : gmap positive v2Stored :=
  match doc, v2Raw with
  | Some d, Some raw =>
      match extractV2SchemasOrNil raw with
      | None => store
      | Some defs =>
          <[ d := {| st_definitions := defs; st_rawBytes := raw;
                     st_operations := extractV2Operations raw |} ]> store
      end
  | _, _ => store
  end.

Definition getV2SchemaDefinitions (store : gmap positive v2Stored) (doc : option positive)
    : option (gmap string any) :=
  match doc with
  | None => None
  | Some d => match store !! d with Some data => Some (st_definitions data) | None => None end
  end.

Definition getV2Operations (store : gmap positive v2Stored) (doc : option positive)
    : option (gmap string (gmap string any)) :=
  match doc with
  | None => None
  | Some d => match store !! d with Some data => st_operations data | None => None end
  end.
End V2Cache.

(** No two keys of a path item of the document differ only in the case of
    their letters. *)
Definition caseDistinctKeys (paths : gmap string any) : Prop :=
  ∀ p pi m1 m2, paths !! p = Some (VMap pi) →
                is_Some (pi !! m1) → is_Some (pi !! m2) →
                strings_ToLower m1 = strings_ToLower m2 → m1 = m2.

(** The document with the operation [plainOp] and the definition [Pet]. *)
Definition petStoreV2 : gmap string any :=
  <[ "definitions" := anyMap [("Pet", anyMap [("type", VStr "object")])] ]>
    (v2DocWith plainOp).

(** A path item with the keys [GET] and [get]. *)
Definition collidingPathItem : gmap string any :=
  {[ "GET" := VMap {[ "summary" := VStr "upper" ]};
     "get" := VMap {[ "summary" := VStr "lower" ]} ]}.

(** What [BuildServiceModel] finds in the store for a document: the two
    maps of its entry, empty when there is none. *)
Definition storedEntry (store : gmap positive v2Stored) (doc : option positive) : v2Entry :=
  {| definitions := default ∅ (getV2SchemaDefinitions store doc);
     operations := default ∅ (getV2Operations store doc) |}.
(** The tags an option takes from a list: trimmed, the empty ones left
    out. *)
Definition tagsGiven (tags : list string) : gset string :=
  list_to_set (filter (fun t => t ≠ "") (strings_TrimSpace <$> tags)).
(** ** cli/generate.go: the caller of the loader and the builder *)

(** [strings.Join]. *)
Fixpoint strings_Join (elems : list string) (sep : string) : string :=
  match elems with
  | [] => ""
  | [e] => e
  | e :: rest => e +:+ sep +:+ strings_Join rest sep
  end.

(** [strings.ReplaceAll s old new] for [old] and [new] of one byte each,
    as the package calls it. *)
Fixpoint replaceAllByte (s : string) (old new : ascii) : string :=
  match s with
  | EmptyString => EmptyString
  | String c r => String (if decide (c = old) then new else c) (replaceAllByte r old new)
  end.

Fixpoint dropLeading (c : ascii) (l : list ascii) : list ascii :=
  match l with
  | [] => []
  | c' :: r => if decide (c' = c) then dropLeading c r else l
  end.

(** [strings.Trim s cutset] for a cutset of one byte. *)
Definition trimByte (s : string) (c : ascii) : string :=
  string_of_list_ascii
    (reverse (dropLeading c (reverse (dropLeading c (list_ascii_of_string s))))).

(** The runes [sanitizeToolName] keeps: a to z, 0 to 9, the dash and the
    underscore. All of them are single bytes, and no byte of another rune
    is one of them. *)
Definition toolNameByte (c : ascii) : bool :=
  let n := nat_of_ascii c in
  ((97 <=? n)%nat && (n <=? 122)%nat || (48 <=? n)%nat && (n <=? 57)%nat ||
   (n =? 45)%nat || (n =? 95)%nat)%bool.

Fixpoint keepBytes (keep : ascii → bool) (s : string) : string :=
  match s with
  | EmptyString => EmptyString
  | String c r => if keep c then String c (keepBytes keep r) else keepBytes keep r
  end.

Module cli.

Definition sanitizeToolName (name : string) : string :=
  let name := strings_TrimSpace name in
  if decide (name = "") then ""
  else
    let name := replaceAllByte name " " "-" in
    let name := replaceAllByte name "/" "-" in
    let name := strings_ToLower name in
    let b := keepBytes toolNameByte name in
    trimByte b "-".

(** One round of the loop of [sanitizeTags], on [seen] and [result]. *)
Definition sanitizeStep (acc : gset string * list string) (tag : string)
    : gset string * list string :=
  let trimmed := strings_TrimSpace tag in
  if decide (trimmed = "") then acc
  else if decide (trimmed ∈ acc.1) then acc
  else ({[ trimmed ]} ∪ acc.1, acc.2 ++ [trimmed]).

Definition sanitizeTags (tags : list string) : list string :=
  (foldl sanitizeStep (∅, []) tags).2.

Definition intersect (a b : list string) : list string :=
  if decide (length a = 0 ∨ length b = 0)%nat then []
  else
    let set : gset string := list_to_set a in
    filter (fun item => item ∈ set) b.

Record GenerateConfig := {
  Input : string;
  Lang : string;
  Out : string;
  IncludeTags : list string;
  ExcludeTags : list string;
  ToolName : string;
  PackageName : string;
  ConfigPath : string;
  DryRun : bool;
  Force : bool;
  Verbose : bool
}.

Definition normalize (c : GenerateConfig) : GenerateConfig :=
  {| Input := strings_TrimSpace (Input c);
     Lang := strings_ToLower (strings_TrimSpace (Lang c));
     Out := strings_TrimSpace (Out c);
     ToolName := strings_TrimSpace (ToolName c);
     PackageName := strings_TrimSpace (PackageName c);
     IncludeTags := sanitizeTags (IncludeTags c);
     ExcludeTags := sanitizeTags (ExcludeTags c);
     ConfigPath := ConfigPath c;
     DryRun := DryRun c; Force := Force c; Verbose := Verbose c |}.

Definition withLang (c : GenerateConfig) (lang : string) : GenerateConfig :=
  {| Input := Input c; Lang := lang; Out := Out c;
     IncludeTags := IncludeTags c; ExcludeTags := ExcludeTags c;
     ToolName := ToolName c; PackageName := PackageName c; ConfigPath := ConfigPath c;
     DryRun := DryRun c; Force := Force c; Verbose := Verbose c |}.

Section Validate.
(** [strconv.Quote], which formats the verb [%q]. *)
Variable strconv_Quote : string → string.

(** [validate]: the usage error, or the configuration afterwards (the
    method sets [Lang] when it is empty). *)
Definition validate (c : GenerateConfig) : error + GenerateConfig :=
  if decide (Input c = "") then
    inl "generate: --input is required (set via flag or config file)"
  else if decide (Lang c ∈ [""; "go"; "npm"; "python"]) then
    let c := if decide (Lang c = "") then withLang c "go" else c in
    let overlap := intersect (IncludeTags c) (ExcludeTags c) in
    if decide (0 < length overlap)%nat then
      inl ("generate: include/exclude tags overlap: " +:+ strings_Join overlap ", ")
    else inr c
  else
    inl ("generate: unsupported --lang " +:+ strconv_Quote (Lang c) +:+
         " (allowed: go, npm, python)").
End Validate.

(** The options [runGenerate] passes to [BuildServiceModel]. *)
Definition buildOptions (c : GenerateConfig) : list BuildOption :=
  [WithIncludeTags (IncludeTags c); WithExcludeTags (ExcludeTags c)].

End cli.

(** A quoting for the examples: the text between double quotes. *)
Definition plainQuote (s : string) : string := dquote +:+ s +:+ dquote.

(** A configuration as the flags
    [--input spec.yaml --lang GO --include-tags "read, ,read" --exclude-tags admin]
    give it. *)
Definition flagsConfig : cli.GenerateConfig :=
  {| cli.Input := " spec.yaml"; cli.Lang := "GO"; cli.Out := "";
     cli.IncludeTags := ["read"; " "; " read"]; cli.ExcludeTags := ["admin"];
     cli.ToolName := ""; cli.PackageName := ""; cli.ConfigPath := "";
     cli.DryRun := false; cli.Force := false; cli.Verbose := false |}.

(** ** Further documents and notions of the properties *)

(** A body parameter whose schema is an inline object, next to a formData
    parameter that is a file. *)
Definition objectUploadOp : gmap string any :=
  list_to_map
    [ ("parameters",
       VSeq [ anyMap [("in", VStr "body"); ("name", VStr "meta");
                      ("schema",
                       anyMap [("type", VStr "object");
                               ("properties",
                                anyMap [("title", anyMap [("type", VStr "string")])])])];
              anyMap [("in", VStr "formData"); ("name", VStr "file"); ("type", VStr "file");
                      ("required", VBool true)] ]);
      ("responses", okResponses) ].

(** A string of ASCII bytes. On such a string the model of
    [strings.ToLower] is Go's function. *)
Definition isASCII (s : string) : Prop :=
  Forall (fun c => (nat_of_ascii c < 128)%nat) (list_ascii_of_string s).

(** The keys of the path items of the document are ASCII strings. *)
Definition asciiKeys (paths : gmap string any) : Prop :=
  ∀ p pi m, paths !! p = Some (VMap pi) → is_Some (pi !! m) → isASCII m.

(** The cached v2 operations of a document with POST on [/pets] whose
    body parameter has a string where its schema should be. *)
Definition malformedBodyParam : gmap string any :=
  list_to_map [("in", VStr "body"); ("name", VStr "pet"); ("schema", VStr "Pet")].

Definition malformedOp : gmap string any :=
  {[ "parameters" := VSeq [VMap malformedBodyParam] ]}.

Definition malformedV2Operations : gmap string (gmap string any) :=
  {[ "/pets" := {[ "post" := VMap malformedOp ]} ]}.

(** The tags an operation of the document carries: its tags, trimmed,
    but for the empty ones. *)
Definition carries (o : openapi3.Operation) (t : string) : Prop :=
  t ≠ "" ∧ ∃ t0, t0 ∈ openapi3.op_Tags o ∧ strings_TrimSpace t0 = t.

(** The parameters a list of references declares: a reference that is nil
    or has no value declares none. *)
Definition declared (prefs : list (option openapi3.ParameterRef))
    : list openapi3.ParameterValue :=
  omap (fun pref => pref ≫= openapi3.pr_Value) prefs.

(** The key of a parameter of the document: [paramKey] of its trimmed
    location and name. *)
Definition keyOfParameter (q : openapi3.ParameterValue) : string :=
  paramKey (strings_TrimSpace (openapi3.p_In q)) (strings_TrimSpace (openapi3.p_Name q)).

(** The parameters of a list that have the key of [q]. *)
Definition sameKey (q : openapi3.ParameterValue) (l : list openapi3.ParameterValue)
    : list openapi3.ParameterValue :=
  filter (fun q' => keyOfParameter q' = keyOfParameter q) l.

(** The parameter of an endpoint is made of the parameter [q] of the
    document: location and name trimmed, [Required] as it is. *)
Definition madeOf (pm : ParameterModel) (q : openapi3.ParameterValue) : Prop :=
  pm_In pm = strings_TrimSpace (openapi3.p_In q) ∧
  pm_Name pm = strings_TrimSpace (openapi3.p_Name q) ∧
  pm_Required pm = openapi3.p_Required q ∧
  pm_Schema pm = toSchemaOrRef (openapi3.p_Schema q).

(** The parameter of an endpoint made of a parameter of the document. *)
Definition modelOf (q : openapi3.ParameterValue) : ParameterModel :=
  {| pm_Name := strings_TrimSpace (openapi3.p_Name q);
     pm_In := strings_TrimSpace (openapi3.p_In q);
     pm_Required := openapi3.p_Required q;
     pm_Schema := toSchemaOrRef (openapi3.p_Schema q) |}.

(** A parameter with a location and a name. *)
Definition parameterAt (in_ name : string) (required : bool) : option openapi3.ParameterRef :=
  Some {| openapi3.pr_Value :=
            Some {| openapi3.p_Name := name; openapi3.p_In := in_;
                    openapi3.p_Required := required; openapi3.p_Schema := integerSchema |} |}.

(** A document whose path [/x] declares the parameter [c] in the location
    [a:b], and whose GET on [/x] declares the parameter [b:c] in the
    location [a]. *)
Definition colonDoc : openapi3.T :=
  {| openapi3.t_Info := {| openapi3.in_Title := "Colon"; openapi3.in_Version := "1.0.0";
                           openapi3.in_Description := "" |};
     openapi3.t_Servers := [];
     openapi3.t_Components := None;
     openapi3.t_Paths :=
       {[ "/x" := Some (pathItemOf [parameterAt "a:b" "c" false]
                          (Some {| openapi3.op_Tags := []; openapi3.op_Summary := "";
                                   openapi3.op_Description := "";
                                   openapi3.op_Parameters := [parameterAt "a" "b:c" true];
                                   openapi3.op_RequestBody := None;
                                   openapi3.op_Responses := {[ "200" := describedResponse "ok" ]} |})
                          None) ]} |}.

(** ** loader.go: the document [Load] validates *)

(** [Load] up to the validation: the document it has obtained, from the
    loader for OpenAPI v3 or from the converter for Swagger v2, together
    with the location it reports errors at; or the error it returns before
    it has a document. *)
Definition documentOf (w : World) (input : string) (opts : list Option)
    : SpecError + (openapi3.T * string) :=
  if decide (strings_TrimSpace input = "") then
    inl {| Code := InputError; Message := "spec: input is empty";
           Location := ""; JSONPointer := ""; Cause := None |}
  else
  let settings := foldl (fun s opt => opt s) DefaultSettings opts in
  let isURL :=
    match url_Parse w input with
    | inr u => (negb (bool_decide (Scheme u = "")) && negb (bool_decide (Host u = "")))%bool
    | inl _ => false
    end in
  if isURL then
    let scheme := strings_ToLower (match url_Parse w input with inr u => Scheme u | inl _ => "" end) in
    if decide (scheme = "file") then
      inl {| Code := InputError; Message := "spec: file:// URLs are blocked by default";
             Location := input; JSONPointer := ""; Cause := None |}
    else if decide (scheme ≠ "http" ∧ scheme ≠ "https") then
      inl {| Code := InputError;
             Message := "spec: unsupported URL scheme " +:+ dquote +:+ scheme +:+ dquote
                        +:+ " (only http/https allowed)";
             Location := input; JSONPointer := ""; Cause := None |}
    else
    match fr_result (fetchWithRetry w input settings) with
    | inl fetchErr =>
        inl {| Code := NetworkError;
               Message := "fetch " +:+ input +:+ ": " +:+ fetchErr;
               Location := input; JSONPointer := ""; Cause := Some fetchErr |}
    | inr raw =>
        match detectSpecVersion w raw with
        | inl derr =>
            inl {| Code := ParseError; Message := derr; Location := input;
                   JSONPointer := ""; Cause := Some derr |}
        | inr version =>
            if decide (version = 3) then
              match loader_LoadFromURI w settings input with
              | inl err => inl (mapValidateOrParseErr w err input)
              | inr doc => inr (doc, input)
              end
            else if decide (version = 2) then
              match convertV2ToV3 w (preprocessed w raw) with
              | inl err =>
                  inl {| Code := ConversionError;
                         Message := "convert v2→v3: " +:+ err;
                         Location := input; JSONPointer := ""; Cause := Some err |}
              | inr v3doc => inr ((loader_ResolveRefsIn w settings v3doc).1, input)
              end
            else
              inl {| Code := ParseError;
                     Message := "spec: unknown or unsupported OpenAPI/Swagger version";
                     Location := input; JSONPointer := ""; Cause := None |}
        end
    end
  else
  match filepath_Abs w input with
  | inl err =>
      inl {| Code := InputError; Message := "resolve path: " +:+ err;
             Location := input; JSONPointer := ""; Cause := Some err |}
  | inr abs =>
      match os_ReadFile w abs with
      | inl rerr =>
          inl {| Code := InputError;
                 Message := "read file " +:+ abs +:+ ": " +:+ rerr;
                 Location := abs; JSONPointer := ""; Cause := Some rerr |}
      | inr raw =>
          match detectSpecVersion w raw with
          | inl derr =>
              inl {| Code := ParseError; Message := derr; Location := abs;
                     JSONPointer := ""; Cause := Some derr |}
          | inr version =>
              if decide (version = 3) then
                match loader_LoadFromFile w settings abs with
                | inl err => inl (mapValidateOrParseErr w err abs)
                | inr doc => inr (doc, abs)
                end
              else if decide (version = 2) then
                match convertV2ToV3 w (preprocessed w raw) with
                | inl err =>
                    inl {| Code := ConversionError;
                           Message := "convert v2→v3: " +:+ err;
                           Location := abs; JSONPointer := ""; Cause := Some err |}
                | inr v3doc => inr (v3doc, abs)
                end
              else
                inl {| Code := ParseError;
                       Message := "spec: unknown or unsupported OpenAPI/Swagger version";
                       Location := abs; JSONPointer := ""; Cause := None |}
          end
      end
  end.

(** The text of a Swagger v2 document without paths, and the tree the
    YAML decoder makes of it. *)
Definition swaggerRaw : string :=
  "{swagger: '2.0', info: {title: Sample, version: 1.0.0}, paths: {}}".

Definition swaggerRoot : gmap string any :=
  {[ "swagger" := VStr "2.0";
     "info" := VMap {[ "title" := VStr "Sample"; "version" := VStr "1.0.0" ]};
     "paths" := VMap ∅ ]}.

(** The working directory [/work] holds [spec.yaml], a Swagger v2 document
    that converts to [doc]; the validation of the converted document
    answers [verr]. *)
Definition convertedWorld (doc : openapi3.T) (verr : option error) : World :=
  {| url_Parse := url_Parse (fileWorld verr);
     http_Do := http_Do quietWorld;
     ctx_Done := ctx_Done quietWorld;
     ctx_Err := ctx_Err quietWorld;
     filepath_Abs := filepath_Abs (fileWorld verr);
     os_ReadFile := fun p => if decide (p = "/work/spec.yaml") then inr swaggerRaw
                             else inl "no such file or directory";
     yaml_Unmarshal := fun data =>
       if decide (data = swaggerRaw) then inr swaggerRoot
       else yaml_Unmarshal quietWorld data;
     yaml_Marshal := yaml_Marshal quietWorld;
     loader_LoadFromURI := loader_LoadFromURI quietWorld;
     loader_LoadFromFile := loader_LoadFromFile quietWorld;
     loader_ResolveRefsIn := loader_ResolveRefsIn quietWorld;
     doc_Validate := fun _ => verr;
     convertV2ToV3 := fun raw => if decide (raw = swaggerRaw) then inr doc
                                 else inl "conversion failed";
     extractJSONPointer := extractJSONPointer quietWorld |}.

(* ===================================================================== *)
(** * Part II: properties                                                 *)
(* ===================================================================== *)

(** ** Version detection *)

Section DetectSpecVersion.
Variable w : World.

Lemma TrimSpace_empty : strings_TrimSpace "" = "".
Proof. reflexivity. Qed.

(** C10. When the raw document parses to a map whose [openapi] value is a
    string that, trimmed, starts with "3.", the version is 3 whatever the
    map holds under [swagger] (a "2." string included): [openapi] takes
    precedence. A value that is not a string is ignored, for either key:
    with a non-string [openapi] a "2." [swagger] still gives version 2,
    and in general the answer is the one for the map without that key. *)
Theorem detectSpecVersion_openapi_precedence (data : string) (root : gmap string any) :
  yaml_Unmarshal w data = inr root →
  (∀ so, root !! "openapi" = Some (VStr so) →
         strings_HasPrefix (strings_TrimSpace so) "3." = true →
         detectSpecVersion w data = inr 3) ∧
  (∀ v ss, root !! "openapi" = Some v → asStr v = None →
           root !! "swagger" = Some (VStr ss) →
           strings_HasPrefix (strings_TrimSpace ss) "2." = true →
           detectSpecVersion w data = inr 2) ∧
  (∀ k v data', k = "openapi" ∨ k = "swagger" →
                root !! k = Some v → asStr v = None →
                yaml_Unmarshal w data' = inr (delete k root) →
                detectSpecVersion w data = detectSpecVersion w data').
Proof.
  intros Hy. unfold detectSpecVersion. rewrite Hy. repeat split.
  - intros so Ho Hp. rewrite Ho. simpl. by rewrite Hp.
  - intros v ss Ho Hv Hs Hp. rewrite Ho, Hv, Hs. simpl. by rewrite Hp.
  - intros k v data' [-> | ->] Hk Hv Hy'; rewrite Hy', Hk, Hv; simpl.
    + rewrite lookup_delete_eq, lookup_delete_ne by done. reflexivity.
    + rewrite lookup_delete_eq, lookup_delete_ne by done. reflexivity.
Qed.
End DetectSpecVersion.

Lemma detectSpecVersion_openapi_precedence_witness :
  detectSpecVersion bothWorld bothRaw = inr 3.
Proof.
  apply (proj1 (detectSpecVersion_openapi_precedence bothWorld bothRaw
                  {[ "openapi" := VStr "3.0.1"; "swagger" := VStr "2.0" ]} eq_refl)
           "3.0.1"); reflexivity.
Defined.

(** ** The loader: [file://] inputs *)

Section FileScheme.
Variable w : World.

(** What the scheme test of [Load] does reject: an input that [url.Parse]
    splits into the scheme [file] and a non-empty host. *)
Lemma Load_file_scheme_with_host (input : string) (opts : list Option) (u : URL) :
  strings_TrimSpace input ≠ "" →
  url_Parse w input = inr u →
  Host u ≠ "" →
  strings_ToLower (Scheme u) = "file" →
  ∃ se, Load w input opts = inl se ∧ Code se = InputError ∧ Location se = input.
Proof.
  intros Hin Hu Hhost Hscheme. unfold Load.
  destruct (decide (strings_TrimSpace input = "")) as [|_]; [done|].
  rewrite Hu.
  assert (Scheme u ≠ "") as Hs by (intros E; by rewrite E in Hscheme).
  rewrite !bool_decide_eq_false_2 by done. simpl.
  destruct (decide (strings_ToLower (Scheme u) = "file")); [|done].
  eexists. split; [reflexivity|]. done.
Qed.

(** An input that is not taken for a URL is read as a local path: the
    load fails with an [InputError] when the file cannot be read. *)
Lemma Load_local_unreadable (input : string) (opts : list Option) (abs : string)
    (rerr : error) :
  strings_TrimSpace input ≠ "" →
  match url_Parse w input with
  | inr u => Scheme u = "" ∨ Host u = ""
  | inl _ => True
  end →
  filepath_Abs w input = inr abs →
  os_ReadFile w abs = inl rerr →
  ∃ se, Load w input opts = inl se ∧ Code se = InputError ∧ Location se = abs.
Proof.
  intros Hin Hurl Habs Hread. unfold Load.
  destruct (decide (strings_TrimSpace input = "")) as [|_]; [done|].
  assert (match url_Parse w input with
          | inr u => (negb (bool_decide (Scheme u = "")) && negb (bool_decide (Host u = "")))%bool
          | inl _ => false
          end = false) as ->.
  { destruct (url_Parse w input) as [|u]; [done|].
    destruct Hurl as [-> | ->]; simpl; [done|].
    by rewrite andb_false_r. }
  rewrite Habs, Hread. eexists. split; [reflexivity|]. done.
Qed.
End FileScheme.

(** C8, at the failing input. [file:///spec.yaml] has an empty host, so
    [Load] does not take it for a URL and never reaches its test of the
    scheme: it reads the relative path [file:/spec.yaml], and where that
    file exists and holds a valid document the load succeeds. *)
Theorem Load_file_scheme_empty_host_is_read_as_path :
  url_Parse fileSchemeWorld "file:///spec.yaml" = inr {| Scheme := "file"; Host := "" |} ∧
  Load fileSchemeWorld "file:///spec.yaml" [] = inr sampleDoc.
Proof. split; vm_compute; reflexivity. Qed.

(** ** The loader: fetch with retry *)

Section FetchWithRetry.
Variable w : World.
Variable rawURL : string.

Lemma wrap64_mod (z : Z) : wrap64 z mod 2 ^ 64 = z mod 2 ^ 64.
Proof.
  unfold wrap64.
  rewrite <- Zminus_mod_idemp_l, Zmod_mod, Zminus_mod_idemp_l.
  f_equal. lia.
Qed.

Lemma wrap64_eq_mod (a b : Z) : a mod 2 ^ 64 = b mod 2 ^ 64 → wrap64 a = wrap64 b.
Proof.
  intros H. unfold wrap64. f_equal.
  rewrite <- (Zplus_mod_idemp_l a), <- (Zplus_mod_idemp_l b). by rewrite H.
Qed.

Lemma wrap64_id (z : Z) : - 2 ^ 63 <= z < 2 ^ 63 → wrap64 z = z.
Proof. intros H. unfold wrap64. rewrite Z.mod_small; lia. Qed.

Lemma wrap64_double (z : Z) (k : nat) :
  wrap64 (wrap64 (z * 2 ^ Z.of_nat k) * 2) = wrap64 (z * 2 ^ Z.of_nat (S k)).
Proof.
  apply wrap64_eq_mod.
  rewrite <- Zmult_mod_idemp_l, wrap64_mod, Zmult_mod_idemp_l.
  f_equal. rewrite Nat2Z.inj_succ, Z.pow_succ_r by lia. lia.
Qed.

(** The [k]-th delay of a doubling sequence. *)
Lemma doubling_lookup (n : nat) (backoff : Z) (k : nat) (d : Z) :
  - 2 ^ 63 <= backoff < 2 ^ 63 →
  doubling n backoff !! k = Some d → d = wrap64 (backoff * 2 ^ Z.of_nat k).
Proof.
  intros Hr. rewrite <- (wrap64_id backoff Hr) at 1.
  replace backoff with (backoff * 2 ^ Z.of_nat 0) at 1 by (simpl; lia).
  replace k with (0 + k)%nat at 2 by done.
  generalize 0%nat as j. revert k. clear Hr.
  induction n as [|n IH]; intros k j; [done|].
  destruct k as [|k]; simpl.
  - intros [= <-]. by rewrite Nat.add_0_r.
  - rewrite wrap64_double. intros H%IH. rewrite H. do 3 f_equal. lia.
Qed.

Lemma doubling_length (n : nat) (backoff : Z) : length (doubling n backoff) = n.
Proof. revert backoff. induction n; intros; simpl; auto. Qed.

Lemma iter_double_shift (n : nat) (backoff : Z) :
  Nat.iter n (fun b => wrap64 (b * 2)) (wrap64 (backoff * 2)) =
  wrap64 (Nat.iter n (fun b => wrap64 (b * 2)) backoff * 2).
Proof. induction n as [|n IH]; simpl; [done|]. by rewrite IH. Qed.

Lemma doubling_snoc (n : nat) (backoff : Z) :
  doubling (S n) backoff = doubling n backoff ++ [Nat.iter n (fun b => wrap64 (b * 2)) backoff].
Proof.
  revert backoff. induction n as [|n IH]; intros backoff; [done|].
  change (doubling (S (S n)) backoff) with (backoff :: doubling (S n) (wrap64 (backoff * 2))).
  rewrite IH, iter_double_shift. reflexivity.
Qed.

(** No more requests than rounds. *)
Lemma fetchLoop_requests (remaining i : nat) (backoff : Z) (lastErr : option error)
    (waits : list Z) :
  (fr_requests (fetchLoop w rawURL remaining i backoff lastErr waits) <= i + remaining)%nat.
Proof.
  revert i backoff lastErr waits.
  induction remaining as [|r IH]; intros i backoff lastErr waits; simpl; [lia|].
  destruct (http_Do w rawURL i) as [e|e|status body readErr]; simpl.
  - lia.
  - destruct (ctx_Done w i); simpl; [lia|]. etrans; [apply IH|lia].
  - repeat case_decide; simpl; try lia.
    destruct (ctx_Done w i); simpl; [lia|]. etrans; [apply IH|lia].
Qed.

(** The delays waited for are a doubling sequence. *)
Lemma fetchLoop_waits (remaining i : nat) (backoff : Z) (lastErr : option error)
    (waits : list Z) :
  ∃ k, (k <= remaining)%nat ∧
       fr_waits (fetchLoop w rawURL remaining i backoff lastErr waits) =
       waits ++ doubling k backoff.
Proof.
  revert i backoff lastErr waits.
  induction remaining as [|r IH]; intros i backoff lastErr waits; simpl.
  { exists 0%nat. split; [lia|]. by rewrite app_nil_r. }
  assert (∀ e, ∃ k, (k <= S r)%nat ∧
            fr_waits (if ctx_Done w i
                      then {| fr_result := inl (ctx_Err w); fr_requests := S i; fr_waits := waits |}
                      else fetchLoop w rawURL r (S i) (wrap64 (backoff * 2)) (Some e)
                             (waits ++ [backoff])) = waits ++ doubling k backoff) as Hretry.
  { intros e. destruct (ctx_Done w i); simpl.
    - exists 0%nat. split; [lia|]. by rewrite app_nil_r.
    - destruct (IH (S i) (wrap64 (backoff * 2)) (Some e) (waits ++ [backoff]))
        as (k & Hk & ->).
      exists (S k). split; [lia|]. by rewrite <- app_assoc. }
  destruct (http_Do w rawURL i) as [e|e|status body readErr]; simpl.
  - exists 0%nat. split; [lia|]. by rewrite app_nil_r.
  - apply Hretry.
  - repeat case_decide; simpl; try apply Hretry;
      (exists 0%nat; split; [lia|]; by rewrite app_nil_r).
Qed.

(** [n] rounds that are all tried again. *)
Lemma fetchLoop_retries (n : nat) :
  ∀ (remaining i : nat) (backoff : Z) (lastErr : option error) (waits : list Z),
  (∀ j, (i <= j < i + S n)%nat →
        retryable (http_Do w rawURL j) ∧ ctx_Done w j = false) →
  fetchLoop w rawURL (S n + remaining) i backoff lastErr waits =
  fetchLoop w rawURL remaining (i + S n)
    (Nat.iter (S n) (fun b => wrap64 (b * 2)) backoff)
    (Some (lastErrorOf (http_Do w rawURL (i + n))))
    (waits ++ doubling (S n) backoff).
Proof.
  induction n as [|n IH]; intros remaining i backoff lastErr waits Hall.
  - destruct (Hall i ltac:(lia)) as [Hr Hc]. simpl.
    rewrite Hc, Nat.add_0_r, Nat.add_1_r.
    destruct (http_Do w rawURL i) as [e|e|status body readErr]; simpl in *; [done|done|].
    destruct (decide (status < 300)); [lia|].
    destruct (decide (status >= 500 ∨ status = 429)); [done|tauto].
  - rewrite doubling_snoc, app_assoc.
    replace (S (S n) + remaining)%nat with (S n + S remaining)%nat by lia.
    rewrite IH by (intros j Hj; apply Hall; lia).
    destruct (Hall (i + S n)%nat ltac:(lia)) as [Hr Hc].
    cbn [fetchLoop]. rewrite Hc.
    replace (S (i + S n)) with (i + S (S n))%nat by lia.
    destruct (http_Do w rawURL (i + S n)) as [e|e|status body readErr]; simpl in Hr; [done|done|].
    destruct (decide (status < 300)); [lia|].
    destruct (decide (status >= 500 ∨ status = 429)); [done|tauto].
Qed.

Lemma fetchLoop_retries' (n : nat) (remaining : nat) (backoff : Z) :
  (∀ j, (j < n)%nat → retryable (http_Do w rawURL j) ∧ ctx_Done w j = false) →
  fetchLoop w rawURL (n + remaining) 0 backoff None [] =
  fetchLoop w rawURL remaining n
    (Nat.iter n (fun b => wrap64 (b * 2)) backoff)
    (match n with O => None | S n' => Some (lastErrorOf (http_Do w rawURL n')) end)
    (doubling n backoff).
Proof.
  intros Hall. destruct n as [|n]; [done|].
  rewrite fetchLoop_retries by (intros j Hj; apply Hall; lia). done.
Qed.

Variable settings : Settings.

Lemma attemptsOf_pos : (1 <= attemptsOf settings)%nat.
Proof. unfold attemptsOf. case_decide; lia. Qed.

Lemma attemptsOf_MaxRetries :
  0 < MaxRetries settings → Z.of_nat (attemptsOf settings) = MaxRetries settings.
Proof. intros H. unfold attemptsOf. case_decide; lia. Qed.

Lemma fetchWithRetry_unfold :
  fetchWithRetry w rawURL settings =
  fetchLoop w rawURL (attemptsOf settings) 0 (baseDelayOf settings) None [].
Proof. reflexivity. Qed.

(** The rounds of [fetchWithRetry]: their number, the delays between
    them, and how they end. *)
Lemma fetchWithRetry_rounds :
  - 2 ^ 63 <= BackoffBase settings < 2 ^ 63 →
  let run := fetchWithRetry w rawURL settings in
  let attempts := attemptsOf settings in
  let base := baseDelayOf settings in
  (fr_requests run <= attempts)%nat ∧
  (length (fr_waits run) <= attempts)%nat ∧
  (∀ k d, fr_waits run !! k = Some d → d = wrap64 (base * 2 ^ Z.of_nat k)) ∧
  ((∀ j, (j < attempts)%nat → retryable (http_Do w rawURL j) ∧ ctx_Done w j = false) →
     fr_requests run = attempts ∧
     fr_waits run = doubling attempts base ∧
     fr_result run = inl (lastErrorOf (http_Do w rawURL (attempts - 1)))) ∧
  (∀ i, (i < attempts)%nat →
     (∀ j, (j < i)%nat → retryable (http_Do w rawURL j) ∧ ctx_Done w j = false) →
     failsFast (http_Do w rawURL i) →
     fr_requests run = S i ∧
     fr_waits run = doubling i base ∧
     ∃ e, fr_result run = inl e).
Proof.
  intros Hbase run attempts base. subst run. rewrite fetchWithRetry_unfold.
  fold attempts base.
  assert (- 2 ^ 63 <= base < 2 ^ 63) as Hb.
  { subst base. unfold baseDelayOf, Millisecond. case_decide; lia. }
  split; [|split; [|split; [|split]]].
  - etrans; [apply fetchLoop_requests|]. lia.
  - destruct (fetchLoop_waits attempts 0 base None []) as (k & Hk & ->).
    simpl. by rewrite doubling_length.
  - intros k d. destruct (fetchLoop_waits attempts 0 base None []) as (n & Hn & ->).
    simpl. by apply doubling_lookup.
  - intros Hall.
    pose proof attemptsOf_pos as Hpos. fold attempts in Hpos.
    pose proof (fetchLoop_retries' attempts 0 base Hall) as Hrun.
    rewrite Nat.add_0_r in Hrun. rewrite Hrun. simpl.
    destruct attempts as [|n]; [lia|]. simpl.
    by rewrite Nat.sub_0_r.
  - intros i Hi Hall Hfast.
    pose proof (fetchLoop_retries' i (S (attempts - S i)) base Hall) as Hrun.
    replace (i + S (attempts - S i))%nat with attempts in Hrun by lia.
    rewrite Hrun. cbn [fetchLoop].
    destruct (http_Do w rawURL i) as [e|e|status body readErr]; simpl in Hfast; [done|done|].
    destruct Hfast as (H1 & H2 & H3).
    destruct (decide (status < 300)); [lia|].
    destruct (decide (status >= 500 ∨ status = 429)); [lia|].
    simpl. eauto.
Qed.

(** The caller: whenever the fetch of an http or https URL fails,
    [Load] reports a [NetworkError] that wraps the error of the fetch. *)
Lemma Load_fetch_failure (input : string) (opts : list Option) (u : URL) (fetchErr : error) :
  strings_TrimSpace input ≠ "" →
  url_Parse w input = inr u →
  Scheme u ≠ "" → Host u ≠ "" →
  strings_ToLower (Scheme u) = "http" ∨ strings_ToLower (Scheme u) = "https" →
  fr_result (fetchWithRetry w input (foldl (fun s opt => opt s) DefaultSettings opts))
    = inl fetchErr →
  ∃ se, Load w input opts = inl se ∧ Code se = NetworkError ∧
        Location se = input ∧ Cause se = Some fetchErr.
Proof.
  intros Hin Hu Hs Hh Hscheme Hfetch. unfold Load.
  destruct (decide (strings_TrimSpace input = "")) as [|_]; [done|].
  rewrite Hu, !bool_decide_eq_false_2 by done. simpl.
  destruct (decide (strings_ToLower (Scheme u) = "file")) as [E|_].
  { destruct Hscheme as [H|H]; by rewrite H in E. }
  destruct (decide (strings_ToLower (Scheme u) ≠ "http" ∧ strings_ToLower (Scheme u) ≠ "https"))
    as [[E1 E2]|_]; [tauto|].
  rewrite Hfetch. eexists. split; [reflexivity|]. done.
Qed.
End FetchWithRetry.

(** C7, as the code has it. For an http or https URL, with [attempts]
    the number [MaxRetries] (1 when it is not positive: it counts the
    requests, the first one included) and [base] the delay [BackoffBase]
    (200ms when it is not positive): at most [attempts] requests are sent; the
    delays waited for between them double from [base] on, in int64
    arithmetic; when the first [attempts] rounds all end in a network error
    or a status of 500 and above or 429, all of them are sent and the fetch
    fails with the error of the last; a response with another status of 300
    and above ends the fetch at once, with no further request; and every
    failure of the fetch reaches the caller of [Load] as a [NetworkError]. *)
Theorem fetch_retry_policy (w : World) (input : string) (opts : list Option) (u : URL) :
  let settings := foldl (fun s opt => opt s) DefaultSettings opts in
  let run := fetchWithRetry w input settings in
  let attempts := attemptsOf settings in
  let base := baseDelayOf settings in
  strings_TrimSpace input ≠ "" →
  url_Parse w input = inr u →
  Scheme u ≠ "" → Host u ≠ "" →
  strings_ToLower (Scheme u) = "http" ∨ strings_ToLower (Scheme u) = "https" →
  - 2 ^ 63 <= BackoffBase settings < 2 ^ 63 →
  (fr_requests run <= attempts)%nat ∧
  (length (fr_waits run) <= attempts)%nat ∧
  (∀ k d, fr_waits run !! k = Some d → d = wrap64 (base * 2 ^ Z.of_nat k)) ∧
  ((∀ j, (j < attempts)%nat → retryable (http_Do w input j) ∧ ctx_Done w j = false) →
     fr_requests run = attempts ∧
     fr_waits run = doubling attempts base ∧
     fr_result run = inl (lastErrorOf (http_Do w input (attempts - 1)))) ∧
  (∀ i, (i < attempts)%nat →
     (∀ j, (j < i)%nat → retryable (http_Do w input j) ∧ ctx_Done w j = false) →
     failsFast (http_Do w input i) →
     fr_requests run = S i ∧ fr_waits run = doubling i base ∧ ∃ e, fr_result run = inl e) ∧
  (∀ fetchErr, fr_result run = inl fetchErr →
     ∃ se, Load w input opts = inl se ∧ Code se = NetworkError ∧
           Location se = input ∧ Cause se = Some fetchErr).
Proof.
  intros settings run attempts base Hin Hu Hs Hh Hscheme Hbase.
  destruct (fetchWithRetry_rounds w input settings Hbase) as (H1 & H2 & H3 & H4 & H5).
  split; [exact H1|]. split; [exact H2|]. split; [exact H3|].
  split; [exact H4|]. split; [exact H5|].
  intros fetchErr Hf. by eapply Load_fetch_failure.
Qed.

(** A server that answers 503 to every request: with the default settings
    three requests are sent, 200ms, 400ms and 800ms are waited for, and the
    load fails with a [NetworkError]. *)
Lemma fetch_retry_policy_witness :
  fr_requests (fetchWithRetry downWorld "http://example.com/spec.yaml" DefaultSettings) = 3%nat ∧
  fr_waits (fetchWithRetry downWorld "http://example.com/spec.yaml" DefaultSettings)
    = [200 * Millisecond; 400 * Millisecond; 800 * Millisecond] ∧
  ∃ se, Load downWorld "http://example.com/spec.yaml" [] = inl se ∧ Code se = NetworkError.
Proof.
  destruct (fetch_retry_policy downWorld "http://example.com/spec.yaml" []
              {| Scheme := "http"; Host := "example.com" |})
    as (_ & _ & _ & Hall & _ & Hload).
  - by vm_compute.
  - reflexivity.
  - done.
  - done.
  - left. reflexivity.
  - by vm_compute.
  - destruct Hall as (Hreq & Hwaits & Hres).
    { intros j _. split; [simpl; left; lia | reflexivity]. }
    split; [exact Hreq|]. split; [exact Hwaits|].
    destruct (Hload _ Hres) as (se & Hse & Hcode & _).
    exists se. by split.
Defined.

(** The claim as stated fails: [MaxRetries] counts the requests, not the
    retries. With [MaxRetries] 1 a request that is answered 503 is not
    tried again at all; with the default of 3 it is tried again twice. *)
Lemma MaxRetries_counts_the_requests :
  retryable (http_Do downWorld "http://example.com/spec.yaml" 0) ∧
  ctx_Done downWorld 0 = false ∧
  fr_requests (fetchWithRetry downWorld "http://example.com/spec.yaml"
                 (WithMaxRetries 1 DefaultSettings)) = 1%nat ∧
  fr_result (fetchWithRetry downWorld "http://example.com/spec.yaml"
               (WithMaxRetries 1 DefaultSettings)) = inl "transient http error 503" ∧
  fr_requests (fetchWithRetry downWorld "http://example.com/spec.yaml" DefaultSettings)
    = 3%nat.
Proof.
  split; [simpl; left; lia|]. split; [reflexivity|].
  split; [reflexivity|]. split; [vm_compute; reflexivity|reflexivity].
Qed.

(** ** The compatibility preprocessor: one operation *)

Section RewriteOperation.
Implicit Types (pm op : gmap string any) (params : list any).

Lemma paramMaps_VMap (l : list (gmap string any)) : paramMaps (VMap <$> l) = l.
Proof. unfold paramMaps. induction l as [|x l IH]; [done|]. cbn. by f_equal. Qed.

Lemma bodyCount_existsb params :
  (1 <= bodyCount params)%nat → existsb isBodyParam (paramMaps params) = true.
Proof.
  unfold bodyCount. induction (paramMaps params) as [|pm l IH]; simpl; [lia|].
  rewrite filter_cons. destruct (isBodyParam pm) eqn:E; [done|].
  case_decide; [done|]. simpl. exact IH.
Qed.

Lemma index_insert_eq (m : gmap string any) k v : index (<[ k := v ]> m) k = v.
Proof. unfold index. by rewrite lookup_insert_eq. Qed.

Lemma index_insert_ne (m : gmap string any) k k' v :
  k ≠ k' → index (<[ k := v ]> m) k' = index m k'.
Proof. intros H. unfold index. by rewrite lookup_insert_ne. Qed.

Ltac formData_cases pm :=
  unfold formDataFromBodyParam;
  generalize (deriveType pm); intros d;
  destruct (asStr (index pm "description")) as [desc|];
  [destruct (decide (desc = ""))|];
  destruct (asBool (index pm "required"));
  destruct (isNilAny (d_items d));
  destruct (decide (d_format d = ""));
  rewrite ?index_insert_ne by done.

(** The keys of a converted parameter. *)
Lemma formDataFromBodyParam_in pm :
  index (formDataFromBodyParam pm) "in" = VStr "formData".
Proof. formData_cases pm; reflexivity. Qed.

Lemma formDataFromBodyParam_name pm :
  index (formDataFromBodyParam pm) "name" = VStr (bodyName pm).
Proof.
  unfold bodyName. formData_cases pm; destruct (decide (asString (index pm "name") = ""));
    reflexivity.
Qed.

Lemma formDataFromBodyParam_type pm :
  index (formDataFromBodyParam pm) "type" = VStr (d_typ (deriveType pm)).
Proof.
  unfold formDataFromBodyParam.
  destruct (asStr (index pm "description")) as [desc|];
  [destruct (decide (desc = ""))|];
  destruct (asBool (index pm "required"));
  destruct (isNilAny (d_items (deriveType pm)));
  destruct (decide (d_format (deriveType pm) = ""));
  rewrite ?index_insert_ne by done; apply index_insert_eq.
Qed.

Lemma formDataFromBodyParam_not_body pm : isBodyParam (formDataFromBodyParam pm) = false.
Proof. unfold isBodyParam. by rewrite formDataFromBodyParam_in. Qed.

(** The derived type is never empty; it is the type of the schema when
    the schema has one, and "string" for a schema without a type that is
    a reference. *)
Lemma deriveType_nonempty pm : d_typ (deriveType pm) ≠ "".
Proof.
  unfold deriveType.
  match goal with |- d_typ (if decide (d_typ ?x = "") then _ else _) ≠ _ =>
    generalize x; intros d end.
  by destruct (decide (d_typ d = "")).
Qed.

Lemma deriveType_schema_type pm sch t :
  asMap (index pm "schema") = Some sch →
  asStr (index sch "type") = Some t → t ≠ "" →
  d_typ (deriveType pm) = t.
Proof.
  intros Hs Ht Hne. unfold deriveType. rewrite Hs.
  assert (d_typ (deriveFrom sch {| d_typ := ""; d_format := ""; d_items := VNil |}) = t) as Hd.
  { unfold deriveFrom. by rewrite Ht. }
  revert Hd. generalize (deriveFrom sch {| d_typ := ""; d_format := ""; d_items := VNil |}).
  intros d Hd. rewrite Hd, bool_decide_eq_false_2 by done. simpl.
  rewrite Hd. destruct (decide (t = "")); [done|]. rewrite Hd.
  by destruct (decide (t = "")).
Qed.

Lemma deriveType_schema_ref pm sch :
  asMap (index pm "schema") = Some sch →
  default "" (asStr (index sch "type")) = "" →
  isNilAny (index sch "$ref") = false →
  d_typ (deriveType pm) = "string".
Proof.
  intros Hs Ht Href. unfold deriveType. rewrite Hs.
  assert (d_typ (deriveFrom sch {| d_typ := ""; d_format := ""; d_items := VNil |}) = "") as Hd.
  { unfold deriveFrom. simpl. destruct (asStr (index sch "type")); simpl in *; done. }
  revert Hd. generalize (deriveFrom sch {| d_typ := ""; d_format := ""; d_items := VNil |}).
  intros d Hd. rewrite Hd, Href. simpl. done.
Qed.
End RewriteOperation.

Section RewriteOperationBranches.
Implicit Types (pm op : gmap string any) (params : list any).

Lemma filter_none {A} (P : A → Prop) `{∀ x, Decision (P x)} (l : list A) :
  (∀ x, x ∈ l → ¬ P x) → filter P l = [].
Proof.
  induction l as [|x l IH]; intros Hall; [done|].
  rewrite filter_cons, decide_False by (apply Hall; left).
  apply IH. intros y Hy. apply Hall. by right.
Qed.

Lemma bodyCount_bodyParams params : bodyCount params = length (bodyParams params).
Proof. reflexivity. Qed.

Lemma containsString_snoc (l : list any) (s : string) :
  containsString (l ++ [VStr s]) s = true.
Proof.
  unfold containsString. rewrite existsb_app. simpl.
  rewrite bool_decide_eq_true_2 by done. by rewrite orb_true_r.
Qed.

(** The branch of the mixed parameters. *)
Lemma convertBodyToFormData_spec op params :
  (1 <= bodyCount params)%nat →
  let r := convertBodyToFormData op params in
  r.2 = true ∧
  parametersOf r.1 =
    VMap <$> ((fun pm => if isBodyParam pm then formDataFromBodyParam pm else pm)
                <$> paramMaps params) ∧
  bodyCount (parametersOf r.1) = 0%nat ∧
  containsString (consumesOf r.1) "multipart/form-data" = true ∧
  (∀ k, k ≠ "parameters" → k ≠ "consumes" → r.1 !! k = op !! k).
Proof.
  intros Hb r. subst r. unfold convertBodyToFormData.
  set (newParams := (fun pm => if isBodyParam pm then VMap (formDataFromBodyParam pm) else VMap pm)
                      <$> paramMaps params).
  assert (newParams = VMap <$> ((fun pm => if isBodyParam pm then formDataFromBodyParam pm else pm)
                                  <$> paramMaps params)) as HnewP.
  { subst newParams. rewrite <- list_fmap_compose. apply list_fmap_ext.
    intros _ pm _. simpl. by destruct (isBodyParam pm). }
  assert (bodyCount newParams = 0%nat) as Hcount.
  { rewrite HnewP. unfold bodyCount. rewrite paramMaps_VMap.
    apply length_zero_iff_nil, filter_none.
    intros x (pm & -> & _)%list_elem_of_fmap. destruct (isBodyParam pm) eqn:E.
    - by rewrite formDataFromBodyParam_not_body.
    - by rewrite E. }
  rewrite (index_insert_ne _ "parameters" "consumes") by done.
  destruct (containsString (default [] (asSeq (index op "consumes"))) "multipart/form-data") eqn:Hc;
    cbn [fst snd].
  - split; [by apply bodyCount_existsb|].
    unfold parametersOf, consumesOf.
    rewrite index_insert_eq, (index_insert_ne _ "parameters" "consumes") by done. simpl.
    repeat split; try done.
    intros k Hk _. by rewrite lookup_insert_ne.
  - split; [by apply bodyCount_existsb|].
    unfold parametersOf, consumesOf.
    rewrite index_insert_eq, (index_insert_ne _ "consumes" "parameters"), index_insert_eq by done.
    simpl. repeat split; try done.
    + apply containsString_snoc.
    + intros k Hk1 Hk2. by rewrite !lookup_insert_ne.
Qed.

(** The three components of the state of the merging loop. *)
Lemma mergeLoop_from (st : mergeState) params :
  foldl mergeStep st params =
  {| ms_props :=
       foldl (fun m pm => <[ bodyName pm := VMap (bodySchemaOf pm) ]> m)
             (ms_props st) (bodyParams params);
     ms_required :=
       ms_required st ++
       ((fun pm => VStr (bodyName pm)) <$>
          filter (fun pm => asBool (index pm "required") = Some true) (bodyParams params));
     ms_newParams :=
       ms_newParams st ++
       (VMap <$> filter (fun pm => isBodyParam pm = false) (paramMaps params)) |}.
Proof.
  revert st. induction params as [|p params IH]; intros st.
  { destruct st. simpl. by rewrite !app_nil_r. }
  cbn [foldl]. rewrite IH. unfold mergeStep at 1 2 3, bodyParams, paramMaps.
  destruct p as [| | | | |pm|]; cbn [asMap omap list_omap]; try reflexivity.
  fold (paramMaps params). rewrite !filter_cons.
  destruct (isBodyParam pm) eqn:E; cbn [ms_props ms_required ms_newParams].
  - rewrite decide_True by done. rewrite decide_False by done. cbn [foldl].
    f_equal. rewrite filter_cons.
    destruct (asBool (index pm "required")) as [[]|] eqn:Er.
    + rewrite decide_True by done. rewrite fmap_cons, <- app_assoc. reflexivity.
    + rewrite decide_False by done. reflexivity.
    + rewrite decide_False by done. reflexivity.
  - rewrite decide_False by done. rewrite decide_True by done.
    f_equal. rewrite fmap_cons, <- app_assoc.
    destruct pm; reflexivity.
Qed.

(** A property for every name of a body parameter, holding the schema of
    the last body parameter of that name. *)
Lemma merged_props_lookup (l : list (gmap string any)) (n : string) :
  foldl (fun (m : gmap string any) pm => <[ bodyName pm := VMap (bodySchemaOf pm) ]> m) ∅ l !! n =
  (fun pm => VMap (bodySchemaOf pm)) <$> last (filter (fun pm => bodyName pm = n) l).
Proof.
  induction l as [|pm l IH] using rev_ind; [done|].
  rewrite foldl_app, filter_app, filter_cons, filter_nil. cbn [foldl].
  destruct (decide (bodyName pm = n)) as [->|Hne].
  - by rewrite lookup_insert_eq, last_snoc.
  - by rewrite lookup_insert_ne, app_nil_r.
Qed.
End RewriteOperationBranches.

Section RewriteOperationSpec.
Implicit Types (pm op : gmap string any) (params : list any).

(** The dispatch of [rewriteOperation] on the two counters. *)
Lemma parametersOf_Some op params :
  asSeq (index op "parameters") = Some params → parametersOf op = params.
Proof. intros H. unfold parametersOf. by rewrite H. Qed.

Lemma parametersOf_None op :
  asSeq (index op "parameters") = None → parametersOf op = [].
Proof. intros H. unfold parametersOf. by rewrite H. Qed.

Lemma rewriteOperation_mixed op :
  (1 <= bodyCount (parametersOf op))%nat →
  hasFormData (parametersOf op) = true →
  rewriteOperation op = convertBodyToFormData op (parametersOf op).
Proof.
  intros Hb Hf. unfold rewriteOperation.
  destruct (asSeq (index op "parameters")) as [params|] eqn:E.
  - rewrite (parametersOf_Some _ _ E) in *.
    destruct (decide (length params = 0)%nat) as [Hl|_].
    { apply length_zero_iff_nil in Hl. subst. change (bodyCount []) with 0%nat in Hb. lia. }
    destruct (decide (bodyCount params = 0)%nat); [lia|]. by rewrite Hf.
  - rewrite (parametersOf_None _ E) in Hb. change (bodyCount []) with 0%nat in Hb. lia.
Qed.

Lemma rewriteOperation_multi op :
  (1 < bodyCount (parametersOf op))%nat →
  hasFormData (parametersOf op) = false →
  rewriteOperation op = mergeBodyParams op (parametersOf op).
Proof.
  intros Hb Hf. unfold rewriteOperation.
  destruct (asSeq (index op "parameters")) as [params|] eqn:E.
  - rewrite (parametersOf_Some _ _ E) in *.
    destruct (decide (length params = 0)%nat) as [Hl|_].
    { apply length_zero_iff_nil in Hl. subst. change (bodyCount []) with 0%nat in Hb. lia. }
    destruct (decide (bodyCount params = 0)%nat); [lia|]. rewrite Hf.
    by destruct (decide (1 < bodyCount params)%nat).
  - rewrite (parametersOf_None _ E) in Hb. change (bodyCount []) with 0%nat in Hb. lia.
Qed.

Lemma rewriteOperation_unmodified op :
  ¬ needsRewrite op → rewriteOperation op = (op, false).
Proof.
  intros Hn. unfold needsRewrite in Hn. unfold rewriteOperation.
  destruct (asSeq (index op "parameters")) as [params|] eqn:E; [|done].
  rewrite (parametersOf_Some _ _ E) in Hn.
  destruct (decide (length params = 0)%nat); [done|].
  destruct (decide (bodyCount params = 0)%nat); [done|].
  destruct (hasFormData params) eqn:Hf.
  { exfalso. apply Hn. split; [lia|by left]. }
  destruct (decide (1 < bodyCount params)%nat); [|done].
  exfalso. apply Hn. split; [lia|by right].
Qed.

Lemma rewriteOperation_modified op :
  needsRewrite op → (rewriteOperation op).2 = true.
Proof.
  intros [Hb [Hf|Hm]].
  - rewrite rewriteOperation_mixed by done.
    by destruct (convertBodyToFormData_spec op (parametersOf op) Hb) as [? _].
  - destruct (hasFormData (parametersOf op)) eqn:Hf.
    + rewrite rewriteOperation_mixed by done.
      by destruct (convertBodyToFormData_spec op (parametersOf op) Hb) as [? _].
    + rewrite rewriteOperation_multi by done. simpl. by apply bodyCount_existsb.
Qed.

Lemma rewriteOperation_modified_iff op :
  (rewriteOperation op).2 = true ↔ needsRewrite op.
Proof.
  split; [|apply rewriteOperation_modified].
  intros H. destruct (decide (needsRewrite op)) as [|Hn]; [done|].
  by rewrite (rewriteOperation_unmodified _ Hn) in H.
Qed.

Lemma parametersOf_insert op (l : list any) :
  parametersOf (<[ "parameters" := VSeq l ]> op) = l.
Proof. unfold parametersOf. by rewrite index_insert_eq. Qed.

Lemma paramMaps_cons_VMap (m : gmap string any) (l : list any) :
  paramMaps (VMap m :: l) = m :: paramMaps l.
Proof. reflexivity. Qed.

(** The branch of the several body parameters. *)
Lemma mergeBodyParams_spec op params :
  (1 <= bodyCount params)%nat →
  let r := mergeBodyParams op params in
  r.2 = true ∧
  ∃ merged,
    parametersOf r.1 =
      VMap merged :: (VMap <$> filter (fun pm => isBodyParam pm = false) (paramMaps params)) ∧
    bodyParams (parametersOf r.1) = [merged] ∧
    index merged "in" = VStr "body" ∧
    index merged "name" = VStr "body" ∧
    index (schemaOf merged) "type" = VStr "object" ∧
    (∀ n, propertiesOf (schemaOf merged) !! n =
          (fun pm => VMap (bodySchemaOf pm)) <$>
            last (filter (fun pm => bodyName pm = n) (bodyParams params))) ∧
    requiredOf (schemaOf merged) =
      ((fun pm => VStr (bodyName pm)) <$>
         filter (fun pm => asBool (index pm "required") = Some true) (bodyParams params)) ∧
    (∀ k, k ≠ "parameters" → r.1 !! k = op !! k).
Proof.
  intros Hb r. subst r. unfold mergeBodyParams. cbn [fst snd].
  split; [by apply bodyCount_existsb|].
  unfold mergeLoop. rewrite mergeLoop_from. cbn [ms_props ms_required ms_newParams].
  rewrite !app_nil_l.
  set (props := foldl _ ∅ (bodyParams params)).
  set (required := _ <$> filter _ (bodyParams params)).
  set (rest := VMap <$> _).
  set (st := {| ms_props := props; ms_required := required; ms_newParams := rest |}).
  exists (mergedBodyParam st).
  assert (index (mergedBodyParam st) "in" = VStr "body") as Hin by reflexivity.
  assert (schemaOf (mergedBodyParam st) =
          if decide (0 < length required)%nat
          then <[ "required" := VSeq required ]>
                 ({[ "type" := VStr "object"; "properties" := VMap props ]} : gmap string any)
          else {[ "type" := VStr "object"; "properties" := VMap props ]}) as Hschema
    by reflexivity.
  rewrite parametersOf_insert.
  split; [done|]. split.
  { unfold bodyParams. rewrite paramMaps_cons_VMap.
    subst rest. rewrite paramMaps_VMap, filter_cons.
    rewrite decide_True by (unfold isBodyParam; by rewrite Hin).
    f_equal. apply filter_none. intros pm [Hpm _]%list_elem_of_filter. by rewrite Hpm. }
  split; [done|]. split; [reflexivity|].
  rewrite Hschema. split; [|split; [|split]].
  - by destruct (decide (0 < length required)%nat).
  - intros n. subst props. rewrite <- merged_props_lookup.
    unfold propertiesOf. destruct (decide (0 < length required)%nat); reflexivity.
  - unfold requiredOf. destruct (decide (0 < length required)%nat) as [|Hz].
    + by rewrite index_insert_eq.
    + destruct required; [reflexivity|simpl in Hz; lia].
  - intros k Hk. by rewrite lookup_insert_ne.
Qed.

(** The properties of the merged schema are named by the body
    parameters. *)
Lemma merged_props_dom (l : list (gmap string any)) :
  dom (foldl (fun (m : gmap string any) pm => <[ bodyName pm := VMap (bodySchemaOf pm) ]> m) ∅ l)
  = list_to_set (bodyName <$> l).
Proof.
  induction l as [|pm l IH] using rev_ind; [apply dom_empty_L|].
  rewrite foldl_app, fmap_app, list_to_set_app_L. cbn [foldl].
  rewrite dom_insert_L, IH. set_solver.
Qed.

Lemma merged_props_size (l : list (gmap string any)) :
  NoDup (bodyName <$> l) →
  size (foldl (fun (m : gmap string any) pm => <[ bodyName pm := VMap (bodySchemaOf pm) ]> m) ∅ l)
  = length l.
Proof.
  intros Hnd. rewrite <- size_dom, merged_props_dom, size_list_to_set by done.
  by rewrite length_fmap.
Qed.
End RewriteOperationSpec.

(** ** The compatibility preprocessor: the document *)

Section PreprocessDocument.
Variable yaml_Unmarshal : string → error + gmap string any.
Variable yaml_Marshal : gmap string any → error + string.

Implicit Types (doc paths pi op : gmap string any).

Lemma rewritePathItem_lookup pi method op :
  pi !! method = Some (VMap op) → isV2Method method = true →
  ∃ pi', (rewritePathItem (VMap pi)).1 = VMap pi' ∧
         pi' !! method = Some (VMap (rewriteOperation op).1).
Proof.
  intros Hop Hm. eexists. split; [reflexivity|].
  rewrite map_lookup_imap, Hop. simpl. unfold rewriteEntry. by rewrite Hm.
Qed.

Lemma rewritePathItem_modified pi method op :
  pi !! method = Some (VMap op) → isV2Method method = true → needsRewrite op →
  (rewritePathItem (VMap pi)).2 = true.
Proof.
  intros Hop Hm Hn. simpl. apply bool_decide_eq_true_2.
  exists method, (VMap op). split; [done|]. unfold rewriteEntry. rewrite Hm. simpl.
  by apply rewriteOperation_modified.
Qed.

Lemma rewritePathItem_unmodified pim :
  (∀ pi method op, pim = VMap pi → pi !! method = Some (VMap op) →
                   isV2Method method = true → ¬ needsRewrite op) →
  (rewritePathItem pim).2 = false.
Proof.
  intros Hn. destruct pim as [| | | | |pi|]; try reflexivity. simpl.
  apply bool_decide_eq_false_2. intros (method & opm & Hop & Hmod).
  unfold rewriteEntry in Hmod.
  destruct (isV2Method method) eqn:Hm; [|done].
  destruct opm as [| | | | |op|]; try done. simpl in Hmod.
  apply rewriteOperation_modified_iff in Hmod. by eapply Hn.
Qed.

(** What the preprocessor returns for a document with an operation that
    needs a rewrite: the encoding of the document with the rewritten
    paths, in which that operation is the rewritten one. *)
Lemma preprocess_rewrites_operation data doc paths p pi method op :
  yaml_Unmarshal data = inr doc →
  asMap (index doc "paths") = Some paths →
  paths !! p = Some (VMap pi) →
  pi !! method = Some (VMap op) →
  isV2Method method = true →
  needsRewrite op →
  ∃ paths' pi',
    preprocessV2ForCompatibility yaml_Unmarshal yaml_Marshal data =
      match yaml_Marshal (<[ "paths" := VMap paths' ]> doc) with
      | inl err => (data, false, Some err)
      | inr out => (out, true, None)
      end ∧
    paths' !! p = Some (VMap pi') ∧
    pi' !! method = Some (VMap (rewriteOperation op).1).
Proof.
  intros Hy Hpaths Hp Hop Hm Hn.
  destruct (rewritePathItem_lookup pi method op Hop Hm) as (pi' & Hpi' & Hop').
  exists (rewritePaths paths).1, pi'. split; [|split; [|done]].
  - unfold preprocessV2ForCompatibility. rewrite Hy, Hpaths.
    destruct (decide (size paths = 0)%nat) as [Hz|_].
    { apply map_size_empty_iff in Hz. subst. by rewrite lookup_empty in Hp. }
    assert ((rewritePaths paths).2 = true) as ->; [|done].
    simpl. apply bool_decide_eq_true_2. exists p, (VMap pi). split; [done|].
    by eapply rewritePathItem_modified.
  - simpl. by rewrite lookup_fmap, Hp, <- Hpi'.
Qed.

Lemma preprocess_unmodified data doc :
  yaml_Unmarshal data = inr doc → noRewrite doc →
  preprocessV2ForCompatibility yaml_Unmarshal yaml_Marshal data = (data, false, None).
Proof.
  intros Hy Hn. unfold preprocessV2ForCompatibility. rewrite Hy.
  destruct (asMap (index doc "paths")) as [paths|] eqn:Hpaths; [|done].
  destruct (decide (size paths = 0)%nat); [done|].
  assert ((rewritePaths paths).2 = false) as ->; [|done].
  simpl. apply bool_decide_eq_false_2. intros (p & pim & Hp & Hmod).
  rewrite rewritePathItem_unmodified in Hmod; [done|].
  intros pi method op -> Hop Hm. by eapply Hn.
Qed.

(** C9, as the code has it. A text that is not YAML comes back unchanged,
    not modified, with the error of the decoder. A text that decodes to a
    document none of whose operations needs a rewrite (whatever its shape
    otherwise) comes back unchanged, not modified, without an error.
    Whenever the result is not modified the bytes are the input's; and
    the only errors reported are the decoder's and the encoder's. *)
Theorem preprocess_identity_when_unmodified (data : string) :
  let r := preprocessV2ForCompatibility yaml_Unmarshal yaml_Marshal data in
  (∀ err, yaml_Unmarshal data = inl err → r = (data, false, Some err)) ∧
  (∀ doc, yaml_Unmarshal data = inr doc → noRewrite doc → r = (data, false, None)) ∧
  (r.1.2 = false → r.1.1 = data) ∧
  (∀ err, r.2 = Some err →
     r.1 = (data, false) ∧
     (yaml_Unmarshal data = inl err ∨
      ∃ doc paths', yaml_Unmarshal data = inr doc ∧
                    yaml_Marshal (<[ "paths" := VMap paths' ]> doc) = inl err)).
Proof.
  intros r. subst r. split; [|split; [|split]].
  - intros err Hy. unfold preprocessV2ForCompatibility. by rewrite Hy.
  - intros doc Hy Hn. by eapply preprocess_unmodified.
  - unfold preprocessV2ForCompatibility.
    destruct (yaml_Unmarshal data) as [err|doc]; [done|].
    destruct (asMap (index doc "paths")) as [paths|]; [|done].
    destruct (decide (size paths = 0)%nat); [done|].
    destruct (negb (rewritePaths paths).2); [done|].
    by destruct (yaml_Marshal _).
  - intros err. unfold preprocessV2ForCompatibility.
    destruct (yaml_Unmarshal data) as [err'|doc] eqn:Hy.
    { intros [= ->]. split; [done|by left]. }
    destruct (asMap (index doc "paths")) as [paths|]; [|done].
    destruct (decide (size paths = 0)%nat); [done|].
    destruct (negb (rewritePaths paths).2); [done|].
    destruct (yaml_Marshal _) as [err'|out] eqn:Hm; [|done].
    intros [= ->]. split; [done|]. right. eauto.
Qed.
End PreprocessDocument.
Lemma noRewrite_v2DocWith (op : gmap string any) :
  ¬ needsRewrite op → noRewrite (v2DocWith op).
Proof.
  intros Hn paths p pi method op' Hpaths Hp Hop _.
  unfold v2DocWith, index in Hpaths. simpl in Hpaths.
  rewrite lookup_insert_ne, lookup_insert_ne, lookup_insert_eq in Hpaths by done.
  simpl in Hpaths. injection Hpaths as <-.
  apply lookup_insert_Some in Hp as [[_ Hp]|[_ Hp]]; [|by rewrite lookup_empty in Hp].
  injection Hp as <-.
  apply lookup_insert_Some in Hop as [[_ Hop]|[_ Hop]]; [|by rewrite lookup_empty in Hop].
  by injection Hop as <-.
Qed.

(** A document with a single body parameter comes back as it was. *)
Lemma preprocess_identity_when_unmodified_witness :
  preprocessV2ForCompatibility (decodesTo (v2DocWith plainOp)) encodes "swagger: 2.0"
  = ("swagger: 2.0", false, None).
Proof.
  apply (proj1 (proj2 (preprocess_identity_when_unmodified
                         (decodesTo (v2DocWith plainOp)) encodes "swagger: 2.0"))
           (v2DocWith plainOp) eq_refl).
  apply noRewrite_v2DocWith. intros [_ [H|H]]; vm_compute in H; [discriminate|lia].
Defined.

(** The claim as stated fails: for a text that is not YAML the preprocessor
    does report an error (with the text unchanged and not modified). *)
Lemma preprocess_reports_decoder_error :
  preprocessV2ForCompatibility rejects encodes brokenRaw
  = (brokenRaw, false, Some "yaml: line 1: did not find expected node content").
Proof. reflexivity. Qed.

(** ** The compatibility preprocessor: the two rewrites *)

Section Rewrites.
Variable yaml_Unmarshal : string → error + gmap string any.
Variable yaml_Marshal : gmap string any → error + string.

Implicit Types (doc paths pi op pm : gmap string any).

Lemma formDataFromBodyParam_items pm :
  index (formDataFromBodyParam pm) "items" = d_items (deriveType pm).
Proof.
  unfold formDataFromBodyParam.
  destruct (asStr (index pm "description")) as [desc|];
  [destruct (decide (desc = ""))|];
  destruct (asBool (index pm "required"));
  destruct (isNilAny (d_items (deriveType pm))) eqn:Hi;
  destruct (decide (d_format (deriveType pm) = ""));
  rewrite ?index_insert_ne by done;
  try apply index_insert_eq;
  destruct (d_items (deriveType pm)); try discriminate; reflexivity.
Qed.

Lemma formDataFromBodyParam_format pm :
  index (formDataFromBodyParam pm) "format" =
  if decide (d_format (deriveType pm) = "") then VNil else VStr (d_format (deriveType pm)).
Proof.
  unfold formDataFromBodyParam.
  destruct (asStr (index pm "description")) as [desc|];
  [destruct (decide (desc = ""))|];
  destruct (asBool (index pm "required"));
  destruct (isNilAny (d_items (deriveType pm)));
  destruct (decide (d_format (deriveType pm) = ""));
  rewrite ?index_insert_ne by done;
  try apply index_insert_eq; reflexivity.
Qed.

(** With a type in the schema, type, format and items all come from the
    schema. *)
Lemma deriveType_from_schema pm sch t :
  asMap (index pm "schema") = Some sch →
  asStr (index sch "type") = Some t → t ≠ "" →
  deriveType pm =
  {| d_typ := t;
     d_format := default "" (asStr (index sch "format"));
     d_items := match asMap (index sch "items") with Some it => VMap it | None => VNil end |}.
Proof.
  intros Hs Ht Hne. unfold deriveType. rewrite Hs.
  assert (deriveFrom sch {| d_typ := ""; d_format := ""; d_items := VNil |} =
          {| d_typ := t;
             d_format := default "" (asStr (index sch "format"));
             d_items := match asMap (index sch "items") with
                        | Some it => VMap it | None => VNil end |}) as ->.
  { unfold deriveFrom. rewrite Ht. simpl. by destruct (asStr (index sch "format")). }
  simpl. rewrite bool_decide_eq_false_2 by done. simpl.
  destruct (decide (t = "")); [done|]. simpl.
  by destruct (decide (t = "")).
Qed.

(** The type of the formData parameter made from a body parameter: the
    type of the schema when it is a non-empty string; else "string" for a
    schema with a [$ref]; else the type of the parameter itself; and
    "string" when there is none. *)
Lemma deriveType_typ (pm : gmap string any) :
  d_typ (deriveType pm) =
  let own := if decide (asString (index pm "type") = "") then "string"
             else asString (index pm "type") in
  match asMap (index pm "schema") with
  | Some sch =>
      if decide (asString (index sch "type") = "")
      then if isNilAny (index sch "$ref") then own else "string"
      else asString (index sch "type")
  | None => own
  end.
Proof.
  pose (finish := fun x : derived =>
          let d := if decide (d_typ x = "") then deriveFrom pm x else x in
          if decide (d_typ d = "")
          then {| d_typ := "string"; d_format := d_format d; d_items := d_items d |}
          else d).
  assert (∀ x, d_typ (finish x) =
               if decide (d_typ x = "")
               then if decide (asString (index pm "type") = "") then "string"
                    else asString (index pm "type")
               else d_typ x) as Hfinish.
  { intros x. unfold finish. destruct (decide (d_typ x = "")) as [Hx|Hx].
    - assert (d_typ (deriveFrom pm x) = asString (index pm "type")) as Hown.
      { unfold deriveFrom, asString. cbn [d_typ].
        destruct (index pm "type"); cbn [asStr]; done. }
      cbv zeta. rewrite Hown.
      destruct (decide (asString (index pm "type") = "")); [done|]. by rewrite Hown.
    - cbv zeta. by rewrite decide_False. }
  change (deriveType pm) with
    (finish (match asMap (index pm "schema") with
             | Some sch =>
                 let d := deriveFrom sch {| d_typ := ""; d_format := ""; d_items := VNil |} in
                 if (bool_decide (d_typ d = "") && negb (isNilAny (index sch "$ref")))%bool
                 then {| d_typ := "string"; d_format := d_format d; d_items := d_items d |}
                 else d
             | None => {| d_typ := ""; d_format := ""; d_items := VNil |}
             end)).
  rewrite Hfinish. cbv zeta.
  destruct (asMap (index pm "schema")) as [sch|]; [|by rewrite decide_True].
  set (d0 := deriveFrom sch _).
  assert (d_typ d0 = asString (index sch "type")) as Hd0.
  { subst d0. unfold deriveFrom, asString. cbn [d_typ].
    by destruct (index sch "type"). }
  rewrite <- Hd0. destruct (decide (d_typ d0 = "")) as [E|E].
  - rewrite bool_decide_eq_true_2 by done.
    destruct (isNilAny (index sch "$ref")); cbn [negb andb d_typ].
    + by rewrite decide_True.
    + by rewrite decide_False.
  - rewrite bool_decide_eq_false_2 by done. cbn [andb]. by rewrite decide_False.
Qed.

(** C3, as the code has it. In a Swagger v2 document, for an operation
    (under one of the seven v2 methods) whose parameters hold a body
    parameter and a formData parameter, the preprocessor encodes the
    document in which that operation has: every body parameter replaced,
    in place, by a formData parameter of the same name ("field" when it
    has none); no body parameter left; and a [consumes] list that
    contains multipart/form-data. The type of such a formData parameter
    is never empty. It is the type of the schema when that is a non-empty
    string, whatever the type is (format and items then come from the
    schema too); else "string" when the schema has a [$ref]; else the
    type of the body parameter itself; and "string" when there is
    none. *)
Theorem mixed_body_formData_converted data doc paths p pi method op :
  yaml_Unmarshal data = inr doc →
  asMap (index doc "paths") = Some paths →
  paths !! p = Some (VMap pi) →
  pi !! method = Some (VMap op) →
  isV2Method method = true →
  (1 <= bodyCount (parametersOf op))%nat →
  hasFormData (parametersOf op) = true →
  ∃ paths' pi' op',
    preprocessV2ForCompatibility yaml_Unmarshal yaml_Marshal data =
      match yaml_Marshal (<[ "paths" := VMap paths' ]> doc) with
      | inl err => (data, false, Some err)
      | inr out => (out, true, None)
      end ∧
    paths' !! p = Some (VMap pi') ∧
    pi' !! method = Some (VMap op') ∧
    parametersOf op' =
      VMap <$> ((fun pm => if isBodyParam pm then formDataFromBodyParam pm else pm)
                  <$> paramMaps (parametersOf op)) ∧
    bodyParams (parametersOf op') = [] ∧
    containsString (consumesOf op') "multipart/form-data" = true ∧
    (∀ pm, pm ∈ bodyParams (parametersOf op) →
       index (formDataFromBodyParam pm) "in" = VStr "formData" ∧
       index (formDataFromBodyParam pm) "name" = VStr (bodyName pm) ∧
       index (formDataFromBodyParam pm) "type" = VStr (d_typ (deriveType pm)) ∧
       index (formDataFromBodyParam pm) "items" = d_items (deriveType pm) ∧
       index (formDataFromBodyParam pm) "format" =
         (if decide (d_format (deriveType pm) = "") then VNil
          else VStr (d_format (deriveType pm))) ∧
       d_typ (deriveType pm) ≠ "" ∧
       (∀ sch t, asMap (index pm "schema") = Some sch →
                 asStr (index sch "type") = Some t → t ≠ "" →
                 deriveType pm =
                 {| d_typ := t;
                    d_format := default "" (asStr (index sch "format"));
                    d_items := match asMap (index sch "items") with
                               | Some it => VMap it | None => VNil end |}) ∧
       (∀ sch, asMap (index pm "schema") = Some sch →
               default "" (asStr (index sch "type")) = "" →
               isNilAny (index sch "$ref") = false →
               d_typ (deriveType pm) = "string") ∧
       d_typ (deriveType pm) =
         (let own := if decide (asString (index pm "type") = "") then "string"
                     else asString (index pm "type") in
          match asMap (index pm "schema") with
          | Some sch =>
              if decide (asString (index sch "type") = "")
              then if isNilAny (index sch "$ref") then own else "string"
              else asString (index sch "type")
          | None => own
          end)).
Proof.
  intros Hy Hpaths Hp Hop Hm Hb Hf.
  destruct (preprocess_rewrites_operation yaml_Unmarshal yaml_Marshal
              data doc paths p pi method op Hy Hpaths Hp Hop Hm)
    as (paths' & pi' & Hres & Hp' & Hop').
  { split; [done|by left]. }
  exists paths', pi', (rewriteOperation op).1.
  rewrite rewriteOperation_mixed in * by done.
  destruct (convertBodyToFormData_spec op (parametersOf op) Hb) as (_ & Hparams & Hcount & Hcons & _).
  split; [done|]. split; [done|]. split; [done|]. split; [done|].
  split; [by apply length_zero_iff_nil|]. split; [done|].
  intros pm _.
  split; [apply formDataFromBodyParam_in|].
  split; [apply formDataFromBodyParam_name|].
  split; [apply formDataFromBodyParam_type|].
  split; [apply formDataFromBodyParam_items|].
  split; [apply formDataFromBodyParam_format|].
  split; [apply deriveType_nonempty|].
  split; [apply deriveType_from_schema|].
  split; [apply deriveType_schema_ref|apply deriveType_typ].
Qed.

(** C2, as the code has it. In a Swagger v2 document, for an operation
    (under one of the seven v2 methods) whose parameters hold two or more
    body parameters and no formData parameter, the preprocessor encodes
    the document in which that operation has exactly one body parameter,
    named "body", put first, followed by the other parameters; its schema
    is an object whose properties are named by the body parameters
    ("field" for one without a name): one property per distinct name,
    holding the schema of the last body parameter of that name, hence one
    per body parameter when their names differ; and whose required list
    names, in order, the body parameters marked required. *)
Theorem multiple_body_parameters_merged data doc paths p pi method op :
  yaml_Unmarshal data = inr doc →
  asMap (index doc "paths") = Some paths →
  paths !! p = Some (VMap pi) →
  pi !! method = Some (VMap op) →
  isV2Method method = true →
  (2 <= bodyCount (parametersOf op))%nat →
  hasFormData (parametersOf op) = false →
  ∃ paths' pi' op' merged,
    preprocessV2ForCompatibility yaml_Unmarshal yaml_Marshal data =
      match yaml_Marshal (<[ "paths" := VMap paths' ]> doc) with
      | inl err => (data, false, Some err)
      | inr out => (out, true, None)
      end ∧
    paths' !! p = Some (VMap pi') ∧
    pi' !! method = Some (VMap op') ∧
    parametersOf op' =
      VMap merged ::
      (VMap <$> filter (fun pm => isBodyParam pm = false) (paramMaps (parametersOf op))) ∧
    bodyParams (parametersOf op') = [merged] ∧
    index merged "in" = VStr "body" ∧
    index merged "name" = VStr "body" ∧
    index (schemaOf merged) "type" = VStr "object" ∧
    dom (propertiesOf (schemaOf merged)) =
      list_to_set (bodyName <$> bodyParams (parametersOf op)) ∧
    (∀ n, propertiesOf (schemaOf merged) !! n =
          (fun pm => VMap (bodySchemaOf pm)) <$>
            last (filter (fun pm => bodyName pm = n) (bodyParams (parametersOf op)))) ∧
    (NoDup (bodyName <$> bodyParams (parametersOf op)) →
     size (propertiesOf (schemaOf merged)) = bodyCount (parametersOf op)) ∧
    requiredOf (schemaOf merged) =
      ((fun pm => VStr (bodyName pm)) <$>
         filter (fun pm => asBool (index pm "required") = Some true)
                (bodyParams (parametersOf op))).
Proof.
  intros Hy Hpaths Hp Hop Hm Hb Hf.
  destruct (preprocess_rewrites_operation yaml_Unmarshal yaml_Marshal
              data doc paths p pi method op Hy Hpaths Hp Hop Hm)
    as (paths' & pi' & Hres & Hp' & Hop').
  { split; [lia|right; lia]. }
  rewrite rewriteOperation_multi in Hop' by (done || lia).
  destruct (mergeBodyParams_spec op (parametersOf op)) as
    (_ & merged & Hparams & Hone & Hin & Hname & Htype & Hprops & Hreq & _); [lia|].
  exists paths', pi', (mergeBodyParams op (parametersOf op)).1, merged.
  assert (dom (propertiesOf (schemaOf merged)) =
          list_to_set (bodyName <$> bodyParams (parametersOf op))) as Hdom.
  { rewrite <- merged_props_dom. apply set_eq. intros n.
    rewrite !elem_of_dom, Hprops, merged_props_lookup. done. }
  repeat (split; [done|]). split; [|done].
  intros Hnd. rewrite <- size_dom, Hdom, size_list_to_set by done.
  by rewrite length_fmap.
Qed.
End Rewrites.

(** The document of [TestV2Compat_BodyAndFormData_ToFormData]: the body
    parameter [desc] becomes a formData parameter of type string, and
    [consumes] holds multipart/form-data. *)
Lemma mixed_body_formData_converted_witness :
  ∃ paths' pi' op' : gmap string any,
    preprocessV2ForCompatibility (decodesTo (v2DocWith uploadOp)) encodes "swagger: 2.0"
      = ("# rewritten", true, None) ∧
    paths' !! "/x" = Some (VMap pi') ∧
    pi' !! "post" = Some (VMap op') ∧
    bodyParams (parametersOf op') = [] ∧
    containsString (consumesOf op') "multipart/form-data" = true.
Proof.
  destruct (mixed_body_formData_converted (decodesTo (v2DocWith uploadOp)) encodes
              "swagger: 2.0" (v2DocWith uploadOp)
              (list_to_map [("/x", anyMap [("post", VMap uploadOp)])])
              "/x" (list_to_map [("post", VMap uploadOp)]) "post" uploadOp)
    as (paths' & pi' & op' & Hres & Hp & Hop & _ & Hnone & Hcons & _).
  - reflexivity.
  - reflexivity.
  - reflexivity.
  - reflexivity.
  - reflexivity.
  - vm_compute. lia.
  - reflexivity.
  - exists paths', pi', op'. repeat split; done.
Defined.

(** The document of [TestV2Compat_MultipleBodyMerged]: one body parameter
    named "body" with the two properties [a] and [b], of which [a] is
    required. *)
Lemma multiple_body_parameters_merged_witness :
  ∃ merged : gmap string any,
    index merged "name" = VStr "body" ∧
    dom (propertiesOf (schemaOf merged)) = {[ "a"; "b" ]} ∧
    size (propertiesOf (schemaOf merged)) = 2%nat ∧
    requiredOf (schemaOf merged) = [VStr "a"].
Proof.
  destruct (multiple_body_parameters_merged (decodesTo (v2DocWith twoBodiesOp)) encodes
              "swagger: 2.0" (v2DocWith twoBodiesOp)
              (list_to_map [("/x", anyMap [("post", VMap twoBodiesOp)])])
              "/x" (list_to_map [("post", VMap twoBodiesOp)]) "post" twoBodiesOp)
    as (paths' & pi' & op' & merged & _ & _ & _ & _ & _ & _ & Hname & _ & Hdom & _ & Hsize & Hreq).
  - reflexivity.
  - reflexivity.
  - reflexivity.
  - reflexivity.
  - reflexivity.
  - vm_compute. lia.
  - reflexivity.
  - exists merged. split; [exact Hname|]. split; [|split].
    + rewrite Hdom. vm_compute. reflexivity.
    + rewrite Hsize; [reflexivity|]. vm_compute. repeat constructor; set_solver.
    + rewrite Hreq. reflexivity.
Defined.

(** The claim as stated fails: two body parameters without a name are
    merged into a schema with the single property "field". *)
Lemma unnamed_body_parameters_share_one_property :
  bodyCount (parametersOf unnamedBodiesOp) = 2%nat ∧
  hasFormData (parametersOf unnamedBodiesOp) = false ∧
  ∃ merged : gmap string any,
    bodyParams (parametersOf (rewriteOperation unnamedBodiesOp).1) = [merged] ∧
    size (propertiesOf (schemaOf merged)) = 1%nat ∧
    propertiesOf (schemaOf merged) !! "field" = Some (anyMap [("type", VStr "integer")]).
Proof.
  split; [reflexivity|]. split; [reflexivity|].
  eexists. split; [vm_compute; reflexivity|]. split; vm_compute; reflexivity.
Qed.

(** The claim as stated fails: the schema of the body parameter [meta] is
    an inline object, which a formData parameter cannot represent; its
    type is copied all the same, and the formData parameter made of it has
    the type "object", not "string". *)
Lemma inline_object_schema_keeps_its_type :
  bodyCount (parametersOf objectUploadOp) = 1%nat ∧
  hasFormData (parametersOf objectUploadOp) = true ∧
  (fun pm => (index pm "in", index pm "name", index pm "type"))
    <$> paramMaps (parametersOf (rewriteOperation objectUploadOp).1)
  = [ (VStr "formData", VStr "meta", VStr "object");
      (VStr "formData", VStr "file", VStr "file") ].
Proof.
  split; [reflexivity|]. split; [reflexivity|]. vm_compute. reflexivity.
Qed.

(** ** Orders and sorting *)

Section StringOrder.
Lemma String_compare_refl (s : string) : String.compare s s = Eq.
Proof.
  induction s as [|c s IH]; simpl; [done|].
  unfold Ascii.compare. by rewrite N.compare_refl.
Qed.

Lemma String_ltb_le_ne (a b : string) :
  String.ltb a b = true ↔ String.le a b ∧ a ≠ b.
Proof.
  unfold String.le, String.ltb, String.leb.
  destruct (String.compare a b) eqn:E.
  - apply String.compare_eq_iff in E as ->. split; [done|]. intros [_ H]. done.
  - split; [|done]. intros _. split; [done|]. intros ->.
    by rewrite String_compare_refl in E.
  - split; [done|]. by intros [[] _].
Qed.

Lemma String_negb_ltb (a b : string) : negb (String.ltb b a) = String.leb a b.
Proof.
  unfold String.ltb, String.leb. rewrite (String.compare_antisym b a).
  by destruct (String.compare a b).
Qed.

Lemma strLt_le_ne (a b : string) : strLt a b ↔ String.le a b ∧ a ≠ b.
Proof. apply String_ltb_le_ne. Qed.

Lemma strLt_irrefl (a : string) : ¬ strLt a a.
Proof. rewrite strLt_le_ne. by intros [_ H]. Qed.

Global Instance strLt_trans : Transitive strLt.
Proof.
  intros a b c. rewrite !strLt_le_ne. intros [H1 N1] [H2 N2].
  split; [by etrans|].
  intros ->. apply N1. by apply (anti_symm String.le).
Qed.

Lemma strLt_le (a b : string) : strLt a b → String.le a b.
Proof. rewrite strLt_le_ne. by intros [H _]. Qed.

Lemma strLt_asymm (a b : string) : strLt a b → strLt b a → False.
Proof. intros H1 H2. apply (strLt_irrefl a). by etrans. Qed.

Lemma strLt_total (a b : string) : strLt a b ∨ a = b ∨ strLt b a.
Proof.
  destruct (decide (a = b)) as [|Hne]; [by right; left|].
  destruct (total String.le a b).
  - left. by apply strLt_le_ne.
  - right; right. apply strLt_le_ne. split; [done|]. by intros ->.
Qed.
End StringOrder.

Section Sorting.
Context {A : Type}.

Lemma StronglySorted_strict (R : relation A) (l : list A) :
  StronglySorted R l → NoDup l → StronglySorted (fun a b => R a b ∧ a ≠ b) l.
Proof.
  induction 1 as [|x l Hs IH Hall]; intros Hnd; [constructor|].
  apply NoDup_cons in Hnd as [Hx Hnd]. constructor; [by apply IH|].
  rewrite Forall_forall in Hall |- *. intros y Hy. split; [by apply Hall|].
  by intros ->.
Qed.

Lemma StronglySorted_impl (R S : relation A) (l : list A) :
  (∀ a b, a ∈ l → b ∈ l → R a b → S a b) → StronglySorted R l → StronglySorted S l.
Proof.
  intros HRS. induction 1 as [|x l Hs IH Hall]; [constructor|].
  constructor.
  - apply IH. intros a b Ha Hb. apply HRS; by right.
  - rewrite Forall_forall in Hall |- *. intros y Hy.
    apply HRS; [by left|by right|by apply Hall].
Qed.

Lemma StronglySorted_fmap {B} (f : A → B) (R : relation B) (l : list A) :
  StronglySorted R (f <$> l) ↔ StronglySorted (fun a b => R (f a) (f b)) l.
Proof.
  induction l as [|x l IH]; [split; constructor|].
  rewrite fmap_cons. split; intros H.
  - apply StronglySorted_inv in H as [Hs Hall]. constructor; [by apply IH|].
    rewrite Forall_fmap in Hall. exact Hall.
  - apply StronglySorted_inv in H as [Hs Hall]. constructor; [by apply IH|].
    rewrite Forall_fmap. exact Hall.
Qed.
End Sorting.

Section SortStrings.
Lemma sort_Strings_Permutation (l : list string) : sort_Strings l ≡ₚ l.
Proof. apply merge_sort_Permutation. Qed.

Lemma sort_Strings_sorted (l : list string) : StronglySorted String.le (sort_Strings l).
Proof. apply (StronglySorted_merge_sort String.le); apply _. Qed.

(** A sorted list of strings depends on the strings only, not on their
    order before. *)
Lemma sort_Strings_proper (l1 l2 : list string) :
  l1 ≡ₚ l2 → sort_Strings l1 = sort_Strings l2.
Proof.
  intros Hp. apply (StronglySorted_unique String.le); try apply sort_Strings_sorted.
  by rewrite !sort_Strings_Permutation.
Qed.

Lemma sort_Strings_elem_of (l : list string) (s : string) : s ∈ sort_Strings l ↔ s ∈ l.
Proof. by rewrite sort_Strings_Permutation. Qed.

Lemma sort_Strings_strict (l : list string) :
  NoDup l → StronglySorted strLt (sort_Strings l).
Proof.
  intros Hnd.
  eapply StronglySorted_impl; [|apply StronglySorted_strict; [apply sort_Strings_sorted|]].
  - intros a b _ _ H. by apply strLt_le_ne.
  - by rewrite sort_Strings_Permutation.
Qed.
End SortStrings.
(** ** [strings.TrimSpace] is idempotent *)

Section TrimSpace.
Implicit Types (l p : list ascii) (pats : list (list ascii)).

Lemma isPrefixOf_spec p l : isPrefixOf p l = true ↔ p `prefix_of` l.
Proof.
  revert l. induction p as [|a p IH]; intros l; simpl.
  - split; [intros _; apply prefix_nil|done].
  - destruct l as [|b l].
    + split; [done|]. by intros ?%prefix_nil_not.
    + destruct (decide (a = b)) as [->|Hne].
      * rewrite IH. split; [apply prefix_cons|apply prefix_cons_inv_2].
      * split; [done|]. by intros ?%prefix_cons_inv_1.
Qed.

Lemma stripOne_Some pats l l' :
  stripOne pats l = Some l' → ∃ p, p ∈ pats ∧ l = p ++ l'.
Proof.
  induction pats as [|p pats IH]; simpl; [done|].
  destruct (isPrefixOf p l) eqn:E.
  - intros [= <-]. exists p. split; [by left|].
    apply isPrefixOf_spec in E as [k ->]. by rewrite drop_app_length.
  - intros (q & Hq & ->)%IH. exists q. split; [by right|done].
Qed.

Lemma stripOne_None pats l :
  stripOne pats l = None ↔ ∀ p, p ∈ pats → ¬ p `prefix_of` l.
Proof.
  induction pats as [|p pats IH]; simpl.
  - split; [|done]. by intros _ p ?%elem_of_nil.
  - destruct (isPrefixOf p l) eqn:E.
    + split; [done|]. intros H. exfalso. apply (H p); [by left|].
      by apply isPrefixOf_spec.
    + rewrite IH. split.
      * intros H q [->|Hq]%elem_of_cons; [|by apply H].
        rewrite <- isPrefixOf_spec. by rewrite E.
      * intros H q Hq. apply H. by right.
Qed.

Lemma trimRunes_suffix pats fuel l : trimRunes pats fuel l `suffix_of` l.
Proof.
  revert l. induction fuel as [|fuel IH]; intros l; simpl; [done|].
  destruct (stripOne pats l) as [l'|] eqn:E; [|done].
  apply stripOne_Some in E as (p & _ & ->).
  etrans; [apply IH|]. apply suffix_app_r. done.
Qed.

Lemma trimRunes_done pats fuel l :
  Forall (fun p => p ≠ []) pats → (length l <= fuel)%nat →
  stripOne pats (trimRunes pats fuel l) = None.
Proof.
  intros Hne. revert l. induction fuel as [|fuel IH]; intros l Hlen; simpl.
  - destruct l; [|simpl in Hlen; lia]. apply stripOne_None.
    intros p Hp Hpre%prefix_nil_inv. rewrite Forall_forall in Hne. by apply (Hne p).
  - destruct (stripOne pats l) as [l'|] eqn:E; [|done].
    apply IH. apply stripOne_Some in E as (p & Hp & ->).
    rewrite Forall_forall in Hne. specialize (Hne p Hp).
    rewrite length_app in Hlen. destruct p; [done|]. simpl in Hlen. lia.
Qed.

Lemma trimRunes_id pats fuel l : stripOne pats l = None → trimRunes pats fuel l = l.
Proof. intros H. destruct fuel; simpl; [done|]. by rewrite H. Qed.

Lemma spaceRunes_nonempty : Forall (fun p => p ≠ []) spaceRunes.
Proof. apply (bool_decide_unpack _). by vm_compute. Qed.

Lemma spaceRunes_reverse_nonempty : Forall (fun p => p ≠ []) (reverse <$> spaceRunes).
Proof. apply (bool_decide_unpack _). by vm_compute. Qed.

Lemma trimLeft_done l : stripOne spaceRunes (trimLeft l) = None.
Proof. apply trimRunes_done; [apply spaceRunes_nonempty|done]. Qed.

Lemma trim_twice l : trimRight (trimLeft (trimRight (trimLeft l))) = trimRight (trimLeft l).
Proof.
  set (a := trimLeft l).
  pose proof (trimLeft_done l) as Ha. fold a in Ha.
  unfold trimRight at 2.
  set (c := trimRunes (reverse <$> spaceRunes) (length a) (reverse a)).
  assert (stripOne (reverse <$> spaceRunes) c = None) as Hc.
  { apply trimRunes_done; [apply spaceRunes_reverse_nonempty|].
    by rewrite length_reverse. }
  assert (reverse c `prefix_of` a) as Hpre.
  { destruct (trimRunes_suffix (reverse <$> spaceRunes) (length a) (reverse a)) as [k Hk].
    fold c in Hk. exists (reverse k).
    rewrite <- (reverse_involutive a), Hk, reverse_app. done. }
  assert (trimLeft (reverse c) = reverse c) as ->.
  { apply trimRunes_id, stripOne_None. intros p Hp Hp'.
    apply stripOne_None with (p := p) in Ha; [|done]. apply Ha. by etrans. }
  unfold trimRight. rewrite reverse_involutive.
  by rewrite trimRunes_id.
Qed.

Lemma list_ascii_of_string_of_list (l : list ascii) :
  list_ascii_of_string (string_of_list_ascii l) = l.
Proof. apply list_ascii_of_string_of_list_ascii. Qed.

Lemma TrimSpace_idempotent (s : string) :
  strings_TrimSpace (strings_TrimSpace s) = strings_TrimSpace s.
Proof.
  unfold strings_TrimSpace. by rewrite list_ascii_of_string_of_list, trim_twice.
Qed.
End TrimSpace.

(** ** The builder: enumerating a map *)

Section Enumeration.
Variable enum : ∀ V : Type, gmap string V → list (string * V).
Hypothesis Henum : enumerates enum.
Context {V : Type}.
Implicit Types (m : gmap string V).

Lemma enum_keys_Permutation m : (enum V m).*1 ≡ₚ (map_to_list m).*1.
Proof. by rewrite (Henum V m). Qed.

Lemma enum_keys_NoDup m : NoDup (enum V m).*1.
Proof. rewrite enum_keys_Permutation. apply NoDup_fst_map_to_list. Qed.

Lemma elem_of_enum m k v : (k, v) ∈ enum V m ↔ m !! k = Some v.
Proof. by rewrite (Henum V m), elem_of_map_to_list. Qed.

Lemma elem_of_enum_keys m k : k ∈ (enum V m).*1 ↔ is_Some (m !! k).
Proof.
  rewrite list_elem_of_fmap. split.
  - intros ([k' v] & -> & H%elem_of_enum). by exists v.
  - intros [v Hv]. exists (k, v). split; [done|]. by apply elem_of_enum.
Qed.

Lemma elem_of_enum_values m v : v ∈ (enum V m).*2 ↔ ∃ k, m !! k = Some v.
Proof.
  rewrite list_elem_of_fmap. split.
  - intros ([k v'] & -> & H%elem_of_enum). by exists k.
  - intros [k Hk]. exists (k, v). split; [done|]. by apply elem_of_enum.
Qed.

Lemma sortedKeys_elem_of m k : k ∈ sortedKeys enum m ↔ is_Some (m !! k).
Proof. unfold sortedKeys. by rewrite sort_Strings_elem_of, elem_of_enum_keys. Qed.

Lemma sortedKeys_strict m : StronglySorted strLt (sortedKeys enum m).
Proof. apply sort_Strings_strict, enum_keys_NoDup. Qed.

Lemma sortedKeys_NoDup m : NoDup (sortedKeys enum m).
Proof. unfold sortedKeys. rewrite sort_Strings_Permutation. apply enum_keys_NoDup. Qed.
End Enumeration.

(** The sorted keys of a map do not depend on the order of the
    enumeration. *)
Lemma sortedKeys_independent (enum1 enum2 : ∀ V : Type, gmap string V → list (string * V))
    {V : Type} (m : gmap string V) :
  enumerates enum1 → enumerates enum2 → sortedKeys enum1 m = sortedKeys enum2 m.
Proof.
  intros H1 H2. apply sort_Strings_proper.
  by rewrite (enum_keys_Permutation enum1 H1), (enum_keys_Permutation enum2 H2).
Qed.

(** ** The builder: the order of the parameters *)

Section ParameterOrder.
Implicit Types (a b c : ParameterModel).

Lemma paramBefore_spec a b :
  paramBefore a b ↔
  strLt (pm_In a) (pm_In b) ∨ (pm_In a = pm_In b ∧ strLt (pm_Name a) (pm_Name b)).
Proof.
  unfold paramBefore, paramLess, strLt.
  destruct (decide (pm_In a = pm_In b)) as [E|Hne].
  - split; [by right|]. intros [H|[_ H]]; [|done].
    rewrite E in H. by apply strLt_irrefl in H.
  - split; [by left|]. by intros [H|[? _]].
Qed.

Lemma paramBefore_irrefl a : ¬ paramBefore a a.
Proof. rewrite paramBefore_spec. intros [H|[_ H]]; by apply strLt_irrefl in H. Qed.

Global Instance paramBefore_trans : Transitive paramBefore.
Proof.
  intros a b c. rewrite !paramBefore_spec.
  intros [H1|[E1 H1]] [H2|[E2 H2]].
  - left. by etrans.
  - left. by rewrite <- E2.
  - left. by rewrite E1.
  - right. split; [congruence|by etrans].
Qed.

Lemma paramBefore_asymm a b : paramBefore a b → paramBefore b a → False.
Proof. intros H1 H2. apply (paramBefore_irrefl a). by etrans. Qed.

Lemma paramBefore_total a b :
  paramBefore a b ∨ (pm_In a = pm_In b ∧ pm_Name a = pm_Name b) ∨ paramBefore b a.
Proof.
  rewrite !paramBefore_spec.
  destruct (strLt_total (pm_In a) (pm_In b)) as [H|[E|H]]; [by left; left| |by right; right; left].
  destruct (strLt_total (pm_Name a) (pm_Name b)) as [H|[E'|H]].
  - left. by right.
  - right. by left.
  - right. right. right. by split.
Qed.

Lemma notAfter_spec a b :
  notAfter a b ↔ paramBefore a b ∨ (pm_In a = pm_In b ∧ pm_Name a = pm_Name b).
Proof.
  unfold notAfter. rewrite negb_True, Is_true_true. fold (paramBefore b a). split.
  - intros Hn. destruct (paramBefore_total a b) as [H|[H|H]]; [by left|by right|done].
  - intros [H|[E1 E2]] H'; [by eapply paramBefore_asymm|].
    apply paramBefore_spec in H' as [H'|[_ H']].
    + rewrite E1 in H'. by apply strLt_irrefl in H'.
    + rewrite E2 in H'. by apply strLt_irrefl in H'.
Qed.

Global Instance notAfter_total : Total notAfter.
Proof.
  intros a b. rewrite !notAfter_spec.
  destruct (paramBefore_total a b) as [H|[[E1 E2]|H]]; [by left; left|left; by right|by right; left].
Qed.

Global Instance notAfter_trans : Transitive notAfter.
Proof.
  intros a b c. rewrite !notAfter_spec, !paramBefore_spec.
  intros [[H1|[E1 H1]]|[E1 F1]] [[H2|[E2 H2]]|[E2 F2]].
  - left; left. by etrans.
  - left; left. by rewrite <- E2.
  - left; left. by rewrite <- E2.
  - left; left. by rewrite E1.
  - left; right. split; [congruence|by etrans].
  - left; right. split; [congruence|by rewrite <- F2].
  - left; left. by rewrite E1.
  - left; right. split; [congruence|by rewrite F1].
  - right. split; congruence.
Qed.

Lemma keyOf_same a b :
  pm_In a = pm_In b → pm_Name a = pm_Name b → keyOf a = keyOf b.
Proof. unfold keyOf. by intros -> ->. Qed.
End ParameterOrder.

Section SortedParams.
Variable enum : ∀ V : Type, gmap string V → list (string * V).
Hypothesis Henum : enumerates enum.

Lemma sortedParams_Permutation m : sortedParams enum m ≡ₚ (enum _ m).*2.
Proof. apply merge_sort_Permutation. Qed.

Lemma sortedParams_elem_of m pm :
  pm ∈ sortedParams enum m ↔ ∃ k, m !! k = Some pm.
Proof. by rewrite sortedParams_Permutation, elem_of_enum_values. Qed.

Lemma keyed_values_NoDup m : keyed m → NoDup (enum _ m).*2.
Proof.
  intros Hk. rewrite (Henum _ m).
  assert (∀ l : list (string * ParameterModel),
            NoDup l.*1 → (∀ k pm, (k, pm) ∈ l → k = keyOf pm) → NoDup l.*2) as Haux.
  { induction l as [|[k pm] l IH]; simpl; intros Hnd Hall; [constructor|].
    apply NoDup_cons in Hnd as [Hk' Hnd]. apply NoDup_cons. split.
    - intros ([k' pm'] & Heq & Hin)%list_elem_of_fmap. simpl in Heq. subst pm'.
      apply Hk'. apply list_elem_of_fmap. exists (k', pm). split; [|done]. simpl.
      rewrite (Hall k pm) by (by left). by rewrite (Hall k' pm) by (by right).
    - apply IH; [done|]. intros k' pm' Hin. apply Hall. by right. }
  apply Haux; [apply NoDup_fst_map_to_list|].
  intros k pm Hin%elem_of_map_to_list. by apply Hk.
Qed.

Lemma sortedParams_sorted m : keyed m → StronglySorted paramBefore (sortedParams enum m).
Proof.
  intros Hk.
  eapply StronglySorted_impl;
    [|apply StronglySorted_strict;
       [apply (StronglySorted_merge_sort notAfter); apply _|]].
  - intros a b Ha Hb [Hab Hne]. apply notAfter_spec in Hab as [H|[E1 E2]]; [done|].
    exfalso. apply Hne.
    apply sortedParams_elem_of in Ha as [ka Ha]. apply sortedParams_elem_of in Hb as [kb Hb].
    rewrite (Hk _ _ Ha) in Ha. rewrite (Hk _ _ Hb) in Hb.
    rewrite (keyOf_same a b E1 E2) in Ha. congruence.
  - fold (sort_Slice paramLess (enum _ m).*2). fold (sortedParams enum m).
    rewrite sortedParams_Permutation. by apply keyed_values_NoDup.
Qed.
End SortedParams.

(** The sorted parameters of a map do not depend on the order of the
    enumeration. *)
Lemma sortedParams_independent (enum1 enum2 : ∀ V : Type, gmap string V → list (string * V))
    (m : gmap string ParameterModel) :
  enumerates enum1 → enumerates enum2 → keyed m →
  sortedParams enum1 m = sortedParams enum2 m.
Proof.
  intros H1 H2 Hk.
  apply (StronglySorted_unique_strong paramBefore).
  - intros a b _ _ Hab Hba. exfalso. by eapply paramBefore_asymm.
  - by apply sortedParams_sorted.
  - by apply sortedParams_sorted.
  - rewrite !sortedParams_Permutation, (H1 _ m), (H2 _ m). done.
Qed.
(** ** The builder: merging the parameters *)

Section MergeParameters.
Implicit Types (base m : gmap string ParameterModel)
               (prefs : list (option openapi3.ParameterRef)).

Lemma overlayParams_snoc base prefs pref :
  overlayParams base (prefs ++ [pref]) =
  match toParameterModel pref with
  | Some pm => <[ keyOf pm := pm ]> (overlayParams base prefs)
  | None => overlayParams base prefs
  end.
Proof. unfold overlayParams. by rewrite foldl_app. Qed.

Lemma parameterModels_snoc prefs pref :
  parameterModels (prefs ++ [pref]) =
  parameterModels prefs ++ match toParameterModel pref with Some pm => [pm] | None => [] end.
Proof.
  unfold parameterModels. rewrite omap_app. reflexivity.
Qed.

Lemma overlayParams_keyed base prefs : keyed base → keyed (overlayParams base prefs).
Proof.
  intros Hb. induction prefs as [|pref prefs IH] using rev_ind; [done|].
  rewrite overlayParams_snoc. destruct (toParameterModel pref) as [pm|]; [|done].
  intros k pm' [[<- <-]|[_ H]]%lookup_insert_Some; [done|by apply IH].
Qed.

(** Under a key sits the last parameter of the list with that key, and
    what the base holds when the list has none. *)
Lemma overlayParams_lookup base prefs k :
  overlayParams base prefs !! k =
  match last (withKey k (parameterModels prefs)) with
  | Some pm => Some pm
  | None => base !! k
  end.
Proof.
  induction prefs as [|pref prefs IH] using rev_ind; [done|].
  rewrite overlayParams_snoc, parameterModels_snoc. unfold withKey in *.
  rewrite filter_app.
  destruct (toParameterModel pref) as [pm|]; [|by rewrite filter_nil, app_nil_r].
  rewrite filter_cons, filter_nil.
  destruct (decide (keyOf pm = k)) as [<-|Hne].
  - by rewrite lookup_insert_eq, last_snoc.
  - by rewrite lookup_insert_ne, app_nil_r.
Qed.

Lemma keyed_empty : keyed ∅.
Proof. intros k pm H. by rewrite lookup_empty in H. Qed.

Lemma last_withKey_key k pms pm : last (withKey k pms) = Some pm → keyOf pm = k ∧ pm ∈ pms.
Proof.
  intros H%last_Some_elem_of. by apply list_elem_of_filter in H.
Qed.

Lemma last_None_nil {A} (l : list A) : last l = None ↔ l = [].
Proof.
  split; [|by intros ->].
  destruct l as [|x l] using rev_ind; [done|]. by rewrite last_snoc.
Qed.

(** The key tells the location and the name apart when the location has
    no colon. *)
Lemma paramKey_inj (in1 name1 in2 name2 : string) :
  noColon in1 → noColon in2 →
  paramKey in1 name1 = paramKey in2 name2 → in1 = in2 ∧ name1 = name2.
Proof.
  unfold noColon, paramKey. revert in2.
  assert (∀ c s t, String c s +:+ t = String c (s +:+ t)) as Hcons by reflexivity.
  assert (∀ t, "" +:+ t = t) as Hnil by reflexivity.
  assert (∀ c s, strings_Contains (String c s) (String c "") = true) as Hhead.
  { intros c s. simpl. destruct (ascii_dec c c); [|done]. by destruct s. }
  induction in1 as [|c in1 IH]; intros [|c2 in2] H1 H2 Heq;
    rewrite ?Hcons, ?Hnil in Heq.
  - by injection Heq as ->.
  - injection Heq as <- _. by rewrite Hhead in H2.
  - injection Heq as -> _. by rewrite Hhead in H1.
  - injection Heq as -> Heq.
    change (strings_Contains (String ?a ?s) ?x)
      with (String.prefix x (String a s) || strings_Contains s x)%bool in H1, H2.
    apply orb_false_elim in H1 as [_ H1]. apply orb_false_elim in H2 as [_ H2].
    destruct (IH in2 H1 H2 Heq) as [-> ->]. done.
Qed.

Variable enum : ∀ V : Type, gmap string V → list (string * V).
Hypothesis Henum : enumerates enum.

(** The merged parameters of an operation under a path item. *)
Lemma mergeParameters_spec (item : openapi3.PathItem) (o : openapi3.Operation) :
  let pathLevel := parameterModels (openapi3.pi_Parameters item) in
  let opLevel := parameterModels (openapi3.op_Parameters o) in
  let params := mergeParameters enum item o in
  StronglySorted paramBefore params ∧
  (∀ pm, pm ∈ params ↔
         last (withKey (keyOf pm) opLevel) = Some pm ∨
         (withKey (keyOf pm) opLevel = [] ∧ last (withKey (keyOf pm) pathLevel) = Some pm)) ∧
  (∀ pm, pm ∈ opLevel →
         ∃ pm', pm' ∈ params ∧ keyOf pm' = keyOf pm ∧
                last (withKey (keyOf pm) opLevel) = Some pm') ∧
  (∀ pm, pm ∈ pathLevel → withKey (keyOf pm) opLevel = [] →
         ∃ pm', pm' ∈ params ∧ keyOf pm' = keyOf pm ∧
                last (withKey (keyOf pm) pathLevel) = Some pm').
Proof.
  intros pathLevel opLevel params.
  set (baseParams := overlayParams ∅ (openapi3.pi_Parameters item)).
  set (merged := overlayParams baseParams (openapi3.op_Parameters o)).
  assert (keyed merged) as Hk by (apply overlayParams_keyed, overlayParams_keyed, keyed_empty).
  assert (∀ k, merged !! k =
               match last (withKey k opLevel) with
               | Some pm => Some pm
               | None => last (withKey k pathLevel)
               end) as Hlook.
  { intros k. subst merged baseParams. rewrite !overlayParams_lookup.
    fold opLevel pathLevel. rewrite lookup_empty.
    by destruct (last (withKey k pathLevel)). }
  assert (∀ pm, pm ∈ params ↔ merged !! keyOf pm = Some pm) as Hin.
  { intros pm. subst params. unfold mergeParameters. fold baseParams merged.
    rewrite sortedParams_elem_of by done. split.
    - intros [k H]. by rewrite <- (Hk _ _ H).
    - eauto. }
  split; [by apply sortedParams_sorted|]. split; [|split].
  - intros pm. rewrite Hin, Hlook.
    destruct (last (withKey (keyOf pm) opLevel)) as [pm'|] eqn:E.
    + split; [intros [= ->]; by left|].
      intros [[= ->]|[H _]]; [done|]. by rewrite H in E.
    + apply last_None_nil in E. split; [by right|]. intros [?|[_ ?]]; done.
  - intros pm Hpm.
    destruct (last (withKey (keyOf pm) opLevel)) as [pm'|] eqn:E.
    + destruct (last_withKey_key _ _ _ E) as [Hkey _].
      exists pm'. split; [|done]. apply Hin. by rewrite Hkey, Hlook, E.
    + apply last_None_nil in E. exfalso.
      assert (pm ∈ withKey (keyOf pm) opLevel) as Hin' by (by apply list_elem_of_filter).
      rewrite E in Hin'. by apply elem_of_nil in Hin'.
  - intros pm Hpm Hnone.
    destruct (last (withKey (keyOf pm) pathLevel)) as [pm'|] eqn:E.
    + destruct (last_withKey_key _ _ _ E) as [Hkey _].
      exists pm'. split; [|done]. apply Hin. by rewrite Hkey, Hlook, Hnone, E.
    + apply last_None_nil in E. exfalso.
      assert (pm ∈ withKey (keyOf pm) pathLevel) as Hin' by (by apply list_elem_of_filter).
      rewrite E in Hin'. by apply elem_of_nil in Hin'.
Qed.
End MergeParameters.

(** The merged parameters do not depend on the order of the enumeration. *)
Lemma mergeParameters_independent
    (enum1 enum2 : ∀ V : Type, gmap string V → list (string * V))
    (item : openapi3.PathItem) (o : openapi3.Operation) :
  enumerates enum1 → enumerates enum2 →
  mergeParameters enum1 item o = mergeParameters enum2 item o.
Proof.
  intros H1 H2. unfold mergeParameters.
  apply sortedParams_independent; [done..|].
  apply overlayParams_keyed, overlayParams_keyed, keyed_empty.
Qed.

(** ** The builder: the endpoints *)

Section ListHelpers.
Context {A B K : Type}.

Lemma elem_of_omap_id (xs : list (option B)) (b : B) :
  b ∈ omap id xs ↔ Some b ∈ xs.
Proof.
  rewrite list_elem_of_omap. split.
  - intros (x & Hx & Heq). simpl in Heq. by subst.
  - intros H. by exists (Some b).
Qed.

Lemma omap_ext_pointwise (f g : A → option B) (l : list A) :
  (∀ x, f x = g x) → omap f l = omap g l.
Proof.
  intros H. apply list_omap_ext. apply Forall2_same_length_lookup. split; [done|].
  intros i x y Hx Hy. assert (x = y) as -> by congruence. apply H.
Qed.

(** What a loop that keeps or skips each element of a sorted list
    appends is sorted the same way. *)
Lemma omap_id_sorted (ka : A → K) (kb : B → K) (R : relation K)
    (l : list A) (xs : list (option B)) :
  Forall2 (fun a x => ∀ b, x = Some b → kb b = ka a) l xs →
  StronglySorted (fun a a' => R (ka a) (ka a')) l →
  StronglySorted (fun b b' => R (kb b) (kb b')) (omap id xs) ∧
  Forall (fun b => ∃ a, a ∈ l ∧ kb b = ka a) (omap id xs).
Proof.
  induction 1 as [|a x l xs Hax Hall IH]; intros Hs; [split; constructor|].
  apply StronglySorted_inv in Hs as [Hs Hhead].
  destruct (IH Hs) as [IH1 IH2].
  assert (Forall (fun b => ∃ a0, a0 ∈ a :: l ∧ kb b = ka a0) (omap id xs)) as IH2'.
  { eapply Forall_impl; [exact IH2|]. intros b (a0 & Ha0 & Hb). exists a0. split; [by right|done]. }
  destruct x as [b|]; cbn [omap list_omap id]; [|done].
  split.
  - constructor; [done|]. eapply Forall_impl; [exact IH2|].
    intros b' (a' & Ha' & ->). rewrite (Hax b eq_refl).
    rewrite Forall_forall in Hhead. by apply Hhead.
  - constructor; [|done]. exists a. split; [by left|by apply Hax].
Qed.

Lemma elem_of_concat (ls : list (list A)) (x : A) :
  x ∈ concat ls ↔ ∃ l, l ∈ ls ∧ x ∈ l.
Proof.
  induction ls as [|l ls IH]; cbn [concat].
  - split; [by intros ?%elem_of_nil|]. by intros (l & ?%elem_of_nil & _).
  - rewrite elem_of_app, IH. split.
    + intros [H|(l' & H1 & H2)]; [exists l; split; [by left|done]|].
      exists l'. split; [by right|done].
    + intros (l' & [->|H1]%elem_of_cons & H2); [by left|]. right. by exists l'.
Qed.

Lemma Forall2_elem_of_r (P : A → B → Prop) (l : list A) (k : list B) (y : B) :
  Forall2 P l k → y ∈ k → ∃ x, x ∈ l ∧ P x y.
Proof.
  induction 1 as [|x y' l k Hxy Hall IH]; [by intros ?%elem_of_nil|].
  intros [->|Hy]%elem_of_cons.
  - exists x. split; [by left|done].
  - destruct (IH Hy) as (x' & Hx' & HP). exists x'. split; [by right|done].
Qed.
End ListHelpers.

Section Endpoints.
Variable enum : ∀ V : Type, gmap string V → list (string * V).
Hypothesis Henum : enumerates enum.
Variable cfg : buildConfig.
Variable v2Ops : gmap string (gmap string any).

(** Without cached v2 operations the content is the plain media list. *)
Lemma toMediaListWithV2Cache_empty (content : openapi3.Content) (p method : string) :
  toMediaListWithV2Cache enum content ∅ p method = Some (toMediaList enum content).
Proof.
  unfold toMediaListWithV2Cache. destruct (toMediaList enum content) as [|first rest]; [done|].
  destruct (md_Schema first) as [| |s]; [done|done|].
  destruct (_ || _)%bool; [done|]. by rewrite lookup_empty.
Qed.

(** What an appended endpoint is made of. *)
Lemma endpointOf_Some (p : string) (item : openapi3.PathItem) (m : HttpMethod)
    (o : option openapi3.Operation) (ep : EndpointModel) :
  endpointOf enum cfg v2Ops p item m o = Some (Some ep) →
  ∃ op, o = Some op ∧
        ep_ID ep = m +:+ " " +:+ p ∧ ep_Method ep = m ∧ ep_Path ep = p ∧
        ep_Tags ep = tagsOf op ∧
        ep_Parameters ep = mergeParameters enum item op ∧
        requestBodyOf enum v2Ops op p m = Some (ep_RequestBody ep) ∧
        responsesOf enum v2Ops op p m = Some (ep_Responses ep) ∧
        allowByTags (tagsOf op) cfg = true ∧
        (0 < size (methods cfg) → m ∈ methods cfg)%nat ∧
        (0 < length (pathRes cfg) → existsb (fun re => re p) (pathRes cfg) = true)%nat.
Proof.
  unfold endpointOf. destruct o as [op|]; [|done].
  destruct (bool_decide (0 < size (methods cfg))%nat && negb (bool_decide (m ∈ methods cfg)))%bool
    eqn:Hm; [done|].
  destruct (bool_decide (0 < length (pathRes cfg))%nat &&
            negb (existsb (fun re => re p) (pathRes cfg)))%bool eqn:Hp; [done|].
  destruct (requestBodyOf enum v2Ops op p m) as [rb|] eqn:Hrb; [|done].
  destruct (responsesOf enum v2Ops op p m) as [rs|] eqn:Hrs; [|done].
  cbn [mbind option_bind].
  destruct (allowByTags (tagsOf op) cfg) eqn:Ha; [|done].
  cbn [negb]. intros [= <-]. exists op. cbn.
  repeat split; try done.
  - intros Hsz. apply andb_false_iff in Hm as [Hm|Hm].
    + by apply bool_decide_eq_false in Hm.
    + apply negb_false_iff, bool_decide_eq_true in Hm. done.
  - intros Hlen. apply andb_false_iff in Hp as [Hp|Hp].
    + by apply bool_decide_eq_false in Hp.
    + by apply negb_false_iff in Hp.
Qed.

(** The responses of an endpoint, by increasing status. *)
Lemma responsesOf_sorted (o : openapi3.Operation) (p : string) (m : HttpMethod)
    (rs : list ResponseModel) :
  responsesOf enum v2Ops o p m = Some rs →
  StronglySorted (fun a b => strLt (rm_Status a) (rm_Status b)) rs ∧
  Forall (fun r => is_Some (openapi3.op_Responses o !! rm_Status r)) rs.
Proof.
  unfold responsesOf.
  destruct (mapM _ (sortedKeys enum (openapi3.op_Responses o))) as [xs|] eqn:E; [|done].
  cbn [mbind option_bind]. intros [= <-].
  apply mapM_Some in E.
  destruct (omap_id_sorted (fun code : string => code) rm_Status strLt
              (sortedKeys enum (openapi3.op_Responses o)) xs) as [H1 H2].
  - eapply Forall2_impl; [exact E|]. intros code x Hx r ->.
    destruct (openapi3.op_Responses o !! code) as [[[[resp|]]|]|]; try done.
    destruct (contentOf enum v2Ops (openapi3.rs_Content resp) p m); [|done].
    cbn in Hx. by injection Hx as <-.
  - by apply sortedKeys_strict.
  - split; [done|]. eapply Forall_impl; [exact H2|].
    intros r (code & Hcode & ->). by apply (sortedKeys_elem_of enum Henum).
Qed.

Lemma opsOf_ranked (item : openapi3.PathItem) :
  StronglySorted (fun a b => (methodRank a.1 < methodRank b.1)%nat) (opsOf item).
Proof.
  unfold opsOf. repeat (constructor; [|repeat constructor; cbn; vm_compute; lia]).
  constructor.
Qed.

(** The endpoints of one path: all on that path, in the fixed order of
    the methods, each made from an operation of the path item. *)
Lemma endpointsOfPath_spec (paths : gmap string (option openapi3.PathItem)) (p : string)
    (eps : list EndpointModel) :
  endpointsOfPath enum cfg v2Ops paths p = Some eps →
  Forall (fun ep => ep_Path ep = p) eps ∧
  StronglySorted endpointBefore eps ∧
  Forall (fun ep => ∃ item o, paths !! p = Some (Some item) ∧
                    (ep_Method ep, Some o) ∈ opsOf item ∧
                    endpointOf enum cfg v2Ops p item (ep_Method ep) (Some o) = Some (Some ep))
         eps.
Proof.
  unfold endpointsOfPath.
  destruct (paths !! p) as [[item|]|] eqn:Hp;
    [|intros [= <-]; repeat split; constructor..].
  destruct (mapM _ (opsOf item)) as [xs|] eqn:E; [|done].
  cbn [mbind option_bind]. intros [= <-]. apply mapM_Some in E.
  assert (Forall (fun ep => ∃ pair, pair ∈ opsOf item ∧
                    endpointOf enum cfg v2Ops p item pair.1 pair.2 = Some (Some ep))
                 (omap id xs)) as Hall.
  { apply Forall_forall. intros ep Hep%elem_of_omap_id.
    by apply (Forall2_elem_of_r _ _ _ _ E). }
  destruct (omap_id_sorted (fun pair : HttpMethod * option openapi3.Operation => methodRank pair.1)
              (fun ep => methodRank (ep_Method ep)) lt (opsOf item) xs) as [H1 _].
  { eapply Forall2_impl; [exact E|]. intros pair x Hx ep ->.
    apply endpointOf_Some in Hx as (op & _ & _ & Hm & _). by rewrite Hm. }
  { apply opsOf_ranked. }
  assert (Forall (fun ep => ep_Path ep = p) (omap id xs)) as Hpath.
  { eapply Forall_impl; [exact Hall|]. intros ep (pair & _ & Hx).
    by apply endpointOf_Some in Hx as (op & _ & _ & _ & Hpath & _). }
  split; [done|]. split.
  - eapply StronglySorted_impl; [|exact H1]. intros a b Ha Hb Hlt. right.
    rewrite Forall_forall in Hpath. by rewrite (Hpath a Ha), (Hpath b Hb).
  - eapply Forall_impl; [exact Hall|]. intros ep ([m o] & Hin & Hx). simpl in Hx.
    destruct (endpointOf_Some _ _ _ _ _ Hx) as (op & -> & _ & Hm & _).
    exists item, op. rewrite Hm. done.
Qed.

Lemma concat_endpoints_sorted (keys : list string) (epss : list (list EndpointModel)) :
  Forall2 (fun p l => Forall (fun ep => ep_Path ep = p) l ∧ StronglySorted endpointBefore l)
          keys epss →
  StronglySorted strLt keys →
  StronglySorted endpointBefore (concat epss) ∧
  Forall (fun ep => ep_Path ep ∈ keys) (concat epss).
Proof.
  induction 1 as [|p l keys epss [Hp Hl] Hall IH]; intros Hs; [split; constructor|].
  apply StronglySorted_inv in Hs as [Hs Hhead].
  destruct (IH Hs) as [IH1 IH2]. cbn [concat]. split.
  - apply StronglySorted_app. split; [|done].
    intros a b Ha Hb. left.
    rewrite Forall_forall in Hp. rewrite Forall_forall in IH2.
    rewrite Forall_forall in Hhead.
    rewrite (Hp a Ha). by apply Hhead, IH2.
  - apply Forall_app. split.
    + eapply Forall_impl; [exact Hp|]. intros ep ->. by left.
    + eapply Forall_impl; [exact IH2|]. intros ep ?. by right.
Qed.

(** All the endpoints: by path, then by method; each made from an
    operation of the document. *)
Lemma endpointsOf_spec (paths : gmap string (option openapi3.PathItem))
    (eps : list EndpointModel) :
  endpointsOf enum cfg v2Ops paths = Some eps →
  StronglySorted endpointBefore eps ∧
  Forall (fun ep => ∃ item o, paths !! ep_Path ep = Some (Some item) ∧
                    (ep_Method ep, Some o) ∈ opsOf item ∧
                    endpointOf enum cfg v2Ops (ep_Path ep) item (ep_Method ep) (Some o)
                      = Some (Some ep))
         eps.
Proof.
  unfold endpointsOf.
  destruct (mapM _ (sortedKeys enum paths)) as [epss|] eqn:E; [|done].
  cbn [mbind option_bind]. intros [= <-]. apply mapM_Some in E. split.
  - apply (concat_endpoints_sorted (sortedKeys enum paths)); [|by apply sortedKeys_strict].
    eapply Forall2_impl; [exact E|]. intros p l Hl.
    by destruct (endpointsOfPath_spec _ _ _ Hl) as (? & ? & _).
  - apply Forall_forall. intros ep (l & Hl & Hep)%elem_of_concat.
    destruct (Forall2_elem_of_r _ _ _ _ E Hl) as (p & _ & Hp).
    destruct (endpointsOfPath_spec _ _ _ Hp) as (Hpath & _ & Hall).
    rewrite Forall_forall in Hpath. rewrite Forall_forall in Hall.
    rewrite (Hpath ep Hep). by apply Hall.
Qed.
End Endpoints.

(** ** The builder: independence of the order of enumeration *)

Section Independence.
Variables enum1 enum2 : ∀ V : Type, gmap string V → list (string * V).
Hypothesis H1 : enumerates enum1.
Hypothesis H2 : enumerates enum2.

Lemma exampleOf_independent (mt : openapi3.MediaType) :
  exampleOf enum1 mt = exampleOf enum2 mt.
Proof. unfold exampleOf. by rewrite (sortedKeys_independent enum1 enum2). Qed.

Lemma toMediaList_independent (content : openapi3.Content) :
  toMediaList enum1 content = toMediaList enum2 content.
Proof.
  unfold toMediaList. rewrite (sortedKeys_independent enum1 enum2) by done.
  apply omap_ext_pointwise. intros mime.
  destruct (content !! mime) as [[mt|]|]; try done.
  by rewrite exampleOf_independent.
Qed.

Lemma contentOf_independent v2Ops (content : openapi3.Content) (p : string) (m : HttpMethod) :
  contentOf enum1 v2Ops content p m = contentOf enum2 v2Ops content p m.
Proof.
  unfold contentOf, toMediaListWithV2Cache. by rewrite toMediaList_independent.
Qed.

Lemma requestBodyOf_independent v2Ops (o : openapi3.Operation) (p : string) (m : HttpMethod) :
  requestBodyOf enum1 v2Ops o p m = requestBodyOf enum2 v2Ops o p m.
Proof.
  unfold requestBodyOf.
  destruct (openapi3.op_RequestBody o) as [[[rq|]]|]; try done.
  by rewrite contentOf_independent.
Qed.

Lemma responsesOf_independent v2Ops (o : openapi3.Operation) (p : string) (m : HttpMethod) :
  responsesOf enum1 v2Ops o p m = responsesOf enum2 v2Ops o p m.
Proof.
  unfold responsesOf. rewrite (sortedKeys_independent enum1 enum2) by done.
  f_equal. apply mapM_ext. intros code.
  destruct (openapi3.op_Responses o !! code) as [[[[r|]]|]|]; try done.
  by rewrite contentOf_independent.
Qed.

Lemma endpointOf_independent cfg v2Ops (p : string) (item : openapi3.PathItem)
    (m : HttpMethod) (o : option openapi3.Operation) :
  endpointOf enum1 cfg v2Ops p item m o = endpointOf enum2 cfg v2Ops p item m o.
Proof.
  unfold endpointOf. destruct o as [op|]; [|done].
  by rewrite (mergeParameters_independent enum1 enum2),
             requestBodyOf_independent, responsesOf_independent.
Qed.

Lemma endpointsOfPath_independent cfg v2Ops paths (p : string) :
  endpointsOfPath enum1 cfg v2Ops paths p = endpointsOfPath enum2 cfg v2Ops paths p.
Proof.
  unfold endpointsOfPath. destruct (paths !! p) as [[item|]|]; try done.
  f_equal. apply mapM_ext. intros pair. apply endpointOf_independent.
Qed.

Lemma endpointsOf_independent cfg v2Ops paths :
  endpointsOf enum1 cfg v2Ops paths = endpointsOf enum2 cfg v2Ops paths.
Proof.
  unfold endpointsOf. rewrite (sortedKeys_independent enum1 enum2) by done.
  f_equal. apply mapM_ext. intros p. apply endpointsOfPath_independent.
Qed.

Lemma collectSortedTags_independent (endpoints : list EndpointModel) :
  collectSortedTags enum1 endpoints = collectSortedTags enum2 endpoints.
Proof.
  unfold collectSortedTags. apply sort_Strings_proper.
  by rewrite (enum_keys_Permutation enum1 H1), (enum_keys_Permutation enum2 H2).
Qed.

Lemma schemasOf_independent v2Schemas schemas :
  schemasOf enum1 v2Schemas schemas = schemasOf enum2 v2Schemas schemas.
Proof. unfold schemasOf. by rewrite (sortedKeys_independent enum1 enum2). Qed.

Lemma BuildServiceModel_independent yaml stored doc v2Raw opts :
  BuildServiceModel enum1 yaml stored doc v2Raw opts =
  BuildServiceModel enum2 yaml stored doc v2Raw opts.
Proof.
  unfold BuildServiceModel. destruct doc as [doc|]; [|done].
  rewrite endpointsOf_independent.
  destruct (endpointsOf enum2 _ _ _) as [eps|]; [|done]. cbn [mbind option_bind].
  rewrite collectSortedTags_independent.
  destruct (openapi3.t_Components doc) as [c|]; [|done].
  by rewrite schemasOf_independent.
Qed.
End Independence.

(** ** The builder: tags *)

Section Tags.
Lemma existsb_elem_of {A} (f : A → bool) (l : list A) :
  existsb f l = true ↔ ∃ x, x ∈ l ∧ f x = true.
Proof.
  rewrite existsb_exists. split; intros (x & Hx & Hf); exists x; split; try done;
    by apply list_elem_of_In.
Qed.

Lemma size_pos_nonempty (X : gset string) : (0 < size X)%nat ↔ X ≠ ∅.
Proof.
  split.
  - intros Hs ->. rewrite size_empty in Hs. lia.
  - intros Hne. destruct (decide (size X = 0)%nat) as [Hz|]; [|lia].
    by apply size_empty_iff, leibniz_equiv in Hz.
Qed.

(** [allowByTags]: a tag of the include set when that set is not empty,
    and no tag of the exclude set. *)
Lemma allowByTags_spec (tags : list string) (cfg : buildConfig) :
  allowByTags tags cfg = true ↔
  (includeTags cfg ≠ ∅ → ∃ t, t ∈ tags ∧ t ∈ includeTags cfg) ∧
  (∀ t, t ∈ tags → t ∉ excludeTags cfg).
Proof.
  unfold allowByTags.
  assert (∀ X : gset string,
            existsb (fun t => bool_decide (t ∈ X)) tags = true ↔ ∃ t, t ∈ tags ∧ t ∈ X) as Hex.
  { intros X. rewrite existsb_elem_of. by setoid_rewrite bool_decide_eq_true. }
  assert (∀ X : gset string, bool_decide (0 < size X)%nat = true ↔ X ≠ ∅) as Hsz.
  { intros X. by rewrite bool_decide_eq_true, size_pos_nonempty. }
  destruct (bool_decide (0 < size (includeTags cfg))%nat &&
            negb (existsb (fun t => bool_decide (t ∈ includeTags cfg)) tags))%bool eqn:C1.
  { split; [done|]. intros [Hinc _].
    apply andb_true_iff in C1 as [Hi%Hsz Hn%negb_true_iff].
    apply Hinc, Hex in Hi. congruence. }
  destruct (bool_decide (0 < size (excludeTags cfg))%nat &&
            existsb (fun t => bool_decide (t ∈ excludeTags cfg)) tags)%bool eqn:C2.
  { split; [done|]. intros [_ Hexc].
    apply andb_true_iff in C2 as [_ (t & Ht & Hin)%Hex]. by destruct (Hexc t Ht). }
  split; [intros _|done]. split.
  - intros Hi%Hsz. rewrite Hi in C1. cbn [andb] in C1.
    by apply negb_false_iff, Hex in C1.
  - intros t Ht Hin.
    assert (excludeTags cfg ≠ ∅) as Hne%Hsz by (intros E; rewrite E in Hin; set_solver).
    rewrite Hne in C2. cbn [andb] in C2.
    apply not_true_iff_false in C2. apply C2, Hex. eauto.
Qed.

(** The tags of an endpoint are trimmed and not empty. *)
Lemma tagsOf_trimmed (o : openapi3.Operation) (t : string) :
  t ∈ tagsOf o → t ≠ "" ∧ strings_TrimSpace t = t.
Proof.
  unfold tagsOf. intros [Hne (t0 & -> & _)%list_elem_of_fmap]%list_elem_of_filter.
  split; [done|]. apply TrimSpace_idempotent.
Qed.

Lemma tagSet_inner (set : gmap string ()) (tags : list string) (t : string) :
  is_Some (foldl (fun set t =>
                    let t := strings_TrimSpace t in
                    if decide (t ≠ "") then <[ t := () ]> set else set) set tags !! t) ↔
  is_Some (set !! t) ∨ ∃ t0, t0 ∈ tags ∧ strings_TrimSpace t0 = t ∧ t ≠ "".
Proof.
  revert set. induction tags as [|t1 tags IH]; intros set; cbn [foldl].
  - split; [by left|]. intros [?|(t0 & ?%elem_of_nil & _)]; done.
  - rewrite IH. cbn zeta. destruct (decide (strings_TrimSpace t1 ≠ "")) as [Hne|He].
    + rewrite lookup_insert_is_Some. split.
      * intros [[<-|[_ H]]|(t0 & Ht0 & Heq)].
        -- right. exists t1. split; [by left|done].
        -- by left.
        -- right. exists t0. split; [by right|done].
      * intros [H|(t0 & [->|Ht0]%elem_of_cons & Heq & Hne')].
        -- left. destruct (decide (strings_TrimSpace t1 = t)); [by left|by right].
        -- left. by left.
        -- right. by exists t0.
    + apply dec_stable in He. split.
      * intros [H|(t0 & Ht0 & Heq)]; [by left|]. right. exists t0. split; [by right|done].
      * intros [H|(t0 & [->|Ht0]%elem_of_cons & Heq & Hne')]; [by left| |].
        -- congruence.
        -- right. by exists t0.
Qed.

Lemma tagSet_from (set : gmap string ()) (endpoints : list EndpointModel) (t : string) :
  is_Some (foldl (fun set ep =>
                    foldl (fun set t =>
                             let t := strings_TrimSpace t in
                             if decide (t ≠ "") then <[ t := () ]> set else set)
                          set (ep_Tags ep)) set endpoints !! t) ↔
  is_Some (set !! t) ∨
  ∃ ep t0, ep ∈ endpoints ∧ t0 ∈ ep_Tags ep ∧ strings_TrimSpace t0 = t ∧ t ≠ "".
Proof.
  revert set. induction endpoints as [|ep eps IH]; intros set; cbn [foldl].
  - split; [by left|]. intros [?|(ep & t0 & ?%elem_of_nil & _)]; done.
  - rewrite IH, tagSet_inner. split.
    + intros [[H|(t0 & Ht0 & Heq)]|(ep' & t0 & Hep & Heq)].
      * by left.
      * right. exists ep, t0. split; [by left|done].
      * right. exists ep', t0. split; [by right|done].
    + intros [H|(ep' & t0 & [->|Hep]%elem_of_cons & Ht0 & Heq)].
      * left. by left.
      * left. right. by exists t0.
      * right. by exists ep', t0.
Qed.

Lemma tagSet_lookup (endpoints : list EndpointModel) (t : string) :
  is_Some (tagSet endpoints !! t) ↔
  ∃ ep t0, ep ∈ endpoints ∧ t0 ∈ ep_Tags ep ∧ strings_TrimSpace t0 = t ∧ t ≠ "".
Proof.
  unfold tagSet. rewrite tagSet_from, lookup_empty. split; [|by right].
  intros [[? ?]|?]; done.
Qed.

Variable enum : ∀ V : Type, gmap string V → list (string * V).
Hypothesis Henum : enumerates enum.

(** [collectSortedTags]: the distinct trimmed, non-empty tags of the
    endpoints, in increasing order. *)
Lemma collectSortedTags_spec (endpoints : list EndpointModel) :
  StronglySorted strLt (collectSortedTags enum endpoints) ∧
  ∀ t, t ∈ collectSortedTags enum endpoints ↔
       ∃ ep t0, ep ∈ endpoints ∧ t0 ∈ ep_Tags ep ∧ strings_TrimSpace t0 = t ∧ t ≠ "".
Proof.
  split.
  - apply (sortedKeys_strict enum Henum).
  - intros t. rewrite <- tagSet_lookup. apply (sortedKeys_elem_of enum Henum).
Qed.
End Tags.

(** ** The builder: the service model *)

Lemma canonicalEnum_enumerates : enumerates canonicalEnum.
Proof. intros V m. reflexivity. Qed.

Lemma reverseEnum_enumerates : enumerates reverseEnum.
Proof. intros V m. unfold reverseEnum. by rewrite reverse_Permutation. Qed.

Section ServiceModel.
Variable enum : ∀ V : Type, gmap string V → list (string * V).
Hypothesis Henum : enumerates enum.
Variable yaml : string → error + gmap string any.

Lemma BuildServiceModel_Some (stored : v2Entry) (doc : openapi3.T)
    (v2Raw : option string) (opts : list BuildOption) (sm : ServiceModel) :
  BuildServiceModel enum yaml stored (Some doc) v2Raw opts = Some (inr sm) →
  endpointsOf enum (configOf opts) (operations stored) (openapi3.t_Paths doc)
    = Some (sm_Endpoints sm) ∧
  sm_Tags sm = collectSortedTags enum (sm_Endpoints sm).
Proof.
  unfold BuildServiceModel. fold (configOf opts).
  destruct (endpointsOf enum (configOf opts) (operations stored) (openapi3.t_Paths doc))
    as [eps|]; [|done].
  cbn [mbind option_bind]. by intros [= <-].
Qed.

Lemma BuildServiceModel_nil (stored : v2Entry) (v2Raw : option string)
    (opts : list BuildOption) :
  BuildServiceModel enum yaml stored None v2Raw opts = Some (inl "nil document").
Proof. reflexivity. Qed.

(** Without cached v2 operations, as for every OpenAPI v3 document, the
    builder returns a model. *)
Lemma contentOf_total (content : openapi3.Content) (p : string) (m : HttpMethod) :
  contentOf enum ∅ content p m = Some (toMediaList enum content).
Proof. apply toMediaListWithV2Cache_empty. Qed.

Lemma endpointOf_total cfg p item m o : is_Some (endpointOf enum cfg ∅ p item m o).
Proof.
  unfold endpointOf. destruct o as [op|]; [|done].
  destruct (_ && _)%bool; [done|]. destruct (_ && _)%bool; [done|].
  assert (is_Some (requestBodyOf enum ∅ op p m)) as [rb ->].
  { unfold requestBodyOf. destruct (openapi3.op_RequestBody op) as [[[rq|]]|]; try done.
    by rewrite contentOf_total. }
  assert (is_Some (responsesOf enum ∅ op p m)) as [rs ->].
  { unfold responsesOf.
    assert (is_Some (mapM (fun code =>
              match openapi3.op_Responses op !! code with
              | Some (Some {| openapi3.rsr_Value := Some r |}) =>
                  content ← contentOf enum ∅ (openapi3.rs_Content r) p m;
                  Some (Some {| rm_Status := code;
                                rm_Description := default "" (openapi3.rs_Description r);
                                rm_Content := content |})
              | _ => Some None
              end) (sortedKeys enum (openapi3.op_Responses op)))) as [xs ->]; [|done].
    apply mapM_is_Some, Forall_forall. intros code _. simpl.
    destruct (openapi3.op_Responses op !! code) as [[[[r|]]|]|]; try done.
    by rewrite contentOf_total. }
  cbn [mbind option_bind]. by destruct (negb _).
Qed.

Lemma endpointsOf_total cfg paths : is_Some (endpointsOf enum cfg ∅ paths).
Proof.
  unfold endpointsOf.
  assert (is_Some (mapM (endpointsOfPath enum cfg ∅ paths) (sortedKeys enum paths)))
    as [epss ->]; [|done].
  apply mapM_is_Some, Forall_forall. intros p _. simpl.
  unfold endpointsOfPath. destruct (paths !! p) as [[item|]|]; try done.
  assert (is_Some (mapM (fun pair => endpointOf enum cfg ∅ p item pair.1 pair.2) (opsOf item)))
    as [xs ->]; [|done].
  apply mapM_is_Some, Forall_forall. intros pair _. apply endpointOf_total.
Qed.

Lemma BuildServiceModel_total (stored : v2Entry) (doc : openapi3.T)
    (v2Raw : option string) (opts : list BuildOption) :
  operations stored = ∅ →
  ∃ sm, BuildServiceModel enum yaml stored (Some doc) v2Raw opts = Some (inr sm).
Proof.
  intros Hops. unfold BuildServiceModel. rewrite Hops.
  destruct (endpointsOf_total (configOf opts) (openapi3.t_Paths doc)) as [eps Heps].
  fold (configOf opts). rewrite Heps. cbn [mbind option_bind]. eauto.
Qed.

Lemma BuildServiceModel_endpoints (stored : v2Entry) (doc : openapi3.T)
    (v2Raw : option string) (opts : list BuildOption) (sm : ServiceModel) (ep : EndpointModel) :
  BuildServiceModel enum yaml stored (Some doc) v2Raw opts = Some (inr sm) →
  ep ∈ sm_Endpoints sm →
  ∃ item o,
    openapi3.t_Paths doc !! ep_Path ep = Some (Some item) ∧
    (ep_Method ep, Some o) ∈ opsOf item ∧
    ep_ID ep = ep_Method ep +:+ " " +:+ ep_Path ep ∧
    ep_Tags ep = tagsOf o ∧
    ep_Parameters ep = mergeParameters enum item o ∧
    responsesOf enum (operations stored) o (ep_Path ep) (ep_Method ep)
      = Some (ep_Responses ep) ∧
    allowByTags (ep_Tags ep) (configOf opts) = true.
Proof.
  intros [Heps _]%BuildServiceModel_Some Hep.
  destruct (endpointsOf_spec enum Henum _ _ _ _ Heps) as [_ Hall].
  rewrite Forall_forall in Hall. destruct (Hall ep Hep) as (item & o & Hp & Hin & Hx).
  apply endpointOf_Some in Hx as (op & [= <-] & Hid & _ & _ & Htags & Hparams & _ & Hrs & Ha & _).
  exists item, o. rewrite Htags. done.
Qed.
End ServiceModel.

(** C1. The model [BuildServiceModel] returns does not depend on the order
    in which the maps of the document are enumerated: two runs on equal
    input return equal results (the same model, the same error or the same
    panic). The endpoints of a model are ordered by path and, under one
    path, by the fixed order GET, POST, PUT, DELETE, PATCH, HEAD, OPTIONS,
    TRACE of their methods; the responses of each endpoint are ordered by
    their status string. And for a document without cached v2 operations,
    as every OpenAPI v3 document is, a model is returned. *)
Theorem BuildServiceModel_deterministic
    (enum1 enum2 : ∀ V : Type, gmap string V → list (string * V))
    (yaml : string → error + gmap string any) (stored : v2Entry)
    (doc : option openapi3.T) (v2Raw : option string) (opts : list BuildOption) :
  enumerates enum1 → enumerates enum2 →
  BuildServiceModel enum1 yaml stored doc v2Raw opts =
  BuildServiceModel enum2 yaml stored doc v2Raw opts ∧
  (∀ sm, BuildServiceModel enum1 yaml stored doc v2Raw opts = Some (inr sm) →
     StronglySorted endpointBefore (sm_Endpoints sm) ∧
     Forall (fun ep => StronglySorted (fun a b => strLt (rm_Status a) (rm_Status b))
                                      (ep_Responses ep))
            (sm_Endpoints sm)) ∧
  (∀ d, doc = Some d → operations stored = ∅ →
     ∃ sm, BuildServiceModel enum1 yaml stored doc v2Raw opts = Some (inr sm)).
Proof.
  intros H1 H2. split; [by apply BuildServiceModel_independent|]. split.
  - intros sm Hsm. destruct doc as [d|]; [|done].
    pose proof (BuildServiceModel_Some enum1 yaml _ _ _ _ _ Hsm) as [Heps _].
    destruct (endpointsOf_spec enum1 H1 _ _ _ _ Heps) as [Hsorted _].
    split; [done|]. apply Forall_forall. intros ep Hep.
    destruct (BuildServiceModel_endpoints enum1 H1 yaml _ _ _ _ _ _ Hsm Hep)
      as (item & o & _ & _ & _ & _ & _ & Hrs & _).
    by destruct (responsesOf_sorted enum1 H1 _ _ _ _ _ Hrs) as [? _].
  - intros d -> Hops. by apply BuildServiceModel_total.
Qed.

(** The document of the tests, enumerated forwards and backwards. *)
Lemma BuildServiceModel_deterministic_witness :
  BuildServiceModel canonicalEnum rejects noV2Entry (Some petsDoc) None [] =
  BuildServiceModel reverseEnum rejects noV2Entry (Some petsDoc) None [] ∧
  StronglySorted endpointBefore (sm_Endpoints (petsModel [])).
Proof.
  destruct (BuildServiceModel_deterministic canonicalEnum reverseEnum rejects noV2Entry
              (Some petsDoc) None [] canonicalEnum_enumerates reverseEnum_enumerates)
    as (Heq & Hsorted & _).
  split; [exact Heq|]. apply (Hsorted (petsModel [])). vm_compute. reflexivity.
Defined.

(** * Part III: further properties of the package *)

(** ** The loader: what a loaded document is *)

Section LoadedDocument.
Variable w : World.

Lemma strings_prefix_app (a b s : string) :
  String.prefix (a +:+ b) s = true → ∃ r, s = a +:+ r ∧ String.prefix b r = true.
Proof.
  revert s. induction a as [|c a IH]; intros s H.
  - exists s. split; [done|exact H].
  - destruct s as [|c' s]; [done|].
    change (String c a +:+ b) with (String c (a +:+ b)) in H. cbn [String.prefix] in H.
    destruct (ascii_dec c c') as [->|]; [|done].
    destruct (IH _ H) as (r & -> & Hr). exists r. by split.
Qed.

Lemma strings_Contains_unfold (s substr : string) :
  strings_Contains s substr =
  (String.prefix substr s ||
   match s with EmptyString => false | String _ r => strings_Contains r substr end)%bool.
Proof. by destruct s. Qed.

Lemma strings_Contains_skip (a r b : string) :
  strings_Contains r b = true → strings_Contains (a +:+ r) b = true.
Proof.
  intros H. induction a as [|c a IH]; [done|].
  change (String c a +:+ r) with (String c (a +:+ r)).
  rewrite strings_Contains_unfold, IH. apply orb_true_r.
Qed.

(** A string that contains [a ++ b] contains [b]. *)
Lemma strings_Contains_app_r (s a b : string) :
  strings_Contains s (a +:+ b) = true → strings_Contains s b = true.
Proof.
  induction s as [|c s IH]; intros H; rewrite strings_Contains_unfold in H.
  - rewrite orb_false_r in H. apply strings_prefix_app in H as (r & Hs & Hr).
    rewrite Hs. apply strings_Contains_skip.
    rewrite strings_Contains_unfold, Hr. done.
  - apply orb_true_iff in H as [H|H].
    + apply strings_prefix_app in H as (r & Hs & Hr).
      rewrite Hs. apply strings_Contains_skip.
      rewrite strings_Contains_unfold, Hr. done.
    + rewrite strings_Contains_unfold, (IH H). apply orb_true_r.
Qed.

Lemma canProceed_unresolved (err : error) :
  canProceedDespiteValidation (Some err) =
  strings_Contains (strings_ToLower err) "unresolved ref".
Proof.
  unfold canProceedDespiteValidation.
  destruct (strings_Contains (strings_ToLower err) "unresolved ref") eqn:E; [done|].
  destruct (strings_Contains (strings_ToLower err) "found unresolved ref") eqn:F; [|done].
  apply (strings_Contains_app_r _ "found " "unresolved ref") in F. congruence.
Qed.

Lemma validated_inr (d doc : openapi3.T) (location : string) :
  validated w d location = inr doc →
  doc = d ∧ match doc_Validate w d with
            | None => True
            | Some err => strings_Contains (strings_ToLower err) "unresolved ref" = true
            end.
Proof.
  unfold validated. destruct (doc_Validate w d) as [err|]; [|by intros [= <-]].
  rewrite canProceed_unresolved.
  destruct (strings_Contains (strings_ToLower err) "unresolved ref"); [|done].
  by intros [= <-].
Qed.

(** X1. Whenever [Load] returns a document, that document passed the
    validation, or failed it with a message that contains "unresolved ref"
    (in any case of the letters): no other failed validation gets through,
    on any of the four branches. *)
Theorem Load_returns_validated_document (input : string) (opts : list Option)
    (doc : openapi3.T) :
  Load w input opts = inr doc →
  match doc_Validate w doc with
  | None => True
  | Some err => strings_Contains (strings_ToLower err) "unresolved ref" = true
  end.
Proof.
  unfold Load. intros H.
  repeat match type of H with
         | (if ?c then _ else _) = _ => destruct c; try discriminate H
         | match ?c with _ => _ end = _ => destruct c eqn:?; try discriminate H
         end;
  apply validated_inr in H as [-> H]; exact H.
Qed.

(** X2. The second test of [canProceedDespiteValidation] adds nothing to
    the first: a message is let through exactly when, lower-cased, it
    contains "unresolved ref". *)
Theorem canProceedDespiteValidation_one_test (err : error) :
  canProceedDespiteValidation (Some err) =
  strings_Contains (strings_ToLower err) "unresolved ref".
Proof.
  unfold canProceedDespiteValidation.
  destruct (strings_Contains (strings_ToLower err) "unresolved ref") eqn:First; [done|].
  destruct (strings_Contains (strings_ToLower err) "found unresolved ref") eqn:Second;
    [|done].
  apply (strings_Contains_app_r _ "found " "unresolved ref") in Second.
  rewrite Second in First. discriminate First.
Qed.

End LoadedDocument.

Lemma Load_returns_validated_document_witness :
  strings_Contains (strings_ToLower unresolvedRefMessage) "unresolved ref" = true.
Proof.
  apply (Load_returns_validated_document
           (loadedWorld sampleDoc (Some unresolvedRefMessage)) "spec.yaml" [] sampleDoc).
  vm_compute. reflexivity.
Defined.
(** ** The loader: the version of a document *)

Section KnownVersion.
Variable w : World.

Lemma detectSpecVersion_range (data : string) (v : Z) :
  detectSpecVersion w data = inr v → v = 3 ∨ v = 2.
Proof.
  unfold detectSpecVersion. intros H.
  repeat match type of H with
         | (if ?c then _ else _) = _ => destruct c; try discriminate H
         | match ?c with _ => _ end = _ => destruct c eqn:?; try discriminate H
         end;
  injection H as <-; auto.
Qed.

(** X3. [detectSpecVersion] answers 3, 2 or an error, nothing else; so the
    [default] branches of the two [switch]es of [Load] are never taken:
    an error of [Load] with the message of those branches has a cause (it
    is the error of another step that happens to read the same), where
    those branches report none. *)
Theorem Load_never_meets_an_unknown_version (input : string) (opts : list Option) :
  (∀ data v, detectSpecVersion w data = inr v → v = 3 ∨ v = 2) ∧
  (∀ se, Load w input opts = inl se →
         Message se = "spec: unknown or unsupported OpenAPI/Swagger version" →
         Cause se ≠ None).
Proof.
  split; [apply detectSpecVersion_range|].
  intros se H Hmsg. unfold Load in H.
  repeat match type of H with
         | (if ?c then _ else _) = _ => destruct c; try discriminate H
         | match ?c with _ => _ end = _ => destruct c eqn:?; try discriminate H
         end;
  try (unfold validated in H;
       repeat match type of H with
              | (if ?c then _ else _) = _ => destruct c; try discriminate H
              | match ?c with _ => _ end = _ => destruct c eqn:?; try discriminate H
              end);
  try (injection H as <-; cbn in Hmsg |- *; done);
  try (injection H as <-; cbn in Hmsg |- *; discriminate Hmsg).
  all: match goal with
       | E : detectSpecVersion w _ = inr ?v |- _ =>
           apply detectSpecVersion_range in E; lia
       end.
Qed.
End KnownVersion.

(** ** The loader: how a fetch ends *)

Section FetchEnds.
Variable w : World.
Variable rawURL : string.
Variable settings : Settings.

Lemma fetchWithRetry_after_retries (i : nat) :
  (i < attemptsOf settings)%nat →
  (∀ j, (j < i)%nat → retryable (http_Do w rawURL j) ∧ ctx_Done w j = false) →
  fetchWithRetry w rawURL settings =
  fetchLoop w rawURL (S (attemptsOf settings - S i)) i
    (Nat.iter i (fun b => wrap64 (b * 2)) (baseDelayOf settings))
    (match i with O => None | S i' => Some (lastErrorOf (http_Do w rawURL i')) end)
    (doubling i (baseDelayOf settings)).
Proof.
  intros Hi Hall. rewrite fetchWithRetry_unfold.
  rewrite <- (fetchLoop_retries' w rawURL i (S (attemptsOf settings - S i)) _ Hall).
  f_equal. lia.
Qed.

(** X4. A fetch that is answered with a status below 300 in round [i],
    after [i] rounds that were tried again, returns the body of that
    answer; it has sent [i + 1] requests and waited [i] times, doubling
    the delay each time, and sends nothing more. *)
Theorem fetch_succeeds_after_retries (i : nat) (status : Z) (body : string) :
  (i < attemptsOf settings)%nat →
  (∀ j, (j < i)%nat → retryable (http_Do w rawURL j) ∧ ctx_Done w j = false) →
  http_Do w rawURL i = Response status body None →
  status < 300 →
  fr_result (fetchWithRetry w rawURL settings) = inr body ∧
  fr_requests (fetchWithRetry w rawURL settings) = S i ∧
  fr_waits (fetchWithRetry w rawURL settings) = doubling i (baseDelayOf settings).
Proof.
  intros Hi Hall Hdo Hs. rewrite (fetchWithRetry_after_retries i Hi Hall).
  cbn [fetchLoop]. rewrite Hdo. destruct (decide (status < 300)); [|lia]. done.
Qed.

(** X5. When the context is cancelled during the wait after round [i], a
    round that would have been tried again, the fetch ends with the error
    of the context: no further request is sent, and the delay that was cut
    short is not among those waited for. *)
Theorem fetch_stops_when_cancelled (i : nat) :
  (i < attemptsOf settings)%nat →
  (∀ j, (j < i)%nat → retryable (http_Do w rawURL j) ∧ ctx_Done w j = false) →
  retryable (http_Do w rawURL i) →
  ctx_Done w i = true →
  fr_result (fetchWithRetry w rawURL settings) = inl (ctx_Err w) ∧
  fr_requests (fetchWithRetry w rawURL settings) = S i ∧
  fr_waits (fetchWithRetry w rawURL settings) = doubling i (baseDelayOf settings).
Proof.
  intros Hi Hall Hr Hc. rewrite (fetchWithRetry_after_retries i Hi Hall).
  cbn [fetchLoop]. rewrite Hc.
  destruct (http_Do w rawURL i) as [e|e|status body readErr]; simpl in Hr; [done|done|].
  destruct (decide (status < 300)); [lia|].
  destruct (decide (status >= 500 ∨ status = 429)); [done|tauto].
Qed.
End FetchEnds.

Lemma fetch_succeeds_after_retries_witness :
  fr_result (fetchWithRetry (remoteWorld flakyAnswers (fun _ => false))
               "https://example.com/spec.yaml" DefaultSettings) = inr sampleRaw ∧
  fr_requests (fetchWithRetry (remoteWorld flakyAnswers (fun _ => false))
                 "https://example.com/spec.yaml" DefaultSettings) = 2%nat ∧
  fr_waits (fetchWithRetry (remoteWorld flakyAnswers (fun _ => false))
              "https://example.com/spec.yaml" DefaultSettings) = [200 * Millisecond].
Proof.
  apply (fetch_succeeds_after_retries (remoteWorld flakyAnswers (fun _ => false))
           "https://example.com/spec.yaml" DefaultSettings 1 200 sampleRaw).
  - vm_compute. lia.
  - intros j Hj. assert (j = 0%nat) as -> by lia. split; [simpl; left; lia|reflexivity].
  - reflexivity.
  - lia.
Defined.

Lemma fetch_stops_when_cancelled_witness :
  fr_result (fetchWithRetry (remoteWorld flakyAnswers (fun _ => true))
               "https://example.com/spec.yaml" DefaultSettings) = inl "context canceled" ∧
  fr_requests (fetchWithRetry (remoteWorld flakyAnswers (fun _ => true))
                 "https://example.com/spec.yaml" DefaultSettings) = 1%nat ∧
  fr_waits (fetchWithRetry (remoteWorld flakyAnswers (fun _ => true))
              "https://example.com/spec.yaml" DefaultSettings) = [].
Proof.
  apply (fetch_stops_when_cancelled (remoteWorld flakyAnswers (fun _ => true))
           "https://example.com/spec.yaml" DefaultSettings 0).
  - vm_compute. lia.
  - intros j Hj. lia.
  - simpl. left. lia.
  - reflexivity.
Defined.
(** ** The loader: the errors of the input *)

Section InputErrors.
Variable w : World.

Lemma isURL_spec (input : string) :
  match url_Parse w input with
  | inr u => (negb (bool_decide (Scheme u = "")) && negb (bool_decide (Host u = "")))%bool
  | inl _ => false
  end = true ↔ isURL w input.
Proof.
  unfold isURL. destruct (url_Parse w input) as [e|u].
  - split; [done|]. by intros (u & ? & _).
  - rewrite andb_true_iff, !negb_true_iff, !bool_decide_eq_false. split.
    + intros [? ?]. by exists u.
    + by intros (u' & [= <-] & ? & ?).
Qed.

Lemma mapValidateOrParseErr_Code (err : error) (location : string) :
  Code (mapValidateOrParseErr w err location) ≠ InputError.
Proof. unfold mapValidateOrParseErr. cbn. by destruct (_ || _)%bool. Qed.

Lemma validated_Code (doc : openapi3.T) (location : string) (se : SpecError) :
  validated w doc location = inl se → Code se ≠ InputError.
Proof.
  unfold validated. destruct (doc_Validate w doc) as [err|]; [|done].
  destruct (negb _); [|done]. intros [= <-]. apply mapValidateOrParseErr_Code.
Qed.

(** X6. [Load] reports an [InputError] in exactly three situations: the
    input is blank; the input is a URL (a scheme and a host) of a scheme
    other than http and https; the input is a path that cannot be made
    absolute or read. Every failure after the bytes of the document were
    obtained has another code. *)
Theorem Load_InputError_iff (input : string) (opts : list Option) :
  (∃ se, Load w input opts = inl se ∧ Code se = InputError) ↔
  strings_TrimSpace input = "" ∨
  (isURL w input ∧ schemeOf w input ≠ "http" ∧ schemeOf w input ≠ "https") ∨
  (¬ isURL w input ∧
   ((∃ err, filepath_Abs w input = inl err) ∨
    (∃ abs err, filepath_Abs w input = inr abs ∧ os_ReadFile w abs = inl err))).
Proof.
  unfold Load, schemeOf.
  destruct (decide (strings_TrimSpace input = "")) as [Hin|Hin].
  { split; [by left|]. intros _. eexists. split; [reflexivity|done]. }
  pose proof (isURL_spec input) as Hurl.
  destruct (match url_Parse w input with
            | inr u => (negb (bool_decide (Scheme u = "")) && negb (bool_decide (Host u = "")))%bool
            | inl _ => false
            end) eqn:E.
  - assert (isURL w input) as HU by by apply Hurl.
    destruct (decide (strings_ToLower
                (match url_Parse w input with inr u => Scheme u | inl _ => "" end) = "file"))
      as [Hf|Hf].
    { split.
      - intros _. right. left. split; [done|]. rewrite Hf. done.
      - intros _. eexists. split; [reflexivity|done]. }
    destruct (decide (_ ≠ "http" ∧ _ ≠ "https")) as [Hs|Hs].
    { split.
      - intros _. right. left. by split.
      - intros _. eexists. split; [reflexivity|done]. }
    split.
    + intros (se & H & Hc). exfalso.
      repeat match type of H with
             | (if ?c then _ else _) = _ => destruct c; try discriminate H
             | match ?c with _ => _ end = _ => destruct c eqn:?; try discriminate H
             end;
      try (injection H as <-; cbn in Hc; discriminate Hc);
      try (by eapply validated_Code);
      try (injection H as <-; by eapply mapValidateOrParseErr_Code).
    + intros [?|[(_ & H1 & H2)|[HnU _]]]; [done| |done]. tauto.
  - assert (¬ isURL w input) as HU by (intros H%Hurl; congruence).
    destruct (filepath_Abs w input) as [aerr|abs] eqn:Habs.
    { split.
      - intros _. right. right. split; [done|]. left. by eexists.
      - intros _. eexists. split; [reflexivity|done]. }
    destruct (os_ReadFile w abs) as [rerr|raw] eqn:Hread.
    { split.
      - intros _. right. right. split; [done|]. right. by exists abs, rerr.
      - intros _. eexists. split; [reflexivity|done]. }
    split.
    + intros (se & H & Hc). exfalso.
      repeat match type of H with
             | (if ?c then _ else _) = _ => destruct c; try discriminate H
             | match ?c with _ => _ end = _ => destruct c eqn:?; try discriminate H
             end;
      try (injection H as <-; cbn in Hc; discriminate Hc);
      try (by eapply validated_Code);
      try (injection H as <-; by eapply mapValidateOrParseErr_Code).
    + intros [?|[(? & _)|(_ & [(err & ?)|(abs' & err & [= <-] & ?)])]]; try done.
      congruence.
Qed.
End InputErrors.

(** ** The loader: external references *)

Section ExternalReferences.
Variable os_ReadFile : string → error + string.
Variable http_Get : string → httpOutcome.

(** X7. A reference without a scheme, or of the scheme [file] (in any
    case of the letters), is read from the file system only when the
    settings allow file references or the root document is a local file.
    Otherwise the loader answers "blocked file ref" whatever the file
    system and the network hold: nothing is read. For a local root the
    setting is of no consequence: the file is read even when
    [AllowFileRefs] is false. *)
Theorem file_references_are_blocked_for_remote_roots
    (settings : Settings) (rootIsFile : bool) (uri : RefURL) :
  strings_ToLower (ref_Scheme uri) = "" ∨ strings_ToLower (ref_Scheme uri) = "file" →
  let path := if decide (ref_Path uri = "") then ref_Opaque uri else ref_Path uri in
  (AllowFileRefs settings = false → rootIsFile = false →
     ∀ os_ReadFile' http_Get',
       ReadFromURIFunc (newLoader os_ReadFile' http_Get' settings rootIsFile) uri
       = inl ("blocked file ref: " +:+ ref_String uri)) ∧
  (AllowFileRefs settings = true ∨ rootIsFile = true →
     ReadFromURIFunc (newLoader os_ReadFile http_Get settings rootIsFile) uri
     = os_ReadFile path).
Proof.
  intros Hs path. split.
  - intros Ha -> os' get'. cbn. rewrite Ha. cbn.
    destruct (decide (_ ∨ _)); [done|tauto].
  - intros Hallow. cbn.
    destruct (decide (_ ∨ _)); [|tauto].
    destruct Hallow as [-> | ->]; [done|]. by rewrite orb_true_r.
Qed.

End ExternalReferences.

Lemma file_references_are_blocked_for_remote_roots_witness :
  (∀ os_ReadFile' http_Get',
     ReadFromURIFunc (newLoader os_ReadFile' http_Get' DefaultSettings false) siblingRef
     = inl "blocked file ref: schemas/pet.yaml") ∧
  ReadFromURIFunc (newLoader (fun path => inr ("contents of " +:+ path))
                             (fun _ => DoError "no network") DefaultSettings true) siblingRef
  = inr "contents of schemas/pet.yaml".
Proof.
  destruct (file_references_are_blocked_for_remote_roots
              (fun path => inr ("contents of " +:+ path)) (fun _ => DoError "no network")
              DefaultSettings false siblingRef (or_introl eq_refl)) as [Hblocked _].
  destruct (file_references_are_blocked_for_remote_roots
              (fun path => inr ("contents of " +:+ path)) (fun _ => DoError "no network")
              DefaultSettings true siblingRef (or_introl eq_refl)) as [_ Hread].
  split.
  - exact (Hblocked eq_refl eq_refl).
  - exact (Hread (or_intror eq_refl)).
Defined.

(** X8. The root document and the documents it refers to are fetched by
    different rules. An answer with a status from 300 to 399 (a redirect
    the client did not follow, say) fails the fetch of the root at once,
    as "http <status>"; the same answer to the request for a reference is
    taken as the referenced document. *)
Theorem root_and_reference_fetch_differ_on_3xx
    (w : World) (settings : Settings) (rootIsFile : bool) (uri : RefURL)
    (status : Z) (body : string) :
  strings_ToLower (ref_Scheme uri) = "http" ∨ strings_ToLower (ref_Scheme uri) = "https" →
  300 <= status < 400 →
  http_Do w (ref_String uri) 0 = Response status body None →
  fr_result (fetchWithRetry w (ref_String uri) settings)
    = inl ("http " +:+ pretty status +:+ ": " +:+
           strings_TrimSpace (String.substring 0 1024 body)) ∧
  fr_requests (fetchWithRetry w (ref_String uri) settings) = 1%nat ∧
  ReadFromURIFunc (newLoader (os_ReadFile w) (fun url => http_Do w url 0) settings rootIsFile) uri
    = inr body.
Proof.
  intros Hs Hst Hdo. split; [|split].
  - rewrite fetchWithRetry_unfold.
    pose proof (attemptsOf_pos settings) as Hpos.
    destruct (attemptsOf settings) as [|n]; [lia|].
    cbn [fetchLoop]. rewrite Hdo.
    destruct (decide (status < 300)); [lia|].
    destruct (decide (status >= 500 ∨ status = 429)); [lia|]. done.
  - rewrite fetchWithRetry_unfold.
    pose proof (attemptsOf_pos settings) as Hpos.
    destruct (attemptsOf settings) as [|n]; [lia|].
    cbn [fetchLoop]. rewrite Hdo.
    destruct (decide (status < 300)); [lia|].
    destruct (decide (status >= 500 ∨ status = 429)); [lia|]. done.
  - cbn. destruct (decide (_ = "" ∨ _ = "file")) as [[E|E]|_].
    { destruct Hs as [H|H]; rewrite H in E; done. }
    { destruct Hs as [H|H]; rewrite H in E; done. }
    destruct (decide (_ ∨ _)); [|tauto].
    rewrite Hdo. destruct (decide (status >= 400)); [lia|]. done.
Qed.

Lemma root_and_reference_fetch_differ_on_3xx_witness :
  fr_result (fetchWithRetry (remoteWorld (fun _ => Response 304 "" None) (fun _ => false))
               "https://example.com/schemas/pet.yaml" DefaultSettings)
    = inl "http 304: " ∧
  ReadFromURIFunc (newLoader (os_ReadFile quietWorld) (fun _ => Response 304 "" None)
                             DefaultSettings false) remoteRef
    = inr "".
Proof.
  destruct (root_and_reference_fetch_differ_on_3xx
              (remoteWorld (fun _ => Response 304 "" None) (fun _ => false))
              DefaultSettings false remoteRef 304 "") as (H1 & _ & H2).
  - right. reflexivity.
  - lia.
  - reflexivity.
  - split; [exact H1|exact H2].
Defined.
(** ** The compatibility preprocessor: what a rewrite leaves alone *)

Section RewriteFrame.
Implicit Types (doc paths pi op pm : gmap string any) (params : list any).

Lemma rewriteOperation_frame op (k : string) :
  k ≠ "parameters" → k ≠ "consumes" → (rewriteOperation op).1 !! k = op !! k.
Proof.
  intros Hp Hc. unfold rewriteOperation.
  destruct (asSeq (index op "parameters")) as [params|]; [|done].
  destruct (decide (length params = 0)%nat); [done|].
  destruct (decide (bodyCount params = 0)%nat); [done|].
  destruct (hasFormData params).
  - unfold convertBodyToFormData.
    destruct (containsString _ _); cbn [fst]; by rewrite ?lookup_insert_ne.
  - destruct (decide (1 < bodyCount params)%nat); [|done].
    unfold mergeBodyParams. cbn [fst]. by rewrite lookup_insert_ne.
Qed.

Lemma existsb_filter_false {A} (f : A → bool) (P : A → Prop) `{∀ x, Decision (P x)}
    (l : list A) :
  existsb f l = false → existsb f (filter P l) = false.
Proof.
  induction l as [|x l IH]; [done|]. cbn [existsb].
  intros [Hx Hl]%orb_false_iff. rewrite filter_cons.
  destruct (decide (P x)); [|by apply IH]. cbn [existsb]. by rewrite Hx, IH.
Qed.

(** The operation a rewrite makes needs no rewrite. *)
Lemma rewriteOperation_settled op : ¬ needsRewrite (rewriteOperation op).1.
Proof.
  destruct (decide (needsRewrite op)) as [Hn|Hn];
    [|by rewrite (rewriteOperation_unmodified _ Hn)].
  destruct Hn as [Hb Hn].
  destruct (hasFormData (parametersOf op)) eqn:Hf.
  - rewrite rewriteOperation_mixed by done.
    destruct (convertBodyToFormData_spec op (parametersOf op) Hb) as (_ & _ & Hz & _).
    intros [H1 _]. lia.
  - destruct Hn as [?|Hm]; [done|].
    rewrite rewriteOperation_multi by done.
    destruct (mergeBodyParams_spec op (parametersOf op) Hb)
      as (_ & merged & Hps & Hbody & Hin & _).
    intros [_ [H|H]].
    + rewrite Hps in H. unfold hasFormData in H.
      rewrite paramMaps_cons_VMap, paramMaps_VMap in H. cbn [existsb] in H.
      assert (isBodyParam merged = true) as Hm'.
      { unfold isBodyParam. by rewrite Hin. }
      rewrite Hm' in H. cbn [negb andb orb] in H.
      rewrite existsb_filter_false in H; [done|exact Hf].
    + rewrite bodyCount_bodyParams, Hbody in H. simpl in H. lia.
Qed.

Lemma rewriteOperation_idempotent op :
  rewriteOperation (rewriteOperation op).1 = ((rewriteOperation op).1, false).
Proof. apply rewriteOperation_unmodified, rewriteOperation_settled. Qed.

Lemma rewritePathItem_VMap (pim : any) pi' :
  (rewritePathItem pim).1 = VMap pi' →
  ∃ pi, pim = VMap pi ∧
        pi' = map_imap (fun method opm => Some (rewriteEntry method opm).1) pi.
Proof.
  destruct pim as [| | | | |pi|]; try done. cbn. intros [= <-]. by exists pi.
Qed.

Lemma rewritePaths_settled doc paths :
  asMap (index doc "paths") = Some paths →
  noRewrite (<[ "paths" := VMap (rewritePaths paths).1 ]> doc).
Proof.
  intros _ paths' p pi' method op' Hpaths' Hp Hop Hm.
  rewrite index_insert_eq in Hpaths'. injection Hpaths' as <-.
  cbn [rewritePaths fst] in Hp. rewrite lookup_fmap in Hp.
  destruct (paths !! p) as [pim|] eqn:Hpim; [|done]. cbn in Hp.
  injection Hp as Hp. apply rewritePathItem_VMap in Hp as (pi & -> & ->).
  rewrite map_lookup_imap in Hop.
  destruct (pi !! method) as [opm|] eqn:Hopm; [|done]. cbn in Hop.
  injection Hop as Hop. unfold rewriteEntry in Hop. rewrite Hm in Hop.
  destruct opm as [| | | | |op|]; try done. cbn in Hop. injection Hop as <-.
  apply rewriteOperation_settled.
Qed.

Section Codec.
Variable yaml_Unmarshal : string → error + gmap string any.
Variable yaml_Marshal : gmap string any → error + string.

(** X9. The preprocessor has nothing left to do on its own output: a text
    that decodes to the document it encodes (the decoded input with the
    rewritten paths) comes back unchanged and not modified. A rewritten
    operation has no body parameter next to a formData parameter and at
    most one body parameter. *)
Theorem preprocess_settles data doc paths out :
  yaml_Unmarshal data = inr doc →
  asMap (index doc "paths") = Some paths →
  yaml_Unmarshal out = inr (<[ "paths" := VMap (rewritePaths paths).1 ]> doc) →
  preprocessV2ForCompatibility yaml_Unmarshal yaml_Marshal out = (out, false, None) ∧
  ∀ op, ¬ needsRewrite (rewriteOperation op).1.
Proof.
  intros Hdata Hpaths Hout. split; [|apply rewriteOperation_settled].
  eapply preprocess_unmodified; [exact Hout|]. by apply rewritePaths_settled.
Qed.

Lemma dom_rewritePathItem pi :
  dom (map_imap (fun method opm => Some (rewriteEntry method opm).1) pi) = dom pi.
Proof.
  apply set_eq. intros k. rewrite !elem_of_dom, map_lookup_imap.
  destruct (pi !! k); cbn; split; intros [? ?]; eauto.
Qed.

(** X10. A rewrite keeps the shape of the document. The text the
    preprocessor returns as modified encodes the decoded input with other
    [paths]: the same paths, each path item with the same keys; an entry
    of a path item that is not an operation under one of the seven
    methods is as it was; and an operation differs from the one it was
    made from at most in [parameters] and [consumes]. *)
Theorem preprocess_keeps_the_shape data doc out :
  yaml_Unmarshal data = inr doc →
  preprocessV2ForCompatibility yaml_Unmarshal yaml_Marshal data = (out, true, None) →
  ∃ paths paths',
    asMap (index doc "paths") = Some paths ∧
    yaml_Marshal (<[ "paths" := VMap paths' ]> doc) = inr out ∧
    dom paths' = dom paths ∧
    ∀ p pim, paths !! p = Some pim →
      match pim with
      | VMap pi =>
          ∃ pi', paths' !! p = Some (VMap pi') ∧ dom pi' = dom pi ∧
            ∀ method opm, pi !! method = Some opm →
              match opm with
              | VMap op =>
                  if isV2Method method
                  then ∃ op', pi' !! method = Some (VMap op') ∧
                              ∀ k, k ≠ "parameters" → k ≠ "consumes" → op' !! k = op !! k
                  else pi' !! method = Some opm
              | _ => pi' !! method = Some opm
              end
      | _ => paths' !! p = Some pim
      end.
Proof.
  intros Hdata. unfold preprocessV2ForCompatibility. rewrite Hdata.
  destruct (asMap (index doc "paths")) as [paths|]; [|done].
  destruct (decide (size paths = 0)%nat); [done|].
  destruct (negb (rewritePaths paths).2); [done|].
  destruct (yaml_Marshal _) as [err|out'] eqn:Hm; [done|]. intros [= <-].
  exists paths, (rewritePaths paths).1. split; [done|]. split; [done|].
  cbn [rewritePaths fst]. split; [by rewrite dom_fmap_L|].
  intros p pim Hp. rewrite lookup_fmap, Hp. cbn.
  destruct pim as [| | | | |pi|]; try done. cbn.
  eexists. split; [reflexivity|]. split; [apply dom_rewritePathItem|].
  intros method opm Hop. rewrite map_lookup_imap, Hop. cbn. unfold rewriteEntry.
  destruct opm as [| | | | |op|]; try (by destruct (isV2Method method)).
  destruct (isV2Method method); [|done]. cbn.
  eexists. split; [reflexivity|]. intros k. apply rewriteOperation_frame.
Qed.
End Codec.

Lemma deriveFrom_items (m : gmap string any) (d : derived) :
  (d_items d = VNil ∨ ∃ x, d_items d = VMap x) →
  d_items (deriveFrom m d) = VNil ∨ ∃ x, d_items (deriveFrom m d) = VMap x.
Proof. intros Hd. unfold deriveFrom. cbn. destruct (asMap (index m "items")); eauto. Qed.

Lemma deriveType_items (pm : gmap string any) :
  d_items (deriveType pm) = VNil ∨ ∃ m, d_items (deriveType pm) = VMap m.
Proof.
  unfold deriveType.
  assert (d_items {| d_typ := ""; d_format := ""; d_items := VNil |} = VNil ∨
          ∃ x, d_items {| d_typ := ""; d_format := ""; d_items := VNil |} = VMap x) as H0
    by by left.
  revert H0. generalize {| d_typ := ""; d_format := ""; d_items := VNil |}. intros d0 H0.
  assert (∃ d1, (d_items d1 = VNil ∨ ∃ x, d_items d1 = VMap x) ∧
            match asMap (index pm "schema") with
            | Some sch =>
                if (bool_decide (d_typ (deriveFrom sch d0) = "") &&
                    negb (isNilAny (index sch "$ref")))%bool
                then {| d_typ := "string"; d_format := d_format (deriveFrom sch d0);
                        d_items := d_items (deriveFrom sch d0) |}
                else deriveFrom sch d0
            | None => d0
            end = d1) as (d1 & H1 & ->).
  { destruct (asMap (index pm "schema")) as [sch|]; [|by exists d0].
    pose proof (deriveFrom_items sch d0 H0).
    destruct (_ && _)%bool; eexists; (split; [|reflexivity]); done. }
  pose proof (deriveFrom_items pm d1 H1).
  destruct (decide (d_typ d1 = "")); repeat case_decide; done.
Qed.

(** X11. The formData parameter made from a body parameter has no key
    other than in, name, description, required, type, items and format (no
    [schema] in particular). It is [in: formData]; its name and its type
    are never empty; [required] is the one of the body parameter when that
    is a boolean, and [description] the one of the body parameter when
    that is a string that is not empty; [items], when there, is a mapping,
    and [format], when there, a string that is not empty. *)
Theorem converted_parameter_shape pm :
  dom (formDataFromBodyParam pm) ⊆ formDataKeys ∧
  formDataFromBodyParam pm !! "in" = Some (VStr "formData") ∧
  (∃ name, formDataFromBodyParam pm !! "name" = Some (VStr name) ∧ name ≠ "") ∧
  (∃ typ, formDataFromBodyParam pm !! "type" = Some (VStr typ) ∧ typ ≠ "") ∧
  formDataFromBodyParam pm !! "required" = VBool <$> asBool (index pm "required") ∧
  formDataFromBodyParam pm !! "description" =
    match asStr (index pm "description") with
    | Some desc => if decide (desc = "") then None else Some (VStr desc)
    | None => None
    end ∧
  (∀ items, formDataFromBodyParam pm !! "items" = Some items → ∃ m, items = VMap m) ∧
  (∀ format, formDataFromBodyParam pm !! "format" = Some format →
             ∃ f, format = VStr f ∧ f ≠ "").
Proof.
  pose (put := fun (k : string) (o : option any) (m : gmap string any) =>
                 match o with Some v => <[ k := v ]> m | None => m end).
  assert (∀ k o m k', put k o m !! k' =
            if decide (k = k') then match o with Some v => Some v | None => m !! k' end
            else m !! k') as Hput.
  { intros k o m k'. unfold put. destruct o as [v|]; destruct (decide (k = k')) as [->|];
      by rewrite ?lookup_insert_eq, ?lookup_insert_ne. }
  assert (∀ k o m, dom (put k o m) ⊆ {[ k ]} ∪ dom m) as Hdom.
  { intros k o m. unfold put. destruct o; [rewrite dom_insert_L|]; set_solver. }
  pose proof (deriveType_items pm) as Hitems.
  pose proof (deriveType_nonempty pm) as Htyp.
  set (name := if decide (asString (index pm "name") = "") then "field"
               else asString (index pm "name")).
  assert (name ≠ "") as Hname.
  { subst name. by destruct (decide (asString (index pm "name") = "")). }
  assert (formDataFromBodyParam pm =
          put "format" (if decide (d_format (deriveType pm) = "") then None
                        else Some (VStr (d_format (deriveType pm))))
            (put "items" (if isNilAny (d_items (deriveType pm)) then None
                          else Some (d_items (deriveType pm)))
               (put "type" (Some (VStr (d_typ (deriveType pm))))
                  (put "required" (VBool <$> asBool (index pm "required"))
                     (put "description"
                        (match asStr (index pm "description") with
                         | Some desc => if decide (desc = "") then None else Some (VStr desc)
                         | None => None
                         end)
                        (put "in" (Some (VStr "formData")) {[ "name" := VStr name ]}))))))
    as ->.
  { unfold formDataFromBodyParam. fold name.
    destruct (asStr (index pm "description")) as [desc|];
      [destruct (decide (desc = ""))|];
      destruct (asBool (index pm "required"));
      destruct (isNilAny (d_items (deriveType pm)));
      destruct (decide (d_format (deriveType pm) = "")); reflexivity. }
  revert Hitems Htyp. generalize (deriveType pm). intros d Hitems Htyp.
  split.
  { unfold formDataKeys. repeat (etrans; [apply Hdom|]; apply union_least; [set_solver|]).
    rewrite dom_singleton_L. set_solver. }
  rewrite !Hput. cbn [decide]. 
  repeat match goal with
         | |- context [decide (?a = ?b)] =>
             first [ rewrite (decide_True (P := a = b)) by done
                   | rewrite (decide_False (P := a = b)) by done ]
         end.
  rewrite lookup_singleton_eq, !lookup_singleton_ne by done.
  split; [done|]. split; [by exists name|]. split; [by exists (d_typ d)|].
  split; [by destruct (asBool (index pm "required"))|].
  split; [by repeat case_match|].
  split.
  - intros items. destruct (isNilAny (d_items d)) eqn:Hnil; [done|]. intros [= <-].
    destruct Hitems as [E|E]; [by rewrite E in Hnil|done].
  - intros format. destruct (d_format d =? "")%string eqn:E.
    + apply String.eqb_eq in E. rewrite E. done.
    + apply String.eqb_neq in E. intros H. exists (d_format d). split; [|done].
      revert H. clear -E.
      match goal with |- context [if ?c then _ else _] => destruct c end; [done|].
      by intros [= <-].
Qed.
End RewriteFrame.

Lemma preprocess_settles_witness :
  preprocessV2ForCompatibility decodesBoth encodes "# rewritten" = ("# rewritten", false, None).
Proof.
  apply (preprocess_settles decodesBoth encodes "swagger: '2.0'" (v2DocWith twoBodiesOp)
           (default ∅ (asMap (index (v2DocWith twoBodiesOp) "paths"))) "# rewritten").
  - reflexivity.
  - reflexivity.
  - reflexivity.
Defined.

Lemma preprocess_keeps_the_shape_witness :
  ∃ paths paths' : gmap string any,
    asMap (index (v2DocWith twoBodiesOp) "paths") = Some paths ∧
    dom paths' = dom paths.
Proof.
  destruct (preprocess_keeps_the_shape (decodesTo (v2DocWith twoBodiesOp)) encodes
              "swagger: '2.0'" (v2DocWith twoBodiesOp) "# rewritten")
    as (paths & paths' & H1 & _ & H2 & _).
  - reflexivity.
  - vm_compute. reflexivity.
  - by exists paths, paths'.
Defined.
(** ** The builder: which operations become endpoints *)

Section EndpointsComplete.
Variable enum : ∀ V : Type, gmap string V → list (string * V).
Hypothesis Henum : enumerates enum.

Lemma opsOf_methods (item : openapi3.PathItem) (m : HttpMethod)
    (o : option openapi3.Operation) :
  (m, o) ∈ opsOf item → m ∈ supportedMethods.
Proof.
  unfold opsOf, supportedMethods. rewrite !elem_of_cons, !elem_of_nil.
  intros H. repeat destruct H as [H|H]; try done; injection H as -> _; auto 10.
Qed.

Lemma opsOf_functional (item : openapi3.PathItem) (m : HttpMethod)
    (o1 o2 : option openapi3.Operation) :
  (m, o1) ∈ opsOf item → (m, o2) ∈ opsOf item → o1 = o2.
Proof.
  unfold opsOf. rewrite !elem_of_cons, !elem_of_nil.
  intros H1 H2.
  repeat destruct H1 as [H1|H1]; try done; injection H1 as -> ->;
    repeat destruct H2 as [H2|H2]; try done; by injection H2 as <-.
Qed.

Lemma Forall2_elem_of_l {A B} (P : A → B → Prop) (l : list A) (k : list B) (x : A) :
  Forall2 P l k → x ∈ l → ∃ y, y ∈ k ∧ P x y.
Proof.
  induction 1 as [|x' y l k Hxy Hall IH]; [by intros ?%elem_of_nil|].
  intros [->|Hx]%elem_of_cons.
  - exists y. split; [by left|done].
  - destruct (IH Hx) as (y' & Hy' & HP). exists y'. split; [by right|done].
Qed.

Lemma pathRes_pass (res : list (string → bool)) (p : string) :
  (bool_decide (0 < length res)%nat && negb (existsb (fun re => re p) res))%bool = false ↔
  (res ≠ [] → ∃ re, re ∈ res ∧ re p = true).
Proof.
  rewrite andb_false_iff, negb_false_iff, bool_decide_eq_false, existsb_elem_of. split.
  - intros [H|H] Hne; [|done]. destruct res; [done|]. simpl in H. lia.
  - intros H. destruct res as [|re res]; [left; simpl; lia|]. right. by apply H.
Qed.

Lemma methods_pass (ms : gset HttpMethod) (m : HttpMethod) :
  (bool_decide (0 < size ms)%nat && negb (bool_decide (m ∈ ms)))%bool = false ↔
  (ms ≠ ∅ → m ∈ ms).
Proof.
  rewrite andb_false_iff, negb_false_iff, bool_decide_eq_false, bool_decide_eq_true,
    size_pos_nonempty. split.
  - intros [H|H] Hne; [done|done].
  - intros H. destruct (decide (ms = ∅)) as [->|Hne]; [left; by intros ?|]. right. by apply H.
Qed.

(** An endpoint is appended exactly for the operations that pass the
    filters, as long as the conversion of the contents does not panic. *)
Lemma endpointOf_passes cfg v2Ops (p : string) (item : openapi3.PathItem) (m : HttpMethod)
    (o : openapi3.Operation) (y : option EndpointModel) :
  endpointOf enum cfg v2Ops p item m (Some o) = Some y →
  (is_Some y ↔ passesFilters cfg p m o) ∧
  (∀ ep, y = Some ep → ep_Path ep = p ∧ ep_Method ep = m).
Proof.
  unfold endpointOf, passesFilters.
  pose proof (methods_pass (methods cfg) m) as Hm.
  pose proof (pathRes_pass (pathRes cfg) p) as Hp.
  destruct (bool_decide (0 < size (methods cfg))%nat && negb (bool_decide (m ∈ methods cfg)))%bool.
  { intros [= <-]. split; [|done]. split; [by intros [? ?]|].
    intros (H & _). apply Hm in H. done. }
  destruct (bool_decide (0 < length (pathRes cfg))%nat &&
            negb (existsb (fun re => re p) (pathRes cfg)))%bool.
  { intros [= <-]. split; [|done]. split; [by intros [? ?]|].
    intros (_ & H & _). apply Hp in H. done. }
  destruct (requestBodyOf enum v2Ops o p m) as [rb|]; [|done].
  destruct (responsesOf enum v2Ops o p m) as [rs|]; [|done].
  cbn [mbind option_bind].
  destruct (allowByTags (tagsOf o) cfg).
  - cbn [negb]. intros [= <-]. split.
    + split; [intros _|by eauto]. split; [by apply Hm|]. split; [by apply Hp|done].
    + by intros ep [= <-].
  - cbn [negb]. intros [= <-]. split; [|done]. split; [by intros [? ?]|].
    by intros (_ & _ & ?).
Qed.

Lemma endpointBefore_key (a b : EndpointModel) :
  endpointBefore a b → (ep_Path a, ep_Method a) ≠ (ep_Path b, ep_Method b).
Proof.
  intros [H|[_ H]] [= Hp Hm].
  - rewrite Hp in H. by apply strLt_irrefl in H.
  - rewrite Hm in H. lia.
Qed.

Lemma append_String (c : ascii) (s t : string) : String c s +:+ t = String c (s +:+ t).
Proof. reflexivity. Qed.

Lemma append_EmptyString (t : string) : "" +:+ t = t.
Proof. reflexivity. Qed.

Lemma endpoint_ID_inj (m1 m2 : HttpMethod) (p1 p2 : string) :
  m1 ∈ supportedMethods → m2 ∈ supportedMethods →
  m1 +:+ " " +:+ p1 = m2 +:+ " " +:+ p2 → m1 = m2 ∧ p1 = p2.
Proof.
  unfold supportedMethods. rewrite !elem_of_cons, !elem_of_nil.
  intros H1 H2.
  repeat destruct H1 as [H1|H1]; try done; subst m1;
    repeat destruct H2 as [H2|H2]; try done; subst m2;
    unfold GET, POST, PUT, DELETE, PATCH, HEAD, OPTIONS, TRACE;
    rewrite !append_String, !append_EmptyString;
    intros H; try discriminate H; by injection H as ->.
Qed.

Lemma NoDup_fmap_sorted {A B} (f : A → B) (R : relation A) (l : list A) :
  StronglySorted R l → (∀ a b, a ∈ l → b ∈ l → R a b → f a ≠ f b) → NoDup (f <$> l).
Proof.
  induction 1 as [|x l Hs IH Hall]; intros Hf; [constructor|].
  rewrite fmap_cons. constructor.
  - intros (y & Hxy & Hy)%list_elem_of_fmap. rewrite Forall_forall in Hall.
    apply (Hf x y); [by left|by right|by apply Hall|done].
  - apply IH. intros a b Ha Hb. apply Hf; by right.
Qed.

Variable yaml : string → error + gmap string any.

(** X12. The endpoints of the model are exactly the operations of the
    document that pass the filters: for every operation under one of the
    eight methods of a path item, the model has an endpoint with that path
    and method if and only if the method is in the set of methods (when
    that set is not empty), the path matches one of the patterns (when
    there is one), and the trimmed tags of the operation pass
    [allowByTags]. *)
Theorem endpoints_are_the_operations_that_pass
    (stored : v2Entry) (doc : openapi3.T) (v2Raw : option string)
    (opts : list BuildOption) (sm : ServiceModel)
    (p : string) (item : openapi3.PathItem) (m : HttpMethod) (o : openapi3.Operation) :
  BuildServiceModel enum yaml stored (Some doc) v2Raw opts = Some (inr sm) →
  openapi3.t_Paths doc !! p = Some (Some item) →
  (m, Some o) ∈ opsOf item →
  (∃ ep, ep ∈ sm_Endpoints sm ∧ ep_Path ep = p ∧ ep_Method ep = m) ↔
  passesFilters (configOf opts) p m o.
Proof.
  intros Hsm Hp Ho.
  pose proof (BuildServiceModel_Some enum yaml _ _ _ _ _ Hsm) as [Heps _].
  split.
  - intros (ep & Hep & <- & <-).
    destruct (endpointsOf_spec enum Henum _ _ _ _ Heps) as [_ Hall].
    rewrite Forall_forall in Hall. destruct (Hall ep Hep) as (item' & o' & Hp' & Hin & Hx).
    rewrite Hp in Hp'. injection Hp' as <-.
    pose proof (opsOf_functional _ _ _ _ Ho Hin) as [= <-].
    apply endpointOf_passes in Hx as [Hx _]. by apply Hx.
  - intros Hpass. unfold endpointsOf in Heps.
    destruct (mapM _ (sortedKeys enum (openapi3.t_Paths doc))) as [epss|] eqn:E; [|done].
    cbn [mbind option_bind] in Heps. injection Heps as Heps. apply mapM_Some in E.
    assert (p ∈ sortedKeys enum (openapi3.t_Paths doc)) as Hk
      by (apply (sortedKeys_elem_of enum Henum); eauto).
    destruct (Forall2_elem_of_l _ _ _ _ E Hk) as (eps & Heps' & Hpath).
    unfold endpointsOfPath in Hpath. rewrite Hp in Hpath.
    destruct (mapM _ (opsOf item)) as [xs|] eqn:E'; [|done].
    cbn [mbind option_bind] in Hpath. injection Hpath as Hpath. apply mapM_Some in E'.
    destruct (Forall2_elem_of_l _ _ _ _ E' Ho) as (y & Hy & Hx). cbn [fst snd] in Hx.
    apply endpointOf_passes in Hx as [Hsome Hkey].
    apply Hsome in Hpass as [ep ->]. exists ep.
    destruct (Hkey ep eq_refl) as [? ?]. split; [|done].
    rewrite <- Heps. apply elem_of_concat. exists eps. split; [done|].
    rewrite <- Hpath. by apply elem_of_omap_id.
Qed.

(** X13. No two endpoints of a model have the same path and method, and
    the IDs of the endpoints ("<method> <path>") are pairwise distinct. *)
Theorem endpoint_IDs_are_unique
    (stored : v2Entry) (doc : openapi3.T) (v2Raw : option string)
    (opts : list BuildOption) (sm : ServiceModel) :
  BuildServiceModel enum yaml stored (Some doc) v2Raw opts = Some (inr sm) →
  NoDup ((fun ep => (ep_Path ep, ep_Method ep)) <$> sm_Endpoints sm) ∧
  NoDup (ep_ID <$> sm_Endpoints sm).
Proof.
  intros Hsm.
  pose proof (BuildServiceModel_Some enum yaml _ _ _ _ _ Hsm) as [Heps _].
  destruct (endpointsOf_spec enum Henum _ _ _ _ Heps) as [Hsorted _].
  split.
  - eapply NoDup_fmap_sorted; [exact Hsorted|].
    intros a b _ _. apply endpointBefore_key.
  - eapply NoDup_fmap_sorted; [exact Hsorted|].
    intros a b Ha Hb Hab Hid.
    destruct (BuildServiceModel_endpoints enum Henum yaml _ _ _ _ _ _ Hsm Ha)
      as (ia & oa & _ & Hma & Hida & _).
    destruct (BuildServiceModel_endpoints enum Henum yaml _ _ _ _ _ _ Hsm Hb)
      as (ib & ob & _ & Hmb & Hidb & _).
    rewrite Hida, Hidb in Hid.
    apply endpoint_ID_inj in Hid as [Hm Hp]; [|by eapply opsOf_methods..].
    apply (endpointBefore_key a b Hab). by rewrite Hm, Hp.
Qed.
End EndpointsComplete.

Lemma endpoints_are_the_operations_that_pass_witness :
  (∃ ep, ep ∈ sm_Endpoints (petsModel [WithExcludeTags ["admin"]]) ∧
         ep_Path ep = "/admin" ∧ ep_Method ep = GET) ↔
  passesFilters (configOf [WithExcludeTags ["admin"]]) "/admin" GET adminOnly.
Proof.
  apply (endpoints_are_the_operations_that_pass canonicalEnum canonicalEnum_enumerates rejects
           noV2Entry petsDoc None [WithExcludeTags ["admin"]]
           (petsModel [WithExcludeTags ["admin"]]) "/admin"
           (pathItemOf [] (Some adminOnly) None) GET adminOnly).
  - vm_compute. reflexivity.
  - vm_compute. reflexivity.
  - unfold opsOf. simpl. left.
Defined.

Lemma endpoint_IDs_are_unique_witness :
  NoDup ((fun ep => (ep_Path ep, ep_Method ep)) <$> sm_Endpoints (petsModel [])) ∧
  NoDup (ep_ID <$> sm_Endpoints (petsModel [])).
Proof.
  apply (endpoint_IDs_are_unique canonicalEnum canonicalEnum_enumerates rejects
           noV2Entry petsDoc None [] (petsModel [])).
  vm_compute. reflexivity.
Defined.
(** ** The builder: the schemas of the model *)

Section Schemas.
Variable enum : ∀ V : Type, gmap string V → list (string * V).
Hypothesis Henum : enumerates enum.

(** A reference that is not nil converts to something that is not nil:
    the [return nil] at the end of the branch of the nil [Value] is dead. *)
Lemma toSchemaOrRef_nil (ref : openapi3.SchemaRef) :
  toSchemaOrRef ref = NilSchemaOrRef ↔ ref = openapi3.NilSchemaRef.
Proof.
  destruct ref as [|r [v|]]; cbn; [done|..];
    destruct (decide (r ≠ "")); split; done.
Qed.

Lemma storedSchema_spec (v2Schema : option any) (ref : openapi3.SchemaRef) (name : string) :
  (is_Some (storedSchema v2Schema ref name) ↔ ref ≠ openapi3.NilSchemaRef) ∧
  (∀ s, storedSchema v2Schema ref name = Some s → sc_Name s = name).
Proof.
  unfold storedSchema. destruct ref as [|r v]; [split; [split; [by intros [? ?]|done]|done]|].
  set (ref := openapi3.MkSchemaRef r v).
  assert (toSchemaOrRef ref ≠ NilSchemaOrRef) as Hne by by rewrite toSchemaOrRef_nil.
  destruct (match v2Schema with Some v2 => toSchemaOrRefFromV2 v2 name | None => NilSchemaOrRef end)
    as [|r'|s'].
  - destruct (toSchemaOrRef ref) as [|r''|s'']; [done|..];
      (split; [split; [done|by eauto]|by intros s [= <-]]).
  - split; [split; [done|by eauto]|by intros s [= <-]].
  - split; [split; [done|by eauto]|by intros s [= <-]].
Qed.

Lemma schemasOf_step (v2Schemas : gmap string any) (schemas : gmap string openapi3.SchemaRef)
    (out : gmap string Schema) (name : string) :
  match schemas !! name with
  | None | Some openapi3.NilSchemaRef => out
  | Some ref =>
      let sor :=
        match v2Schemas !! name with
        | Some v2Schema => toSchemaOrRefFromV2 v2Schema name
        | None => NilSchemaOrRef
        end in
      let sor := match sor with NilSchemaOrRef => toSchemaOrRef ref | _ => sor end in
      match sor with
      | NilSchemaOrRef => out
      | RefTo _ => <[ name := setName emptySchema name ]> out
      | Concrete schema => <[ name := setName schema name ]> out
      end
  end =
  match schemas !! name ≫= fun ref => storedSchema (v2Schemas !! name) ref name with
  | Some s => <[ name := s ]> out
  | None => out
  end.
Proof.
  destruct (schemas !! name) as [[|r v]|]; cbn [mbind option_bind]; [done| |done].
  unfold storedSchema. cbv zeta.
  generalize (toSchemaOrRef (openapi3.MkSchemaRef r v)). intros sor.
  destruct (match v2Schemas !! name with
            | Some v2 => toSchemaOrRefFromV2 v2 name | None => NilSchemaOrRef end)
    as [|r'|s']; [|done|done].
  by destruct sor.
Qed.

Lemma foldl_insert_lookup {V} (g : string → option V) (keys : list string)
    (out : gmap string V) (name : string) :
  foldl (fun out k => match g k with Some s => <[ k := s ]> out | None => out end) out keys
    !! name =
  match (if decide (name ∈ keys) then g name else None) with
  | Some s => Some s
  | None => out !! name
  end.
Proof.
  revert out. induction keys as [|k keys IH]; intros out; [done|].
  cbn [foldl]. rewrite IH.
  destruct (decide (name ∈ keys)) as [Hin|Hin].
  - rewrite decide_True by by right.
    destruct (g name) as [s|] eqn:Hg; [done|].
    destruct (g k) as [s|] eqn:Hk; [|done].
    rewrite lookup_insert_ne; [done|]. intros ->. congruence.
  - destruct (decide (k = name)) as [->|Hne].
    + rewrite decide_True by by left. destruct (g name); [by rewrite lookup_insert_eq|done].
    + rewrite decide_False by (intros [->|?]%elem_of_cons; done).
      destruct (g k); [by rewrite lookup_insert_ne|done].
Qed.

Lemma foldl_pointwise {A B} (f g : A → B → A) (a : A) (l : list B) :
  (∀ a b, f a b = g a b) → foldl f a l = foldl g a l.
Proof.
  intros H. revert a. induction l as [|b l IH]; intros a; [done|].
  cbn [foldl]. by rewrite H, IH.
Qed.

Lemma schemasOf_lookup (v2Schemas : gmap string any)
    (schemas : gmap string openapi3.SchemaRef) (name : string) :
  schemasOf enum v2Schemas schemas !! name =
  schemas !! name ≫= fun ref => storedSchema (v2Schemas !! name) ref name.
Proof.
  unfold schemasOf.
  rewrite (foldl_pointwise _
             (fun out k =>
                match schemas !! k ≫= fun ref => storedSchema (v2Schemas !! k) ref k with
                | Some s => <[ k := s ]> out
                | None => out
                end)) by (intros out k; apply schemasOf_step).
  rewrite (foldl_insert_lookup
             (fun k => schemas !! k ≫= fun ref => storedSchema (v2Schemas !! k) ref k)).
  rewrite lookup_empty.
  destruct (decide (name ∈ sortedKeys enum schemas)) as [Hin|Hin].
  - by destruct (schemas !! name ≫= _).
  - rewrite (sortedKeys_elem_of enum Henum) in Hin.
    destruct (schemas !! name) as [ref|]; [|done]. exfalso. eauto.
Qed.

Variable yaml : string → error + gmap string any.

(** X14. The schemas of the model are the components of the document
    that are not nil, one for one and under the same names, and each
    carries its key as its [Name]. No component is dropped: a reference
    that is not nil always converts to a schema or a reference. The
    schema comes from the v2 definition of the same name when there is
    one and it is a mapping, and from the converted document otherwise; a
    component that is itself a reference is stored as an empty schema with
    only its name. *)
Theorem schemas_keep_their_names
    (stored : v2Entry) (doc : openapi3.T) (v2Raw : option string)
    (opts : list BuildOption) (sm : ServiceModel) :
  BuildServiceModel enum yaml stored (Some doc) v2Raw opts = Some (inr sm) →
  let components :=
    match openapi3.t_Components doc with Some c => openapi3.c_Schemas c | None => ∅ end in
  let v2Schemas :=
    match v2Raw with Some raw => extractV2Schemas yaml raw | None => definitions stored end in
  (∀ name, is_Some (sm_Schemas sm !! name) ↔
           ∃ ref, components !! name = Some ref ∧ ref ≠ openapi3.NilSchemaRef) ∧
  (∀ name s, sm_Schemas sm !! name = Some s → sc_Name s = name) ∧
  (∀ name ref, components !! name = Some ref →
     sm_Schemas sm !! name = storedSchema (v2Schemas !! name) ref name).
Proof.
  intros Hsm components v2Schemas.
  assert (∀ name, sm_Schemas sm !! name =
            components !! name ≫= fun ref => storedSchema (v2Schemas !! name) ref name) as Hl.
  { intros name. unfold BuildServiceModel in Hsm.
    destruct (endpointsOf _ _ _ _) as [eps|]; [|done].
    cbn [mbind option_bind] in Hsm. injection Hsm as <-. cbn [sm_Schemas].
    subst components v2Schemas.
    destruct (openapi3.t_Components doc) as [c|]; [|by rewrite !lookup_empty].
    apply schemasOf_lookup. }
  split; [|split].
  - intros name. rewrite Hl. destruct (components !! name) as [ref|]; cbn.
    + rewrite (proj1 (storedSchema_spec _ ref name)). split; [by eauto|].
      by intros (ref' & [= <-] & ?).
    + split; [by intros [? ?]|]. by intros (ref' & ? & _).
  - intros name s. rewrite Hl. destruct (components !! name) as [ref|]; [|done]. cbn.
    apply storedSchema_spec.
  - intros name ref Href. by rewrite Hl, Href.
Qed.
End Schemas.

Lemma schemas_keep_their_names_witness :
  (∀ name, is_Some (sm_Schemas (petsModel []) !! name) ↔
           ∃ ref, ({[ "Pet" := petSchema ]} : gmap string openapi3.SchemaRef) !! name = Some ref ∧
                  ref ≠ openapi3.NilSchemaRef) ∧
  (∀ name s, sm_Schemas (petsModel []) !! name = Some s → sc_Name s = name).
Proof.
  destruct (schemas_keep_their_names canonicalEnum canonicalEnum_enumerates rejects
              noV2Entry petsDoc None [] (petsModel [])) as (H1 & H2 & _).
  - vm_compute. reflexivity.
  - split; [exact H1|exact H2].
Defined.
(** ** The builder: the media types of a content *)

Section MediaLists.
Variable enum : ∀ V : Type, gmap string V → list (string * V).
Hypothesis Henum : enumerates enum.

Lemma omap_sorted_keys {B} (f : string → option B) (key : B → string) (l : list string) :
  (∀ k b, f k = Some b → key b = k) →
  StronglySorted strLt l →
  StronglySorted strLt (key <$> omap f l) ∧
  ∀ k, k ∈ key <$> omap f l ↔ k ∈ l ∧ is_Some (f k).
Proof.
  intros Hkey. induction 1 as [|x l Hs [IH1 IH2] Hall].
  { split; [constructor|]. intros k. cbn. rewrite elem_of_nil. tauto. }
  cbn [omap list_omap]. destruct (f x) as [b|] eqn:Hx.
  - rewrite fmap_cons, (Hkey _ _ Hx). split.
    + constructor; [done|]. apply Forall_forall. intros k [Hk _]%IH2.
      rewrite Forall_forall in Hall. by apply Hall.
    + intros k. rewrite !elem_of_cons, IH2. split.
      * intros [->|[? ?]]; [split; [by left|by rewrite Hx]|]. split; [by right|done].
      * intros [[->|?] ?]; [by left|by right].
  - split; [done|]. intros k. rewrite IH2, elem_of_cons. split.
    + intros [? ?]. split; [by right|done].
    + intros [[->|?] Hk]; [|done]. rewrite Hx in Hk. by destruct Hk.
Qed.

(** X15. The media list of a content holds one entry for each media type
    whose value is not nil, in increasing order of the media types. Each
    entry has the converted schema of its media type; its example is the
    [Example] of the media type when that is not nil. *)
Theorem media_are_sorted_by_type (content : openapi3.Content) :
  StronglySorted strLt (mimesOf (toMediaList enum content)) ∧
  (∀ mime, mime ∈ mimesOf (toMediaList enum content) ↔
           ∃ mt, content !! mime = Some (Some mt)) ∧
  (∀ md, md ∈ toMediaList enum content →
         ∃ mt, content !! md_Mime md = Some (Some mt) ∧
               md_Schema md = toSchemaOrRef (openapi3.mt_Schema mt) ∧
               (openapi3.mt_Example mt ≠ VNil → md_Example md = openapi3.mt_Example mt)).
Proof.
  unfold mimesOf, toMediaList.
  set (f := fun mime => match content !! mime with
                        | Some (Some mt) =>
                            Some {| md_Mime := mime;
                                    md_Schema := toSchemaOrRef (openapi3.mt_Schema mt);
                                    md_Example := exampleOf enum mt |}
                        | _ => None
                        end).
  assert (∀ k b, f k = Some b → md_Mime b = k) as Hkey.
  { intros k b. unfold f. destruct (content !! k) as [[mt|]|]; try done. by intros [= <-]. }
  destruct (omap_sorted_keys f md_Mime (sortedKeys enum content) Hkey
              (sortedKeys_strict enum Henum content)) as [Hs Hmem].
  split; [exact Hs|]. split.
  - intros mime. rewrite Hmem, (sortedKeys_elem_of enum Henum). unfold f.
    destruct (content !! mime) as [[mt|]|] eqn:Hc.
    + split; [intros _; by eauto|]. intros _. split; [exists (Some mt); exact Hc|by eexists].
    + split; [by intros [_ [? ?]]|by intros [? ?]].
    + split; [by intros [_ [? ?]]|by intros [? ?]].
  - intros md (mime & Hmime & Hf)%list_elem_of_omap. unfold f in Hf.
    destruct (content !! mime) as [[mt|]|] eqn:Hc; try done. injection Hf as <-. cbn.
    exists mt. split; [done|]. split; [done|]. intros Hex. unfold exampleOf.
    by destruct (openapi3.mt_Example mt).
Qed.

(** X16. The enhancement from the cached v2 operations leaves the media
    types, the examples and every entry but the first as [toMediaList]
    made them. It changes the list only for a method other than GET, and
    only when the schema of the first entry is an object without
    properties; that schema is then replaced by a reference into
    [#/components/schemas/]. *)
Theorem v2_cache_changes_the_first_schema_only
    (content : openapi3.Content) (v2Operations : gmap string (gmap string any))
    (path method : string) (result : list Media) :
  toMediaListWithV2Cache enum content v2Operations path method = Some result →
  exceptFirstSchema result = exceptFirstSchema (toMediaList enum content) ∧
  (result ≠ toMediaList enum content →
     strings_ToLower method ≠ "get" ∧
     ∃ first s target,
       head (toMediaList enum content) = Some first ∧
       md_Schema first = Concrete s ∧ sc_Type s = "object" ∧ sc_Properties s = ∅ ∧
       md_Schema <$> head result = Some (RefTo ("#/components/schemas/" +:+ target))).
Proof.
  unfold toMediaListWithV2Cache.
  destruct (toMediaList enum content) as [|first rest] eqn:El; [by intros [= <-]|].
  destruct (md_Schema first) as [| |s] eqn:Es; [by intros [= <-]..|].
  destruct (negb (bool_decide (sc_Type s = "object")) ||
            bool_decide (0 < size (sc_Properties s))%nat)%bool eqn:Eo; [by intros [= <-]|].
  apply orb_false_iff in Eo as [Et Ep].
  apply negb_false_iff, bool_decide_eq_true in Et.
  apply bool_decide_eq_false in Ep.
  assert (sc_Properties s = ∅) as Hprops.
  { apply map_size_empty_iff. lia. }
  destruct (v2Operations !! path) as [pathOps|]; [|by intros [= <-]].
  destruct (pathOps !! strings_ToLower method) as [methodOp|]; [|by intros [= <-]].
  destruct (decide (strings_ToLower method = "get")) as [|Hget]; [by intros [= <-]|].
  destruct (findBodyParameter methodOp) as [bodyParam|]; [|by intros [= <-]].
  destruct (isNilAny (index bodyParam "schema")); [by intros [= <-]|].
  destruct (asMap (index bodyParam "schema")) as [schemaRef|]; [|done].
  destruct (asStr (index schemaRef "$ref")) as [ref|]; [|by intros [= <-]].
  intros [= <-]. split; [done|]. intros _. split; [done|].
  exists first, s, (replaceFirst ref "#/definitions/" ""). by rewrite Es.
Qed.
End MediaLists.

Lemma v2_cache_changes_the_first_schema_only_witness :
  exceptFirstSchema
    [ {| md_Mime := "application/json"; md_Schema := RefTo "#/components/schemas/Pet";
         md_Example := VNil |} ]
  = exceptFirstSchema (toMediaList canonicalEnum bareObjectContent).
Proof.
  apply (v2_cache_changes_the_first_schema_only canonicalEnum bareObjectContent
           petsV2Operations "/pets" "POST").
  vm_compute. reflexivity.
Defined.

(** ** The builder: references of Swagger v2 *)

Section V2References.

Lemma prefix_append (old rest : string) : String.prefix old (old +:+ rest) = true.
Proof.
  induction old as [|c old IH]; [by destruct rest|].
  rewrite append_String. cbn [String.prefix]. by destruct (ascii_dec c c).
Qed.

Lemma substring_all (n : nat) (s : string) :
  (String.length s <= n)%nat → String.substring 0 n s = s.
Proof.
  revert n. induction s as [|c s IH]; intros n Hn; [by destruct n|].
  destruct n as [|n]; [cbn in Hn; lia|]. cbn. rewrite IH; [done|]. cbn in Hn. lia.
Qed.

Lemma substring_append (old rest : string) (n : nat) :
  (String.length rest <= n)%nat →
  String.substring (String.length old) n (old +:+ rest) = rest.
Proof.
  intros Hn. induction old as [|c old IH]; [by apply substring_all|].
  rewrite append_String. cbn. exact IH.
Qed.

Lemma replaceFirst_unfold (s old new : string) :
  replaceFirst s old new =
  if String.prefix old s
  then new +:+ String.substring (String.length old) (String.length s) s
  else match s with
       | EmptyString => EmptyString
       | String c r => String c (replaceFirst r old new)
       end.
Proof. by destruct s. Qed.

Lemma length_append (a b : string) :
  String.length (a +:+ b) = (String.length a + String.length b)%nat.
Proof. induction a as [|c a IH]; [done|]. rewrite append_String. cbn. by rewrite IH. Qed.

Lemma replaceFirst_prefix (old new rest : string) :
  replaceFirst (old +:+ rest) old new = new +:+ rest.
Proof.
  rewrite replaceFirst_unfold, prefix_append, substring_append; [done|].
  rewrite length_append. lia.
Qed.

Lemma toSchemaOrRefFromV2_ref (schemaMap : gmap string any) (name ref : string) :
  schemaMap !! "$ref" = Some (VStr ref) →
  toSchemaOrRefFromV2 (VMap schemaMap) name =
  if strings_HasPrefix ref "#/definitions/"
  then RefTo (replaceFirst ref "#/definitions/" "#/components/schemas/")
  else RefTo ref.
Proof.
  intros H. cbn [toSchemaOrRefFromV2]. unfold index. rewrite H. reflexivity.
Qed.

(** X17. A v2 schema with a [$ref] string converts to a reference,
    whatever its other keys: a reference to the v2 definition [target]
    becomes one to the component [target], and any other reference is
    kept as it is. Anything that is not a mapping converts to nil. *)
Theorem v2_references_point_to_components (schemaMap : gmap string any) (name : string) :
  (∀ target, schemaMap !! "$ref" = Some (VStr ("#/definitions/" +:+ target)) →
     toSchemaOrRefFromV2 (VMap schemaMap) name = RefTo ("#/components/schemas/" +:+ target)) ∧
  (∀ ref, schemaMap !! "$ref" = Some (VStr ref) →
     strings_HasPrefix ref "#/definitions/" = false →
     toSchemaOrRefFromV2 (VMap schemaMap) name = RefTo ref) ∧
  (∀ v, asMap v = None → toSchemaOrRefFromV2 v name = NilSchemaOrRef).
Proof.
  split; [|split].
  - intros target H. rewrite (toSchemaOrRefFromV2_ref _ _ _ H).
    rewrite replaceFirst_prefix.
    assert (strings_HasPrefix ("#/definitions/" +:+ target) "#/definitions/" = true) as ->; [|done].
    unfold strings_HasPrefix. rewrite !append_String, append_EmptyString. cbn.
    by destruct target.
  - intros ref H Hp. by rewrite (toSchemaOrRefFromV2_ref _ _ _ H), Hp.
  - intros v Hv. by destruct v.
Qed.
End V2References.
(** ** The preprocessor and the builder: rewritten operations *)

Section RewrittenOperations.
Variable enum : ∀ V : Type, gmap string V → list (string * V).
Implicit Types (op pm : gmap string any) (params : list any).

Lemma exact_body_isBodyParam pm :
  asStr (index pm "in") = Some "body" → isBodyParam pm = true.
Proof.
  unfold isBodyParam, asString. destruct (index pm "in"); try done. by intros [= ->].
Qed.

Lemma findBodyParameter_params op params :
  parametersOf op = params →
  findBodyParameter (VMap op) =
  match asSeq (index op "parameters") with
  | Some _ => head (filter (fun paramMap => asStr (index paramMap "in") = Some "body")
                           (paramMaps params))
  | None => None
  end.
Proof.
  intros <-. unfold findBodyParameter, parametersOf, paramMaps. cbn [asMap].
  by destruct (asSeq (index op "parameters")).
Qed.

(** The body parameter [findBodyParameter] finds in a rewritten
    operation, if any, has a schema that is a mapping without [$ref]. *)
Lemma findBodyParameter_rewritten op bodyParam :
  needsRewrite op →
  findBodyParameter (VMap (rewriteOperation op).1) = Some bodyParam →
  ∃ schema, index bodyParam "schema" = VMap schema ∧ schema !! "$ref" = None.
Proof.
  intros [Hb Hn].
  destruct (hasFormData (parametersOf op)) eqn:Hf.
  - rewrite rewriteOperation_mixed by done.
    destruct (convertBodyToFormData_spec op (parametersOf op) Hb) as (_ & _ & Hz & _).
    rewrite (findBodyParameter_params _ _ eq_refl).
    destruct (asSeq _) as [ps|]; [|done].
    rewrite bodyCount_bodyParams in Hz. apply length_zero_iff_nil in Hz.
    unfold bodyParams in Hz.
    rewrite (filter_none (fun paramMap => asStr (index paramMap "in") = Some "body")); [done|].
    intros pm Hpm Hin. apply exact_body_isBodyParam in Hin.
    assert (pm ∈ filter (fun pm => isBodyParam pm = true)
                   (paramMaps (parametersOf (convertBodyToFormData op (parametersOf op)).1)))
      as Hx by (apply list_elem_of_filter; by split).
    rewrite Hz in Hx. by apply elem_of_nil in Hx.
  - destruct Hn as [?|Hm]; [done|].
    rewrite rewriteOperation_multi by done.
    unfold mergeBodyParams. cbn [fst].
    set (st := mergeLoop (parametersOf op)).
    unfold findBodyParameter. cbn [asMap]. rewrite index_insert_eq. cbn [asSeq omap list_omap asMap].
    rewrite filter_cons, decide_True by reflexivity. cbn [head].
    intros [= <-]. unfold mergedBodyParam.
    destruct (decide (0 < length (ms_required st))%nat); eexists; (split; [reflexivity|]);
      by rewrite ?lookup_insert_ne by done.
Qed.

(** X18. The enhancement never applies to an operation the preprocessor
    rewrote: when the cached v2 operation of a path and method is a
    rewritten one, the media list is the plain one (and the conversion
    does not panic). After a conversion to formData there is no body
    parameter left to look at; after a merge the one body parameter has an
    object schema of its own, not a reference. *)
Theorem rewritten_operations_are_not_enhanced
    (content : openapi3.Content) (v2Operations : gmap string (gmap string any))
    (pathOps : gmap string any) (path method : string) op :
  needsRewrite op →
  v2Operations !! path = Some pathOps →
  pathOps !! strings_ToLower method = Some (VMap (rewriteOperation op).1) →
  toMediaListWithV2Cache enum content v2Operations path method
  = Some (toMediaList enum content).
Proof.
  intros Hn Hpath Hop. unfold toMediaListWithV2Cache. rewrite Hpath, Hop.
  destruct (toMediaList enum content) as [|first rest]; [done|].
  destruct (md_Schema first) as [| |s]; [done..|].
  destruct (_ || _)%bool; [done|].
  destruct (decide (strings_ToLower method = "get")); [done|].
  destruct (findBodyParameter (VMap (rewriteOperation op).1)) as [bodyParam|] eqn:Hfind;
    [|done].
  destruct (findBodyParameter_rewritten op bodyParam Hn Hfind) as (schema & Hs & Href).
  rewrite Hs. cbn [isNilAny asMap]. unfold index. by rewrite Href.
Qed.
End RewrittenOperations.

Lemma rewritten_operations_are_not_enhanced_witness :
  toMediaListWithV2Cache canonicalEnum bareObjectContent
    {[ "/x" := {[ "post" := VMap (rewriteOperation twoBodiesOp).1 ]} ]} "/x" "POST"
  = Some (toMediaList canonicalEnum bareObjectContent).
Proof.
  apply (rewritten_operations_are_not_enhanced canonicalEnum bareObjectContent
           {[ "/x" := {[ "post" := VMap (rewriteOperation twoBodiesOp).1 ]} ]}
           {[ "post" := VMap (rewriteOperation twoBodiesOp).1 ]} "/x" "POST" twoBodiesOp).
  - split; [vm_compute; lia|]. right. vm_compute. lia.
  - reflexivity.
  - reflexivity.
Defined.
(** ** The cache of the v2 operations *)

Section FoldInsert.
Context {X V : Type}.
Variable g : X → option (string * V).

(** A loop that stores some of the elements of a list in a map, when no
    two of them are stored under the same key with different values. *)
Lemma foldl_insert_keyed (l : list X) (acc : gmap string V) (k : string) (v : V) :
  (∀ x y v1 v2, x ∈ l → y ∈ l → g x = Some (k, v1) → g y = Some (k, v2) → v1 = v2) →
  foldl (fun acc x => match g x with Some kv => <[ kv.1 := kv.2 ]> acc | None => acc end)
        acc l !! k = Some v ↔
  (∃ x, x ∈ l ∧ g x = Some (k, v)) ∨
  (acc !! k = Some v ∧ ∀ x v', x ∈ l → g x ≠ Some (k, v')).
Proof.
  revert acc. induction l as [|x l IH]; intros acc Hfun.
  { cbn. split; [intros H; right; split; [done|]; by intros ? ? ?%elem_of_nil|].
    intros [(x & ?%elem_of_nil & _)|[? _]]; done. }
  cbn [foldl]. rewrite IH; [|intros ? ? ? ? ? ?; apply Hfun; by right].
  assert ((∃ y, y ∈ l ∧ ∃ v', g y = Some (k, v')) ∨ ∀ y v', y ∈ l → g y ≠ Some (k, v'))
    as Hdec.
  { clear. induction l as [|y l [IH|IH]].
    - right. by intros ? ? ?%elem_of_nil.
    - left. destruct IH as (z & ? & ?). exists z. split; [by right|done].
    - destruct (g y) as [[k' v']|] eqn:Hy.
      + destruct (decide (k' = k)) as [->|Hne].
        * left. exists y. split; [by left|by eauto].
        * right. intros z v'' [->|Hz]%elem_of_cons; [|by apply IH].
          rewrite Hy. congruence.
      + right. intros z v'' [->|Hz]%elem_of_cons; [|by apply IH]. by rewrite Hy. }
  split.
  - intros [(y & Hy & Hgy)|[Hacc Hnone]].
    + left. exists y. split; [by right|done].
    + destruct (g x) as [[k' v']|] eqn:Hx; cbn [fst snd] in Hacc.
      * destruct (decide (k' = k)) as [->|Hne].
        -- rewrite lookup_insert_eq in Hacc. injection Hacc as ->.
           left. exists x. split; [by left|done].
        -- rewrite lookup_insert_ne in Hacc by done. right. split; [done|].
           intros z v'' [->|Hz]%elem_of_cons; [|by apply Hnone]. rewrite Hx. congruence.
      * right. split; [done|].
        intros z v'' [->|Hz]%elem_of_cons; [|by apply Hnone]. by rewrite Hx.
  - intros [(y & [->|Hy]%elem_of_cons & Hgy)|[Hacc Hnone]].
    + rewrite Hgy. cbn [fst snd]. destruct Hdec as [(z & Hz & v' & Hgz)|Hnone].
      * left. exists z. split; [done|].
        by rewrite (Hfun x z v v' ltac:(by left) ltac:(by right) Hgy Hgz).
      * right. split; [by rewrite lookup_insert_eq|done].
    + left. by exists y.
    + right. split; [|intros z v' Hz; apply Hnone; by right].
      destruct (g x) as [[k' v']|] eqn:Hx; [|done]. cbn [fst snd].
      rewrite lookup_insert_ne; [done|]. intros ->. by apply (Hnone x v'); [left|].
Qed.
End FoldInsert.

Section CachedOperations.
Variable enum : ∀ V : Type, gmap string V → list (string * V).
Hypothesis Henum : enumerates enum.
Variable yaml : string → error + gmap string any.

Lemma operationsOf_lookup (pi : gmap string any) (m : string) (op : any) :
  (∀ m1 m2, is_Some (pi !! m1) → is_Some (pi !! m2) →
            strings_ToLower m1 = strings_ToLower m2 → m1 = m2) →
  operationsOf enum pi !! m = Some op ↔
  ∃ m0 mm, pi !! m0 = Some (VMap mm) ∧ strings_ToLower m0 = m ∧ op = VMap mm.
Proof.
  intros Hinj. unfold operationsOf.
  set (g := fun entry : string * any =>
              match asMap entry.2 with
              | Some mm => Some (strings_ToLower entry.1, VMap mm)
              | None => None
              end).
  rewrite (foldl_pointwise _
             (fun acc x => match g x with Some kv => <[ kv.1 := kv.2 ]> acc | None => acc end))
    by (intros acc [m' d]; unfold g; cbn; by destruct (asMap d)).
  rewrite foldl_insert_keyed.
  - rewrite lookup_empty. split.
    + intros [([m0 d] & Hin & Hg)|[? _]]; [|done].
      apply (elem_of_enum enum Henum) in Hin. unfold g in Hg. cbn in Hg.
      destruct d as [| | | | |mm|]; try done. cbn in Hg. injection Hg as <- <-.
      by exists m0, mm.
    + intros (m0 & mm & Hm0 & <- & ->). left. exists (m0, VMap mm).
      split; [by apply (elem_of_enum enum Henum)|done].
  - intros [m1 d1] [m2 d2] v1 v2 H1 H2 Hg1 Hg2.
    apply (elem_of_enum enum Henum) in H1, H2. unfold g in Hg1, Hg2. cbn in Hg1, Hg2.
    destruct d1 as [| | | | |mm1|]; try done. destruct d2 as [| | | | |mm2|]; try done.
    cbn in Hg1, Hg2. injection Hg1 as E1 <-. injection Hg2 as E2 <-.
    assert (m1 = m2) as -> by (apply Hinj; [by eauto..|congruence]).
    congruence.
Qed.

Lemma extractV2Operations_lookup (v2Raw : string) (doc paths : gmap string any)
    (p : string) (ops : gmap string any) :
  yaml v2Raw = inr doc → asMap (index doc "paths") = Some paths →
  ∃ result, extractV2Operations enum yaml v2Raw = Some result ∧
    (result !! p = Some ops ↔
     ∃ pi, paths !! p = Some (VMap pi) ∧ ops = operationsOf enum pi ∧ ops ≠ ∅).
Proof.
  intros Hy Hpaths. unfold extractV2Operations. rewrite Hy, Hpaths.
  eexists. split; [reflexivity|].
  set (g := fun entry : string * any =>
              match asMap entry.2 with
              | Some pi => if decide (0 < size (operationsOf enum pi))%nat
                           then Some (entry.1, operationsOf enum pi) else None
              | None => None
              end).
  rewrite (foldl_pointwise _
             (fun acc x => match g x with Some kv => <[ kv.1 := kv.2 ]> acc | None => acc end))
    by (intros acc [p' d]; unfold g; cbn; destruct (asMap d); [|done]; by case_decide).
  rewrite foldl_insert_keyed.
  - rewrite lookup_empty. split.
    + intros [([p0 d] & Hin & Hg)|[? _]]; [|done].
      apply (elem_of_enum enum Henum) in Hin. unfold g in Hg. cbn in Hg.
      destruct d as [| | | | |pi|]; try done. cbn in Hg.
      case_decide as Hsz; [|done]. injection Hg as <- <-.
      exists pi. split; [done|]. split; [done|]. intros E. rewrite E, map_size_empty in Hsz. lia.
    + intros (pi & Hp & -> & Hne). left. exists (p, VMap pi).
      split; [by apply (elem_of_enum enum Henum)|]. unfold g. cbn.
      rewrite decide_True; [done|].
      destruct (decide (size (operationsOf enum pi) = 0)%nat) as [Hz|]; [|lia].
      by apply map_size_empty_iff in Hz.
  - intros [p1 d1] [p2 d2] v1 v2 H1 H2 Hg1 Hg2.
    apply (elem_of_enum enum Henum) in H1, H2. unfold g in Hg1, Hg2. cbn in Hg1, Hg2.
    destruct d1 as [| | | | |pi1|]; try done. destruct d2 as [| | | | |pi2|]; try done.
    cbn in Hg1, Hg2. repeat case_decide; try done.
    injection Hg1 as E1 <-. injection Hg2 as E2 <-. subst. congruence.
Qed.
End CachedOperations.

Lemma operationsOf_independent
    (enum1 enum2 : ∀ V : Type, gmap string V → list (string * V)) (pi : gmap string any) :
  enumerates enum1 → enumerates enum2 →
  (∀ m1 m2, is_Some (pi !! m1) → is_Some (pi !! m2) →
            strings_ToLower m1 = strings_ToLower m2 → m1 = m2) →
  operationsOf enum1 pi = operationsOf enum2 pi.
Proof.
  intros H1 H2 Hinj. apply map_eq. intros m. apply option_eq. intros op.
  by rewrite (operationsOf_lookup enum1 H1 pi m op Hinj),
             (operationsOf_lookup enum2 H2 pi m op Hinj).
Qed.

(** X19. The cache of the v2 operations of a document with a [paths]
    mapping holds, for each path, the entries of its path item that are
    mappings (whatever their keys: operations, and extensions too), under
    the lower-cased key; this for a document whose path items have ASCII
    keys. When no two keys of a path item differ only in the case of
    their letters the cache does not depend on the order in which the
    maps are enumerated. (With two such keys the entry that is enumerated
    last wins.) *)
Theorem cached_operations_by_lowercase_method
    (enum1 enum2 : ∀ V : Type, gmap string V → list (string * V))
    (yaml : string → error + gmap string any)
    (v2Raw : string) (doc paths : gmap string any) :
  enumerates enum1 → enumerates enum2 →
  yaml v2Raw = inr doc →
  asMap (index doc "paths") = Some paths →
  asciiKeys paths →
  caseDistinctKeys paths →
  ∃ result,
    extractV2Operations enum1 yaml v2Raw = Some result ∧
    extractV2Operations enum2 yaml v2Raw = Some result ∧
    ∀ p m op,
      (∃ ops, result !! p = Some ops ∧ ops !! m = Some op) ↔
      (∃ pi m0 mm, paths !! p = Some (VMap pi) ∧ pi !! m0 = Some (VMap mm) ∧
                   strings_ToLower m0 = m ∧ op = VMap mm).
Proof.
  intros H1 H2 Hy Hpaths _ Hinj.
  destruct (extractV2Operations_lookup enum1 H1 yaml v2Raw doc paths "" ∅ Hy Hpaths)
    as (r1 & Hr1 & _).
  destruct (extractV2Operations_lookup enum2 H2 yaml v2Raw doc paths "" ∅ Hy Hpaths)
    as (r2 & Hr2 & _).
  assert (∀ p ops, r1 !! p = Some ops ↔
            ∃ pi, paths !! p = Some (VMap pi) ∧ ops = operationsOf enum1 pi ∧ ops ≠ ∅) as L1.
  { intros p ops.
    destruct (extractV2Operations_lookup enum1 H1 yaml v2Raw doc paths p ops Hy Hpaths)
      as (r & Hr & Hl). by assert (r = r1) as -> by congruence. }
  assert (∀ p ops, r2 !! p = Some ops ↔
            ∃ pi, paths !! p = Some (VMap pi) ∧ ops = operationsOf enum2 pi ∧ ops ≠ ∅) as L2.
  { intros p ops.
    destruct (extractV2Operations_lookup enum2 H2 yaml v2Raw doc paths p ops Hy Hpaths)
      as (r & Hr & Hl). by assert (r = r2) as -> by congruence. }
  assert (r2 = r1) as ->.
  { apply map_eq. intros p. apply option_eq. intros ops. rewrite L1, L2.
    split; intros (pi & Hp & -> & Hne); exists pi; (split; [done|]); (split; [|done]).
    - symmetry. apply operationsOf_independent; [done..|]. intros m1 m2. by eapply Hinj.
    - apply operationsOf_independent; [done..|]. intros m1 m2. by eapply Hinj. }
  exists r1. split; [done|]. split; [done|]. intros p m op. split.
  - intros (ops & Hops & Hm). apply L1 in Hops as (pi & Hp & -> & _).
    apply (operationsOf_lookup enum1 H1) in Hm as (m0 & mm & ? & ? & ?);
      [|intros m1 m2; by eapply Hinj].
    by exists pi, m0, mm.
  - intros (pi & m0 & mm & Hp & Hm0 & Hl & ->).
    assert (operationsOf enum1 pi !! m = Some (VMap mm)) as Hm.
    { apply (operationsOf_lookup enum1 H1); [intros m1 m2; by eapply Hinj|]. by exists m0, mm. }
    exists (operationsOf enum1 pi). split; [|done]. apply L1. exists pi.
    split; [done|]. split; [done|]. intros E. by rewrite E, lookup_empty in Hm.
Qed.

Lemma cached_operations_by_lowercase_method_witness :
  ∃ result,
    extractV2Operations canonicalEnum (decodesTo (v2DocWith plainOp)) "swagger: '2.0'"
      = Some result ∧
    extractV2Operations reverseEnum (decodesTo (v2DocWith plainOp)) "swagger: '2.0'"
      = Some result.
Proof.
  destruct (cached_operations_by_lowercase_method canonicalEnum reverseEnum
              (decodesTo (v2DocWith plainOp)) "swagger: '2.0'" (v2DocWith plainOp)
              {[ "/x" := anyMap [("post", VMap plainOp)] ]}
              canonicalEnum_enumerates reverseEnum_enumerates eq_refl eq_refl)
    as (result & H1 & H2 & _).
  - intros p pi m Hp [v Hm].
    apply lookup_singleton_Some in Hp as [_ Hp]. injection Hp as <-.
    unfold anyMap in Hm. cbn [list_to_map foldr] in Hm.
    apply lookup_insert_Some in Hm as [[<- _]|[_ Hm]]; [|by rewrite lookup_empty in Hm].
    repeat constructor.
  - intros p pi m1 m2 Hp [v1 Hm1] [v2 Hm2] _.
    apply lookup_singleton_Some in Hp as [_ Hp]. injection Hp as <-.
    unfold anyMap in Hm1, Hm2. cbn [list_to_map foldr] in Hm1, Hm2.
    apply lookup_insert_Some in Hm1 as [[<- _]|[_ Hm1]]; [|by rewrite lookup_empty in Hm1].
    apply lookup_insert_Some in Hm2 as [[<- _]|[_ Hm2]]; [|by rewrite lookup_empty in Hm2].
    reflexivity.
  - exists result. exact (conj H1 H2).
Defined.

(** The enumeration matters when two keys differ only in case: of [GET]
    and [get] the one enumerated last is cached. *)
Example cached_operation_of_colliding_keys :
  (fun v => index (default ∅ (asMap v)) "summary")
    <$> operationsOf canonicalEnum collidingPathItem !! "get" = Some (VStr "upper") ∧
  (fun v => index (default ∅ (asMap v)) "summary")
    <$> operationsOf reverseEnum collidingPathItem !! "get" = Some (VStr "lower").
Proof. split; vm_compute; reflexivity. Qed.
(** ** The store of the v2 sources *)

Section V2Store.
Variable enum : ∀ V : Type, gmap string V → list (string * V).
Variable yaml : string → error + gmap string any.

Lemma extractV2Schemas_OrNil (v2Raw : string) :
  extractV2Schemas yaml v2Raw = default ∅ (extractV2SchemasOrNil yaml v2Raw).
Proof. unfold extractV2Schemas, extractV2SchemasOrNil. by destruct (yaml v2Raw). Qed.

(** X20. What [SetV2SchemaDefinitions] stores for a document, the two
    getters return for that document: the [definitions] mapping of the v2
    source, and the operations [extractV2Operations] reads from it. The
    entries of all other documents are as they were. *)
Theorem stored_v2_source_is_found (store : gmap positive v2Stored) (d : positive) (v2Raw : string)
    (defs : gmap string any) :
  extractV2SchemasOrNil yaml v2Raw = Some defs →
  getV2SchemaDefinitions (SetV2SchemaDefinitions enum yaml store (Some d) (Some v2Raw)) (Some d)
    = Some defs ∧
  getV2Operations (SetV2SchemaDefinitions enum yaml store (Some d) (Some v2Raw)) (Some d)
    = extractV2Operations enum yaml v2Raw ∧
  ∀ d', d' ≠ d →
    getV2SchemaDefinitions (SetV2SchemaDefinitions enum yaml store (Some d) (Some v2Raw)) (Some d')
      = getV2SchemaDefinitions store (Some d') ∧
    getV2Operations (SetV2SchemaDefinitions enum yaml store (Some d) (Some v2Raw)) (Some d')
      = getV2Operations store (Some d').
Proof.
  intros Hdefs. unfold SetV2SchemaDefinitions, getV2SchemaDefinitions, getV2Operations.
  rewrite Hdefs, lookup_insert_eq. split; [done|]. split; [done|].
  intros d' Hne. by rewrite lookup_insert_ne.
Qed.

(** X21. Nothing is stored for a v2 source without a [definitions]
    mapping, not even its operations; nor for a nil document or nil
    bytes. So for such a document, stored at a fresh address, the builder
    finds nothing in the store. And no call removes an entry: the store
    only grows. *)
Theorem sources_without_definitions_are_not_stored (store : gmap positive v2Stored)
    (doc : option positive) (v2Raw : option string) :
  (doc = None ∨ v2Raw = None ∨
   (∃ raw, v2Raw = Some raw ∧ extractV2SchemasOrNil yaml raw = None) →
   SetV2SchemaDefinitions enum yaml store doc v2Raw = store) ∧
  (∀ d raw, store !! d = None → extractV2SchemasOrNil yaml raw = None →
     storedEntry (SetV2SchemaDefinitions enum yaml store (Some d) (Some raw)) (Some d)
     = noV2Entry) ∧
  dom store ⊆ dom (SetV2SchemaDefinitions enum yaml store doc v2Raw).
Proof.
  split; [|split].
  - unfold SetV2SchemaDefinitions. intros [->|[->|(raw & -> & Hraw)]].
    + done.
    + by destruct doc.
    + destruct doc; [|done]. by rewrite Hraw.
  - intros d raw Hd Hraw. unfold SetV2SchemaDefinitions, storedEntry,
      getV2SchemaDefinitions, getV2Operations. by rewrite Hraw, Hd.
  - unfold SetV2SchemaDefinitions. destruct doc as [d|]; [|done].
    destruct v2Raw as [raw|]; [|done].
    destruct (extractV2SchemasOrNil yaml raw); [|done].
    rewrite dom_insert_L. set_solver.
Qed.
End V2Store.

Lemma stored_v2_source_is_found_witness :
  getV2SchemaDefinitions
    (SetV2SchemaDefinitions canonicalEnum (decodesTo petStoreV2) ∅ (Some 1%positive)
       (Some "swagger: '2.0'")) (Some 1%positive)
  = Some {[ "Pet" := anyMap [("type", VStr "object")] ]}.
Proof.
  apply (stored_v2_source_is_found canonicalEnum (decodesTo petStoreV2) ∅ 1%positive
           "swagger: '2.0'" {[ "Pet" := anyMap [("type", VStr "object")] ]}).
  reflexivity.
Defined.
(** ** The builder: the texts of the model *)

Section TrimmedTexts.
Variable enum : ∀ V : Type, gmap string V → list (string * V).
Hypothesis Henum : enumerates enum.
Variable yaml : string → error + gmap string any.

Lemma safeStr_trimmed (s : string) : trimmed (safeStr s).
Proof. apply TrimSpace_idempotent. Qed.

Lemma parameterModels_trimmed (prefs : list (option openapi3.ParameterRef))
    (pm : ParameterModel) :
  pm ∈ parameterModels prefs → trimmed (pm_Name pm) ∧ trimmed (pm_In pm).
Proof.
  intros (pref & _ & Hpm)%list_elem_of_omap. unfold toParameterModel in Hpm.
  destruct pref as [[[p|]]|]; try done. injection Hpm as <-. cbn.
  split; apply safeStr_trimmed.
Qed.

Lemma endpointOf_texts cfg v2Ops (p : string) (item : openapi3.PathItem) (m : HttpMethod)
    (o : option openapi3.Operation) (ep : EndpointModel) :
  endpointOf enum cfg v2Ops p item m o = Some (Some ep) →
  trimmed (ep_Summary ep) ∧ trimmed (ep_Description ep).
Proof.
  unfold endpointOf. destruct o as [op|]; [|done].
  destruct (_ && _)%bool; [done|]. destruct (_ && _)%bool; [done|].
  destruct (requestBodyOf enum v2Ops op p m) as [rb|]; [|done].
  destruct (responsesOf enum v2Ops op p m) as [rs|]; [|done].
  cbn [mbind option_bind]. destruct (negb _); [done|].
  intros [= <-]. cbn. split; apply safeStr_trimmed.
Qed.

(** X22. The texts of a model have no white space at either end: title,
    version and description of the service, URL and description of every
    server, summary and description of every endpoint, the name and the
    location of every parameter; and the tags, of the endpoints and of the
    model, which are not empty either. *)
Theorem model_texts_are_trimmed
    (stored : v2Entry) (doc : openapi3.T) (v2Raw : option string)
    (opts : list BuildOption) (sm : ServiceModel) :
  BuildServiceModel enum yaml stored (Some doc) v2Raw opts = Some (inr sm) →
  trimmed (sm_Title sm) ∧ trimmed (sm_Version sm) ∧ trimmed (sm_Description sm) ∧
  Forall (fun s => trimmed (sv_URL s) ∧ trimmed (sv_Description s)) (sm_Servers sm) ∧
  Forall (fun t => trimmed t ∧ t ≠ "") (sm_Tags sm) ∧
  Forall (fun ep =>
            trimmed (ep_Summary ep) ∧ trimmed (ep_Description ep) ∧
            Forall (fun t => trimmed t ∧ t ≠ "") (ep_Tags ep) ∧
            Forall (fun pm => trimmed (pm_Name pm) ∧ trimmed (pm_In pm)) (ep_Parameters ep))
         (sm_Endpoints sm).
Proof.
  intros Hsm.
  assert (∀ ep, ep ∈ sm_Endpoints sm →
            trimmed (ep_Summary ep) ∧ trimmed (ep_Description ep) ∧
            Forall (fun t => trimmed t ∧ t ≠ "") (ep_Tags ep) ∧
            Forall (fun pm => trimmed (pm_Name pm) ∧ trimmed (pm_In pm)) (ep_Parameters ep))
    as Heps.
  { intros ep Hep.
    pose proof (BuildServiceModel_Some enum yaml _ _ _ _ _ Hsm) as [Heps _].
    destruct (endpointsOf_spec enum Henum _ _ _ _ Heps) as [_ Hall].
    rewrite Forall_forall in Hall. destruct (Hall ep Hep) as (item & o & _ & _ & Hx).
    destruct (endpointOf_texts _ _ _ _ _ _ _ Hx) as [Hs Hd].
    apply endpointOf_Some in Hx as (op & [= <-] & _ & _ & _ & Htags & Hparams & _).
    split; [done|]. split; [done|]. split.
    - rewrite Htags. apply Forall_forall. intros t Ht.
      destruct (tagsOf_trimmed o t Ht). by split.
    - rewrite Hparams. apply Forall_forall. intros pm Hpm.
      destruct (mergeParameters_spec enum Henum item o) as (_ & Hmem & _).
      apply Hmem in Hpm as [H|[_ H]];
        apply last_withKey_key in H as [_ H]; by eapply parameterModels_trimmed. }
  assert (Forall (fun t => trimmed t ∧ t ≠ "") (sm_Tags sm)) as Htags.
  { pose proof (BuildServiceModel_Some enum yaml _ _ _ _ _ Hsm) as [_ ->].
    apply Forall_forall. intros t Ht.
    apply (collectSortedTags_spec enum Henum) in Ht as (ep & t0 & _ & _ & <- & Hne).
    split; [apply TrimSpace_idempotent|done]. }
  unfold BuildServiceModel in Hsm.
  destruct (endpointsOf _ _ _ _) as [eps|]; [|done].
  cbn [mbind option_bind] in Hsm. injection Hsm as <-. cbn in *.
  split; [apply safeStr_trimmed|]. split; [apply safeStr_trimmed|].
  split; [apply safeStr_trimmed|]. split.
  - apply Forall_fmap, Forall_forall. intros s _. cbn. split; apply safeStr_trimmed.
  - split; [done|]. by apply Forall_forall.
Qed.
End TrimmedTexts.

Lemma model_texts_are_trimmed_witness :
  trimmed (sm_Title (petsModel [])) ∧
  Forall (fun t => trimmed t ∧ t ≠ "") (sm_Tags (petsModel [])).
Proof.
  destruct (model_texts_are_trimmed canonicalEnum canonicalEnum_enumerates rejects
              noV2Entry petsDoc None [] (petsModel [])) as (H1 & _ & _ & _ & H2 & _).
  - vm_compute. reflexivity.
  - exact (conj H1 H2).
Defined.

(** ** The builder: the options *)

Section BuildOptions.

Lemma addTags_spec (tags : list string) (set : gset string) :
  addTags tags set = set ∪ tagsGiven tags.
Proof.
  unfold addTags, tagsGiven. revert set.
  induction tags as [|t tags IH]; intros set; cbn [foldl fmap list_fmap].
  - rewrite filter_nil. set_solver.
  - rewrite IH, filter_cons. destruct (decide (strings_TrimSpace t = "")) as [E|E].
    + by rewrite decide_False by (intros H; by apply H).
    + rewrite decide_True by done. set_solver.
Qed.

Lemma configOf_snoc (opts : list BuildOption) (opt : BuildOption) :
  configOf (opts ++ [opt]) = opt (configOf opts).
Proof. unfold configOf. by rewrite foldl_app. Qed.

(** X23. The options accumulate. [WithIncludeTags] and [WithExcludeTags]
    add the tags they are given, trimmed and without the empty ones, to
    the set built so far, and [WithMethods] adds its methods as they are
    (no trimming, no change of case); each leaves the rest of the
    configuration alone. An option whose tags are all blank changes
    nothing: it does not turn the include filter on. *)
Theorem options_accumulate (opts : list BuildOption) (tags : list string)
    (ms : list HttpMethod) :
  (let cfg := configOf (opts ++ [WithIncludeTags tags]) in
   includeTags cfg = includeTags (configOf opts) ∪ tagsGiven tags ∧
   excludeTags cfg = excludeTags (configOf opts) ∧
   methods cfg = methods (configOf opts) ∧ pathRes cfg = pathRes (configOf opts)) ∧
  (let cfg := configOf (opts ++ [WithExcludeTags tags]) in
   excludeTags cfg = excludeTags (configOf opts) ∪ tagsGiven tags ∧
   includeTags cfg = includeTags (configOf opts) ∧
   methods cfg = methods (configOf opts) ∧ pathRes cfg = pathRes (configOf opts)) ∧
  (let cfg := configOf (opts ++ [WithMethods ms]) in
   methods cfg = methods (configOf opts) ∪ list_to_set ms ∧
   includeTags cfg = includeTags (configOf opts) ∧
   excludeTags cfg = excludeTags (configOf opts) ∧ pathRes cfg = pathRes (configOf opts)) ∧
  (Forall (fun t => strings_TrimSpace t = "") tags →
   includeTags (configOf (opts ++ [WithIncludeTags tags])) = includeTags (configOf opts) ∧
   excludeTags (configOf (opts ++ [WithExcludeTags tags])) = excludeTags (configOf opts)).
Proof.
  rewrite !configOf_snoc. cbn. rewrite !addTags_spec.
  assert (∀ set : gset HttpMethod,
            foldl (fun set m => {[ m ]} ∪ set) set ms = set ∪ list_to_set ms) as Hms.
  { induction ms as [|m ms' IH]; intros set; cbn [foldl list_to_set].
    - set_solver.
    - rewrite IH. set_solver. }
  rewrite Hms. repeat split.
  - assert (tagsGiven tags = ∅) as ->; [|set_solver].
    unfold tagsGiven. rewrite filter_none; [done|].
    intros t (t0 & -> & Ht0)%list_elem_of_fmap. rewrite Forall_forall in H.
    intros Hne. by apply Hne, H.
  - assert (tagsGiven tags = ∅) as ->; [|set_solver].
    unfold tagsGiven. rewrite filter_none; [done|].
    intros t (t0 & -> & Ht0)%list_elem_of_fmap. rewrite Forall_forall in H.
    intros Hne. by apply Hne, H.
Qed.
End BuildOptions.
(** ** The command line: the tags *)

Section SanitizeTags.

Lemma tagsGiven_elem_of (tags : list string) (t : string) :
  t ∈ tagsGiven tags ↔ t ≠ "" ∧ ∃ t0, t0 ∈ tags ∧ strings_TrimSpace t0 = t.
Proof.
  unfold tagsGiven. rewrite elem_of_list_to_set, list_elem_of_filter, list_elem_of_fmap.
  split; intros [Hne (t0 & H1 & H2)]; (split; [done|]); exists t0; by split.
Qed.

(** The loop of [sanitizeTags], from a state in which [seen] holds the
    elements of [result]. *)
Lemma sanitizeStep_foldl (tags : list string) (seen : gset string) (result : list string) :
  seen = list_to_set result → NoDup result →
  (foldl cli.sanitizeStep (seen, result) tags).1
    = list_to_set (foldl cli.sanitizeStep (seen, result) tags).2 ∧
  NoDup (foldl cli.sanitizeStep (seen, result) tags).2 ∧
  ∀ t, t ∈ (foldl cli.sanitizeStep (seen, result) tags).2 ↔ t ∈ result ∨ t ∈ tagsGiven tags.
Proof.
  revert seen result. induction tags as [|tag tags IH]; intros seen result Hseen Hnd.
  { cbn [foldl fst snd]. split; [done|]. split; [done|]. intros t. rewrite tagsGiven_elem_of.
    split; [by left|]. intros [?|[_ (t0 & ?%elem_of_nil & _)]]; done. }
  cbn [foldl].
  assert (cli.sanitizeStep (seen, result) tag =
          if decide (strings_TrimSpace tag = "") then (seen, result)
          else if decide (strings_TrimSpace tag ∈ seen) then (seen, result)
          else ({[ strings_TrimSpace tag ]} ∪ seen, result ++ [strings_TrimSpace tag])) as ->
    by reflexivity.
  assert (∀ t, t ∈ tagsGiven (tag :: tags) ↔
               (t ≠ "" ∧ strings_TrimSpace tag = t) ∨ t ∈ tagsGiven tags) as Hcons.
  { intros t. rewrite !tagsGiven_elem_of. split.
    - intros [Hne (t0 & [->|Ht0]%elem_of_cons & Htrim)]; [by left|]. right. by eauto.
    - intros [[Hne Htrim]|[Hne (t0 & Ht0 & Htrim)]]; (split; [done|]).
      + exists tag. split; [by left|done].
      + exists t0. split; [by right|done]. }
  destruct (decide (strings_TrimSpace tag = "")) as [E|E].
  { destruct (IH seen result Hseen Hnd) as (H1 & H2 & H3).
    split; [done|]. split; [done|]. intros t. rewrite H3, Hcons. split.
    - intros [?|?]; [by left|by right; right].
    - intros [?|[[Hne Htrim]|?]]; [by left| |by right]. congruence. }
  destruct (decide (strings_TrimSpace tag ∈ seen)) as [Hin|Hin].
  { destruct (IH seen result Hseen Hnd) as (H1 & H2 & H3).
    split; [done|]. split; [done|]. intros t. rewrite H3, Hcons. split.
    - intros [?|?]; [by left|by right; right].
    - intros [?|[[Hne <-]|?]]; [by left| |by right].
      left. rewrite Hseen in Hin. by apply elem_of_list_to_set in Hin. }
  destruct (IH ({[strings_TrimSpace tag]} ∪ seen) (result ++ [strings_TrimSpace tag]))
    as (H1 & H2 & H3).
  { rewrite Hseen, list_to_set_app_L. cbn. set_solver. }
  { apply NoDup_app. split; [done|]. split; [|apply NoDup_singleton].
    intros t Ht ->%list_elem_of_singleton. apply Hin. rewrite Hseen.
    by apply elem_of_list_to_set. }
  split; [done|]. split; [done|]. intros t. rewrite H3, Hcons, elem_of_app,
    list_elem_of_singleton. split.
  - intros [[?| ->]|?]; [by left| |by right; right]. right. left. by split.
  - intros [?|[[_ <-]|?]]; [by left; left|by left; right|by right].
Qed.

(** A list of distinct tags that are trimmed and not empty comes out of
    the loop as it went in. *)
Lemma sanitizeStep_clean (tags : list string) (seen : gset string) (result : list string) :
  NoDup tags →
  Forall (fun t => strings_TrimSpace t = t ∧ t ≠ "" ∧ t ∉ seen) tags →
  foldl cli.sanitizeStep (seen, result) tags = (list_to_set tags ∪ seen, result ++ tags).
Proof.
  revert seen result. induction tags as [|t tags IH]; intros seen result Hnd Hall.
  { cbn. rewrite app_nil_r. f_equal. set_solver. }
  apply NoDup_cons in Hnd as [Ht Hnd]. apply Forall_cons in Hall as [(Htrim & Hne & Hseen) Hall].
  cbn [foldl].
  assert (cli.sanitizeStep (seen, result) t = ({[ t ]} ∪ seen, result ++ [t])) as ->.
  { unfold cli.sanitizeStep. cbn [fst snd]. rewrite Htrim.
    by rewrite decide_False, decide_False by done. }
  rewrite IH, <- app_assoc; [f_equal; cbn; set_solver|done|].
  rewrite Forall_forall in Hall. apply Forall_forall. intros t' Ht'.
  destruct (Hall t' Ht') as (? & ? & ?). split; [done|]. split; [done|].
  assert (t' ≠ t) by (by intros ->). set_solver.
Qed.

Lemma sanitizeTags_spec (tags : list string) :
  NoDup (cli.sanitizeTags tags) ∧
  ∀ t, t ∈ cli.sanitizeTags tags ↔ t ≠ "" ∧ ∃ t0, t0 ∈ tags ∧ strings_TrimSpace t0 = t.
Proof.
  destruct (sanitizeStep_foldl tags ∅ [] eq_refl (NoDup_nil_2 (A:=string))) as (_ & Hnd & Hmem).
  fold (cli.sanitizeTags tags) in Hnd, Hmem. split; [done|].
  intros t. rewrite Hmem, tagsGiven_elem_of. split; [|by right].
  intros [?%elem_of_nil|?]; done.
Qed.

(** X24. [sanitizeTags] returns the tags it is given trimmed, without the
    empty ones and without repetitions, and it changes nothing in a list
    it returned. Passing its result to [WithIncludeTags] or
    [WithExcludeTags] is the same as passing the list itself: the options
    trim and skip in the same way. *)
Theorem sanitized_tags (tags : list string) :
  NoDup (cli.sanitizeTags tags) ∧
  (∀ t, t ∈ cli.sanitizeTags tags ↔
        t ≠ "" ∧ ∃ t0, t0 ∈ tags ∧ strings_TrimSpace t0 = t) ∧
  cli.sanitizeTags (cli.sanitizeTags tags) = cli.sanitizeTags tags ∧
  (∀ cfg, WithIncludeTags (cli.sanitizeTags tags) cfg = WithIncludeTags tags cfg ∧
          WithExcludeTags (cli.sanitizeTags tags) cfg = WithExcludeTags tags cfg).
Proof.
  destruct (sanitizeTags_spec tags) as [Hnd Hspec].
  split; [done|]. split; [done|]. split.
  - unfold cli.sanitizeTags at 1. rewrite sanitizeStep_clean; [done|done|].
    apply Forall_forall. intros t [Hne (t0 & _ & <-)]%Hspec.
    split; [apply TrimSpace_idempotent|]. split; [done|set_solver].
  - assert (tagsGiven (cli.sanitizeTags tags) = tagsGiven tags) as Heq.
    { apply set_eq. intros t. rewrite !tagsGiven_elem_of. split.
      - intros [Hne (t0 & [_ (t1 & Ht1 & <-)]%Hspec & <-)]. split; [done|].
        exists t1. split; [done|]. by rewrite TrimSpace_idempotent.
      - intros [Hne (t0 & Ht0 & <-)]. split; [done|].
        exists (strings_TrimSpace t0). split; [|apply TrimSpace_idempotent].
        apply Hspec. split; [done|]. by exists t0. }
    intros cfg. unfold WithIncludeTags, WithExcludeTags.
    by rewrite !addTags_spec, Heq.
Qed.

Lemma intersect_elem_of (a b : list string) (x : string) :
  x ∈ cli.intersect a b ↔ x ∈ a ∧ x ∈ b.
Proof.
  unfold cli.intersect.
  destruct (decide (length a = 0 ∨ length b = 0)%nat) as [[H|H]|_].
  - apply length_zero_iff_nil in H as ->. split; [by intros ?%elem_of_nil|].
    by intros [?%elem_of_nil _].
  - apply length_zero_iff_nil in H as ->. split; [by intros ?%elem_of_nil|].
    by intros [_ ?%elem_of_nil].
  - rewrite list_elem_of_filter, elem_of_list_to_set. tauto.
Qed.

Variable strconv_Quote : string → string.

(** X25. A configuration that passes [validate] after [normalize] has an
    input that is not empty, one of the three languages (the empty one
    having become go), and no tag in both lists; its tags are the
    sanitized tags of the configuration it was made from. So in the
    configuration [runGenerate] has [BuildServiceModel] build, the include
    set and the exclude set are disjoint. *)
Theorem validated_configuration (c c' : cli.GenerateConfig) :
  cli.validate strconv_Quote (cli.normalize c) = inr c' →
  cli.Input c' ≠ "" ∧
  cli.Lang c' ∈ ["go"; "npm"; "python"] ∧
  cli.IncludeTags c' = cli.sanitizeTags (cli.IncludeTags c) ∧
  cli.ExcludeTags c' = cli.sanitizeTags (cli.ExcludeTags c) ∧
  (∀ t, t ∈ cli.IncludeTags c' → t ∉ cli.ExcludeTags c') ∧
  includeTags (configOf (cli.buildOptions c')) ∩ excludeTags (configOf (cli.buildOptions c')) = ∅.
Proof.
  unfold cli.validate.
  destruct (decide (cli.Input (cli.normalize c) = "")) as [|Hin]; [done|].
  destruct (decide (cli.Lang (cli.normalize c) ∈ [""; "go"; "npm"; "python"])) as [Hl|];
    [|done].
  set (c1 := if decide (cli.Lang (cli.normalize c) = "") then cli.withLang (cli.normalize c) "go"
             else cli.normalize c).
  assert (cli.Input c1 = cli.Input (cli.normalize c) ∧
          cli.IncludeTags c1 = cli.sanitizeTags (cli.IncludeTags c) ∧
          cli.ExcludeTags c1 = cli.sanitizeTags (cli.ExcludeTags c) ∧
          cli.Lang c1 ∈ ["go"; "npm"; "python"]) as (H1 & H2 & H3 & H4).
  { subst c1. destruct (decide (cli.Lang (cli.normalize c) = "")) as [E|E]; cbn.
    - repeat split; try done. by left.
    - repeat split; try done. apply elem_of_cons in Hl as [?|?]; done. }
  destruct (decide (0 < length (cli.intersect (cli.IncludeTags c1) (cli.ExcludeTags c1)))%nat)
    as [|Hov]; [done|].
  intros [= <-]. rewrite H1. split; [done|]. split; [done|]. split; [done|]. split; [done|].
  assert (∀ t, t ∈ cli.IncludeTags c1 → t ∉ cli.ExcludeTags c1) as Hdisj.
  { intros t Hi He.
    assert (t ∈ cli.intersect (cli.IncludeTags c1) (cli.ExcludeTags c1)) as Hx
      by by apply intersect_elem_of.
    destruct (cli.intersect _ _); [by apply elem_of_nil in Hx|]. cbn in Hov. lia. }
  split; [done|].
  unfold cli.buildOptions, configOf. cbn. rewrite !addTags_spec.
  apply set_eq. intros t. rewrite elem_of_intersection, !elem_of_union, !tagsGiven_elem_of.
  split; [|by intros ?%elem_of_empty].
  intros [[?%elem_of_empty|[Hne (t0 & Ht0 & <-)]] [?%elem_of_empty|[_ (t1 & Ht1 & Heq)]]]; try done.
  exfalso. rewrite H2 in *. rewrite H3 in *.
  destruct (sanitizeTags_spec (cli.IncludeTags c)) as (_ & Hs0).
  destruct (sanitizeTags_spec (cli.ExcludeTags c)) as (_ & Hs1).
  pose proof Ht0 as Ht0'. apply Hs0 in Ht0' as [_ (u0 & _ & <-)].
  pose proof Ht1 as Ht1'. apply Hs1 in Ht1' as [_ (u1 & _ & <-)].
  rewrite !TrimSpace_idempotent in *. apply (Hdisj _ Ht0). by rewrite <- Heq.
Qed.
End SanitizeTags.

Lemma validated_configuration_witness :
  cli.Input (cli.normalize flagsConfig) ≠ "" ∧
  cli.IncludeTags (cli.normalize flagsConfig) = cli.sanitizeTags ["read"; " "; " read"].
Proof.
  destruct (validated_configuration plainQuote flagsConfig
              (cli.normalize flagsConfig)) as (H1 & _ & H2 & _).
  - vm_compute. reflexivity.
  - exact (conj H1 H2).
Defined.
(** ** The command line: the name of the tool *)

Section ToolName.

Lemma dropLeading_Forall (P : ascii → Prop) (c : ascii) (l : list ascii) :
  Forall P l → Forall P (dropLeading c l).
Proof.
  induction 1 as [|x l Hx Hl IH]; [constructor|]. cbn.
  destruct (decide (x = c)); [done|]. by constructor.
Qed.

Lemma dropLeading_head (c : ascii) (l : list ascii) : head (dropLeading c l) ≠ Some c.
Proof.
  induction l as [|x l IH]; [done|]. cbn. destruct (decide (x = c)); [done|].
  cbn. congruence.
Qed.

Lemma dropLeading_id (c : ascii) (l : list ascii) : head l ≠ Some c → dropLeading c l = l.
Proof.
  destruct l as [|x l]; [done|]. cbn. intros H.
  destruct (decide (x = c)) as [->|]; [done|done].
Qed.

Lemma dropLeading_last (c : ascii) (l : list ascii) :
  dropLeading c l = [] ∨ last (dropLeading c l) = last l.
Proof.
  induction l as [|x l IH]; [by left|]. cbn. destruct (decide (x = c)); [|by right].
  destruct IH as [IH|IH]; [by left|]. destruct l as [|y l]; [by left|].
  right. by rewrite IH.
Qed.

Lemma head_reverse {A} (l : list A) : head (reverse l) = last l.
Proof.
  induction l as [|x l IH] using rev_ind; [done|].
  by rewrite reverse_snoc, last_snoc.
Qed.

Lemma last_reverse {A} (l : list A) : last (reverse l) = head l.
Proof. by rewrite <- head_reverse, reverse_involutive. Qed.

Lemma keepBytes_Forall (keep : ascii → bool) (s : string) :
  Forall (fun c => keep c = true) (list_ascii_of_string (keepBytes keep s)).
Proof.
  induction s as [|c s IH]; [constructor|]. cbn. destruct (keep c) eqn:E; [|done].
  cbn. by constructor.
Qed.

Lemma keepBytes_id (keep : ascii → bool) (s : string) :
  Forall (fun c => keep c = true) (list_ascii_of_string s) → keepBytes keep s = s.
Proof.
  induction s as [|c s IH]; [done|]. cbn. intros [Hc Hs]%Forall_cons.
  by rewrite Hc, IH.
Qed.

Lemma replaceAllByte_id (s : string) (old new : ascii) :
  Forall (fun c => c ≠ old) (list_ascii_of_string s) → replaceAllByte s old new = s.
Proof.
  induction s as [|c s IH]; [done|]. cbn. intros [Hc Hs]%Forall_cons.
  by rewrite decide_False, IH.
Qed.

Lemma toolNameByte_cases (c : ascii) :
  toolNameByte c = true →
  lowerByte c = c ∧ c ≠ " "%char ∧ c ≠ "/"%char ∧
  (∀ r, strings_ToLower (String c r) = String c (strings_ToLower r)) ∧
  Forall (fun p => head p ≠ Some c) spaceRunes ∧
  Forall (fun p => head p ≠ Some c) (reverse <$> spaceRunes).
Proof.
  destruct c as [b0 b1 b2 b3 b4 b5 b6 b7].
  destruct b0, b1, b2, b3, b4, b5, b6, b7; intros H; try discriminate H; clear H;
    (split; [reflexivity|]); (split; [discriminate|]); (split; [discriminate|]);
    (split; [reflexivity|]); split; vm_compute; repeat constructor; discriminate.
Qed.

Lemma stripOne_other_head (pats : list (list ascii)) (c : ascii) (l : list ascii) :
  Forall (fun p => p ≠ []) pats →
  Forall (fun p => head p ≠ Some c) pats → stripOne pats (c :: l) = None.
Proof.
  induction pats as [|p pats IH]; intros Hne Hhead; [done|].
  apply Forall_cons in Hne as [Hp Hne]. apply Forall_cons in Hhead as [Hc Hhead].
  cbn [stripOne]. destruct p as [|a p]; [done|]. cbn [isPrefixOf].
  destruct (decide (a = c)) as [->|]; [done|]. by apply IH.
Qed.

Lemma stripOne_nil (pats : list (list ascii)) :
  Forall (fun p => p ≠ []) pats → stripOne pats [] = None.
Proof.
  induction pats as [|p pats IH]; intros Hne; [done|].
  apply Forall_cons in Hne as [Hp Hne]. cbn [stripOne].
  destruct p as [|a p]; [done|]. cbn [isPrefixOf]. by apply IH.
Qed.

(** A text of the bytes a tool name is made of has no white space at
    either end. *)
Lemma TrimSpace_toolName (l : list ascii) :
  Forall (fun c => toolNameByte c = true) l →
  strings_TrimSpace (string_of_list_ascii l) = string_of_list_ascii l.
Proof.
  intros Hall. unfold strings_TrimSpace. rewrite list_ascii_of_string_of_list.
  assert (trimLeft l = l) as ->.
  { unfold trimLeft. apply trimRunes_id. destruct l as [|c l].
    - apply stripOne_nil, spaceRunes_nonempty.
    - apply Forall_cons in Hall as [Hc _].
      apply stripOne_other_head; [apply spaceRunes_nonempty|].
      by apply toolNameByte_cases. }
  assert (trimRight l = l) as ->; [|done].
  unfold trimRight. rewrite trimRunes_id; [apply reverse_involutive|].
  destruct (reverse l) as [|c l'] eqn:E.
  - apply stripOne_nil, spaceRunes_reverse_nonempty.
  - assert (c ∈ l) as Hc.
    { apply elem_of_reverse. rewrite E. by left. }
    rewrite Forall_forall in Hall.
    apply stripOne_other_head; [apply spaceRunes_reverse_nonempty|].
    by apply toolNameByte_cases, Hall.
Qed.

Lemma ToLower_toolName (s : string) :
  Forall (fun c => toolNameByte c = true) (list_ascii_of_string s) → strings_ToLower s = s.
Proof.
  induction s as [|c s IH]; [done|]. cbn [list_ascii_of_string].
  intros [Hc Hs]%Forall_cons.
  destruct (toolNameByte_cases c Hc) as (_ & _ & _ & -> & _). by rewrite IH.
Qed.

Lemma trimByte_spec (P : ascii → Prop) (s : string) (c : ascii) :
  Forall P (list_ascii_of_string s) →
  Forall P (list_ascii_of_string (trimByte s c)) ∧
  head (list_ascii_of_string (trimByte s c)) ≠ Some c ∧
  last (list_ascii_of_string (trimByte s c)) ≠ Some c.
Proof.
  intros HP. unfold trimByte. rewrite list_ascii_of_string_of_list.
  set (l1 := dropLeading c (list_ascii_of_string s)).
  split; [|split].
  - apply Forall_reverse, dropLeading_Forall, Forall_reverse. by apply dropLeading_Forall.
  - rewrite head_reverse.
    destruct (dropLeading_last c (reverse l1)) as [-> | ->]; [done|].
    rewrite last_reverse. apply dropLeading_head.
  - rewrite last_reverse. apply dropLeading_head.
Qed.

Lemma trimByte_id (l : list ascii) (c : ascii) :
  head l ≠ Some c → last l ≠ Some c →
  trimByte (string_of_list_ascii l) c = string_of_list_ascii l.
Proof.
  intros Hh Hl. unfold trimByte. rewrite list_ascii_of_string_of_list.
  rewrite (dropLeading_id c l Hh), dropLeading_id by by rewrite head_reverse.
  by rewrite reverse_involutive.
Qed.

(** X26. The name [sanitizeToolName] returns consists of the letters a to
    z, the digits, the dash and the underscore, and neither starts nor
    ends with a dash; and the function changes nothing in a name it
    returned, so the emitters, which sanitize the name they are given once
    more, keep the name the command resolved. *)
Theorem sanitized_tool_name (name : string) :
  Forall (fun c => toolNameByte c = true)
         (list_ascii_of_string (cli.sanitizeToolName name)) ∧
  head (list_ascii_of_string (cli.sanitizeToolName name)) ≠ Some "-"%char ∧
  last (list_ascii_of_string (cli.sanitizeToolName name)) ≠ Some "-"%char ∧
  cli.sanitizeToolName (cli.sanitizeToolName name) = cli.sanitizeToolName name.
Proof.
  assert (Forall (fun c => toolNameByte c = true)
                 (list_ascii_of_string (cli.sanitizeToolName name)) ∧
          head (list_ascii_of_string (cli.sanitizeToolName name)) ≠ Some "-"%char ∧
          last (list_ascii_of_string (cli.sanitizeToolName name)) ≠ Some "-"%char)
    as (Hall & Hh & Hl).
  { unfold cli.sanitizeToolName.
    destruct (decide (strings_TrimSpace name = "")); [by repeat split|].
    match goal with |- context [trimByte ?b _] => set (kept := b) end.
    subst kept. by apply trimByte_spec, keepBytes_Forall. }
  split; [done|]. split; [done|]. split; [done|].
  generalize dependent (cli.sanitizeToolName name). intros out Hall Hh Hl.
  rewrite <- (string_of_list_ascii_of_string out).
  set (l := list_ascii_of_string out) in *.
  unfold cli.sanitizeToolName. rewrite (TrimSpace_toolName l Hall).
  destruct (decide (string_of_list_ascii l = "")) as [E|_]; [by rewrite E|].
  rewrite (replaceAllByte_id _ " ")
    by (rewrite list_ascii_of_string_of_list; eapply Forall_impl; [exact Hall|];
        intros c Hc; by apply toolNameByte_cases).
  rewrite (replaceAllByte_id _ "/")
    by (rewrite list_ascii_of_string_of_list; eapply Forall_impl; [exact Hall|];
        intros c Hc; by apply toolNameByte_cases).
  rewrite ToLower_toolName by by rewrite list_ascii_of_string_of_list.
  rewrite keepBytes_id by by rewrite list_ascii_of_string_of_list.
  by apply trimByte_id.
Qed.
End ToolName.
(** ** The builder: examples and responses *)

Section ExamplesAndResponses.
Variable enum : ∀ V : Type, gmap string V → list (string * V).
Hypothesis Henum : enumerates enum.

(** X27. The example of a media type is its [Example] when that is not
    nil. Otherwise it is the value of the named example with the least
    name, and of that one only: when that example has no value the media
    type has no example, whatever the other named examples hold. *)
Theorem example_of_the_least_name (mt : openapi3.MediaType) :
  (openapi3.mt_Example mt ≠ VNil → exampleOf enum mt = openapi3.mt_Example mt) ∧
  (openapi3.mt_Example mt = VNil → openapi3.mt_Examples mt = ∅ →
     exampleOf enum mt = VNil) ∧
  (∀ name, openapi3.mt_Example mt = VNil →
     is_Some (openapi3.mt_Examples mt !! name) →
     (∀ other, is_Some (openapi3.mt_Examples mt !! other) → other ≠ name →
               strLt name other) →
     exampleOf enum mt = namedExample mt name).
Proof.
  unfold exampleOf. split; [|split].
  - intros H. by destruct (openapi3.mt_Example mt).
  - intros -> Hempty. cbn.
    assert (sortedKeys enum (openapi3.mt_Examples mt) = []) as ->; [|done].
    destruct (sortedKeys enum (openapi3.mt_Examples mt)) as [|k ks] eqn:E; [done|].
    assert (k ∈ sortedKeys enum (openapi3.mt_Examples mt)) as Hk by (rewrite E; by left).
    apply (sortedKeys_elem_of enum Henum) in Hk as [x Hx].
    by rewrite Hempty, lookup_empty in Hx.
  - intros name -> Hname Hleast. cbn.
    pose proof (sortedKeys_strict enum Henum (openapi3.mt_Examples mt)) as Hs.
    apply (sortedKeys_elem_of enum Henum) in Hname as Hin.
    destruct (sortedKeys enum (openapi3.mt_Examples mt)) as [|k ks] eqn:E;
      [by apply elem_of_nil in Hin|].
    assert (k = name) as ->; [|done].
    destruct (decide (k = name)) as [|Hne]; [done|]. exfalso.
    assert (is_Some (openapi3.mt_Examples mt !! k)) as Hk.
    { apply (sortedKeys_elem_of enum Henum). rewrite E. by left. }
    apply StronglySorted_inv in Hs as [_ Hall]. rewrite Forall_forall in Hall.
    apply elem_of_cons in Hin as [->|Hin]; [done|].
    apply (strLt_asymm k name); [by apply Hall|by apply Hleast].
Qed.

Lemma responsesOf_elem_of v2Ops (o : openapi3.Operation) (p : string) (m : HttpMethod)
    (rs : list ResponseModel) (r : ResponseModel) :
  responsesOf enum v2Ops o p m = Some rs →
  r ∈ rs ↔
  ∃ resp content,
    openapi3.op_Responses o !! rm_Status r
      = Some (Some {| openapi3.rsr_Value := Some resp |}) ∧
    contentOf enum v2Ops (openapi3.rs_Content resp) p m = Some content ∧
    r = {| rm_Status := rm_Status r;
           rm_Description := default "" (openapi3.rs_Description resp);
           rm_Content := content |}.
Proof.
  unfold responsesOf.
  destruct (mapM _ (sortedKeys enum (openapi3.op_Responses o))) as [xs|] eqn:E; [|done].
  cbn [mbind option_bind]. intros [= <-]. apply mapM_Some in E.
  rewrite elem_of_omap_id. split.
  - intros Hr. destruct (Forall2_elem_of_r _ _ _ _ E Hr) as (code & _ & Hx).
    destruct (openapi3.op_Responses o !! code) as [[[[resp|]]|]|] eqn:Hc; try done.
    destruct (contentOf enum v2Ops (openapi3.rs_Content resp) p m) as [content|] eqn:Hcont;
      [|done].
    cbn in Hx. injection Hx as <-. cbn. rewrite Hc. by exists resp, content.
  - intros (resp & content & Hc & Hcont & Hr).
    assert (rm_Status r ∈ sortedKeys enum (openapi3.op_Responses o)) as Hk
      by (apply (sortedKeys_elem_of enum Henum); eauto).
    destruct (Forall2_elem_of_l _ _ _ _ E Hk) as (y & Hy & Hx).
    rewrite Hc, Hcont in Hx. cbn in Hx. injection Hx as <-. by rewrite <- Hr in Hy.
Qed.

Variable yaml : string → error + gmap string any.

(** X28. The responses of an endpoint are the responses its operation
    declares with a value, one for each status code, with the
    description of the response (empty when it has none). *)
Theorem responses_are_the_declared_ones
    (stored : v2Entry) (doc : openapi3.T) (v2Raw : option string)
    (opts : list BuildOption) (sm : ServiceModel) (ep : EndpointModel) :
  BuildServiceModel enum yaml stored (Some doc) v2Raw opts = Some (inr sm) →
  ep ∈ sm_Endpoints sm →
  ∃ item o,
    openapi3.t_Paths doc !! ep_Path ep = Some (Some item) ∧
    (ep_Method ep, Some o) ∈ opsOf item ∧
    ∀ code description,
      (∃ r, r ∈ ep_Responses ep ∧ rm_Status r = code ∧ rm_Description r = description) ↔
      (∃ resp, openapi3.op_Responses o !! code
                 = Some (Some {| openapi3.rsr_Value := Some resp |}) ∧
               description = default "" (openapi3.rs_Description resp)).
Proof.
  intros Hsm Hep.
  destruct (BuildServiceModel_endpoints enum Henum yaml _ _ _ _ _ _ Hsm Hep)
    as (item & o & Hp & Hin & _ & _ & _ & Hrs & _).
  exists item, o. split; [done|]. split; [done|]. intros code description. split.
  - intros (r & Hr & <- & <-).
    apply (responsesOf_elem_of _ _ _ _ _ _ Hrs) in Hr as (resp & content & Hc & _ & ->).
    by exists resp.
  - intros (resp & Hc & ->).
    assert (is_Some (contentOf enum (operations stored) (openapi3.rs_Content resp)
                       (ep_Path ep) (ep_Method ep))) as [content Hcont].
    { unfold responsesOf in Hrs.
      destruct (mapM _ (sortedKeys enum (openapi3.op_Responses o))) as [xs|] eqn:E; [|done].
      apply mapM_Some in E.
      assert (code ∈ sortedKeys enum (openapi3.op_Responses o)) as Hk
        by (apply (sortedKeys_elem_of enum Henum); eauto).
      destruct (Forall2_elem_of_l _ _ _ _ E Hk) as (y & _ & Hx). rewrite Hc in Hx.
      destruct (contentOf _ _ _ _ _); [by eexists|done]. }
    exists {| rm_Status := code;
              rm_Description := default "" (openapi3.rs_Description resp);
              rm_Content := content |}.
    split; [|done]. apply (responsesOf_elem_of _ _ _ _ _ _ Hrs). by exists resp, content.
Qed.
End ExamplesAndResponses.

Lemma example_of_the_least_name_witness :
  exampleOf canonicalEnum twoExamples = namedExample twoExamples "large".
Proof.
  destruct (example_of_the_least_name canonicalEnum canonicalEnum_enumerates twoExamples)
    as (_ & _ & H).
  apply (H "large").
  - reflexivity.
  - by eexists.
  - intros other [x Hx] Hne. cbn in Hx.
    apply lookup_insert_Some in Hx as [[<- _]|[_ Hx]]; [reflexivity|].
    apply lookup_singleton_Some in Hx as [<- _]. done.
Defined.

Lemma responses_are_the_declared_ones_witness :
  Forall (fun ep => ∃ item o,
            openapi3.t_Paths petsDoc !! ep_Path ep = Some (Some item) ∧
            (ep_Method ep, Some o) ∈ opsOf item)
         (sm_Endpoints (petsModel [])).
Proof.
  apply Forall_forall. intros ep Hep.
  destruct (responses_are_the_declared_ones canonicalEnum canonicalEnum_enumerates rejects
              noV2Entry petsDoc None [] (petsModel []) ep) as (item & o & H1 & H2 & _).
  - vm_compute. reflexivity.
  - exact Hep.
  - by exists item, o.
Defined.

Lemma media_are_sorted_by_type_witness :
  StronglySorted strLt (mimesOf (toMediaList canonicalEnum twoTypesContent)).
Proof.
  exact (proj1 (media_are_sorted_by_type canonicalEnum canonicalEnum_enumerates
                  twoTypesContent)).
Defined.

(** ** The builder: the panic of the enhancement *)

Section PanicOfEnhancement.
Variable enum : ∀ V : Type, gmap string V → list (string * V).

Lemma ToLower_method (m : HttpMethod) :
  m ∈ supportedMethods → strings_ToLower m = m.
Proof.
  unfold supportedMethods. rewrite !elem_of_cons, !elem_of_nil.
  intros H. repeat destruct H as [H|H]; try done; by subst m.
Qed.

(** X29. Under one of the eight methods of the builder,
    [toMediaListWithV2Cache] panics in exactly one situation: the method is
    not GET, the schema of the first media type is an object without
    properties, the cache has an operation at the path and the method, and
    the body parameter of that operation has a [schema] that is neither
    nil nor a mapping, on which the unchecked type assertion fails. In
    every other case it returns a list; so it does with an empty cache. *)
Theorem enhancement_panics_iff
    (content : openapi3.Content) (v2Operations : gmap string (gmap string any))
    (path method : string) :
  method ∈ supportedMethods →
  toMediaListWithV2Cache enum content v2Operations path method = None ↔
  method ≠ GET ∧
  ∃ first s pathOps methodOp bodyParam,
    head (toMediaList enum content) = Some first ∧
    md_Schema first = Concrete s ∧ sc_Type s = "object" ∧ sc_Properties s = ∅ ∧
    v2Operations !! path = Some pathOps ∧
    pathOps !! method = Some methodOp ∧
    findBodyParameter methodOp = Some bodyParam ∧
    index bodyParam "schema" ≠ VNil ∧
    asMap (index bodyParam "schema") = None.
Proof.
  intros Hm. unfold toMediaListWithV2Cache. rewrite (ToLower_method method Hm).
  change (method ≠ GET) with (method ≠ "get"). split.
  - destruct (toMediaList enum content) as [|first rest]; [done|].
    destruct (md_Schema first) as [| |s] eqn:Es; [done..|].
    destruct (negb (bool_decide (sc_Type s = "object")) ||
              bool_decide (0 < size (sc_Properties s))%nat)%bool eqn:Eo; [done|].
    apply orb_false_iff in Eo as [Et Ep].
    apply negb_false_iff, bool_decide_eq_true in Et.
    apply bool_decide_eq_false in Ep.
    destruct (v2Operations !! path) as [pathOps|] eqn:Hp; [|done].
    destruct (pathOps !! method) as [methodOp|] eqn:Hop; [|done].
    destruct (decide (method = "get")) as [|Hget]; [done|].
    destruct (findBodyParameter methodOp) as [bodyParam|] eqn:Hb; [|done].
    destruct (isNilAny (index bodyParam "schema")) eqn:En; [done|].
    destruct (asMap (index bodyParam "schema")) as [schemaRef|] eqn:Ea.
    { by destruct (asStr (index schemaRef "$ref")). }
    intros _. split; [done|]. exists first, s, pathOps, methodOp, bodyParam.
    split; [done|]. split; [done|]. split; [done|].
    split; [apply map_size_empty_iff; lia|].
    split; [done|]. split; [done|]. split; [done|]. split; [|done].
    intros E. by rewrite E in En.
  - intros (Hget & first & s & pathOps & methodOp & bodyParam &
            Hhead & Hs & Ht & Hp & Hops & Hop & Hb & Hnil & Hmap).
    destruct (toMediaList enum content) as [|first' rest]; [done|].
    injection Hhead as ->. rewrite Hs, Ht, Hp, Hops, Hop, Hb, Hmap.
    rewrite bool_decide_eq_true_2 by done.
    rewrite bool_decide_eq_false_2 by (rewrite map_size_empty; lia).
    cbn [negb orb]. rewrite decide_False by done.
    by destruct (index bodyParam "schema").
Qed.
End PanicOfEnhancement.

Lemma enhancement_panics_iff_witness :
  toMediaListWithV2Cache canonicalEnum bareObjectContent malformedV2Operations "/pets" POST
  = None.
Proof.
  apply (enhancement_panics_iff canonicalEnum bareObjectContent malformedV2Operations
           "/pets" POST).
  - unfold supportedMethods. set_solver.
  - split; [done|].
    eexists _, _, {[ "post" := VMap malformedOp ]}, (VMap malformedOp), malformedBodyParam.
    split; [vm_compute; reflexivity|]. split; [reflexivity|]. split; [reflexivity|].
    split; [reflexivity|]. split; [reflexivity|]. split; [reflexivity|].
    split; [vm_compute; reflexivity|]. split; [|vm_compute; reflexivity].
    vm_compute. discriminate.
Defined.

(** ** The builder: what the options leave *)

Section OptionsRestrict.
Variable enum : ∀ V : Type, gmap string V → list (string * V).
Hypothesis Henum : enumerates enum.

(** The endpoints of a document under a configuration. *)
Lemma endpointsOf_elem_of cfg v2Ops (paths : gmap string (option openapi3.PathItem))
    (eps : list EndpointModel) (ep : EndpointModel) :
  endpointsOf enum cfg v2Ops paths = Some eps →
  ep ∈ eps ↔
  ∃ p item m o, paths !! p = Some (Some item) ∧ (m, Some o) ∈ opsOf item ∧
                endpointOf enum cfg v2Ops p item m (Some o) = Some (Some ep).
Proof.
  intros Heps. split.
  - intros Hep. destruct (endpointsOf_spec enum Henum _ _ _ _ Heps) as [_ Hall].
    rewrite Forall_forall in Hall. destruct (Hall ep Hep) as (item & o & ? & ? & ?).
    by exists (ep_Path ep), item, (ep_Method ep), o.
  - intros (p & item & m & o & Hp & Ho & Hx). unfold endpointsOf in Heps.
    destruct (mapM _ (sortedKeys enum paths)) as [epss|] eqn:E; [|done].
    cbn [mbind option_bind] in Heps. injection Heps as Heps. apply mapM_Some in E.
    assert (p ∈ sortedKeys enum paths) as Hk by (apply (sortedKeys_elem_of enum Henum); eauto).
    destruct (Forall2_elem_of_l _ _ _ _ E Hk) as (eps' & Heps' & Hpath).
    unfold endpointsOfPath in Hpath. rewrite Hp in Hpath.
    destruct (mapM _ (opsOf item)) as [xs|] eqn:E'; [|done].
    cbn [mbind option_bind] in Hpath. injection Hpath as Hpath. apply mapM_Some in E'.
    destruct (Forall2_elem_of_l _ _ _ _ E' Ho) as (y & Hy & Hx'). cbn [fst snd] in Hx'.
    rewrite Hx in Hx'. injection Hx' as <-.
    rewrite <- Heps. apply elem_of_concat. exists eps'. split; [done|].
    rewrite <- Hpath. by apply elem_of_omap_id.
Qed.

(** The filters decide whether an endpoint is appended, not what it is. *)
Lemma endpointOf_unfiltered cfg v2Ops p item m o (ep : EndpointModel) :
  endpointOf enum cfg v2Ops p item m o = Some (Some ep) →
  endpointOf enum (configOf []) v2Ops p item m o = Some (Some ep).
Proof.
  unfold endpointOf. destruct o as [op|]; [|done].
  destruct (_ && _)%bool; [done|]. destruct (_ && _)%bool; [done|].
  destruct (requestBodyOf enum v2Ops op p m) as [rb|]; [|done].
  destruct (responsesOf enum v2Ops op p m) as [rs|]; [|done].
  cbn [mbind option_bind]. destruct (negb (allowByTags (tagsOf op) cfg)); [done|].
  intros [= <-]. reflexivity.
Qed.

Variable yaml : string → error + gmap string any.

(** X30. The options only take endpoints away. Every endpoint of the
    model built under some options is, unchanged, an endpoint of the model
    built without options; so are its tags among the tags of that model;
    and title, version, description, servers and schemas are the same
    under all options. *)
Theorem options_only_restrict
    (stored : v2Entry) (doc : openapi3.T) (v2Raw : option string)
    (opts : list BuildOption) (sm all : ServiceModel) :
  BuildServiceModel enum yaml stored (Some doc) v2Raw opts = Some (inr sm) →
  BuildServiceModel enum yaml stored (Some doc) v2Raw [] = Some (inr all) →
  (∀ ep, ep ∈ sm_Endpoints sm → ep ∈ sm_Endpoints all) ∧
  (∀ t, t ∈ sm_Tags sm → t ∈ sm_Tags all) ∧
  sm_Title sm = sm_Title all ∧ sm_Version sm = sm_Version all ∧
  sm_Description sm = sm_Description all ∧
  sm_Servers sm = sm_Servers all ∧ sm_Schemas sm = sm_Schemas all.
Proof.
  intros Hsm Hall.
  pose proof (BuildServiceModel_Some enum yaml _ _ _ _ _ Hsm) as [Heps Htags].
  pose proof (BuildServiceModel_Some enum yaml _ _ _ _ _ Hall) as [Heps0 Htags0].
  assert (∀ ep, ep ∈ sm_Endpoints sm → ep ∈ sm_Endpoints all) as Hsub.
  { intros ep Hep.
    apply (endpointsOf_elem_of _ _ _ _ _ Heps) in Hep as (p & item & m & o & Hp & Ho & Hx).
    apply (endpointsOf_elem_of _ _ _ _ _ Heps0). exists p, item, m, o.
    split; [done|]. split; [done|]. by eapply endpointOf_unfiltered. }
  split; [done|]. split.
  - intros t. rewrite Htags, Htags0.
    rewrite !(proj2 (collectSortedTags_spec enum Henum _)).
    intros (ep & t0 & Hep & ?). exists ep, t0. split; [by apply Hsub|done].
  - unfold BuildServiceModel in Hsm, Hall.
    destruct (endpointsOf enum _ (operations stored) (openapi3.t_Paths doc)) as [eps|] in Hsm;
      [|done].
    destruct (endpointsOf enum _ (operations stored) (openapi3.t_Paths doc)) as [eps0|] in Hall;
      [|done].
    cbn [mbind option_bind] in Hsm, Hall. injection Hsm as <-. injection Hall as <-.
    done.
Qed.
End OptionsRestrict.

Lemma options_only_restrict_witness :
  Forall (fun ep => ep ∈ sm_Endpoints (petsModel []))
         (sm_Endpoints (petsModel [WithIncludeTags ["read"]])).
Proof.
  apply Forall_forall.
  apply (options_only_restrict canonicalEnum canonicalEnum_enumerates rejects
           noV2Entry petsDoc None [WithIncludeTags ["read"]]
           (petsModel [WithIncludeTags ["read"]]) (petsModel [])).
  - vm_compute. reflexivity.
  - vm_compute. reflexivity.
Defined.

(** * Part IV: the policy of the loader, the operations of a document *)

(** ** The loader: the validation policy of [Load] *)

Section PolicyOfLoad.
Variable w : World.

(** [Load] validates the document it has obtained, and nothing else. *)
Lemma Load_documentOf (input : string) (opts : list Option) :
  Load w input opts =
  match documentOf w input opts with
  | inl se => inl se
  | inr (doc, location) => validated w doc location
  end.
Proof.
  unfold Load, documentOf.
  repeat (case_decide || case_match); try done; simplify_eq; done.
Qed.

(** C6, as the code has it. [Load] validates the document it has obtained
    and decides by the text of the error alone. A document that passes,
    or that fails with a text which, lower-cased, contains "unresolved
    ref", is returned. Any other failed validation aborts with a
    [SpecError] that carries the text and the location; its code is
    [ValidationError], except that a text containing "parse" or "invalid
    character" (in any case) is reported as [ParseError]. Only the error
    of the validation is tolerated: a document [Load] returns is one the
    loader of OpenAPI v3 or the converter of Swagger v2 has returned
    without an error; and an error of the loader of an OpenAPI v3
    document aborts the load whatever it says, unresolved reference or
    not. *)
Theorem validation_failure_policy (input : string) (opts : list Option) :
  match documentOf w input opts with
  | inl se => Load w input opts = inl se
  | inr (doc, location) =>
      match doc_Validate w doc with
      | None => Load w input opts = inr doc
      | Some err =>
          if strings_Contains (strings_ToLower err) "unresolved ref"
          then Load w input opts = inr doc
          else Load w input opts =
               inl {| Code := if (strings_Contains (strings_ToLower err) "parse" ||
                                  strings_Contains (strings_ToLower err) "invalid character")%bool
                              then ParseError else ValidationError;
                      Message := err; Location := location;
                      JSONPointer := extractJSONPointer w err; Cause := Some err |}
      end
  end ∧
  (∀ doc, Load w input opts = inr doc →
     let settings := foldl (fun s opt => opt s) DefaultSettings opts in
     (doc_Validate w doc = None ∨
      ∃ err, doc_Validate w doc = Some err ∧
             strings_Contains (strings_ToLower err) "unresolved ref" = true) ∧
     (loader_LoadFromURI w settings input = inr doc ∨
      (∃ raw v3doc, fr_result (fetchWithRetry w input settings) = inr raw ∧
                    convertV2ToV3 w (preprocessed w raw) = inr v3doc ∧
                    doc = (loader_ResolveRefsIn w settings v3doc).1) ∨
      (∃ abs raw, filepath_Abs w input = inr abs ∧ os_ReadFile w abs = inr raw ∧
                  (loader_LoadFromFile w settings abs = inr doc ∨
                   convertV2ToV3 w (preprocessed w raw) = inr doc)))) ∧
  (∀ err,
     let settings := foldl (fun s opt => opt s) DefaultSettings opts in
     strings_TrimSpace input ≠ "" →
     (isURL w input →
      schemeOf w input = "http" ∨ schemeOf w input = "https" →
      (∃ raw, fr_result (fetchWithRetry w input settings) = inr raw ∧
              detectSpecVersion w raw = inr 3) →
      loader_LoadFromURI w settings input = inl err →
      Load w input opts = inl (mapValidateOrParseErr w err input)) ∧
     (∀ abs raw,
        ¬ isURL w input →
        filepath_Abs w input = inr abs → os_ReadFile w abs = inr raw →
        detectSpecVersion w raw = inr 3 →
        loader_LoadFromFile w settings abs = inl err →
        Load w input opts = inl (mapValidateOrParseErr w err abs))).
Proof.
  split; [|split].
  - rewrite Load_documentOf.
    destruct (documentOf w input opts) as [se|[doc location]]; [done|].
    unfold validated. destruct (doc_Validate w doc) as [err|]; [|done].
    rewrite canProceed_unresolved.
    by destruct (strings_Contains (strings_ToLower err) "unresolved ref").
  - intros doc Hload settings. split.
    + rewrite Load_documentOf in Hload.
      destruct (documentOf w input opts) as [se|[d location]]; [done|].
      apply validated_inr in Hload as [-> H].
      destruct (doc_Validate w d) as [err|]; [right; by exists err|by left].
    + assert (∃ location, documentOf w input opts = inr (doc, location)) as [location Hd].
      { rewrite Load_documentOf in Hload.
        destruct (documentOf w input opts) as [se|[d location]]; [done|].
        apply validated_inr in Hload as [-> _]. by exists location. }
      clear Hload. unfold documentOf in Hd. fold settings in Hd.
      repeat (case_decide || case_match); simplify_eq; eauto 10.
  - intros err settings Hin. unfold Load. fold settings.
    rewrite decide_False by done. split.
    + intros Hurl Hscheme (raw & Hraw & Hver) Herr.
      apply isURL_spec in Hurl. rewrite Hurl. unfold schemeOf in Hscheme.
      rewrite decide_False by (intros E; rewrite E in Hscheme; by destruct Hscheme).
      rewrite decide_False by (intros [? ?]; by destruct Hscheme).
      by rewrite Hraw, Hver, decide_True, Herr.
    + intros abs raw Hurl Habs Hread Hver Herr.
      rewrite <- isURL_spec in Hurl. apply not_true_is_false in Hurl. rewrite Hurl.
      by rewrite Habs, Hread, Hver, decide_True, Herr.
Qed.
End PolicyOfLoad.

(** A Swagger v2 file whose converted document fails the validation with
    a dangling reference loads; an OpenAPI v3 file whose operation has an
    empty [responses] object does not, and the error is a
    [ValidationError]. *)
Lemma validation_failure_policy_witness :
  Load (convertedWorld sampleDoc (Some unresolvedRefMessage)) "spec.yaml" [] = inr sampleDoc ∧
  ∃ se, Load (loadedWorld (emptyResponsesDoc "/pet") (Some (emptyResponsesMessage "/pet")))
             "spec.yaml" [] = inl se ∧ Code se = ValidationError.
Proof.
  split.
  - pose proof (validation_failure_policy
                  (convertedWorld sampleDoc (Some unresolvedRefMessage)) "spec.yaml" [])
      as (H & _ & _).
    assert (documentOf (convertedWorld sampleDoc (Some unresolvedRefMessage)) "spec.yaml" []
            = inr (sampleDoc, "/work/spec.yaml")) as E by (vm_compute; reflexivity).
    rewrite E in H. exact H.
  - pose proof (validation_failure_policy
                  (loadedWorld (emptyResponsesDoc "/pet") (Some (emptyResponsesMessage "/pet")))
                  "spec.yaml" [])
      as (H & _ & _).
    assert (documentOf (loadedWorld (emptyResponsesDoc "/pet")
                          (Some (emptyResponsesMessage "/pet"))) "spec.yaml" []
            = inr (emptyResponsesDoc "/pet", "/work/spec.yaml")) as E
      by (vm_compute; reflexivity).
    rewrite E in H. eexists. split; [exact H|]. reflexivity.
Defined.

(** The claim as stated fails: the failed validation of a document whose
    path is [/parse] is not an unresolved reference, and [Load] reports it
    as a [ParseError], not as a [ValidationError]. *)
Lemma validation_failure_reported_as_ParseError :
  canProceedDespiteValidation (Some (emptyResponsesMessage "/parse")) = false ∧
  ∃ se, Load (loadedWorld (emptyResponsesDoc "/parse") (Some (emptyResponsesMessage "/parse")))
             "spec.yaml" [] = inl se ∧
        Code se = ParseError ∧ Code se ≠ ValidationError.
Proof.
  split; [reflexivity|]. eexists. split; [vm_compute; reflexivity|]. by simpl.
Qed.

(** ** The builder: the parameters and the tags of the operations *)

Section OperationsOfTheDocument.
Variable enum : ∀ V : Type, gmap string V → list (string * V).
Hypothesis Henum : enumerates enum.

(** The body of the loop is run for every operation of the document, and
    what it appends is in the list. *)
Lemma endpointsOf_runs cfg v2Ops (paths : gmap string (option openapi3.PathItem))
    (eps : list EndpointModel) (p : string) (item : openapi3.PathItem)
    (m : HttpMethod) (o : openapi3.Operation) :
  endpointsOf enum cfg v2Ops paths = Some eps →
  paths !! p = Some (Some item) → (m, Some o) ∈ opsOf item →
  ∃ y, endpointOf enum cfg v2Ops p item m (Some o) = Some y ∧
       ∀ ep, y = Some ep → ep ∈ eps.
Proof.
  intros Heps Hp Ho. unfold endpointsOf in Heps.
  destruct (mapM _ (sortedKeys enum paths)) as [epss|] eqn:E; [|done].
  cbn [mbind option_bind] in Heps. injection Heps as Heps. apply mapM_Some in E.
  assert (p ∈ sortedKeys enum paths) as Hk by (apply (sortedKeys_elem_of enum Henum); eauto).
  destruct (Forall2_elem_of_l _ _ _ _ E Hk) as (eps' & Heps' & Hpath).
  unfold endpointsOfPath in Hpath. rewrite Hp in Hpath.
  destruct (mapM _ (opsOf item)) as [xs|] eqn:E'; [|done].
  cbn [mbind option_bind] in Hpath. injection Hpath as Hpath. apply mapM_Some in E'.
  destruct (Forall2_elem_of_l _ _ _ _ E' Ho) as (y & Hy & Hx). cbn [fst snd] in Hx.
  exists y. split; [done|]. intros ep ->.
  rewrite <- Heps. apply elem_of_concat. exists eps'. split; [done|].
  rewrite <- Hpath. by apply elem_of_omap_id.
Qed.

(** The endpoint of an operation of the document, if it has one. *)
Lemma endpoint_of_operation cfg v2Ops (paths : gmap string (option openapi3.PathItem))
    (eps : list EndpointModel) (p : string) (item : openapi3.PathItem)
    (m : HttpMethod) (o : openapi3.Operation) (ep : EndpointModel) :
  endpointsOf enum cfg v2Ops paths = Some eps →
  paths !! p = Some (Some item) → (m, Some o) ∈ opsOf item →
  ep ∈ eps → ep_Path ep = p → ep_Method ep = m →
  endpointOf enum cfg v2Ops p item m (Some o) = Some (Some ep).
Proof.
  intros Heps Hp Ho Hep <- <-.
  destruct (endpointsOf_spec enum Henum _ _ _ _ Heps) as [_ Hall].
  rewrite Forall_forall in Hall. destruct (Hall ep Hep) as (item' & o' & Hp' & Hin & Hx).
  rewrite Hp in Hp'. injection Hp' as <-.
  by pose proof (opsOf_functional _ _ _ _ Ho Hin) as [= <-].
Qed.

Lemma carries_tagsOf (o : openapi3.Operation) (t : string) : t ∈ tagsOf o ↔ carries o t.
Proof.
  unfold tagsOf, carries. rewrite list_elem_of_filter, list_elem_of_fmap. split.
  - intros [? (t0 & -> & ?)]. split; [done|]. by exists t0.
  - intros [? (t0 & ? & <-)]. split; [done|]. by exists t0.
Qed.

Lemma madeOf_modelOf (pm : ParameterModel) (q : openapi3.ParameterValue) :
  madeOf pm q ↔ pm = modelOf q.
Proof.
  unfold madeOf, modelOf. split.
  - destruct pm; cbn. by intros (-> & -> & -> & ->).
  - by intros ->.
Qed.

Lemma parameterModels_declared (prefs : list (option openapi3.ParameterRef)) :
  parameterModels prefs = modelOf <$> declared prefs.
Proof.
  unfold parameterModels, declared.
  induction prefs as [|[[[q|]]|] prefs IH]; cbn; by rewrite ?IH.
Qed.

Lemma withKey_modelOf (q : openapi3.ParameterValue) (l : list openapi3.ParameterValue) :
  withKey (keyOf (modelOf q)) (modelOf <$> l) = modelOf <$> sameKey q l.
Proof.
  unfold withKey, sameKey.
  induction l as [|q' l IH]; [done|].
  rewrite fmap_cons, !filter_cons, IH.
  change (keyOf (modelOf q')) with (keyOfParameter q').
  change (keyOf (modelOf q)) with (keyOfParameter q).
  by destruct (decide (keyOfParameter q' = keyOfParameter q)).
Qed.

Lemma last_modelOf (l : list openapi3.ParameterValue) (pm : ParameterModel) :
  last (modelOf <$> l) = Some pm ↔ ∃ q, last l = Some q ∧ pm = modelOf q.
Proof.
  rewrite fmap_last. destruct (last l) as [q|]; cbn.
  - split; [intros [= <-]; by exists q|]. by intros (q' & [= <-] & ->).
  - split; [done|]. by intros (? & ? & _).
Qed.

Lemma sameKey_last_key (q q' : openapi3.ParameterValue) (l : list openapi3.ParameterValue) :
  last (sameKey q l) = Some q' → keyOfParameter q' = keyOfParameter q.
Proof.
  intros H%last_Some_elem_of. unfold sameKey in H.
  by apply list_elem_of_filter in H as [? _].
Qed.

Lemma sameKey_ext (q q' : openapi3.ParameterValue) (l : list openapi3.ParameterValue) :
  keyOfParameter q' = keyOfParameter q → sameKey q' l = sameKey q l.
Proof. unfold sameKey. by intros ->. Qed.

Lemma StronglySorted_elem_of_cases {A} (R : relation A) (l : list A) (a b : A) :
  StronglySorted R l → a ∈ l → b ∈ l → a = b ∨ R a b ∨ R b a.
Proof.
  induction 1 as [|x l Hs IH Hall]; [by intros ?%elem_of_nil|].
  rewrite Forall_forall in Hall.
  intros [->|Ha]%elem_of_cons [->|Hb]%elem_of_cons; auto.
Qed.

Variable yaml : string → error + gmap string any.

(** C4, as the code has it. Every operation of the document that passes
    the filters has one endpoint in the model. The parameters of that
    endpoint are those the path item declares overlaid by those the
    operation declares, under the key [paramKey] of the trimmed location
    and name: for each key, the list holds the model (location and name
    trimmed, [Required] and schema as declared) of the last parameter of
    that key the operation declares and, where the operation declares
    none, of the last one the path item declares; and nothing else. So a
    parameter the operation declares once is in the list with its own
    [Required], whatever the path item says of it. The list is sorted by
    location, then name, and has one parameter for a location and a name.
    The key tells location and name apart for locations without a colon. *)
Theorem endpoint_parameters_merged
    (stored : v2Entry) (doc : openapi3.T) (v2Raw : option string) (opts : list BuildOption)
    (sm : ServiceModel) (p : string) (item : openapi3.PathItem) (m : HttpMethod)
    (o : openapi3.Operation) :
  BuildServiceModel enum yaml stored (Some doc) v2Raw opts = Some (inr sm) →
  openapi3.t_Paths doc !! p = Some (Some item) →
  (m, Some o) ∈ opsOf item →
  passesFilters (configOf opts) p m o →
  let pathLevel := declared (openapi3.pi_Parameters item) in
  let opLevel := declared (openapi3.op_Parameters o) in
  ∃ ep,
    ep ∈ sm_Endpoints sm ∧ ep_Path ep = p ∧ ep_Method ep = m ∧
    (∀ ep', ep' ∈ sm_Endpoints sm → ep_Path ep' = p → ep_Method ep' = m → ep' = ep) ∧
    StronglySorted paramBefore (ep_Parameters ep) ∧
    (∀ pm, pm ∈ ep_Parameters ep ↔
           ∃ q, madeOf pm q ∧
                (last (sameKey q opLevel) = Some q ∨
                 (sameKey q opLevel = [] ∧ last (sameKey q pathLevel) = Some q))) ∧
    (∀ q, q ∈ opLevel →
          ∃ q' pm, last (sameKey q opLevel) = Some q' ∧
                   pm ∈ ep_Parameters ep ∧ madeOf pm q') ∧
    (∀ q, q ∈ pathLevel → sameKey q opLevel = [] →
          ∃ q' pm, last (sameKey q pathLevel) = Some q' ∧
                   pm ∈ ep_Parameters ep ∧ madeOf pm q') ∧
    (∀ q, sameKey q opLevel = [q] →
          ∃ pm, pm ∈ ep_Parameters ep ∧
                pm_In pm = strings_TrimSpace (openapi3.p_In q) ∧
                pm_Name pm = strings_TrimSpace (openapi3.p_Name q) ∧
                pm_Required pm = openapi3.p_Required q ∧
                ∀ pm', pm' ∈ ep_Parameters ep →
                       pm_In pm' = pm_In pm → pm_Name pm' = pm_Name pm → pm' = pm) ∧
    (∀ q1 q2,
       noColon (strings_TrimSpace (openapi3.p_In q1)) →
       noColon (strings_TrimSpace (openapi3.p_In q2)) →
       keyOfParameter q1 = keyOfParameter q2 ↔
       strings_TrimSpace (openapi3.p_In q1) = strings_TrimSpace (openapi3.p_In q2) ∧
       strings_TrimSpace (openapi3.p_Name q1) = strings_TrimSpace (openapi3.p_Name q2)).
Proof.
  intros Hsm Hp Ho Hpass pathLevel opLevel.
  pose proof (BuildServiceModel_Some enum yaml _ _ _ _ _ Hsm) as [Heps _].
  destruct (endpointsOf_runs _ _ _ _ _ _ _ _ Heps Hp Ho) as (y & Hy & Hin).
  destruct (endpointOf_passes enum _ _ _ _ _ _ _ Hy) as [Hsome Hkey].
  apply Hsome in Hpass as [ep ->]. specialize (Hin ep eq_refl).
  destruct (Hkey ep eq_refl) as [Hpath Hmeth].
  destruct (endpointOf_Some enum _ _ _ _ _ _ _ Hy) as (o' & [= <-] & _ & _ & _ & _ & Hparams & _).
  pose proof (mergeParameters_spec enum Henum item o) as Hspec. cbv zeta in Hspec.
  rewrite <- Hparams in Hspec.
  rewrite (parameterModels_declared (openapi3.pi_Parameters item)) in Hspec.
  rewrite (parameterModels_declared (openapi3.op_Parameters o)) in Hspec.
  fold pathLevel opLevel in Hspec. destruct Hspec as (Hs & Hmem & _).
  assert (∀ pm, pm ∈ ep_Parameters ep ↔
             ∃ q, madeOf pm q ∧
                  (last (sameKey q opLevel) = Some q ∨
                   (sameKey q opLevel = [] ∧ last (sameKey q pathLevel) = Some q))) as Hchar.
  { intros pm. rewrite Hmem. split.
    - intros [H|[Hnone H]].
      + apply last_Some_elem_of in H as Hel. unfold withKey in Hel.
        apply list_elem_of_filter in Hel as [_ (q0 & -> & _)%list_elem_of_fmap].
        rewrite withKey_modelOf in H. apply last_modelOf in H as (q & Hq & Heq).
        exists q. split; [by apply madeOf_modelOf|]. left.
        pose proof (sameKey_last_key _ _ _ Hq) as Hk.
        by rewrite (sameKey_ext q0 q) by done.
      + apply last_Some_elem_of in H as Hel. unfold withKey in Hel.
        apply list_elem_of_filter in Hel as [_ (q0 & -> & _)%list_elem_of_fmap].
        rewrite withKey_modelOf in H, Hnone. apply last_modelOf in H as (q & Hq & Heq).
        apply fmap_nil_inv in Hnone.
        pose proof (sameKey_last_key _ _ _ Hq) as Hk.
        exists q. split; [by apply madeOf_modelOf|]. right.
        by rewrite !(sameKey_ext q0 q) by done.
    - intros (q & ->%madeOf_modelOf & [H|[Hnone H]]); rewrite !withKey_modelOf.
      + left. apply last_modelOf. by exists q.
      + right. rewrite Hnone. split; [done|]. apply last_modelOf. by exists q. }
  exists ep. split; [done|]. split; [done|]. split; [done|]. split.
  { intros ep' Hep' Hp' Hm'.
    pose proof (endpoint_of_operation _ _ _ _ _ _ _ _ _ Heps Hp Ho Hep' Hp' Hm') as Hy'.
    rewrite Hy in Hy'. by injection Hy' as ->. }
  split; [done|]. split; [done|]. split; [|split; [|split]].
  - intros q Hq.
    destruct (last (sameKey q opLevel)) as [q'|] eqn:E.
    + exists q', (modelOf q'). split; [done|]. split; [|by apply madeOf_modelOf].
      apply Hchar. exists q'. split; [by apply madeOf_modelOf|]. left.
      rewrite (sameKey_ext q q'); [done|].
      symmetry. by apply sameKey_last_key in E.
    + apply last_None_nil in E. exfalso.
      assert (q ∈ sameKey q opLevel) as Hin' by (by apply list_elem_of_filter).
      rewrite E in Hin'. by apply elem_of_nil in Hin'.
  - intros q Hq Hnone.
    destruct (last (sameKey q pathLevel)) as [q'|] eqn:E.
    + exists q', (modelOf q'). split; [done|]. split; [|by apply madeOf_modelOf].
      pose proof (sameKey_last_key _ _ _ E) as Hk.
      apply Hchar. exists q'. split; [by apply madeOf_modelOf|]. right.
      by rewrite !(sameKey_ext q q') by done.
    + apply last_None_nil in E. exfalso.
      assert (q ∈ sameKey q pathLevel) as Hin' by (by apply list_elem_of_filter).
      rewrite E in Hin'. by apply elem_of_nil in Hin'.
  - intros q Hone. exists (modelOf q).
    assert (modelOf q ∈ ep_Parameters ep) as Hq.
    { apply Hchar. exists q. split; [by apply madeOf_modelOf|]. left. by rewrite Hone. }
    split; [done|]. split; [done|]. split; [done|]. split; [done|].
    intros pm' Hpm' Hi Hn.
    destruct (StronglySorted_elem_of_cases _ _ _ _ Hs Hpm' Hq) as [E|[H|H]]; [done|..];
      apply paramBefore_spec in H as [H|[_ H]];
      rewrite ?Hi, ?Hn in H; by apply strLt_irrefl in H.
  - intros q1 q2 H1 H2. unfold keyOfParameter. split.
    + by apply paramKey_inj.
    + by intros [-> ->].
Qed.

(** C5. An operation of the document that passes the filters on methods
    and paths has an endpoint in the model if and only if the tags it
    carries (its tags trimmed, the empty ones dropped) pass both tests,
    each applied on its own: one of them is in the include set when that
    set is not empty, and none of them is in the exclude set. The tags of
    an endpoint are the tags its operation carries. The tags of the model
    are the distinct tags of its endpoints, in increasing order. *)
Theorem retained_endpoints_and_tags
    (stored : v2Entry) (doc : openapi3.T) (v2Raw : option string) (opts : list BuildOption)
    (sm : ServiceModel) :
  BuildServiceModel enum yaml stored (Some doc) v2Raw opts = Some (inr sm) →
  let cfg := configOf opts in
  (∀ p item m o,
     openapi3.t_Paths doc !! p = Some (Some item) →
     (m, Some o) ∈ opsOf item →
     (methods cfg ≠ ∅ → m ∈ methods cfg) →
     (pathRes cfg ≠ [] → ∃ re, re ∈ pathRes cfg ∧ re p = true) →
     (∃ ep, ep ∈ sm_Endpoints sm ∧ ep_Path ep = p ∧ ep_Method ep = m) ↔
     (includeTags cfg ≠ ∅ → ∃ t, carries o t ∧ t ∈ includeTags cfg) ∧
     (∀ t, carries o t → t ∉ excludeTags cfg)) ∧
  (∀ ep, ep ∈ sm_Endpoints sm →
     ∃ item o,
       openapi3.t_Paths doc !! ep_Path ep = Some (Some item) ∧
       (ep_Method ep, Some o) ∈ opsOf item ∧
       ep_Tags ep = filter (fun t => t ≠ "") (strings_TrimSpace <$> openapi3.op_Tags o) ∧
       (∀ t, t ∈ ep_Tags ep ↔ carries o t) ∧
       (includeTags cfg ≠ ∅ → ∃ t, t ∈ ep_Tags ep ∧ t ∈ includeTags cfg) ∧
       (∀ t, t ∈ ep_Tags ep → t ∉ excludeTags cfg)) ∧
  StronglySorted strLt (sm_Tags sm) ∧
  (∀ t, t ∈ sm_Tags sm ↔ ∃ ep, ep ∈ sm_Endpoints sm ∧ t ∈ ep_Tags ep).
Proof.
  intros Hsm cfg.
  pose proof (BuildServiceModel_Some enum yaml _ _ _ _ _ Hsm) as [Heps Htags].
  split; [|split].
  - intros p item m o Hp Ho Hmeth Hpath.
    destruct (endpointsOf_runs _ _ _ _ _ _ _ _ Heps Hp Ho) as (y & Hy & Hin).
    destruct (endpointOf_passes enum _ _ _ _ _ _ _ Hy) as [Hsome Hkey].
    assert (allowByTags (tagsOf o) cfg = true ↔
            (includeTags cfg ≠ ∅ → ∃ t, carries o t ∧ t ∈ includeTags cfg) ∧
            (∀ t, carries o t → t ∉ excludeTags cfg)) as Hallow.
    { rewrite allowByTags_spec. split; intros [Hi He]; split.
      - intros Hne. destruct (Hi Hne) as (t & ?%carries_tagsOf & ?). by exists t.
      - intros t ?%carries_tagsOf. by apply He.
      - intros Hne. destruct (Hi Hne) as (t & ?%carries_tagsOf & ?). by exists t.
      - intros t ?%carries_tagsOf. by apply He. }
    rewrite <- Hallow. split.
    + intros (ep & Hep & Hp' & Hm').
      pose proof (endpoint_of_operation _ _ _ _ _ _ _ _ _ Heps Hp Ho Hep Hp' Hm') as Hy'.
      rewrite Hy in Hy'. injection Hy' as ->.
      by destruct (proj1 Hsome ltac:(by eexists)) as (_ & _ & ?).
    + intros Ha. destruct (proj2 Hsome) as [ep ->]; [by repeat split|].
      exists ep. destruct (Hkey ep eq_refl) as [? ?]. split; [by apply Hin|done].
  - intros ep Hep.
    destruct (BuildServiceModel_endpoints enum Henum yaml _ _ _ _ _ _ Hsm Hep)
      as (item & o & Hp & Ho & _ & Ht & _ & _ & Ha).
    exists item, o. split; [done|]. split; [done|]. split; [done|].
    split; [intros t; rewrite Ht; apply carries_tagsOf|].
    by apply allowByTags_spec.
  - rewrite Htags.
    destruct (collectSortedTags_spec enum Henum (sm_Endpoints sm)) as [Hs Hmem].
    split; [done|]. intros t. rewrite Hmem. split.
    + intros (ep & t0 & Hep & Ht0 & <- & Hne). exists ep. split; [done|].
      destruct (BuildServiceModel_endpoints enum Henum yaml _ _ _ _ _ _ Hsm Hep)
        as (item & o & _ & _ & _ & Ht & _).
      rewrite Ht in Ht0 |- *. by rewrite (proj2 (tagsOf_trimmed o t0 Ht0)).
    + intros (ep & Hep & Ht). exists ep, t. split; [done|]. split; [done|].
      destruct (BuildServiceModel_endpoints enum Henum yaml _ _ _ _ _ _ Hsm Hep)
        as (item & o & _ & _ & _ & Htg & _).
      rewrite Htg in Ht. destruct (tagsOf_trimmed o t Ht) as [Hne Htrim]. done.
Qed.
End OperationsOfTheDocument.

(** The document of the tests: the parameter [limit] of GET on [/pets],
    optional on the path and required on the operation, is required in
    the endpoint. *)
Lemma endpoint_parameters_merged_witness :
  ∃ ep pm,
    ep ∈ sm_Endpoints (petsModel []) ∧ ep_Path ep = "/pets" ∧ ep_Method ep = GET ∧
    pm ∈ ep_Parameters ep ∧
    pm_In pm = "query" ∧ pm_Name pm = "limit" ∧ pm_Required pm = true.
Proof.
  destruct (endpoint_parameters_merged canonicalEnum canonicalEnum_enumerates rejects
              noV2Entry petsDoc None [] (petsModel []) "/pets"
              (pathItemOf [limitParam false] (Some listPets) (Some createPet))
              GET listPets)
    as (ep & Hep & Hp & Hm & _ & _ & _ & _ & _ & Hone & _).
  - vm_compute. reflexivity.
  - vm_compute. reflexivity.
  - left.
  - split; [by intros H|]. split; [by intros H|]. vm_compute. reflexivity.
  - destruct (Hone {| openapi3.p_Name := "limit"; openapi3.p_In := "query";
                      openapi3.p_Required := true; openapi3.p_Schema := integerSchema |})
      as (pm & Hpm & Hin & Hname & Hreq & _).
    + vm_compute. reflexivity.
    + exists ep, pm. split; [exact Hep|]. split; [exact Hp|]. split; [exact Hm|].
      split; [exact Hpm|]. split; [exact Hin|]. split; [exact Hname|exact Hreq].
Defined.

(** The claim as stated fails: the parameter [c] in [a:b] of the path and
    the parameter [b:c] in [a] of the operation differ in location and in
    name, and yet have the same key; the endpoint holds the second only. *)
Lemma colon_in_a_location_merges_two_parameters :
  ("a:b", "c") ≠ ("a", "b:c") ∧
  paramKey "a:b" "c" = paramKey "a" "b:c" ∧
  ∃ sm, BuildServiceModel canonicalEnum rejects noV2Entry (Some colonDoc) None []
          = Some (inr sm) ∧
        (fun ep => (ep_ID ep,
                    (fun pm => (pm_In pm, pm_Name pm, pm_Required pm)) <$> ep_Parameters ep))
          <$> sm_Endpoints sm
        = [ ("get /x", [("a", "b:c", true)]) ].
Proof.
  split; [done|]. split; [reflexivity|].
  eexists. split; [vm_compute; reflexivity|]. vm_compute. reflexivity.
Qed.

(** The document of the tests with the tag [read] included: GET on
    [/pets], which carries it, has an endpoint, and the tags of the model
    are in order. *)
Lemma retained_endpoints_and_tags_witness :
  (∃ ep, ep ∈ sm_Endpoints (petsModel [WithIncludeTags ["read"]]) ∧
         ep_Path ep = "/pets" ∧ ep_Method ep = GET) ∧
  StronglySorted strLt (sm_Tags (petsModel [WithIncludeTags ["read"]])).
Proof.
  destruct (retained_endpoints_and_tags canonicalEnum canonicalEnum_enumerates rejects
              noV2Entry petsDoc None [WithIncludeTags ["read"]]
              (petsModel [WithIncludeTags ["read"]]))
    as (Hiff & _ & Hsorted & _).
  - vm_compute. reflexivity.
  - split; [|exact Hsorted].
    apply (Hiff "/pets" (pathItemOf [limitParam false] (Some listPets) (Some createPet))
             GET listPets).
    + vm_compute. reflexivity.
    + left.
    + by intros H.
    + by intros H.
    + split.
      * intros _. exists "read". split.
        -- split; [done|]. exists "read". split; [left|vm_compute; reflexivity].
        -- assert (includeTags (configOf [WithIncludeTags ["read"]]) = {[ "read" ]}) as ->
             by (vm_compute; reflexivity).
           by apply elem_of_singleton.
      * intros t _.
        assert (excludeTags (configOf [WithIncludeTags ["read"]]) = ∅) as -> by reflexivity.
        apply not_elem_of_empty.
Defined.

(** The test of the override: [limit], optional on the path [/pets], is
    required on its GET, and on its POST what the path says. *)
Example limit_required_after_override :
  (fun ep => (ep_ID ep, (fun pm => (pm_In pm, pm_Name pm, pm_Required pm)) <$> ep_Parameters ep))
    <$> sm_Endpoints (petsModel [])
  = [ ("get /admin", []);
      ("get /pets", [("query", "limit", true)]);
      ("post /pets", [("query", "limit", false)]) ].
Proof. vm_compute. reflexivity. Qed.

(** The tests of the tag filters: with [read] included one endpoint is
    kept and the tags are its own; with [admin] excluded [/admin] is gone. *)
Example tag_filters_on_the_test_document :
  (ep_ID <$> sm_Endpoints (petsModel [WithIncludeTags ["read"]]) = ["get /pets"] ∧
   sm_Tags (petsModel [WithIncludeTags ["read"]]) = ["animal"; "read"]) ∧
  (ep_ID <$> sm_Endpoints (petsModel [WithExcludeTags ["admin"]]) = ["get /pets"; "post /pets"] ∧
   sm_Tags (petsModel [WithExcludeTags ["admin"]]) = ["animal"; "read"; "write"]).
Proof. vm_compute. done. Qed.
